(** * Elemental: nodal remap, multi-shift triangular solve and the IPF driver

    A shallow embedding of three parts of the library and the properties
    checked against them:

    - [TriangEig]: [triang_eig::MultiShiftDiagonalBlockSolve], serial and
      distributed, and the serial blocked [triang_eig::MultiShiftSolve]
      (src/lapack_like/spectral/TriangEig/MultiShiftSolve.hpp);
    - [NodalRemap]: [DistNodalMultiVec] with [Pull], [Push], [UpdateWidth]
      (src/lapack_like/factor/sparse/numeric/DistNodalMultiVec.cpp);
    - [IPF]: the infeasible path-following loop of
      src/optimization/solvers/QP/direct/IPM/IPF.cpp. *)

From Stdlib Require Import String.
From Stdlib Require Import ZArith Lia Bool List QArith Qabs Reals Lra.
From Stdlib Require Import FunctionalExtensionality ZifyBool.
From stdpp Require Import base list.

(* ===================================================================== *)
(** * Part I: the multi-shift triangular solve                            *)
(* ===================================================================== *)

Module TriangEig.

Local Open Scope Z_scope.

(** The routines are templates over a field [F] with [Real = Base<F>].
    The embedding keeps them generic: every arithmetic operation, literal
    conversion and comparison the source applies is a member of [Scalar],
    so that the statements below hold for IEEE arithmetic as much as for
    exact arithmetic.  The three machine constants are the values of
    lapack::MachineSafeMin, lapack::MachineOverflowThreshold and
    lapack::MachinePrecision, and [Trsv] is the BLAS routine of that name
    acting on a column held as a function of the row index. *)
Class Scalar (F Real : Type) := {
  ofZF : Z -> F;                  (* F(1), F(-1) *)
  addF : F -> F -> F;
  mulF : F -> F -> F;
  divF : F -> F -> F;
  negF : F -> F;
  scaleF : Real -> F -> F;        (* Real * F, as in  Xij *= s  *)
  ofReal : Real -> F;             (* Real stored into a Matrix<F> *)
  RealPart : F -> Real;
  Abs : F -> Real;
  SafeAbs : F -> Real;
  ofZR : Z -> Real;               (* Real(0), Real(1), Real(2), nb *)
  addR : Real -> Real -> Real;
  subR : Real -> Real -> Real;
  mulR : Real -> Real -> Real;
  divR : Real -> Real -> Real;
  Max : Real -> Real -> Real;
  Min : Real -> Real -> Real;
  lebR : Real -> Real -> bool;    (* a <= b *)
  ltbR : Real -> Real -> bool;    (* a <  b *)
  MachineSafeMin : Real;
  MachineOverflowThreshold : Real;
  MachinePrecision : Real;
  Trsv : Z -> (Z -> Z -> F) -> (Z -> F) -> (Z -> F)
}.

(** [Matrix<T>]: dimensions and the entries reached through [Get].  A view
    [A(I,J)] aliases the storage of [A]; it is modelled by extracting the
    window ([View]) and writing the window back after it was modified
    ([WriteBack]).  The source forms windows whose end precedes their start
    (for instance [X( IR(k+nb,j), IR(j) )] for [j < k+nb]) and uses them as
    empty ones, so a window of non-positive extent is empty here too. *)
Record Matrix (T : Type) := mkMatrix {
  Height : Z;
  Width : Z;
  Get : Z -> Z -> T
}.
Arguments mkMatrix {T} _ _ _.
Arguments Height {T} _.
Arguments Width {T} _.
Arguments Get {T} _ _ _.

(** Two matrices are the same when they agree on dimensions and entries. *)
Definition mat_eq {T} (A B : Matrix T) : Prop :=
  Height A = Height B /\ Width A = Width B /\
  forall i j, Get A i j = Get B i j.

Definition SetEntry {T} (A : Matrix T) (i j : Z) (v : T) : Matrix T :=
  mkMatrix (Height A) (Width A)
    (fun i' j' => if (i' =? i) && (j' =? j) then v else Get A i' j').

(** [A( IR(i0,i1), IR(j0,j1) )]. *)
Definition View {T} (A : Matrix T) (i0 i1 j0 j1 : Z) : Matrix T :=
  mkMatrix (i1 - i0) (j1 - j0) (fun i j => Get A (i0 + i) (j0 + j)).

Definition in_window (i0 j0 h w i j : Z) : bool :=
  (i0 <=? i) && (i <? i0 + h) && (j0 <=? j) && (j <? j0 + w).

(** The effect on [A] of having modified the [h] x [w] window at
    [(i0,j0)] into [V]. *)
Definition WriteBack {T} (A : Matrix T) (i0 j0 h w : Z) (V : Matrix T)
  : Matrix T :=
  mkMatrix (Height A) (Width A)
    (fun i j => if in_window i0 j0 h w i j then Get V (i - i0) (j - j0)
                else Get A i j).

(** Upward and downward counting loops over [Int]. *)
Fixpoint for_up {S} (cnt : nat) (i : Z) (body : Z -> S -> S) (s : S) : S :=
  match cnt with
  | O => s
  | Datatypes.S c => for_up c (i + 1) body (body i s)
  end.

(** [for( Int i=lo; i<hi; ++i ) body] *)
Definition for_range {S} (lo hi : Z) (body : Z -> S -> S) (s : S) : S :=
  for_up (Z.to_nat (hi - lo)) lo body s.

(** How a routine ends: normally, by a [LogicError], or, for the model of
    a loop, by using up the steps it was given. *)
Inductive Result (A : Type) :=
  | Ok (a : A)
  | LogicError (msg : string)
  | OutOfFuel.
Arguments Ok {A} _.
Arguments LogicError {A} _.
Arguments OutOfFuel {A}.

Section Solve.

Context {F Real : Type} `{Sc : Scalar F Real}.

Definition zeroR : Real := ofZR 0.
Definition oneR : Real := ofZR 1.

(** [OverflowParameters<Real>()] *)
Definition OverflowParameters : Real * Real :=
  let underflow := MachineSafeMin in
  let overflow := MachineOverflowThreshold in
  let ulp := MachinePrecision in
  let smallNum := Max (divR underflow ulp) (divR (ofZR 1) (mulR overflow ulp)) in
  let bigNum := divR (ofZR 1) smallNum in
  (smallNum, bigNum).

Definition Ones (h w : Z) : Matrix F := mkMatrix h w (fun _ _ => ofZF 1).

(** [MaxNorm]: the largest [Abs] of an entry, 0 for an empty matrix. *)
Definition MaxNorm (A : Matrix F) : Real :=
  for_range 0 (Width A) (fun j acc =>
    for_range 0 (Height A) (fun i acc => Max acc (Abs (Get A i j))) acc)
    zeroR.

(** [A *= s] for a real [s]. *)
Definition ScaleBy (s : Real) (A : Matrix F) : Matrix F :=
  mkMatrix (Height A) (Width A) (fun i j => scaleF s (Get A i j)).

Definition Zero (A : Matrix F) : Matrix F :=
  mkMatrix (Height A) (Width A) (fun _ _ => ofZF 0).

Definition diag_index (A : Matrix F) (i j : Z) : bool :=
  (i =? j) && (0 <=? i) && (i <? Z.min (Height A) (Width A)).

(** [GetDiagonal], [SetDiagonal] and [ShiftDiagonal] on the main diagonal. *)
Definition GetDiagonal (A : Matrix F) : Matrix F :=
  mkMatrix (Z.min (Height A) (Width A)) 1 (fun i _ => Get A i i).

Definition SetDiagonal (A d : Matrix F) : Matrix F :=
  mkMatrix (Height A) (Width A)
    (fun i j => if diag_index A i j then Get d i 0 else Get A i j).

Definition ShiftDiagonal (A : Matrix F) (alpha : F) : Matrix F :=
  mkMatrix (Height A) (Width A)
    (fun i j => if diag_index A i j then addF (Get A i j) alpha
                else Get A i j).

(** [blas::Axpy( n, alpha, x, 1, y, 1 )] with [x] column [c] of [U] and
    [y] the column [xj]: [y(r) += alpha * U(r,c)] for [r < n]. *)
Definition blas_Axpy (n : Z) (alpha : F) (U : Matrix F) (c : Z)
    (xj : Matrix F) : Matrix F :=
  mkMatrix (Height xj) (Width xj)
    (fun r j => if (0 <=? r) && (r <? n) && (j =? 0)
                then addF (Get xj r j) (mulF alpha (Get U r c))
                else Get xj r j).

(** [blas::Trsv( 'U', 'N', 'N', n, UBuf, ULDim, xjBuf, 1 )] *)
Definition blas_Trsv (n : Z) (U : Matrix F) (xj : Matrix F) : Matrix F :=
  mkMatrix (Height xj) (Width xj)
    (fun r j => if (0 <=? r) && (r <? n) && (j =? 0)
                then Trsv n (Get U) (fun i => Get xj i 0) r
                else Get xj r j).

(** Infinity norms of the columns of [U] above the diagonal:
    [cNormBuf[0] = 0] and, for [1 <= j < n], the maximum over [i < j] of
    [Abs(UBuf[i+j*ULDim])]. *)
Definition cNormOf (U : Matrix F) (j : Z) : Real :=
  for_range 0 j (fun i acc => Max acc (Abs (Get U i j))) zeroR.

(** The loop "Estimate growth of entries in triangular solve": [cnt] is the
    number of rows still to visit, the row visited is [cnt-1]; the [break]
    leaves with [invGi = 0]. *)
Fixpoint estimate_growth (U : Matrix F) (cNorm : Z -> Real) (smallNum : Real)
    (cnt : nat) (invGi invMi : Real) : Real * Real :=
  match cnt with
  | O => (invGi, invMi)
  | Datatypes.S c =>
      let i := Z.of_nat c in
      let absUii := SafeAbs (Get U i i) in
      if lebR invGi smallNum || lebR invMi smallNum || lebR absUii smallNum
      then (zeroR, invMi)
      else
        let invMi := Min invMi (mulR absUii invGi) in
        let invGi := if 0 <? i
                     then mulR invGi (divR absUii (addR absUii (cNorm i)))
                     else invGi in
        estimate_growth U cNorm smallNum c invGi invMi
  end.

(** The state of the explicit backward substitution: the column, the bound
    [xjMax] and the accumulated [scales_j]. *)
Record subst_state := mkSubst {
  ss_xj : Matrix F;
  ss_xjMax : Real;
  ss_scales : Real
}.

(** Rescaling by [s] as the source does it in four places:
    [Xij *= s; xj *= s; xjMax *= s; scales_j *= s]. *)
Definition rescale (s : Real) (Xij : F) (st : subst_state)
  : F * subst_state :=
  (scaleF s Xij,
   mkSubst (ScaleBy s (ss_xj st)) (mulR (ss_xjMax st) s)
           (mulR (ss_scales st) s)).

(** One row [i] of "Perform backward substitution since estimated growth is
    large". *)
Definition subst_row (U : Matrix F) (cNorm : Z -> Real)
    (smallNum bigNum : Real) (i : Z) (st : subst_state) : subst_state :=
  let oneHalf := divR (ofZR 1) (ofZR 2) in
  let oneQuarter := divR (ofZR 1) (ofZR 4) in
  let Uii := Get U i i in
  let absUii := SafeAbs Uii in
  let Xij := Get (ss_xj st) i 0 in
  let absXij := SafeAbs Xij in
  (* Perform division and check for overflow *)
  let '(Xij, st) :=
    if ltbR smallNum absUii then
      let '(Xij, st) :=
        if lebR absUii (ofZR 1) && lebR (mulR absUii bigNum) absXij
        then rescale (divR oneHalf absXij) Xij st
        else (Xij, st) in
      (divF Xij Uii, st)
    else if ltbR (ofZR 0) absUii then
      let '(Xij, st) :=
        if lebR (mulR absUii bigNum) absXij
        then rescale (divR (mulR (mulR oneHalf absUii) bigNum) absXij) Xij st
        else (Xij, st) in
      (divF Xij Uii, st)
    else
      if lebR smallNum absXij
      then (ofZF 1, mkSubst (Zero (ss_xj st)) (ofZR 0) (ofZR 0))
      else (Xij, st) in
  let st := mkSubst (SetEntry (ss_xj st) i 0 Xij) (ss_xjMax st)
                    (ss_scales st) in
  if 0 <? i then
    (* Check for possible overflows in AXPY *)
    let absXij := SafeAbs Xij in
    let cNorm_i := cNorm i in
    let '(Xij, st, absXij) :=
      if lebR (ofZR 1) absXij &&
         lebR (divR (subR bigNum (ss_xjMax st)) absXij) cNorm_i
      then
        let s := divR oneQuarter absXij in
        let '(Xij, st) := rescale s Xij st in
        (Xij, st, mulR absXij s)
      else if ltbR absXij (ofZR 1) &&
              lebR (subR bigNum (ss_xjMax st)) (mulR absXij cNorm_i)
      then
        let s := oneQuarter in
        let '(Xij, st) := rescale s Xij st in
        (Xij, st, mulR absXij s)
      else (Xij, st, absXij) in
    let xjMax := addR (ss_xjMax st) (mulR absXij cNorm_i) in
    (* AXPY X(0:i,j) -= Xij*U(0:i,i) *)
    mkSubst (blas_Axpy i (negF Xij) U i (ss_xj st)) xjMax (ss_scales st)
  else st.

Fixpoint backward_substitution (U : Matrix F) (cNorm : Z -> Real)
    (smallNum bigNum : Real) (cnt : nat) (st : subst_state) : subst_state :=
  match cnt with
  | O => st
  | Datatypes.S c =>
      backward_substitution U cNorm smallNum bigNum c
        (subst_row U cNorm smallNum bigNum (Z.of_nat c) st)
  end.

(** The body of "Iterate through RHS's" on the window [xj] of column [j],
    after the diagonal of [U] was shifted.  The result is the window and
    [Some scales_j] when [scales.Set( j, 0, scales_j )] is reached, [None]
    when the iteration leaves through [continue]. *)
Definition solve_column (U : Matrix F) (cNorm : Z -> Real)
    (xHeight : Z) (xj : Matrix F) : Matrix F * option Real :=
  let '(smallNum, bigNum) := OverflowParameters in
  let oneHalf := divR (ofZR 1) (ofZR 2) in
  let scales_j := ofZR 1 in
  (* Determine largest entry of RHS *)
  let xjMax := MaxNorm xj in
  let '(xj, xjMax, scales_j) :=
    if lebR bigNum xjMax then
      let s := divR (mulR oneHalf bigNum) xjMax in
      (ScaleBy s xj, mulR xjMax s, mulR scales_j s)
    else (xj, xjMax, scales_j) in
  if lebR xjMax smallNum then (xj, None)
  else
    let invGi := divR (ofZR 1) xjMax in
    let invMi := invGi in
    let '(invGi, invMi) :=
      estimate_growth U cNorm smallNum (Z.to_nat xHeight) invGi invMi in
    let invGi := Min invGi invMi in
    if ltbR smallNum invGi then
      (* Call TRSV since estimated growth is not too large *)
      (blas_Trsv xHeight U xj, Some scales_j)
    else
      let st := backward_substitution U cNorm smallNum bigNum
                  (Z.to_nat xHeight) (mkSubst xj xjMax scales_j) in
      (ss_xj st, Some (ss_scales st)).

(** The three objects the routines update in place. *)
Record solve_state := mkState {
  st_U : Matrix F;
  st_X : Matrix F;
  st_scales : Matrix F
}.

(** One pass of [for( Int j=1; j<numShifts; ++j )]. *)
Definition diagonal_block_column (diag shifts : Matrix F) (n : Z)
    (cNorm : Z -> Real) (j : Z) (st : solve_state) : solve_state :=
  let xHeight := Z.min n j in
  (* Initialize triangular system *)
  let U := SetDiagonal (st_U st) diag in
  let U := ShiftDiagonal U (negF (Get shifts j 0)) in
  let xj := View (st_X st) 0 xHeight j (j + 1) in
  let '(xj, scales_j) := solve_column U cNorm xHeight xj in
  let X := WriteBack (st_X st) 0 j xHeight 1 xj in
  match scales_j with
  | None => mkState U X (st_scales st)
  | Some s => mkState U X (SetEntry (st_scales st) j 0 (ofReal s))
  end.

(** The [DEBUG_ONLY] dimension checks the three routines share. *)
Definition dimension_checks (U shifts X : Matrix F) : option string :=
  if negb (Height U =? Width U)
  then Some "Triangular matrix must be square"%string
  else if negb (Width U =? Height X)
  then Some "Matrix dimensions do not match"%string
  else if negb (Height shifts =? Width X)
  then Some "Incompatible number of shifts"%string
  else None.

(** The state of the column loop of [MultiShiftDiagonalBlockSolve] after
    its first [cnt] passes ([j = 1 .. cnt]). *)
Definition diagonal_block_loop (U shifts X : Matrix F) (cnt : nat)
  : solve_state :=
  let diag := GetDiagonal U in
  let n := Height U in
  let numShifts := Height shifts in
  (* cNormBuf reads U above the diagonal, which the loop never changes *)
  let cNorm := cNormOf U in
  for_up cnt 1 (diagonal_block_column diag shifts n cNorm)
    (mkState U X (Ones numShifts 1)).

(** [MultiShiftDiagonalBlockSolve( U, shifts, X, scales )] for [Matrix<F>];
    [debug] tells whether the [DEBUG_ONLY] blocks are compiled in. *)
Definition MultiShiftDiagonalBlockSolve (debug : bool)
    (U shifts X : Matrix F) : Result solve_state :=
  match (if debug then dimension_checks U shifts X else None) with
  | Some msg => LogicError msg
  | None =>
      let diag := GetDiagonal U in
      let numShifts := Height shifts in
      let st := diagonal_block_loop U shifts X (Z.to_nat (numShifts - 1)) in
      (* Reset matrix diagonal *)
      Ok (mkState (SetDiagonal (st_U st) diag) (st_X st) (st_scales st))
  end.

(** [Gemm( NORMAL, NORMAL, alpha, A, B, beta, C )] with inner dimension
    [Width A]. *)
Definition Gemm (alpha : F) (A B : Matrix F) (beta : F) (C : Matrix F)
  : Matrix F :=
  mkMatrix (Height C) (Width C)
    (fun i j =>
       addF (mulF alpha
               (for_range 0 (Width A)
                  (fun l acc => addF acc (mulF (Get A i l) (Get B l j)))
                  (ofZF 0)))
            (mulF beta (Get C i j))).

(** Modelled from the spec: the panels are taken "from the bottom-right
    corner upward"; [LastOffset( n, bsize )] is the offset of the last panel,
    [bsize * ( Mod(n,bsize) ? n/bsize : n/bsize-1 )].  Its source is not
    part of the files at hand. *)
Definition LastOffset (n bsize : Z) : Z :=
  bsize * (if negb (n mod bsize =? 0) then Z.quot n bsize
           else Z.quot n bsize - 1).

(** What the blocked solve updates in place; [XMax] is its local bound on
    each right-hand side. *)
Record blocked_state := mkBlocked {
  bs_U : Matrix F;
  bs_X : Matrix F;
  bs_scales : Matrix F;
  bs_XMax : Matrix Real
}.

(** "Determine largest entry of each RHS", one column [j]. *)
Definition prescale_column (j : Z) (st : blocked_state) : blocked_state :=
  let '(smallNum, bigNum) := OverflowParameters in
  let oneHalf := divR (ofZR 1) (ofZR 2) in
  let xj := View (bs_X st) 0 j j (j + 1) in
  let xjMax := MaxNorm xj in
  let '(X, xjMax, scales) :=
    if lebR bigNum xjMax then
      let s := divR (mulR oneHalf bigNum) xjMax in
      (WriteBack (bs_X st) 0 j j 1 (ScaleBy s xj),
       mulR xjMax s,
       SetEntry (bs_scales st) j 0 (scaleF s (Get (bs_scales st) j 0)))
    else (bs_X st, xjMax, bs_scales st) in
  let xjMax := Max xjMax (mulR (ofZR 2) smallNum) in
  mkBlocked (bs_U st) X scales (SetEntry (bs_XMax st) j 0 xjMax).

(** "Apply scalings on RHS", one active column. *)
Definition apply_scaling (k nb : Z) (scalesUpdate : Matrix F) (jActive : Z)
    (st : blocked_state) : blocked_state :=
  let j := jActive + k in
  let sigma := RealPart (Get scalesUpdate jActive 0) in
  if ltbR sigma (ofZR 1) then
    let scales :=
      SetEntry (bs_scales st) j 0 (scaleF sigma (Get (bs_scales st) j 0)) in
    let X := bs_X st in
    let X := WriteBack X 0 j k 1 (ScaleBy sigma (View X 0 k j (j + 1))) in
    let X := WriteBack X (k + nb) j (j - (k + nb)) 1
               (ScaleBy sigma (View X (k + nb) j j (j + 1))) in
    mkBlocked (bs_U st) X scales
      (SetEntry (bs_XMax st) j 0 (mulR sigma (Get (bs_XMax st) j 0)))
  else st.

(** "Check for possible overflows in GEMM", one active column. *)
Definition gemm_overflow_check (k nb : Z) (cNorm : Real) (jActive : Z)
    (st : blocked_state) : blocked_state :=
  let '(smallNum, bigNum) := OverflowParameters in
  let oneHalf := divR (ofZR 1) (ofZR 2) in
  let nbR := ofZR nb in
  let j := jActive + k in
  let X := bs_X st in
  let xj := View X 0 j j (j + 1) in
  let xjMax := Get (bs_XMax st) j 0 in
  (* X1(ALL,IR(jActive)) is column j of X on the rows of the panel *)
  let X1Max := MaxNorm (View X k (k + nb) j (j + 1)) in
  let rescaled s :=
    (SetEntry (bs_scales st) j 0 (scaleF s (Get (bs_scales st) j 0)),
     WriteBack X 0 j j 1 (ScaleBy s xj),
     mulR xjMax s, mulR X1Max s) in
  let '(scales, X, xjMax, X1Max) :=
    if lebR (ofZR 1) X1Max &&
       lebR (divR (divR (subR bigNum xjMax) X1Max) nbR) cNorm
    then rescaled (divR oneHalf (mulR X1Max nbR))
    else if ltbR X1Max (ofZR 1) &&
            lebR (divR (subR bigNum xjMax) nbR) (mulR cNorm X1Max)
    then rescaled (divR oneHalf nbR)
    else (bs_scales st, X, xjMax, X1Max) in
  let xjMax := addR xjMax (mulR (mulR nbR cNorm) X1Max) in
  mkBlocked (bs_U st) X scales (SetEntry (bs_XMax st) j 0 xjMax).

(** One panel [k] of "Perform block triangular solve". *)
Definition panel (debug : bool) (bsize m k : Z) (shifts : Matrix F)
    (st : blocked_state) : Result blocked_state :=
  let nb := Z.min bsize (m - k) in
  let U := bs_U st in
  let X := bs_X st in
  let U11 := View U k (k + nb) k (k + nb) in
  let X1 := View X k (k + nb) k (Width X) in
  (* nActive = X0.Width() *)
  let nActive := Width X - k in
  let shiftsActive := View shifts k (Height shifts) 0 (Width shifts) in
  (* Perform triangular solve on diagonal block *)
  match MultiShiftDiagonalBlockSolve debug U11 shiftsActive X1 with
  | LogicError msg => LogicError msg
  | OutOfFuel => OutOfFuel
  | Ok r =>
      let U := WriteBack U k k nb nb (st_U r) in
      let X := WriteBack X k k nb (Width X - k) (st_X r) in
      let scalesUpdate := st_scales r in
      let st := mkBlocked U X (bs_scales st) (bs_XMax st) in
      let st := for_range 0 nActive (apply_scaling k nb scalesUpdate) st in
      if 0 <? k then
        let U01 := View (bs_U st) 0 k k (k + nb) in
        (* Compute infinity norms of columns in U01 *)
        let cNorm :=
          for_range 0 nb
            (fun j acc =>
               addR acc (divR (MaxNorm (View U01 0 (Height U01) j (j + 1)))
                              (ofZR nb)))
            (ofZR 0) in
        let st := for_range 0 nActive (gemm_overflow_check k nb cNorm) st in
        (* Update RHS with GEMM *)
        let X := bs_X st in
        let X1 := View X k (k + nb) k (Width X) in
        let X0 := View X 0 k k (Width X) in
        let X := WriteBack X 0 k k (Width X - k)
                   (Gemm (ofZF (-1)) U01 X1 (ofZF 1) X0) in
        Ok (mkBlocked (bs_U st) X (bs_scales st) (bs_XMax st))
      else Ok st
  end.

(** [for( Int k=kLast; k>=0; k-=bsize )] *)
Fixpoint panel_loop (fuel : nat) (debug : bool) (bsize m k : Z)
    (shifts : Matrix F) (st : blocked_state) : Result blocked_state :=
  if k <? 0 then Ok st
  else match fuel with
       | O => OutOfFuel
       | Datatypes.S fuel' =>
           match panel debug bsize m k shifts st with
           | Ok st' => panel_loop fuel' debug bsize m (k - bsize) shifts st'
           | err => err
           end
       end.

(** [MultiShiftSolve( U, shifts, X, scales )] for [Matrix<F>], with
    [bsize] the value of [Blocksize()].  The panel loop is given as many
    steps as there are rows, which is enough for every positive [bsize]. *)
Definition MultiShiftSolve (debug : bool) (bsize : Z)
    (U shifts X : Matrix F) : Result blocked_state :=
  match (if debug then dimension_checks U shifts X else None) with
  | Some msg => LogicError msg
  | None =>
      let m := Height X in
      let n := Width X in
      let kLast := LastOffset m bsize in
      let '(smallNum, bigNum) := OverflowParameters in
      if debug && lebR bigNum (MaxNorm U)
      then LogicError "Entries in matrix are too large"
      else
        let st := mkBlocked U X (Ones n 1)
                    (mkMatrix n 1 (fun _ _ => ofZR 0)) in
        let st := for_range 0 n prescale_column st in
        panel_loop (Datatypes.S (Z.to_nat m)) debug bsize m kLast shifts st
  end.

End Solve.

(** ** Properties *)

(** The two facts about the arithmetic the statements rely on: [1 < 1] is
    false, and [0 >= bigNum] is false for the [bigNum] of
    [OverflowParameters]. *)
Class ScalarLaws (F Real : Type) `{Sc : Scalar F Real} : Prop := {
  one_not_below_one : ltbR (RealPart (ofZF 1)) (ofZR 1) = false;
  bigNum_above_zero : lebR (snd OverflowParameters) (ofZR 0) = false
}.

Lemma for_up_invariant {S} (P : S -> Prop) (body : Z -> S -> S) lo :
  (forall i s, lo <= i -> P s -> P (body i s)) ->
  forall cnt i s, lo <= i -> P s -> P (for_up cnt i body s).
Proof.
  intros Hbody cnt. induction cnt as [|c IH]; intros i s Hi Hs; simpl.
  - exact Hs.
  - apply IH; [lia | apply Hbody; assumption].
Qed.

Lemma for_range_empty {S} lo hi (body : Z -> S -> S) s :
  hi <= lo -> for_range lo hi body s = s.
Proof.
  intros H. unfold for_range.
  replace (Z.to_nat (hi - lo)) with O by lia. reflexivity.
Qed.

Lemma in_window_empty i0 j0 h w i j :
  h <= 0 \/ w <= 0 -> in_window i0 j0 h w i j = false.
Proof.
  intros H. unfold in_window.
  destruct (i0 <=? i) eqn:E1, (i <? i0 + h) eqn:E2,
           (j0 <=? j) eqn:E3, (j <? j0 + w) eqn:E4; simpl; try reflexivity.
  lia.
Qed.

Lemma mat_eq_refl {T} (A : Matrix T) : mat_eq A A.
Proof. repeat split. Qed.

Lemma mat_eq_trans {T} (A B C : Matrix T) :
  mat_eq A B -> mat_eq B C -> mat_eq A C.
Proof.
  intros (h1 & w1 & e1) (h2 & w2 & e2).
  split; [congruence | split; [congruence |]].
  intros i j. rewrite e1. apply e2.
Qed.

(** Writing an unmodified window back changes nothing. *)
Lemma WriteBack_View {T} (A : Matrix T) i0 i1 j0 j1 h w :
  mat_eq (WriteBack A i0 j0 h w (View A i0 i1 j0 j1)) A.
Proof.
  repeat split. intros i j. simpl.
  destruct (in_window i0 j0 h w i j); [|reflexivity].
  f_equal; lia.
Qed.

Lemma WriteBack_empty {T} (A V : Matrix T) i0 j0 h w :
  h <= 0 \/ w <= 0 -> mat_eq (WriteBack A i0 j0 h w V) A.
Proof.
  intros H. repeat split. intros i j. simpl.
  rewrite in_window_empty by assumption. reflexivity.
Qed.

Section Properties.

Context {F Real : Type} `{Sc : Scalar F Real}.

Lemma diag_index_dims (A B : Matrix F) i j :
  Height A = Height B -> Width A = Width B ->
  diag_index A i j = diag_index B i j.
Proof. intros Hh Hw. unfold diag_index. rewrite Hh, Hw. reflexivity. Qed.

Lemma diag_index_eq (A : Matrix F) i j : diag_index A i j = true -> i = j.
Proof.
  unfold diag_index. intros H.
  destruct (i =? j) eqn:E; [lia | discriminate].
Qed.

(** Restoring the saved diagonal of [A] into a matrix that differs from [A]
    on the diagonal only gives [A] back. *)
Lemma SetDiagonal_restores (A B : Matrix F) :
  Height B = Height A -> Width B = Width A ->
  (forall i j, diag_index A i j = false -> Get B i j = Get A i j) ->
  mat_eq (SetDiagonal B (GetDiagonal A)) A.
Proof.
  intros Hh Hw Hoff. repeat split; try assumption.
  intros i j. simpl.
  rewrite (diag_index_dims B A) by assumption.
  destruct (diag_index A i j) eqn:E.
  - apply diag_index_eq in E. subst j. reflexivity.
  - apply Hoff, E.
Qed.

(** What the column loop keeps of [U]: its shape and everything off the
    diagonal. *)
Definition U_frame (U : Matrix F) (st : solve_state) : Prop :=
  Height (st_U st) = Height U /\ Width (st_U st) = Width U /\
  forall i j, diag_index U i j = false -> Get (st_U st) i j = Get U i j.

Lemma diagonal_block_column_U_frame (U diag shifts : Matrix F) n cNorm j st :
  U_frame U st -> U_frame U (diagonal_block_column diag shifts n cNorm j st).
Proof.
  intros (Hh & Hw & Hoff). unfold diagonal_block_column.
  destruct (solve_column _ _ _ _) as [xj [s|]]; unfold U_frame; simpl;
    (split; [assumption | split; [assumption|]]);
    intros i k Hd; specialize (Hoff i k Hd);
    unfold diag_index in *; simpl; rewrite Hh, Hw, !Hd; exact Hoff.
Qed.

Lemma diagonal_block_loop_U_frame (U shifts X : Matrix F) cnt :
  U_frame U (diagonal_block_loop U shifts X cnt).
Proof.
  unfold diagonal_block_loop.
  apply (for_up_invariant (U_frame U) _ 1); [| lia |].
  - intros i s _ Hs. apply diagonal_block_column_U_frame, Hs.
  - repeat split.
Qed.

(** What the column loop keeps of [X] and [scales]: column 0 and the
    scale of column 0. *)
Definition column0_frame (X : Matrix F) (st : solve_state) : Prop :=
  (forall i, Get (st_X st) i 0 = Get X i 0) /\
  Get (st_scales st) 0 0 = ofZF 1.

Lemma diagonal_block_column_column0 (X diag shifts : Matrix F) n cNorm j st :
  1 <= j -> column0_frame X st ->
  column0_frame X (diagonal_block_column diag shifts n cNorm j st).
Proof.
  intros Hj (HX & Hs). unfold diagonal_block_column.
  assert (Hw : forall i h, in_window 0 j h 1 i 0 = false).
  { intros i h. unfold in_window.
    destruct (j <=? 0) eqn:E; [lia|]. rewrite andb_false_r. reflexivity. }
  destruct (solve_column _ _ _ _) as [xj [s|]]; split; simpl;
    try (intros i; rewrite Hw; apply HX); try assumption.
  destruct j; try lia; simpl; assumption.
Qed.

Lemma diagonal_block_loop_column0 (U shifts X : Matrix F) cnt :
  column0_frame X (diagonal_block_loop U shifts X cnt).
Proof.
  unfold diagonal_block_loop.
  apply (for_up_invariant (column0_frame X) _ 1); [| lia |].
  - intros i s Hi Hs. apply diagonal_block_column_column0; assumption.
  - split; reflexivity.
Qed.

Lemma for_up_last {S} (body : Z -> S -> S) cnt i s :
  for_up (Datatypes.S cnt) i body s =
  body (i + Z.of_nat cnt) (for_up cnt i body s).
Proof.
  revert i s. induction cnt as [|c IH]; intros i s.
  - simpl. f_equal. lia.
  - change (for_up (Datatypes.S (Datatypes.S c)) i body s)
      with (for_up (Datatypes.S c) (i + 1) body (body i s)).
    rewrite IH. simpl. f_equal. lia.
Qed.

(** C10. [MultiShiftDiagonalBlockSolve] leaves [U] as it received it: the
    call returns as soon as the dimension checks pass, the [U] it returns
    has the shape and every entry of the [U] it was given, no pass of the
    column loop changes an entry off the diagonal, and after the pass for
    column [j] the diagonal holds the saved diagonal shifted by
    [-shifts(j)] until the final reset. *)
Theorem MultiShiftDiagonalBlockSolve_restores_U
    (debug : bool) (U shifts X : Matrix F) :
  (forall r, MultiShiftDiagonalBlockSolve debug U shifts X = Ok r ->
             mat_eq (st_U r) U) /\
  (dimension_checks U shifts X = None ->
   exists r, MultiShiftDiagonalBlockSolve debug U shifts X = Ok r) /\
  (forall cnt i j, i <> j ->
     Get (st_U (diagonal_block_loop U shifts X cnt)) i j = Get U i j) /\
  (forall cnt i, 0 <= i < Z.min (Height U) (Width U) ->
     Get (st_U (diagonal_block_loop U shifts X (Datatypes.S cnt))) i i =
     addF (Get U i i) (negF (Get shifts (1 + Z.of_nat cnt) 0))).
Proof.
  split; [|split; [|split]].
  - intros r Hr. unfold MultiShiftDiagonalBlockSolve in Hr.
    destruct (if debug then dimension_checks U shifts X else None);
      [discriminate|].
    injection Hr as <-. cbn [st_U].
    destruct (diagonal_block_loop_U_frame U shifts X
                (Z.to_nat (Height shifts - 1))) as (Hh & Hw & Hoff).
    apply SetDiagonal_restores; assumption.
  - intros Hd. unfold MultiShiftDiagonalBlockSolve.
    rewrite Hd. destruct debug; eexists; reflexivity.
  - intros cnt i j Hij.
    destruct (diagonal_block_loop_U_frame U shifts X cnt) as (_ & _ & Hoff).
    apply Hoff. unfold diag_index.
    destruct (i =? j) eqn:E; [lia | reflexivity].
  - intros cnt i Hi.
    destruct (diagonal_block_loop_U_frame U shifts X cnt) as (Hh & Hw & _).
    unfold diagonal_block_loop in *. rewrite for_up_last.
    set (prev := for_up cnt 1 _ _) in *.
    unfold diagonal_block_column.
    destruct (solve_column _ _ _ _) as [xj [s|]]; cbn [st_U];
      unfold ShiftDiagonal, SetDiagonal, GetDiagonal, diag_index;
      cbn [Get Height Width]; rewrite Hh, Hw;
      replace (i =? i) with true by (symmetry; apply Z.eqb_refl);
      replace (0 <=? i) with true by (symmetry; apply Z.leb_le; lia);
      replace (i <? Z.min (Height U) (Width U)) with true
        by (symmetry; apply Z.ltb_lt; lia);
      reflexivity.
Qed.

(** With at most one shift the column loop has no pass. *)
Lemma MultiShiftDiagonalBlockSolve_no_columns debug (U shifts X : Matrix F) :
  Height shifts <= 1 ->
  dimension_checks U shifts X = None ->
  MultiShiftDiagonalBlockSolve debug U shifts X =
  Ok (mkState (SetDiagonal U (GetDiagonal U)) X (Ones (Height shifts) 1)).
Proof.
  intros Hs Hd. unfold MultiShiftDiagonalBlockSolve. rewrite Hd.
  replace (Z.to_nat (Height shifts - 1)) with O by lia.
  destruct debug; reflexivity.
Qed.

Lemma SetDiagonal_GetDiagonal (A : Matrix F) :
  mat_eq (SetDiagonal A (GetDiagonal A)) A.
Proof. apply SetDiagonal_restores; reflexivity. Qed.

Section SingleShift.

Context {Laws : ScalarLaws F Real}.

Lemma prescale_single_column (st : blocked_state) :
  let st' := for_range 0 1 prescale_column st in
  bs_U st' = bs_U st /\ bs_X st' = bs_X st /\ bs_scales st' = bs_scales st.
Proof.
  change (for_range 0 1 prescale_column st) with (prescale_column 0 st).
  unfold prescale_column.
  pose proof bigNum_above_zero as Hbig.
  destruct OverflowParameters as [smallNum bigNum]. cbn [snd] in Hbig.
  change (MaxNorm (View (bs_X st) 0 0 0 (0 + 1))) with zeroR.
  unfold zeroR. rewrite Hbig. cbn. repeat split.
Qed.

Lemma panel_single_shift debug bsize m k shifts (st : blocked_state) :
  0 <= k -> Width (bs_X st) = 1 -> Height shifts = 1 ->
  exists st', panel debug bsize m k shifts st = Ok st' /\
              mat_eq (bs_X st') (bs_X st) /\
              mat_eq (bs_U st') (bs_U st) /\
              bs_scales st' = bs_scales st.
Proof.
  intros Hk HX Hs. unfold panel.
  set (nb := Z.min bsize (m - k)).
  rewrite MultiShiftDiagonalBlockSolve_no_columns; cycle 1.
  { cbn [View Height]. lia. }
  { unfold dimension_checks. cbn [View Height Width].
    rewrite HX, Hs, !Z.eqb_refl. reflexivity. }
  cbn [st_U st_X st_scales].
  set (U1 := WriteBack (bs_U st) k k nb nb _).
  set (X1 := WriteBack (bs_X st) k k nb _ _).
  assert (HU1 : mat_eq U1 (bs_U st)).
  { subst U1. split; [reflexivity | split; [reflexivity|]].
    intros i j. cbn [WriteBack Get].
    destruct (in_window k k nb nb i j); [|reflexivity].
    rewrite (proj2 (proj2 (SetDiagonal_GetDiagonal _))).
    cbn [View Get]. f_equal; lia. }
  assert (HX1 : mat_eq X1 (bs_X st)) by apply WriteBack_View.
  assert (Hscal :
    for_range 0 (Width (bs_X st) - k)
      (apply_scaling k nb
         (Ones (Height (View shifts k (Height shifts) 0 (Width shifts))) 1))
      (mkBlocked U1 X1 (bs_scales st) (bs_XMax st)) =
    mkBlocked U1 X1 (bs_scales st) (bs_XMax st)).
  { rewrite HX. destruct (Z.eq_dec k 0) as [->|Hne].
    - change (for_range 0 (1 - 0) ?b ?s) with (b 0 s).
      unfold apply_scaling. cbn [Ones Get].
      rewrite one_not_below_one. reflexivity.
    - apply for_range_empty. lia. }
  rewrite Hscal. destruct (0 <? k) eqn:Ek.
  - apply Z.ltb_lt in Ek.
    rewrite for_range_empty by lia.
    eexists. split; [reflexivity|]. cbn [bs_X bs_U bs_scales].
    split; [|split; [assumption | reflexivity]].
    eapply mat_eq_trans; [|exact HX1].
    apply WriteBack_empty. right.
    destruct HX1 as (_ & -> & _). lia.
  - eexists. split; [reflexivity|]. cbn [bs_X bs_U bs_scales].
    repeat split; try assumption; apply HX1 || apply HU1.
Qed.

Lemma panel_loop_single_shift debug bsize m shifts fuel :
  0 < bsize -> Height shifts = 1 ->
  forall k (st : blocked_state),
    k < Z.of_nat fuel * bsize -> Width (bs_X st) = 1 ->
    exists st', panel_loop fuel debug bsize m k shifts st = Ok st' /\
                mat_eq (bs_X st') (bs_X st) /\
                mat_eq (bs_U st') (bs_U st) /\
                bs_scales st' = bs_scales st.
Proof.
  intros Hb Hs. induction fuel as [|fuel IH]; intros k st Hk HX.
  - simpl. destruct (k <? 0) eqn:E; [|apply Z.ltb_ge in E; lia].
    exists st. repeat split.
  - cbn [panel_loop]. destruct (k <? 0) eqn:E.
    { exists st. repeat split. }
    apply Z.ltb_ge in E.
    destruct (panel_single_shift debug bsize m k shifts st E HX Hs)
      as (st1 & -> & HX1 & HU1 & Hsc1).
    destruct (IH (k - bsize) st1) as (st2 & Hrun & HX2 & HU2 & Hsc2).
    { lia. }
    { destruct HX1 as (_ & -> & _). exact HX. }
    exists st2. split; [exact Hrun|].
    split; [eapply mat_eq_trans; eassumption|].
    split; [eapply mat_eq_trans; eassumption | congruence].
Qed.

Lemma LastOffset_bound m bsize :
  0 < bsize ->
  LastOffset m bsize < Z.of_nat (Datatypes.S (Z.to_nat m)) * bsize.
Proof.
  intros Hb. unfold LastOffset.
  assert (Hq : Z.quot m bsize <= Z.max m 0).
  { destruct (Z_le_gt_dec 0 m) as [Hm|Hm].
    - rewrite Z.quot_div_nonneg by lia.
      assert (m / bsize <= m) by (apply Z.div_le_upper_bound; nia). lia.
    - assert (Z.quot m bsize <= 0) by (apply Z.quot_le_upper_bound; lia).
      lia. }
  destruct (negb (m mod bsize =? 0)); nia.
Qed.

(** The blocked solve on a right-hand side of one column. *)
Lemma MultiShiftSolve_one_column debug bsize (U shifts X : Matrix F) :
  0 < bsize -> Width X = 1 -> Height shifts = 1 ->
  (debug = true ->
   dimension_checks U shifts X = None /\
   lebR (snd OverflowParameters) (MaxNorm U) = false) ->
  exists r, MultiShiftSolve debug bsize U shifts X = Ok r /\
            mat_eq (bs_X r) X /\ bs_scales r = Ones 1 1 /\
            mat_eq (bs_U r) U.
Proof.
  intros Hb HX Hs Hdbg. unfold MultiShiftSolve.
  assert (Hchk : (if debug then dimension_checks U shifts X else None)
                 = None).
  { destruct debug; [apply Hdbg|]; reflexivity. }
  rewrite Hchk.
  assert (Hbig : debug && lebR (snd OverflowParameters) (MaxNorm U) = false).
  { destruct debug; [|reflexivity]. apply Hdbg. reflexivity. }
  destruct OverflowParameters as [smallNum bigNum] eqn:Eop.
  cbn [snd] in Hbig. rewrite Hbig, HX.
  set (st0 := mkBlocked U X (Ones 1 1) _).
  destruct (prescale_single_column st0) as (HU0 & HX0 & Hsc0).
  destruct (panel_loop_single_shift debug bsize (Height X) shifts
              (Datatypes.S (Z.to_nat (Height X))) Hb Hs
              (LastOffset (Height X) bsize)
              (for_range 0 1 prescale_column st0))
    as (r & Hrun & HXr & HUr & Hscr).
  { apply LastOffset_bound, Hb. }
  { rewrite HX0. exact HX. }
  exists r. split; [exact Hrun|].
  rewrite HX0 in HXr. rewrite HU0 in HUr. rewrite Hsc0 in Hscr.
  repeat split; try apply HXr; try apply HUr. exact Hscr.
Qed.

(** C8. With exactly one shift the serial blocked [MultiShiftSolve] does
    nothing to the right-hand side: whenever it returns, [X] (and [U]) are
    entry for entry what they were and [scales] is the 1 x 1 matrix of
    ones; it does return, for every positive block size, as soon as the
    debug checks (when compiled in) pass.  More generally
    [MultiShiftDiagonalBlockSolve] never touches column 0 of [X] and
    leaves its scale at 1. *)
Theorem MultiShiftSolve_single_shift
    (debug : bool) (bsize : Z) (U shifts X : Matrix F) :
  0 < bsize -> Width X = 1 -> Height shifts = 1 ->
  (forall r, MultiShiftSolve debug bsize U shifts X = Ok r ->
     mat_eq (bs_X r) X /\ bs_scales r = Ones 1 1 /\ mat_eq (bs_U r) U) /\
  ((debug = true ->
    dimension_checks U shifts X = None /\
    lebR (snd OverflowParameters) (MaxNorm U) = false) ->
   exists r, MultiShiftSolve debug bsize U shifts X = Ok r) /\
  (forall (V sh Y : Matrix F) r,
     MultiShiftDiagonalBlockSolve debug V sh Y = Ok r ->
     Get (st_scales r) 0 0 = ofZF 1 /\
     forall i, Get (st_X r) i 0 = Get Y i 0).
Proof.
  intros Hb HX Hs. split; [|split].
  - intros r Hr.
    assert (Hdbg : debug = true ->
              dimension_checks U shifts X = None /\
              lebR (snd OverflowParameters) (MaxNorm U) = false).
    { intros ->. unfold MultiShiftSolve in Hr.
      cbn [andb] in Hr.
      destruct (dimension_checks U shifts X); [discriminate|].
      destruct OverflowParameters as [smallNum bigNum]. cbn [snd].
      destruct (lebR bigNum (MaxNorm U)); [discriminate|].
      split; reflexivity. }
    destruct (MultiShiftSolve_one_column debug bsize U shifts X
                Hb HX Hs Hdbg) as (r' & Hr' & Hres).
    rewrite Hr' in Hr. injection Hr as <-. exact Hres.
  - intros Hdbg.
    destruct (MultiShiftSolve_one_column debug bsize U shifts X
                Hb HX Hs Hdbg) as (r & Hr & _).
    exists r. exact Hr.
  - intros V sh Y r Hr. unfold MultiShiftDiagonalBlockSolve in Hr.
    destruct (if debug then dimension_checks V sh Y else None);
      [discriminate|].
    injection Hr as <-. cbn [st_scales st_X].
    destruct (diagonal_block_loop_column0 V sh Y
                (Z.to_nat (Height sh - 1))) as (HY & Hsc).
    split; [exact Hsc | exact HY].
Qed.

End SingleShift.

End Properties.

(** ** An instance: exact rational arithmetic *)

Definition Qmax' (a b : Q) : Q := if Qle_bool a b then b else a.
Definition Qmin' (a b : Q) : Q := if Qle_bool a b then a else b.

(** Back substitution with an upper triangular matrix, rows from the
    bottom up. *)
Fixpoint trsv_rows (U : Z -> Z -> Q) (n : Z) (rows : list Z) (x : Z -> Q)
  : Z -> Q :=
  match rows with
  | [] => x
  | r :: rs =>
      let x := trsv_rows U n rs x in
      let v := for_range (r + 1) n (fun c acc => (acc - U r c * x c)%Q) (x r) in
      fun i => if i =? r then (v / U r r)%Q else x i
  end.

Definition TrsvQ (n : Z) (U : Z -> Z -> Q) (x : Z -> Q) : Z -> Q :=
  trsv_rows U n (map Z.of_nat (seq 0 (Z.to_nat n))) x.

#[export] Instance ScalarQ : Scalar Q Q := {|
  ofZF := inject_Z;
  addF := Qplus;
  mulF := Qmult;
  divF := Qdiv;
  negF := Qopp;
  scaleF := Qmult;
  ofReal := fun r => r;
  RealPart := fun x => x;
  Abs := Qabs;
  SafeAbs := Qabs;
  ofZR := inject_Z;
  addR := Qplus;
  subR := Qminus;
  mulR := Qmult;
  divR := Qdiv;
  Max := Qmax';
  Min := Qmin';
  lebR := Qle_bool;
  ltbR := fun a b => negb (Qle_bool b a);
  MachineSafeMin := (1 # 1048576)%Q;
  MachineOverflowThreshold := 1048576%Q;
  MachinePrecision := (1 # 1024)%Q;
  Trsv := TrsvQ
|}.

#[export] Instance ScalarLawsQ : ScalarLaws Q Q.
Proof. split; vm_compute; reflexivity. Qed.

Definition matrix_of_rows (h w : Z) (rows : list (list Q)) : Matrix Q :=
  mkMatrix h w
    (fun i j => nth (Z.to_nat j) (nth (Z.to_nat i) rows []) 0%Q).

(** [U = [1 2; 0 3]], shifts [(1, 3)], and a right-hand side whose column 1
    holds [4] in its first row: the solve of column 1 is
    [(1 - 3) x = 4]. *)
Definition U_ex : Matrix Q := matrix_of_rows 2 2 [[1%Q; 2%Q]; [0%Q; 3%Q]].
Definition shifts_ex : Matrix Q := matrix_of_rows 2 1 [[1%Q]; [3%Q]].
Definition X_ex : Matrix Q := matrix_of_rows 2 2 [[7%Q; 4%Q]; [0%Q; 0%Q]].

Example MultiShiftSolve_two_shifts :
  match MultiShiftSolve true 128 U_ex shifts_ex X_ex with
  | Ok r => Qeq_bool (Get (bs_X r) 0 1) (-2) && Qeq_bool (Get (bs_X r) 0 0) 7
            && Qeq_bool (Get (bs_scales r) 1 0) 1
            && Qeq_bool (Get (bs_U r) 0 0) 1 && Qeq_bool (Get (bs_U r) 1 1) 3
  | _ => false
  end = true.
Proof. vm_compute. reflexivity. Qed.

(** One shift against a 2 x 2 matrix, with panels of one row. *)
Definition shift1_ex : Matrix Q := matrix_of_rows 1 1 [[5%Q]].
Definition X1_ex : Matrix Q := matrix_of_rows 2 1 [[7%Q]; [9%Q]].

Lemma MultiShiftSolve_single_shift_witness :
  exists r, MultiShiftSolve true 1 U_ex shift1_ex X1_ex = Ok r /\
            mat_eq (bs_X r) X1_ex /\ bs_scales r = Ones 1 1.
Proof.
  destruct (MultiShiftSolve_single_shift true 1 U_ex shift1_ex X1_ex
              ltac:(lia) eq_refl eq_refl) as (H1 & H2 & _).
  destruct H2 as [r Hr].
  { intros _. split; vm_compute; reflexivity. }
  exists r. split; [exact Hr|].
  destruct (H1 r Hr) as (HX & Hsc & _). split; assumption.
Defined.

Lemma MultiShiftDiagonalBlockSolve_restores_U_witness :
  exists r, MultiShiftDiagonalBlockSolve true U_ex shifts_ex X_ex = Ok r /\
            mat_eq (st_U r) U_ex.
Proof.
  destruct (MultiShiftDiagonalBlockSolve_restores_U true U_ex shifts_ex X_ex)
    as (H1 & H2 & _).
  destruct (H2 eq_refl) as [r Hr].
  exists r. split; [exact Hr | apply H1, Hr].
Defined.

(** ** Further properties of the serial routines *)

Section MoreProperties.

Context {F Real : Type} `{Sc : Scalar F Real}.

Lemma for_range_invariant {S} (P : S -> Prop) (body : Z -> S -> S) lo hi s :
  (forall i s, lo <= i -> P s -> P (body i s)) -> P s ->
  P (for_range lo hi body s).
Proof.
  intros Hbody Hs. unfold for_range.
  apply (for_up_invariant P body lo Hbody); [lia | exact Hs].
Qed.

(** What the column loop keeps of [X]: its shape and every entry on or
    below the diagonal. *)
Definition lower_frame (X X' : Matrix F) : Prop :=
  Height X' = Height X /\ Width X' = Width X /\
  forall i j, j <= i -> Get X' i j = Get X i j.

Lemma lower_frame_refl (X : Matrix F) : lower_frame X X.
Proof. repeat split. Qed.

(** Writing a window that lies above the diagonal keeps the frame. *)
Lemma WriteBack_lower_frame (X X' V : Matrix F) i0 j0 h w :
  lower_frame X X' -> i0 + h <= j0 \/ h <= 0 \/ w <= 0 ->
  lower_frame X (WriteBack X' i0 j0 h w V).
Proof.
  intros (Hh & Hw & Hlow) Hwin.
  split; [exact Hh | split; [exact Hw|]].
  intros i j Hij. cbn [WriteBack Get].
  replace (in_window i0 j0 h w i j) with false; [apply Hlow, Hij|].
  symmetry. unfold in_window.
  destruct (i0 <=? i) eqn:E1, (i <? i0 + h) eqn:E2,
           (j0 <=? j) eqn:E3, (j <? j0 + w) eqn:E4; simpl; try reflexivity.
  lia.
Qed.

Lemma diagonal_block_column_lower_frame (X diag shifts : Matrix F) n cNorm j
    st :
  lower_frame X (st_X st) ->
  lower_frame X (st_X (diagonal_block_column diag shifts n cNorm j st)).
Proof.
  intros Hfr. unfold diagonal_block_column.
  destruct (solve_column _ _ _ _) as [xj [s|]]; cbn [st_X];
    (apply WriteBack_lower_frame; [exact Hfr | lia]).
Qed.

Lemma diagonal_block_loop_lower_frame (U shifts X : Matrix F) cnt :
  lower_frame X (st_X (diagonal_block_loop U shifts X cnt)).
Proof.
  unfold diagonal_block_loop.
  apply (for_up_invariant (fun st => lower_frame X (st_X st)) _ 1); [| lia |].
  - intros i s _ Hs. apply diagonal_block_column_lower_frame, Hs.
  - apply lower_frame_refl.
Qed.

Lemma diagonal_block_column_scales_dims (diag shifts : Matrix F) n cNorm j st :
  Height (st_scales (diagonal_block_column diag shifts n cNorm j st))
    = Height (st_scales st) /\
  Width (st_scales (diagonal_block_column diag shifts n cNorm j st))
    = Width (st_scales st).
Proof.
  unfold diagonal_block_column.
  destruct (solve_column _ _ _ _) as [xj [s|]]; split; reflexivity.
Qed.

(** What the blocked solve keeps: [U] as a whole, the shape of [X] and its
    entries on and below the diagonal, and the shape of [scales]. *)
Definition blocked_frame (U X : Matrix F) (st : @blocked_state F Real)
  : Prop :=
  mat_eq (bs_U st) U /\ lower_frame X (bs_X st) /\
  Height (bs_scales st) = Width X /\ Width (bs_scales st) = 1.

Lemma prescale_column_frame (U X : Matrix F) j st :
  blocked_frame U X st -> blocked_frame U X (prescale_column j st).
Proof.
  intros (HU & HX & Hsh & Hsw). unfold prescale_column.
  destruct OverflowParameters as [smallNum bigNum].
  destruct (lebR bigNum _); cbn zeta; unfold blocked_frame;
    cbn [bs_U bs_X bs_scales SetEntry Height Width];
    repeat split; try assumption; try apply HU; try apply HX.
  all: try (apply WriteBack_lower_frame; [exact HX | lia]).
Qed.

Lemma apply_scaling_frame (U X : Matrix F) k nb scalesUpdate jActive st :
  0 <= k -> 0 <= jActive ->
  blocked_frame U X st ->
  blocked_frame U X (apply_scaling k nb scalesUpdate jActive st).
Proof.
  intros Hk Hj (HU & HX & Hsh & Hsw). unfold apply_scaling. cbv zeta.
  destruct (ltbR _ _); [|repeat split; try assumption; apply HU || apply HX].
  unfold blocked_frame. cbn [bs_U bs_X bs_scales SetEntry Height Width].
  split; [exact HU|]. split; [|split; assumption].
  apply WriteBack_lower_frame; [|lia].
  apply WriteBack_lower_frame; [exact HX | lia].
Qed.

Lemma gemm_overflow_check_frame (U X : Matrix F) k nb cNorm jActive st :
  blocked_frame U X st ->
  blocked_frame U X (gemm_overflow_check k nb cNorm jActive st).
Proof.
  intros (HU & HX & Hsh & Hsw). unfold gemm_overflow_check.
  destruct OverflowParameters as [smallNum bigNum]. cbv zeta.
  destruct (_ && _); [|destruct (_ && _)]; unfold blocked_frame;
    cbn [bs_U bs_X bs_scales SetEntry Height Width];
    (split; [exact HU|]; split; [|split; assumption]);
    try exact HX; (apply WriteBack_lower_frame; [exact HX | lia]).
Qed.

Lemma panel_frame debug bsize m k shifts (U X : Matrix F) st :
  0 <= k -> (debug = true -> Height shifts = Width X) ->
  blocked_frame U X st ->
  exists st', panel debug bsize m k shifts st = Ok st' /\
              blocked_frame U X st'.
Proof.
  intros Hk Hdbg (HU & HX & Hsh & Hsw). unfold panel.
  set (nb := Z.min bsize (m - k)).
  unfold MultiShiftDiagonalBlockSolve.
  assert (Hchk :
    (if debug
     then dimension_checks (View (bs_U st) k (k + nb) k (k + nb))
            (View shifts k (Height shifts) 0 (Width shifts))
            (View (bs_X st) k (k + nb) k (Width (bs_X st)))
     else None) = None).
  { destruct debug; [|reflexivity].
    unfold dimension_checks. cbn [View Height Width].
    destruct HX as (_ & -> & _). rewrite (Hdbg eq_refl), !Z.eqb_refl.
    reflexivity. }
  rewrite Hchk. cbv zeta. cbn [st_U st_X st_scales].
  set (U11 := View (bs_U st) k (k + nb) k (k + nb)).
  set (X1 := View (bs_X st) k (k + nb) k (Width (bs_X st))).
  set (sA := View shifts k (Height shifts) 0 (Width shifts)).
  set (lp := diagonal_block_loop U11 sA X1 (Z.to_nat (Height sA - 1))).
  assert (HU1 : mat_eq (WriteBack (bs_U st) k k nb nb
                          (SetDiagonal (st_U lp) (GetDiagonal U11))) U).
  { destruct (diagonal_block_loop_U_frame U11 sA X1
                (Z.to_nat (Height sA - 1))) as (Hh & Hw & Hoff).
    pose proof (SetDiagonal_restores U11 (st_U lp) Hh Hw Hoff)
      as (_ & _ & Hget).
    eapply mat_eq_trans; [|exact HU].
    split; [reflexivity | split; [reflexivity|]].
    intros i j. cbn [WriteBack Get].
    destruct (in_window k k nb nb i j); [|reflexivity].
    rewrite Hget. subst U11. cbn [View Get]. f_equal; lia. }
  assert (HX1 : lower_frame X (WriteBack (bs_X st) k k nb
                                 (Width (bs_X st) - k) (st_X lp))).
  { destruct (diagonal_block_loop_lower_frame U11 sA X1
                (Z.to_nat (Height sA - 1))) as (_ & _ & Hlow).
    destruct HX as (Hh & Hw & HlowX).
    split; [exact Hh | split; [exact Hw|]].
    intros i j Hij. cbn [WriteBack Get].
    destruct (in_window k k nb (Width (bs_X st) - k) i j);
      [|apply HlowX, Hij].
    fold lp in Hlow. rewrite Hlow by lia.
    subst X1. cbn [View Get].
    replace (k + (i - k)) with i by lia. replace (k + (j - k)) with j by lia.
    apply HlowX, Hij. }
  set (st1 := mkBlocked _ _ (bs_scales st) (bs_XMax st)).
  assert (H1 : blocked_frame U X st1) by (repeat split; assumption || apply HU1 || apply HX1).
  set (st2 := for_range 0 (Width (bs_X st) - k) _ st1).
  assert (H2 : blocked_frame U X st2).
  { apply for_range_invariant; [|exact H1].
    intros i s Hi Hs. apply apply_scaling_frame; assumption. }
  destruct (0 <? k) eqn:Ek; [|exists st2; split; [reflexivity | exact H2]].
  eexists. split; [reflexivity|].
  set (st3 := for_range 0 (Width (bs_X st) - k) _ st2).
  assert (H3 : blocked_frame U X st3).
  { apply for_range_invariant; [|exact H2].
    intros i s _ Hs. apply gemm_overflow_check_frame, Hs. }
  destruct H3 as (HU3 & HX3 & Hsh3 & Hsw3).
  unfold blocked_frame. cbn [bs_U bs_X bs_scales].
  split; [exact HU3|]. split; [|split; assumption].
  apply WriteBack_lower_frame; [exact HX3 | lia].
Qed.

Lemma panel_loop_frame debug bsize m shifts (U X : Matrix F) fuel :
  0 < bsize -> (debug = true -> Height shifts = Width X) ->
  forall k st,
    k < Z.of_nat fuel * bsize -> blocked_frame U X st ->
    exists st', panel_loop fuel debug bsize m k shifts st = Ok st' /\
                blocked_frame U X st'.
Proof.
  intros Hb Hdbg. induction fuel as [|fuel IH]; intros k st Hk Hst.
  - simpl. destruct (k <? 0) eqn:E; [|apply Z.ltb_ge in E; lia].
    exists st. split; [reflexivity | exact Hst].
  - cbn [panel_loop]. destruct (k <? 0) eqn:E.
    { exists st. split; [reflexivity | exact Hst]. }
    apply Z.ltb_ge in E.
    destruct (panel_frame debug bsize m k shifts U X st E Hdbg Hst)
      as (st1 & -> & H1).
    apply IH; [lia | exact H1].
Qed.

(** The blocked solve runs to its end as soon as its preamble lets it. *)
Lemma MultiShiftSolve_frame debug bsize (U shifts X : Matrix F) :
  0 < bsize ->
  (debug = true ->
   dimension_checks U shifts X = None /\
   lebR (snd OverflowParameters) (MaxNorm U) = false) ->
  exists r, MultiShiftSolve debug bsize U shifts X = Ok r /\
            blocked_frame U X r.
Proof.
  intros Hb Hdbg. unfold MultiShiftSolve.
  assert (Hchk : (if debug then dimension_checks U shifts X else None)
                 = None).
  { destruct debug; [apply Hdbg|]; reflexivity. }
  rewrite Hchk.
  assert (Hbig : debug && lebR (snd OverflowParameters) (MaxNorm U) = false).
  { destruct debug; [|reflexivity]. apply Hdbg. reflexivity. }
  destruct OverflowParameters as [smallNum bigNum] eqn:Eop.
  cbn [snd] in Hbig. rewrite Hbig. cbv zeta.
  apply panel_loop_frame.
  - exact Hb.
  - intros ->. destruct (Hdbg eq_refl) as (Hd & _).
    unfold dimension_checks in Hd.
    destruct (negb (Height U =? Width U)); [discriminate|].
    destruct (negb (Width U =? Height X)); [discriminate|].
    destruct (Height shifts =? Width X) eqn:E; [lia | discriminate].
  - apply LastOffset_bound, Hb.
  - apply for_range_invariant.
    + intros j s _ Hs. apply prescale_column_frame, Hs.
    + repeat split.
Qed.

End MoreProperties.

(** ** The columns of the diagonal block solve *)

Lemma mat_ext {T} (A B : Matrix T) : mat_eq A B -> A = B.
Proof.
  destruct A as [h w f], B as [h' w' f']. unfold mat_eq. cbn.
  intros (-> & -> & Hf). f_equal.
  extensionality i. extensionality j. apply Hf.
Qed.

Lemma for_up_ext {S} (body body' : Z -> S -> S) :
  (forall i s, body i s = body' i s) ->
  forall cnt i s, for_up cnt i body s = for_up cnt i body' s.
Proof.
  intros Hb cnt. induction cnt as [|c IH]; intros i s; simpl;
    [reflexivity|].
  rewrite Hb. apply IH.
Qed.

Lemma if_cond {A} (b b' : bool) (x y : A) :
  b = b' -> (if b then x else y) = (if b' then x else y).
Proof. intros ->. reflexivity. Qed.

(** The next two are there to rewrite with: [rewrite (cond_true c) by tac]
    replaces the condition [c], given with holes, by [true] once [tac]
    shows that it holds, and [cond_false] likewise. *)
Lemma cond_true (b : bool) : b = true -> b = true.
Proof. exact (fun H => H). Qed.

Lemma cond_false (b : bool) : b = false -> b = false.
Proof. exact (fun H => H). Qed.

(** Equalities between conjunctions of comparisons on [Z]. *)
Ltac bool_lia := intros; lia.

Section Columns.

Context {F Real : Type} `{Sc : Scalar F Real}.

(** Two windows of one column that hold the same column. *)
Definition col0_eq (A B : Matrix F) : Prop :=
  Height A = Height B /\ Width A = Width B /\
  forall i, Get A i 0 = Get B i 0.

Lemma col0_eq_refl (A : Matrix F) : col0_eq A A.
Proof. repeat split. Qed.

Lemma MaxNorm_col0 (A B : Matrix F) :
  Width A = 1 -> col0_eq A B -> MaxNorm A = MaxNorm B.
Proof.
  intros Hw (Hh & Hw' & Hget). unfold MaxNorm.
  rewrite <- Hw', <- Hh, Hw.
  change (for_range 0 1 ?b ?s) with (b 0 s).
  unfold for_range. apply for_up_ext. intros i s. rewrite Hget. reflexivity.
Qed.

Lemma ScaleBy_col0 s (A B : Matrix F) :
  col0_eq A B -> col0_eq (ScaleBy s A) (ScaleBy s B).
Proof.
  intros (Hh & Hw & Hget). repeat split; try assumption.
  intros i. cbn. rewrite Hget. reflexivity.
Qed.

Lemma blas_Trsv_col0 n (U A B : Matrix F) :
  col0_eq A B -> col0_eq (blas_Trsv n U A) (blas_Trsv n U B).
Proof.
  intros (Hh & Hw & Hget). repeat split; try assumption.
  intros i. cbn.
  replace (fun i0 => Get B i0 0) with (fun i0 => Get A i0 0)
    by (extensionality r; apply Hget).
  rewrite Hget. reflexivity.
Qed.

Definition subst_eq (st st' : @subst_state F Real) : Prop :=
  col0_eq (ss_xj st) (ss_xj st') /\ ss_xjMax st = ss_xjMax st' /\
  ss_scales st = ss_scales st'.

Lemma subst_row_eq (U : Matrix F) cNorm smallNum bigNum i st st' :
  subst_eq st st' ->
  subst_eq (subst_row U cNorm smallNum bigNum i st)
           (subst_row U cNorm smallNum bigNum i st').
Proof.
  destruct st as [xj m s], st' as [xj' m' s'].
  intros ((Hh & Hw & Hget) & Hm & Hs). cbn in Hh, Hw, Hget, Hm, Hs.
  subst m' s'. unfold subst_row, rescale.
  cbn [ss_xj ss_xjMax ss_scales]. rewrite <- (Hget i).
  repeat (cbn [ss_xj ss_xjMax ss_scales fst snd];
          match goal with
          | |- context [if ?c then _ else _] => destruct c
          end);
    cbn [ss_xj ss_xjMax ss_scales fst snd];
    (split; [|split; reflexivity]);
    (split; [exact Hh | split; [exact Hw|]]);
    intros r; cbn; rewrite <- ?Hget; reflexivity.
Qed.

Lemma backward_substitution_eq (U : Matrix F) cNorm smallNum bigNum cnt :
  forall st st', subst_eq st st' ->
  subst_eq (backward_substitution U cNorm smallNum bigNum cnt st)
           (backward_substitution U cNorm smallNum bigNum cnt st').
Proof.
  induction cnt as [|c IH]; intros st st' Hst; simpl; [exact Hst|].
  apply IH, subst_row_eq, Hst.
Qed.

(** The body of the column loop reads its window through column 0 only. *)
Lemma solve_column_col0 (U : Matrix F) cNorm xHeight (xj xj' : Matrix F) :
  Width xj = 1 -> col0_eq xj xj' ->
  col0_eq (solve_column U cNorm xHeight xj).1
          (solve_column U cNorm xHeight xj').1 /\
  (solve_column U cNorm xHeight xj).2 = (solve_column U cNorm xHeight xj').2.
Proof.
  intros Hw Hc. unfold solve_column.
  destruct OverflowParameters as [smallNum bigNum]. cbv zeta.
  rewrite <- (MaxNorm_col0 xj xj' Hw Hc).
  destruct (lebR bigNum (MaxNorm xj)).
  - set (s := divR _ _).
    pose proof (ScaleBy_col0 s xj xj' Hc) as Hs.
    destruct (lebR _ smallNum); [split; [exact Hs | reflexivity]|].
    destruct (estimate_growth _ _ _ _ _ _) as [invGi invMi].
    destruct (ltbR _ _).
    + split; [apply blas_Trsv_col0, Hs | reflexivity].
    + set (st := mkSubst (ScaleBy s xj) _ _).
      set (st' := mkSubst (ScaleBy s xj') _ _).
      destruct (backward_substitution_eq U cNorm smallNum bigNum
                  (Z.to_nat xHeight) st st') as (H1 & _ & H3).
      { split; [exact Hs | split; reflexivity]. }
      cbn [fst snd]. split; [exact H1 | f_equal; exact H3].
  - destruct (lebR _ smallNum); [split; [exact Hc | reflexivity]|].
    destruct (estimate_growth _ _ _ _ _ _) as [invGi invMi].
    destruct (ltbR _ _).
    + split; [apply blas_Trsv_col0, Hc | reflexivity].
    + set (st := mkSubst xj _ _).
      set (st' := mkSubst xj' _ _).
      destruct (backward_substitution_eq U cNorm smallNum bigNum
                  (Z.to_nat xHeight) st st') as (H1 & _ & H3).
      { split; [exact Hc | split; reflexivity]. }
      cbn [fst snd]. split; [exact H1 | f_equal; exact H3].
Qed.

(** What one pass of the column loop computes, in terms of what the
    routine received: the body of the loop on [U] with its diagonal
    shifted by [-shift] and on the first [xHeight] rows of column [jl] of
    [X]. *)
Definition column_result (U X : Matrix F) (shift : F) (xHeight jl : Z)
  : Matrix F * option Real :=
  solve_column (ShiftDiagonal U (negF shift)) (cNormOf U) xHeight
    (View X 0 xHeight jl (jl + 1)).

(** The scale a pass leaves: the one it computed, or the default 1 when it
    left through [continue]. *)
Definition scale_of (s : option Real) : F :=
  match s with Some s => ofReal s | None => ofZF 1 end.

(** A pass finds the diagonal of a previous pass in [U] and resets it, and
    reads a column no previous pass wrote. *)
Lemma column_pass (U X : Matrix F) (st : solve_state) shift xHeight jl :
  U_frame U st ->
  (forall i, Get (st_X st) i jl = Get X i jl) ->
  col0_eq
    (solve_column
       (ShiftDiagonal (SetDiagonal (st_U st) (GetDiagonal U)) (negF shift))
       (cNormOf U) xHeight (View (st_X st) 0 xHeight jl (jl + 1))).1
    (column_result U X shift xHeight jl).1 /\
  (solve_column
     (ShiftDiagonal (SetDiagonal (st_U st) (GetDiagonal U)) (negF shift))
     (cNormOf U) xHeight (View (st_X st) 0 xHeight jl (jl + 1))).2 =
  (column_result U X shift xHeight jl).2.
Proof.
  intros (Hh & Hw & Hoff) Hcol.
  rewrite (mat_ext _ _ (SetDiagonal_restores U (st_U st) Hh Hw Hoff)).
  apply solve_column_col0.
  - cbn [View Width]. lia.
  - split; [reflexivity | split; [reflexivity|]].
    intros i. cbn [View Get]. rewrite Z.add_0_r. apply Hcol.
Qed.

(** The serial loop after its passes for the columns [1 .. cnt]. *)
Definition columns_solved (U shifts X : Matrix F) (cnt : Z)
    (st : solve_state) : Prop :=
  U_frame U st /\
  (forall i j,
     Get (st_X st) i j =
     if (1 <=? j) && (j <=? cnt) && (0 <=? i) && (i <? Z.min (Height U) j)
     then Get (column_result U X (Get shifts j 0) (Z.min (Height U) j) j).1
              i 0
     else Get X i j) /\
  (forall j c,
     Get (st_scales st) j c =
     if (1 <=? j) && (j <=? cnt) && (c =? 0)
     then scale_of
            (column_result U X (Get shifts j 0) (Z.min (Height U) j) j).2
     else ofZF 1).

Lemma diagonal_block_column_solved (U shifts X : Matrix F) cnt st :
  0 <= cnt ->
  columns_solved U shifts X cnt st ->
  columns_solved U shifts X (cnt + 1)
    (diagonal_block_column (GetDiagonal U) shifts (Height U) (cNormOf U)
       (cnt + 1) st).
Proof.
  intros Hcnt (HU & HX & Hs).
  split; [apply diagonal_block_column_U_frame, HU|].
  destruct (column_pass U X st (Get shifts (cnt + 1) 0)
              (Z.min (Height U) (cnt + 1)) (cnt + 1) HU)
    as ((_ & _ & Hget) & Hsc).
  { intros i. rewrite HX.
    replace (cnt + 1 <=? cnt) with false by (symmetry; apply Z.leb_gt; lia).
    rewrite andb_false_r. reflexivity. }
  unfold diagonal_block_column.
  destruct (solve_column _ _ _ _) as [xj sc]. cbn [fst snd] in Hget, Hsc.
  subst sc.
  set (res := column_result U X (Get shifts (cnt + 1) 0)
                (Z.min (Height U) (cnt + 1)) (cnt + 1)) in *.
  assert (HX' : forall i j,
    Get (WriteBack (st_X st) 0 (cnt + 1) (Z.min (Height U) (cnt + 1)) 1 xj)
        i j =
    if (1 <=? j) && (j <=? cnt + 1) && (0 <=? i) && (i <? Z.min (Height U) j)
    then Get (column_result U X (Get shifts j 0) (Z.min (Height U) j) j).1
             i 0
    else Get X i j).
  { intros i j. cbn [WriteBack Get].
    destruct (in_window 0 (cnt + 1) (Z.min (Height U) (cnt + 1)) 1 i j)
      eqn:Ewin; unfold in_window in Ewin.
    - assert (Hij : 0 <= i < Z.min (Height U) (cnt + 1) /\ j = cnt + 1)
        by (revert Ewin; bool_lia).
      destruct Hij as (Hi & ->).
      rewrite (cond_true ((1 <=? cnt + 1) && _ && _ && _)) by bool_lia.
      fold res. rewrite <- Hget. f_equal; lia.
    - rewrite HX. apply if_cond. revert Ewin. bool_lia. }
  assert (Hs' : forall (sc : option Real) j c,
    sc = res.2 ->
    Get (match sc with
         | None => st_scales st
         | Some s => SetEntry (st_scales st) (cnt + 1) 0 (ofReal s)
         end) j c =
    if (1 <=? j) && (j <=? cnt + 1) && (c =? 0)
    then scale_of
           (column_result U X (Get shifts j 0) (Z.min (Height U) j) j).2
    else ofZF 1).
  { intros sc j c ->.
    destruct ((j =? cnt + 1) && (c =? 0)) eqn:Ejc.
    - assert (Hjc : j = cnt + 1 /\ c = 0) by (revert Ejc; bool_lia).
      destruct Hjc as (-> & ->).
      rewrite (cond_true ((1 <=? cnt + 1) && _ && _)) by bool_lia.
      fold res. destruct res.2 as [s|]; cbn [SetEntry Get scale_of].
      + rewrite !Z.eqb_refl. reflexivity.
      + rewrite Hs. rewrite (cond_false ((1 <=? cnt + 1) && _ && _))
          by bool_lia. reflexivity.
    - transitivity (Get (st_scales st) j c).
      + destruct res.2 as [s|]; [|reflexivity].
        cbn [SetEntry Get]. rewrite Ejc. reflexivity.
      + rewrite Hs.
        destruct (Z.eq_dec j (cnt + 1)) as [->|Hj].
        * rewrite Z.eqb_refl in Ejc. cbn [andb] in Ejc. rewrite Ejc.
          rewrite !andb_false_r. reflexivity.
        * apply if_cond. bool_lia. }
  destruct res.2 as [s|] eqn:Eres; cbn [st_X st_scales];
    (split; [exact HX'|]); intros j c.
  - apply (Hs' (Some s)). reflexivity.
  - apply (Hs' None). reflexivity.
Qed.

Lemma diagonal_block_loop_solved (U shifts X : Matrix F) cnt :
  columns_solved U shifts X (Z.of_nat cnt)
    (diagonal_block_loop U shifts X cnt).
Proof.
  induction cnt as [|cnt IH].
  - split; [apply diagonal_block_loop_U_frame|].
    unfold diagonal_block_loop. cbn [for_up st_X st_scales Ones Get].
    change (Z.of_nat 0) with 0. split.
    + intros i j. rewrite (cond_false ((1 <=? j) && _ && _ && _)) by bool_lia.
      reflexivity.
    + intros j c. rewrite (cond_false ((1 <=? j) && _ && _)) by bool_lia.
      reflexivity.
  - unfold diagonal_block_loop in *. rewrite for_up_last.
    replace (Z.of_nat (Datatypes.S cnt)) with (Z.of_nat cnt + 1) by lia.
    replace (1 + Z.of_nat cnt) with (Z.of_nat cnt + 1) by lia.
    apply diagonal_block_column_solved; [lia | exact IH].
Qed.

(** X1: the columns are solved one by one, each on its own.  In what
    [MultiShiftDiagonalBlockSolve] returns, the first [Min(n,j)] rows of
    column [j], for [1 <= j < numShifts], are what the body of the loop
    gives on the [U] that was received, its diagonal shifted by
    [-shifts(j)], and on column [j] as it was received; the scale of the
    column is the one that pass computed, 1 if it left through [continue];
    every other entry of [X] is untouched, and every other scale is 1. *)
Theorem columns_are_solved_one_by_one (debug : bool) (U shifts X : Matrix F) :
  (dimension_checks U shifts X = None ->
   exists r, MultiShiftDiagonalBlockSolve debug U shifts X = Ok r) /\
  forall r, MultiShiftDiagonalBlockSolve debug U shifts X = Ok r ->
    (forall i j,
       Get (st_X r) i j =
       if (1 <=? j) && (j <? Height shifts) && (0 <=? i)
          && (i <? Z.min (Height U) j)
       then Get (column_result U X (Get shifts j 0) (Z.min (Height U) j) j).1
                i 0
       else Get X i j) /\
    (forall j c,
       Get (st_scales r) j c =
       if (1 <=? j) && (j <? Height shifts) && (c =? 0)
       then scale_of
              (column_result U X (Get shifts j 0) (Z.min (Height U) j) j).2
       else ofZF 1).
Proof.
  split.
  - intros Hd. unfold MultiShiftDiagonalBlockSolve.
    rewrite Hd. destruct debug; eexists; reflexivity.
  - intros r Hr. unfold MultiShiftDiagonalBlockSolve in Hr.
    destruct (if debug then dimension_checks U shifts X else None);
      [discriminate|].
    injection Hr as <-. cbn [st_X st_scales].
    destruct (diagonal_block_loop_solved U shifts X
                (Z.to_nat (Height shifts - 1))) as (_ & HX & Hs).
    split.
    + intros i j. rewrite HX. apply if_cond. bool_lia.
    + intros j c. rewrite Hs. apply if_cond. bool_lia.
Qed.

End Columns.

(** ** The distributed diagonal block solve

    [MultiShiftDiagonalBlockSolve] on [DistMatrix<F,STAR,STAR> U],
    [DistMatrix<F,VR,STAR> shifts], [DistMatrix<F,STAR,VR> X] and
    [DistMatrix<F,VR,STAR> scales], as one process runs it: on its copy
    [ULoc] of [U], on its local rows [shiftsLoc] of the shifts and on its
    local columns [XLoc] of the right-hand sides.  The routine does not
    communicate.  The source of [DistMatrix] is not part of the files at
    hand, so the distribution is a parameter: [GlobalRow] is
    [shifts.GlobalRow], [numShifts] and [XWidth] are the global
    [shifts.Height()] and [X.Width()], [scalesLocalHeight] is the local
    height of [scales] once [Ones( scales, numShifts, 1 )] has resized it,
    and [grids] is what [AssertSameGrids] raises, if anything. *)

Section Distributed.

Context {F Real : Type} `{Sc : Scalar F Real}.

(** One pass of [for( Int jLoc=0; jLoc<numLocalShifts; ++jLoc )]. *)
Definition dist_block_column (diag shiftsLoc : Matrix F) (n : Z)
    (cNorm : Z -> Real) (GlobalRow : Z -> Z) (jLoc : Z) (st : solve_state)
  : solve_state :=
  let j := GlobalRow jLoc in
  if j =? 0 then st
  else
    let xHeight := Z.min n j in
    (* Initialize triangular system *)
    let U := SetDiagonal (st_U st) diag in
    let U := ShiftDiagonal U (negF (Get shiftsLoc jLoc 0)) in
    let xj := View (st_X st) 0 xHeight jLoc (jLoc + 1) in
    let '(xj, scales_j) := solve_column U cNorm xHeight xj in
    let X := WriteBack (st_X st) 0 jLoc xHeight 1 xj in
    match scales_j with
    | None => mkState U X (st_scales st)
    | Some s => mkState U X (SetEntry (st_scales st) jLoc 0 (ofReal s))
    end.

(** The [DEBUG_ONLY] block, on the global dimensions. *)
Definition dist_dimension_checks (grids : option string) (numShifts XWidth : Z)
    (ULoc XLoc : Matrix F) : option string :=
  if negb (Height ULoc =? Width ULoc)
  then Some "Triangular matrix must be square"%string
  else if negb (Width ULoc =? Height XLoc)
  then Some "Matrix dimensions do not match"%string
  else if negb (numShifts =? XWidth)
  then Some "Incompatible number of shifts"%string
  else grids.

Definition dist_block_loop (GlobalRow : Z -> Z) (scalesLocalHeight : Z)
    (ULoc shiftsLoc XLoc : Matrix F) (cnt : nat) : solve_state :=
  let diag := GetDiagonal ULoc in
  let n := Height ULoc in
  let cNorm := cNormOf ULoc in
  for_up cnt 0 (dist_block_column diag shiftsLoc n cNorm GlobalRow)
    (mkState ULoc XLoc (Ones scalesLocalHeight 1)).

Definition MultiShiftDiagonalBlockSolve_dist (debug : bool)
    (grids : option string) (numShifts XWidth : Z) (GlobalRow : Z -> Z)
    (scalesLocalHeight : Z) (ULoc shiftsLoc XLoc : Matrix F)
  : Result solve_state :=
  match (if debug
         then dist_dimension_checks grids numShifts XWidth ULoc XLoc
         else None) with
  | Some msg => LogicError msg
  | None =>
      let diag := GetDiagonal ULoc in
      let numLocalShifts := Height shiftsLoc in
      let st := dist_block_loop GlobalRow scalesLocalHeight ULoc shiftsLoc
                  XLoc (Z.to_nat numLocalShifts) in
      (* Reset matrix diagonal *)
      Ok (mkState (SetDiagonal (st_U st) diag) (st_X st) (st_scales st))
  end.






End Distributed.

(** ** The blocked solve as a whole *)

Section Blocked.

Context {F Real : Type} `{Sc : Scalar F Real}.

Lemma MultiShiftSolve_Ok_preamble debug bsize (U shifts X : Matrix F) r :
  MultiShiftSolve debug bsize U shifts X = Ok r ->
  debug = true ->
  dimension_checks U shifts X = None /\
  lebR (snd OverflowParameters) (MaxNorm U) = false.
Proof.
  intros Hr ->. unfold MultiShiftSolve in Hr. cbn [andb] in Hr.
  destruct (dimension_checks U shifts X); [discriminate|].
  destruct OverflowParameters as [smallNum bigNum]. cbn [snd].
  destruct (lebR bigNum (MaxNorm U)); [discriminate|].
  split; reflexivity.
Qed.

(** X3: the serial [MultiShiftSolve] leaves [U] as it received it, whatever
    the number of shifts and of panels: it returns as soon as its preamble
    lets it, and the [U] it returns has the shape and every entry of the
    [U] it was given. *)
Theorem MultiShiftSolve_restores_U (debug : bool) (bsize : Z)
    (U shifts X : Matrix F) :
  0 < bsize -> Width X <= Height X ->
  ((debug = true ->
    dimension_checks U shifts X = None /\
    lebR (snd OverflowParameters) (MaxNorm U) = false) ->
   exists r, MultiShiftSolve debug bsize U shifts X = Ok r) /\
  (forall r, MultiShiftSolve debug bsize U shifts X = Ok r ->
     mat_eq (bs_U r) U).
Proof.
  intros Hb _. split.
  - intros Hdbg.
    destruct (MultiShiftSolve_frame debug bsize U shifts X Hb Hdbg)
      as (r & Hr & _).
    exists r. exact Hr.
  - intros r Hr.
    destruct (MultiShiftSolve_frame debug bsize U shifts X Hb
                (MultiShiftSolve_Ok_preamble _ _ _ _ _ _ Hr))
      as (r' & Hr' & HU & _).
    rewrite Hr' in Hr. injection Hr as <-. exact HU.
Qed.

(** X4: the serial [MultiShiftSolve] writes above the diagonal of [X]
    only: every entry [X(i,j)] with [i >= j] is returned as it was
    received, so column 0 is untouched and a right-hand side that is
    upper triangular stays so. *)
Theorem MultiShiftSolve_writes_above_diagonal (debug : bool) (bsize : Z)
    (U shifts X : Matrix F) :
  0 < bsize -> Width X <= Height X ->
  ((debug = true ->
    dimension_checks U shifts X = None /\
    lebR (snd OverflowParameters) (MaxNorm U) = false) ->
   exists r, MultiShiftSolve debug bsize U shifts X = Ok r) /\
  (forall r, MultiShiftSolve debug bsize U shifts X = Ok r ->
     forall i j, j <= i -> Get (bs_X r) i j = Get X i j).
Proof.
  intros Hb _. split.
  - intros Hdbg.
    destruct (MultiShiftSolve_frame debug bsize U shifts X Hb Hdbg)
      as (r & Hr & _).
    exists r. exact Hr.
  - intros r Hr.
    destruct (MultiShiftSolve_frame debug bsize U shifts X Hb
                (MultiShiftSolve_Ok_preamble _ _ _ _ _ _ Hr))
      as (r' & Hr' & _ & (_ & _ & Hlow) & _).
    rewrite Hr' in Hr. injection Hr as <-. exact Hlow.
Qed.

End Blocked.

(** ** The instance again: two shifts and panels of one row *)

Lemma MultiShiftSolve_restores_U_witness :
  exists r, MultiShiftSolve true 1 U_ex shifts_ex X_ex = Ok r /\
            mat_eq (bs_U r) U_ex.
Proof.
  destruct (MultiShiftSolve_restores_U true 1 U_ex shifts_ex X_ex)
    as (H1 & H2); [lia | cbn; lia |].
  destruct H1 as [r Hr].
  { intros _. split; vm_compute; reflexivity. }
  exists r. split; [exact Hr | apply H2, Hr].
Defined.

Lemma MultiShiftSolve_writes_above_diagonal_witness :
  exists r, MultiShiftSolve true 1 U_ex shifts_ex X_ex = Ok r /\
            forall i j, j <= i -> Get (bs_X r) i j = Get X_ex i j.
Proof.
  destruct (MultiShiftSolve_writes_above_diagonal true 1 U_ex shifts_ex X_ex)
    as (H1 & H2); [lia | cbn; lia |].
  destruct H1 as [r Hr].
  { intros _. split; vm_compute; reflexivity. }
  exists r. split; [exact Hr | apply H2, Hr].
Defined.

(** The second of two processes: it holds the rows 1, 3, ... of the
    shifts and the columns 1, 3, ... of the right-hand sides. *)
Definition GlobalRow_ex (jLoc : Z) : Z := 1 + 2 * jLoc.

Definition shiftsLoc_ex : Matrix Q :=
  mkMatrix 1 1 (fun jLoc _ => Get shifts_ex (GlobalRow_ex jLoc) 0).

Definition XLoc_ex : Matrix Q :=
  mkMatrix 2 1 (fun i jLoc => Get X_ex i (GlobalRow_ex jLoc)).


(** The local column of the instance, computed: [(1 - 3) x = 4]. *)
Example dist_solve_ex :
  match MultiShiftDiagonalBlockSolve_dist true None 2 2 GlobalRow_ex 1 U_ex
          shiftsLoc_ex XLoc_ex with
  | Ok r => Qeq_bool (Get (st_X r) 0 0) (-2) && Qeq_bool (Get (st_scales r) 0 0) 1
            && Qeq_bool (Get (st_U r) 0 0) 1
  | _ => false
  end = true.
Proof. vm_compute. reflexivity. Qed.

End TriangEig.

(* ===================================================================== *)
(** * Part II: the nodal remap of [DistNodalMultiVec]                     *)
(* ===================================================================== *)

Module NodalRemap.

(** How an operation ends when it does not return: an access outside a
    [std::vector] or a matrix, a [resize] to a negative length, or a
    [LogicError] raised by a [DEBUG_ONLY] check. *)
Inductive error :=
  | OutOfBounds
  | LengthError
  | LogicError (msg : string).

Inductive result (A : Type) :=
  | Ok (a : A)
  | Fail (e : error).
Arguments Ok {A} _.
Arguments Fail {A} _.

#[export] Instance result_ret : MRet result := @Ok.
#[export] Instance result_bind : MBind result :=
  fun A B f m => match m with Ok a => f a | Fail e => Fail e end.

(** [v[i]] read and written; outside the vector the behaviour of the source
    is undefined, which the model reports as [OutOfBounds]. *)
Definition vget {A} (v : list A) (i : nat) : result A :=
  match v !! i with Some a => Ok a | None => Fail OutOfBounds end.

Definition vset {A} (v : list A) (i : nat) (a : A) : result (list A) :=
  if decide (i < length v) then Ok (<[i:=a]> v) else Fail OutOfBounds.

(** [for( a : l ) body] threading the state [s]. *)
Fixpoint for_each {A St} (l : list A) (body : A -> St -> result St) (s : St)
  : result St :=
  match l with
  | [] => Ok s
  | a :: l' => s' ← body a s; for_each l' body s'
  end.

Fixpoint mapR {A B} (f : A -> result B) (l : list A) : result (list B) :=
  match l with
  | [] => Ok []
  | a :: l' => b ← f a; bs ← mapR f l'; Ok (b :: bs)
  end.

(** [i - first] for a local row index, which must not be negative. *)
Definition local_index (i first : nat) : result nat :=
  if decide (first <= i) then Ok (i - first) else Fail OutOfBounds.

(** Modelled from the spec: "global Scan/prefix-sum over count arrays";
    [Scan( sizes, offs )] fills [offs] with the exclusive prefix sums and
    returns the total.  Its source is not part of the files at hand. *)
Fixpoint scan_from (acc : nat) (sizes : list nat) : list nat * nat :=
  match sizes with
  | [] => ([], acc)
  | n :: rest =>
      let '(offs, total) := scan_from (acc + n) rest in (acc :: offs, total)
  end.

Definition Scan (sizes : list nat) : list nat * nat := scan_from 0 sizes.

(** Modelled from the spec: "each distributed supernode contributes only the
    shard owned by the local rank, computed via a cyclic shift over the
    node's row-communicator size".  [Shift( rank, alignment, stride )] is
    the first row of that shard, [stride_range shift n stride] lists the
    rows [shift, shift+stride, ...] below [n] that a loop
    [for( t=shift; t<n; t+=stride )] visits, and [Length] counts them. *)
Definition Shift (rank alignment stride : nat) : nat :=
  (rank + stride - alignment) mod stride.

Fixpoint stride_from (fuel t n stride : nat) : list nat :=
  match fuel with
  | O => []
  | S fuel' => if decide (t < n) then t :: stride_from fuel' (t + stride) n stride
               else []
  end.

Definition stride_range (shift n stride : nat) : list nat :=
  stride_from n shift n stride.

Definition Length (n shift stride : nat) : nat :=
  length (stride_range shift n stride).

(** The part of [SymmNodeInfo] and [DistSymmNodeInfo] the remap reads. *)
Record SymmNodeInfo := mkNode {
  size : nat;
  off : nat
}.

Record DistSymmNodeInfo := mkDistNode {
  dsize : nat;
  doff : nat;
  gridSize : nat;       (* nodeInfo.grid->Size() *)
  gridRank : nat;       (* nodeInfo.grid->VCRank() *)
  localSize : nat       (* nodeInfo.multiVecMeta.localSize *)
}.

(** [DistSymmInfo] as one process holds it. *)
Record DistSymmInfo := mkInfo {
  localNodes : list SymmNodeInfo;
  distNodes : list DistSymmNodeInfo
}.

(** Modelled from the spec: a flat vector is "ownership-partitioned" with
    "row-ownership queries ([RowOwner(i)] -> rank)".  For a vector of a
    given height on the communicator, [RowOwner i] is the rank owning row
    [i], and rank [q] holds the [LocalHeight q] rows from
    [FirstLocalRow q] on.  The source of [DistMultiVec] is not part of the
    files at hand, so the distribution is a parameter. *)
Record FlatLayout := mkLayout {
  RowOwner : nat -> nat;
  FirstLocalRow : nat -> nat;
  LocalHeight : nat -> nat
}.

Section Remap.

(** The entries, and what storage holds after a [Resize] until it is
    written. *)
Context {T : Type} (dflt : T).

(** The distribution of a flat vector of each height over the processes of
    the communicator. *)
Variable layout : nat -> FlatLayout.

(** [Matrix<T>]: the rows of a local dense matrix. *)
Record Matrix := mkMatrix {
  mat_width : nat;
  mat_rows : list (list T)
}.

Definition Height (M : Matrix) : nat := length (mat_rows M).

Definition Resize (h w : nat) : Matrix :=
  mkMatrix w (replicate h (replicate w dflt)).

Definition Get (M : Matrix) (t j : nat) : result T :=
  row ← vget (mat_rows M) t; vget row j.

Definition SetEntry (M : Matrix) (t j : nat) (v : T) : result Matrix :=
  row ← vget (mat_rows M) t;
  row ← vset row j v;
  rows ← vset (mat_rows M) t row;
  Ok (mkMatrix (mat_width M) rows).

(** [DistMatrix<T,VC,STAR>] as one process holds it. *)
Record DistMatrix := mkDistMatrix {
  dm_height : nat;
  dm_colShift : nat;
  dm_colStride : nat;
  dm_local : Matrix
}.

(** [XNode.SetGrid( grid ); XNode.Resize( height, width )] *)
Definition DistMatrix_Resize (node : DistSymmNodeInfo) (height width : nat)
  : DistMatrix :=
  let stride := gridSize node in
  let shift := Shift (gridRank node) 0 stride in
  mkDistMatrix height shift stride (Resize (Length height shift stride) width).

(** [DistMultiVec<T>] as one process holds it. *)
Record DistMultiVec := mkDistMultiVec {
  dmv_height : nat;
  dmv_width : nat;
  dmv_local : Matrix
}.

(** [X.Resize( height, width )] on rank [p]. *)
Definition DistMultiVec_Resize (p height width : nat) : DistMultiVec :=
  mkDistMultiVec height width
    (Resize (LocalHeight (layout height) p) width).

(** [DistNodalMultiVec<T>] as one process holds it. *)
Record DistNodalMultiVec := mkNodal {
  height_ : nat;
  width_ : nat;
  nodal_localNodes : list Matrix;
  nodal_distNodes : list DistMatrix
}.

(** [DistNodalMultiVec()] *)
Definition DistNodalMultiVec_default : DistNodalMultiVec :=
  mkNodal 0 0 [] [].

Definition LocalHeightOf (N : DistNodalMultiVec) : nat :=
  let localHeight :=
    foldl (fun h node => h + Height node) 0 (nodal_localNodes N) in
  foldl (fun h node => h + Height (dm_local node)) localHeight
        (nodal_distNodes N).

(** [UpdateHeight()] *)
Definition UpdateHeight (N : DistNodalMultiVec) : DistNodalMultiVec :=
  let h := foldl (fun h node => h + Height node) 0 (nodal_localNodes N) in
  let h := foldl (fun h node => h + dm_height node) h (nodal_distNodes N) in
  mkNodal h (width_ N) (nodal_localNodes N) (nodal_distNodes N).

(** [UpdateWidth()]: [width_ = localNodes[0].Width()]. *)
Definition UpdateWidth (N : DistNodalMultiVec) : result DistNodalMultiVec :=
  node ← vget (nodal_localNodes N) 0;
  Ok (mkNodal (height_ N) (mat_width node)
        (nodal_localNodes N) (nodal_distNodes N)).

(** ** The exchanges *)

(** Modelled from the spec: "[AllToAll] with variable per-rank
    counts/offsets".  A participant is its buffer with the counts and
    offsets it passes; rank [q] receives from every rank [p], at
    [recvOffs[p]], the [sendSizes[q]] entries rank [p] holds at
    [sendOffs[q]].  A message longer than the count it is received with,
    and a window outside its buffer, are errors. *)
Definition participant (A : Type) : Type := list A * list nat * list nat.

Definition message {A} (sender : participant A) (q : nat) : result (list A) :=
  let '(buf, sizes, offs) := sender in
  n ← vget sizes q;
  o ← vget offs q;
  if decide (o + n <= length buf) then Ok (take n (drop o buf))
  else Fail OutOfBounds.

Definition receive {A} (sizes offs : list nat) (p : nat) (msg : list A)
    (buf : list A) : result (list A) :=
  n ← vget sizes p;
  o ← vget offs p;
  if decide (length msg <= n /\ o + n <= length buf)
  then Ok (take o buf ++ msg ++ drop (o + length msg) buf)
  else Fail OutOfBounds.

Definition AllToAllv {A} (senders receivers : list (participant A))
  : result (list (list A)) :=
  mapR (fun '(q, (buf, sizes, offs)) =>
          for_each (imap pair senders)
            (fun '(p, sender) buf =>
               msg ← message sender q; receive sizes offs p msg buf)
            buf)
       (imap pair receivers).

(** [mpi::AllToAll( sbuf, 1, rbuf, 1, comm )]: rank [p] receives entry [p]
    of the buffer of every rank. *)
Definition AllToAll {A} (bufs : list (list A)) : result (list (list A)) :=
  mapR (fun p => mapR (fun buf => vget buf p) bufs) (seq 0 (length bufs)).

(** ** [Pull] and [Push]

    The program is SPMD: one [DistSymmInfo], one shard of the flat vector
    and one nodal vector per process, in lists indexed by the rank.  The
    per-process code between two exchanges is a function of the rank; the
    exchanges act on the list of all participants. *)

Definition per_rank {A} (commSize : nat) (f : nat -> result A)
  : result (list A) :=
  mapR f (seq 0 commSize).

(** [mappedInds[off++] = v] *)
Definition push_index (v : nat) (st : nat * list nat)
  : result (nat * list nat) :=
  let '(o, mappedInds) := st in
  mappedInds ← vset mappedInds o v;
  Ok (o + 1, mappedInds).

(** The loop over the local nodes that [Pull] and [Push] share:
    [mappedInds[off++] = nodeInfo.off+t] for [t < nodeInfo.size]. *)
Definition fill_local_indices (nodes : list SymmNodeInfo)
    (st : nat * list nat) : result (nat * list nat) :=
  for_each nodes
    (fun nodeInfo st =>
       for_each (seq 0 (size nodeInfo))
         (fun t st => push_index (off nodeInfo + t) st) st)
    st.

(** Modelled from the spec: "translate indices through [inverseMap]";
    [inverseMap.Translate( mappedInds )] replaces every index by its
    image.  The source of [DistMap] is not part of the files at hand. *)
Definition Translate (inverseMap : list nat) (mappedInds : list nat)
  : result (list nat) :=
  mapR (vget inverseMap) mappedInds.

(** [++sizes[ X.RowOwner( mappedInds[s] ) ]] over all [s]. *)
Definition count_owners (L : FlatLayout) (commSize : nat)
    (mappedInds : list nat) : result (list nat) :=
  for_each mappedInds
    (fun i sizes =>
       let q := RowOwner L i in
       c ← vget sizes q; vset sizes q (c + 1))
    (replicate commSize 0).

(** What a process holds when [Pull] reaches its first exchange. *)
Record pull_request := mkRequest {
  pr_numRecvInds : nat;
  pr_mappedInds : list nat;
  pr_recvSizes : list nat;
  pr_recvOffs : list nat;
  pr_recvInds : list nat
}.

(** [Pull], from its start to "Coordinate for the coming AllToAll". *)
Definition Pull_request (debug : bool) (inverseMap : list nat)
    (commSize : nat) (X : DistMultiVec) (info : DistSymmInfo)
  : result pull_request :=
  let L := layout (dmv_height X) in
  (* Traverse our part of the elimination tree *)
  let numRecvInds :=
    foldl (fun n node => n + size node) 0 (localNodes info) in
  let numRecvInds :=
    foldl (fun n node => n + localSize node) numRecvInds
          (drop 1 (distNodes info)) in
  (* Fill the set of indices that we need to map to the original ordering *)
  st ← fill_local_indices (localNodes info) (0, replicate numRecvInds 0);
  '(o, mappedInds) ←
    for_each (drop 1 (distNodes info))
      (fun nodeInfo st =>
         let shift := Shift (gridRank nodeInfo) 0 (gridSize nodeInfo) in
         for_each (stride_range shift (dsize nodeInfo) (gridSize nodeInfo))
           (fun t st => push_index (doff nodeInfo + t) st) st)
      st;
  if debug && negb (o =? numRecvInds)
  then Fail (LogicError "mappedInds was filled incorrectly")
  else
    (* Convert the indices to the original ordering *)
    mappedInds ← Translate inverseMap mappedInds;
    (* Figure out how many entries each process owns that we need *)
    recvSizes ← count_owners L commSize mappedInds;
    let '(recvOffs, _) := Scan recvSizes in
    '(_, recvInds) ←
      for_each mappedInds
        (fun i '(offs, recvInds) =>
           let q := RowOwner L i in
           o ← vget offs q;
           recvInds ← vset recvInds o i;
           offs ← vset offs q (o + 1);
           Ok (offs, recvInds))
        (recvOffs, replicate numRecvInds 0);
    Ok (mkRequest numRecvInds mappedInds recvSizes recvOffs recvInds).

(** "Fulfill the requests" on rank [p]. *)
Definition Pull_fulfill (p : nat) (X : DistMultiVec) (numSendInds : nat)
    (sendInds : list nat) : result (list T) :=
  let width := dmv_width X in
  let firstLocalRow := FirstLocalRow (layout (dmv_height X)) p in
  for_each (seq 0 numSendInds)
    (fun s sendVals =>
       for_each (seq 0 width)
         (fun j sendVals =>
            i ← vget sendInds s;
            iLoc ← local_index i firstLocalRow;
            v ← Get (dmv_local X) iLoc j;
            vset sendVals (s * width + j) v)
         sendVals)
    (replicate (numSendInds * width) dflt).

(** The innermost loop of "Unpack the values":
    [node.Set( t, j, recvVals[offs[q]++] )] for [j < width]. *)
Definition unpack_row (width : nat) (recvVals : list T) (q t : nat)
    (st : list nat * Matrix) : result (list nat * Matrix) :=
  for_each (seq 0 width)
    (fun j '(offs, node) =>
       o ← vget offs q;
       v ← vget recvVals o;
       node ← SetEntry node t j v;
       offs ← vset offs q (o + 1);
       Ok (offs, node))
    st.

(** The rows [t < rows] of one node of "Unpack the values". *)
Definition unpack_node (L : FlatLayout) (width : nat)
    (mappedInds : list nat) (recvVals : list T) (rows : nat)
    (st : nat * list nat * Matrix) : result (nat * list nat * Matrix) :=
  for_each (seq 0 rows)
    (fun t '(o, offs, node) =>
       i ← vget mappedInds o;
       let q := RowOwner L i in
       '(offs, node) ← unpack_row width recvVals q t (offs, node);
       Ok (o + 1, offs, node))
    st.

(** "Unpack the values" of [Pull]. *)
Definition Pull_unpack (debug : bool) (X : DistMultiVec)
    (info : DistSymmInfo) (req : pull_request) (recvOffs : list nat)
    (recvVals : list T) : result DistNodalMultiVec :=
  let L := layout (dmv_height X) in
  let width := dmv_width X in
  let numDist := length (distNodes info) in
  '(o, offs, localNodes') ←
    for_each (localNodes info)
      (fun nodeInfo '(o, offs, nodes) =>
         '(o, offs, node) ←
           unpack_node L width (pr_mappedInds req) recvVals (size nodeInfo)
             (o, offs, Resize (size nodeInfo) width);
         Ok (o, offs, nodes ++ [node]))
      (0, recvOffs, []);
  (* distNodes.resize( numDist-1 ) *)
  if decide (numDist = 0) then Fail LengthError
  else
    '(o, offs, distNodes') ←
      for_each (drop 1 (distNodes info))
        (fun nodeInfo '(o, offs, nodes) =>
           let XNode := DistMatrix_Resize nodeInfo (dsize nodeInfo) width in
           let localHeight := Height (dm_local XNode) in
           '(o, offs, loc) ←
             unpack_node L width (pr_mappedInds req) recvVals localHeight
               (o, offs, dm_local XNode);
           Ok (o, offs,
               nodes ++ [mkDistMatrix (dm_height XNode) (dm_colShift XNode)
                           (dm_colStride XNode) loc]))
        (o, offs, []);
    if debug && negb (o =? pr_numRecvInds req)
    then Fail (LogicError "Unpacked wrong number of indices")
    else Ok (mkNodal (dmv_height X) (dmv_width X) localNodes' distNodes').

Definition scaled (width : nat) (v : list nat) : list nat :=
  fmap (fun n => n * width) v.

(** [DistNodalMultiVec<T>::Pull( inverseMap, info, X )] on all processes
    of the communicator of [X]. *)
Definition Pull (debug : bool) (inverseMap : list nat)
    (infos : list DistSymmInfo) (X : list DistMultiVec)
  : result (list DistNodalMultiVec) :=
  let commSize := length X in
  reqs ← per_rank commSize (fun p =>
    Xp ← vget X p; info ← vget infos p;
    Pull_request debug inverseMap commSize Xp info);
  (* Coordinate for the coming AllToAll to exchange the indices of X *)
  sendSizes ← AllToAll (fmap pr_recvSizes reqs);
  let sendOffs := fmap (fun sizes => fst (Scan sizes)) sendSizes in
  let numSendInds := fmap (fun sizes => snd (Scan sizes)) sendSizes in
  (* Request the indices *)
  sendInds ← AllToAllv
    (fmap (fun r => (pr_recvInds r, pr_recvSizes r, pr_recvOffs r)) reqs)
    (zip (zip (fmap (fun n => replicate n 0) numSendInds) sendSizes) sendOffs);
  (* Fulfill the requests *)
  sendVals ← per_rank commSize (fun p =>
    Xp ← vget X p; n ← vget numSendInds p; inds ← vget sendInds p;
    Pull_fulfill p Xp n inds);
  (* Reply with the values *)
  widths ← per_rank commSize (fun p => Xp ← vget X p; Ok (dmv_width Xp));
  recvVals ← AllToAllv
    (zip (zip sendVals (zip_with scaled widths sendSizes))
         (zip_with scaled widths sendOffs))
    (zip_with (fun w r =>
                 (replicate (pr_numRecvInds r * w) dflt,
                  scaled w (pr_recvSizes r), scaled w (pr_recvOffs r)))
              widths reqs);
  (* Unpack the values *)
  per_rank commSize (fun p =>
    Xp ← vget X p; info ← vget infos p; req ← vget reqs p;
    vals ← vget recvVals p;
    Pull_unpack debug Xp info req
      (scaled (dmv_width Xp) (pr_recvOffs req)) vals).

(** What a process holds when [Push] reaches its first exchange. *)
Record push_send := mkSend {
  ps_height : nat;
  ps_width : nat;
  ps_sendSizes : list nat;
  ps_sendOffs : list nat;
  ps_sendInds : list nat;
  ps_sendVals : list T
}.

(** The rows [t < rows] of one node of "Pack the send indices and values";
    [get t j] reads entry [(t,j)] of the node. *)
Definition pack_node (L : FlatLayout) (width : nat) (mappedInds : list nat)
    (rows : nat) (get : nat -> nat -> result T)
    (st : nat * list nat * list nat * list T)
  : result (nat * list nat * list nat * list T) :=
  for_each (seq 0 rows)
    (fun t '(o, offs, sendInds, sendVals) =>
       i ← vget mappedInds o;
       let q := RowOwner L i in
       sendVals ←
         for_each (seq 0 width)
           (fun j sendVals =>
              oq ← vget offs q;
              v ← get t j;
              vset sendVals (oq * width + j) v)
           sendVals;
       oq ← vget offs q;
       sendInds ← vset sendInds oq i;
       offs ← vset offs q (oq + 1);
       Ok (o + 1, offs, sendInds, sendVals))
    st.

(** [Push], from its start to "Coordinate for the coming AllToAll". *)
Definition Push_pack (inverseMap : list nat) (commSize : nat)
    (N : DistNodalMultiVec) (info : DistSymmInfo) : result push_send :=
  let numDist := length (distNodes info) in
  let numLocal := length (localNodes info) in
  (* info.distNodes.back() *)
  rootNode ← (if decide (numDist = 0) then Fail OutOfBounds
              else vget (distNodes info) (numDist - 1));
  let height := dsize rootNode + doff rootNode in
  let width := width_ N in
  let L := layout height in
  (* Fill the set of indices that we need to map to the original ordering *)
  let numSendInds := LocalHeightOf N in
  st ← fill_local_indices (localNodes info) (0, replicate numSendInds 0);
  '(_, mappedInds) ←
    for_each (seq 1 (numDist - 1))
      (fun s st =>
         nodeInfo ← vget (distNodes info) s;
         XNode ← vget (nodal_distNodes N) (s - 1);
         for_each (stride_range (dm_colShift XNode) (dm_height XNode)
                     (dm_colStride XNode))
           (fun t st => push_index (doff nodeInfo + t) st) st)
      st;
  (* Convert the indices to the original ordering *)
  mappedInds ← Translate inverseMap mappedInds;
  (* Figure out how many indices each process owns that we need to send *)
  sendSizes ← count_owners L commSize mappedInds;
  let '(sendOffs, _) := Scan sendSizes in
  (* Pack the send indices and values *)
  st ←
    for_each (seq 0 numLocal)
      (fun s st =>
         nodeInfo ← vget (localNodes info) s;
         pack_node L width mappedInds (size nodeInfo)
           (fun t j => node ← vget (nodal_localNodes N) s; Get node t j) st)
      (0, sendOffs, replicate numSendInds 0,
       replicate (numSendInds * width) dflt);
  '(_, _, sendInds, sendVals) ←
    for_each (seq 1 (numDist - 1))
      (fun s st =>
         XNode ← vget (nodal_distNodes N) (s - 1);
         let localHeight := Height (dm_local XNode) in
         pack_node L width mappedInds localHeight
           (fun tLoc j => Get (dm_local XNode) tLoc j) st)
      st;
  Ok (mkSend height width sendSizes sendOffs sendInds sendVals).

(** "Unpack the values" of [Push] on rank [p], into the [X] it resized. *)
Definition Push_unpack (p height width numRecvInds : nat)
    (recvInds : list nat) (recvVals : list T) : result DistMultiVec :=
  let X := DistMultiVec_Resize p height width in
  let firstLocalRow := FirstLocalRow (layout height) p in
  loc ←
    for_each (seq 0 numRecvInds)
      (fun s loc =>
         i ← vget recvInds s;
         iLocal ← local_index i firstLocalRow;
         for_each (seq 0 width)
           (fun j loc =>
              v ← vget recvVals (s * width + j);
              SetEntry loc iLocal j v)
           loc)
      (dmv_local X);
  Ok (mkDistMultiVec height width loc).

(** [DistNodalMultiVec<T>::Push( inverseMap, info, X )] on all processes
    of the communicator of the root node. *)
Definition Push (debug : bool) (inverseMap : list nat)
    (infos : list DistSymmInfo) (Ns : list DistNodalMultiVec)
  : result (list DistMultiVec) :=
  let commSize := length infos in
  packs ← per_rank commSize (fun p =>
    N ← vget Ns p; info ← vget infos p;
    Push_pack inverseMap commSize N info);
  (* Coordinate for the coming AllToAll to exchange the indices of x *)
  recvSizes ← AllToAll (fmap ps_sendSizes packs);
  let recvOffs := fmap (fun sizes => fst (Scan sizes)) recvSizes in
  let numRecvInds := fmap (fun sizes => snd (Scan sizes)) recvSizes in
  _ ← per_rank commSize (fun p =>
    pk ← vget packs p; n ← vget numRecvInds p;
    if debug && negb (n =? LocalHeight (layout (ps_height pk)) p)
    then Fail (LogicError "numRecvInds was not equal to local height")
    else Ok tt);
  (* Send the indices *)
  recvInds ← AllToAllv
    (fmap (fun pk => (ps_sendInds pk, ps_sendSizes pk, ps_sendOffs pk)) packs)
    (zip (zip (fmap (fun n => replicate n 0) numRecvInds) recvSizes) recvOffs);
  (* Send the values *)
  recvVals ← AllToAllv
    (fmap (fun pk => (ps_sendVals pk, scaled (ps_width pk) (ps_sendSizes pk),
                     scaled (ps_width pk) (ps_sendOffs pk))) packs)
    (zip_with (fun pk '(n, sizes, offs) =>
                 (replicate (n * ps_width pk) dflt,
                  scaled (ps_width pk) sizes, scaled (ps_width pk) offs))
              packs (zip (zip numRecvInds recvSizes) recvOffs));
  (* Unpack the values *)
  per_rank commSize (fun p =>
    pk ← vget packs p; n ← vget numRecvInds p;
    inds ← vget recvInds p; vals ← vget recvVals p;
    Push_unpack p (ps_height pk) (ps_width pk) n inds vals).

(** ** Reasoning about the loops *)

Lemma vget_Ok {A} (v : list A) i a : v !! i = Some a -> vget v i = Ok a.
Proof. intros H. unfold vget. rewrite H. reflexivity. Qed.

Lemma vset_Ok {A} (v : list A) i a :
  i < length v -> vset v i a = Ok (<[i:=a]> v).
Proof. intros H. unfold vset. destruct (decide _); [reflexivity | lia]. Qed.

Lemma local_index_Ok i first : first <= i -> local_index i first = Ok (i - first).
Proof. intros H. unfold local_index. destruct (decide _); [reflexivity | lia]. Qed.

Lemma for_each_app {A St} (l1 l2 : list A) (body : A -> St -> result St) s :
  for_each (l1 ++ l2) body s = (s' ← for_each l1 body s; for_each l2 body s').
Proof.
  revert s. induction l1 as [|a l1 IH]; intros s; [reflexivity|].
  simpl. destruct (body a s) as [s'|e]; simpl; [apply IH | reflexivity].
Qed.

(** A loop keeps an invariant indexed by the number of passes made. *)
Lemma for_each_invariant {A St} (I : nat -> St -> Prop) (l : list A)
    (body : A -> St -> result St) s :
  I 0 s ->
  (forall k a s, l !! k = Some a -> I k s ->
                 exists s', body a s = Ok s' /\ I (S k) s') ->
  exists s', for_each l body s = Ok s' /\ I (length l) s'.
Proof.
  revert I s. induction l as [|a l IH]; intros I s H0 Hstep.
  - exists s. split; [reflexivity | exact H0].
  - destruct (Hstep 0 a s eq_refl H0) as (s1 & Hb & H1).
    destruct (IH (fun k => I (S k)) s1 H1) as (s2 & Hrun & H2).
    { intros k b t Hk Ht. apply (Hstep (S k) b t Hk Ht). }
    exists s2. split; [|exact H2]. simpl. rewrite Hb. exact Hrun.
Qed.

Lemma for_each_ext {A St} (l : list A) (f g : A -> St -> result St) s :
  (forall a s, a ∈ l -> f a s = g a s) ->
  for_each l f s = for_each l g s.
Proof.
  revert s. induction l as [|a l IH]; intros s H; [reflexivity|].
  simpl. rewrite (H a s) by left.
  destruct (g a s); simpl; [|reflexivity].
  apply IH. intros b t Hb. apply H. right. exact Hb.
Qed.

(** Nested loops are one loop over the concatenated ranges. *)
Lemma for_each_bind {A B St} (l : list A) (rng : A -> list B)
    (body : A -> B -> St -> result St) s :
  for_each l (fun a s => for_each (rng a) (body a) s) s =
  for_each (l ≫= (fun a => pair a <$> rng a)) (fun ab s => body ab.1 ab.2 s) s.
Proof.
  revert s. induction l as [|a l IH]; intros s; [reflexivity|].
  simpl. rewrite for_each_app.
  assert (E : forall s, for_each (pair a <$> rng a)
                          (fun ab s => body ab.1 ab.2 s) s
                        = for_each (rng a) (body a) s).
  { clear. induction (rng a) as [|b r IHr]; intros s; [reflexivity|].
    simpl. destruct (body a b s); simpl; [apply IHr | reflexivity]. }
  rewrite E. destruct (for_each (rng a) (body a) s); simpl;
    [apply IH | reflexivity].
Qed.

Lemma mapR_Ok {A B} (f : A -> result B) (g : A -> B) (l : list A) :
  (forall a, a ∈ l -> f a = Ok (g a)) -> mapR f l = Ok (g <$> l).
Proof.
  induction l as [|a l IH]; intros H; [reflexivity|].
  simpl. rewrite (H a) by left. simpl.
  rewrite IH; [reflexivity|]. intros b Hb. apply H. right. exact Hb.
Qed.

Lemma per_rank_Ok {A} n (f : nat -> result A) (g : nat -> A) :
  (forall p, p < n -> f p = Ok (g p)) -> per_rank n f = Ok (g <$> seq 0 n).
Proof.
  intros H. apply mapR_Ok. intros p Hp.
  apply elem_of_seq in Hp. apply H. lia.
Qed.

(** Filling a vector from position [length done] on. *)
Lemma push_index_all {A} (f : A -> nat) (l : list A) (done rest : list nat) :
  length l <= length rest ->
  for_each l (fun t st => push_index (f t) st) (length done, done ++ rest) =
  Ok (length done + length l, done ++ (f <$> l) ++ drop (length l) rest).
Proof.
  revert done rest. induction l as [|a l IH]; intros done rest Hlen.
  - simpl. rewrite Nat.add_0_r. reflexivity.
  - destruct rest as [|x rest]; [simpl in Hlen; lia|].
    simpl. rewrite vset_Ok by (rewrite length_app; simpl; lia).
    simpl.
    replace (<[length done:=f a]> (done ++ x :: rest))
      with ((done ++ [f a]) ++ rest).
    2:{ rewrite <- (Nat.add_0_r (length done)) at 1.
        rewrite insert_app_r. simpl. rewrite <- app_assoc. reflexivity. }
    replace (length done + 1) with (length (done ++ [f a]))
      by (rewrite length_app; reflexivity).
    rewrite IH by (simpl in Hlen; lia).
    rewrite length_app, <- !app_assoc. simpl. do 2 f_equal. lia.
Qed.

(** ** Prefix sums and segments *)

Lemma scan_from_spec acc sizes :
  scan_from acc sizes =
  ((fun q => acc + sum_list (take q sizes)) <$> seq 0 (length sizes),
   acc + sum_list sizes).
Proof.
  revert acc. induction sizes as [|n sizes IH]; intros acc.
  - simpl. f_equal. lia.
  - simpl. rewrite IH. f_equal; [|lia].
    f_equal; [f_equal; simpl; lia|].
    rewrite <- fmap_S_seq, <- list_fmap_compose.
    apply list_fmap_ext. intros i q _. simpl. lia.
Qed.

Lemma Scan_spec sizes :
  Scan sizes =
  ((fun q => sum_list (take q sizes)) <$> seq 0 (length sizes),
   sum_list sizes).
Proof. unfold Scan. rewrite scan_from_spec. reflexivity. Qed.

Lemma take_fmap_seq {A} (f : nat -> A) q n :
  q <= n -> take q (f <$> seq 0 n) = f <$> seq 0 q.
Proof.
  intros H. rewrite <- fmap_take, take_seq. f_equal. f_equal. lia.
Qed.

Lemma lookup_fmap_seq {A} (f : nat -> A) q n :
  q < n -> (f <$> seq 0 n) !! q = Some (f q).
Proof.
  intros H. rewrite list_lookup_fmap, lookup_seq_lt by exact H. reflexivity.
Qed.

(** The offset of segment [q] in the concatenation of [segs]. *)
Definition seg_off {A} (segs : list (list A)) (q : nat) : nat :=
  sum_list (length <$> take q segs).

Lemma insert_join {A} (segs : list (list A)) q j v sg :
  segs !! q = Some sg -> j < length sg ->
  <[seg_off segs q + j := v]> (mjoin segs) =
  mjoin (<[q := <[j := v]> sg]> segs).
Proof.
  revert q. induction segs as [|s0 segs IH]; intros q Hq Hj; [discriminate|].
  destruct q as [|q]; simpl in *.
  - injection Hq as ->. unfold seg_off. simpl.
    apply insert_app_l. exact Hj.
  - unfold seg_off in *. simpl.
    rewrite <- Nat.add_assoc, insert_app_r. f_equal. apply IH; assumption.
Qed.

Lemma segment_of_join {A} (segs : list (list A)) q sg :
  segs !! q = Some sg ->
  take (length sg) (drop (seg_off segs q) (mjoin segs)) = sg.
Proof.
  revert q. induction segs as [|s0 segs IH]; intros q Hq; [discriminate|].
  destruct q as [|q]; simpl in *.
  - injection Hq as ->. unfold seg_off. simpl. apply take_app_length.
  - unfold seg_off in *. simpl. rewrite drop_app_add'; [|reflexivity].
    apply IH. exact Hq.
Qed.

Lemma lookup_join_segment {A} (segs : list (list A)) q sg j x :
  segs !! q = Some sg -> sg !! j = Some x ->
  mjoin segs !! (seg_off segs q + j) = Some x.
Proof.
  intros Hq Hj. apply join_lookup_Some. exists q, sg, j. auto.
Qed.

Lemma seg_off_fmap_seq {A} (F : nat -> list A) q n :
  q <= n ->
  seg_off (F <$> seq 0 n) q = sum_list ((fun r => length (F r)) <$> seq 0 q).
Proof.
  intros H. unfold seg_off. rewrite take_fmap_seq by exact H.
  rewrite <- list_fmap_compose. reflexivity.
Qed.

Lemma join_replicates {A} (d : A) (ns : list nat) :
  mjoin ((fun n => replicate n d) <$> ns) = replicate (sum_list ns) d.
Proof.
  induction ns as [|n ns IH]; [reflexivity|].
  csimpl. rewrite IH, replicate_add. reflexivity.
Qed.

(** ** Buckets: the stable distribution of a list over [nproc] keys *)

Section Buckets.

Context {A : Type} (key : A -> nat) (nproc : nat).

Definition bucket (q : nat) (l : list A) : list A :=
  filter (fun a => key a = q) l.

Definition counts (l : list A) : list nat :=
  (fun q => length (bucket q l)) <$> seq 0 nproc.

Definition base (l : list A) (q : nat) : nat :=
  sum_list ((fun r => length (bucket r l)) <$> seq 0 q).

(** The bucket pointers after the first [k] elements were placed. *)
Definition ptrs (l : list A) (k : nat) : list nat :=
  (fun q => base l q + length (bucket q (take k l))) <$> seq 0 nproc.

(** The buffer after the first [k] elements were placed, [g] being what is
    stored for an element and [d] what the buffer held. *)
Definition placed {B} (g : A -> B) (d : B) (l : list A) (k : nat) : list B :=
  mjoin ((fun q => (g <$> bucket q (take k l)) ++
                   replicate (length (bucket q l) -
                              length (bucket q (take k l))) d)
         <$> seq 0 nproc).

Definition bucketed {B} (g : A -> B) (l : list A) : list B :=
  mjoin ((fun q => g <$> bucket q l) <$> seq 0 nproc).

Lemma bucket_split l k a :
  l !! k = Some a ->
  bucket (key a) l =
  bucket (key a) (take k l) ++ a :: bucket (key a) (drop (S k) l).
Proof.
  intros Hk. unfold bucket.
  rewrite <- (take_drop_middle l k a Hk) at 1.
  rewrite filter_app, filter_cons_True by reflexivity. reflexivity.
Qed.

Lemma bucket_take_S l k a q :
  l !! k = Some a ->
  bucket q (take (S k) l) =
  bucket q (take k l) ++ (if decide (key a = q) then [a] else []).
Proof.
  intros Hk. unfold bucket. rewrite (take_S_r l k a Hk), filter_app.
  reflexivity.
Qed.

(** The element at position [k] is the next one of its bucket. *)
Lemma bucket_next l k a :
  l !! k = Some a ->
  bucket (key a) l !! length (bucket (key a) (take k l)) = Some a.
Proof.
  intros Hk. rewrite (bucket_split l k a Hk).
  rewrite lookup_app_r by lia. rewrite Nat.sub_diag. reflexivity.
Qed.

Lemma sum_indicator (f : nat -> nat) q0 n :
  sum_list ((fun q => f q + (if decide (q0 = q) then 1 else 0)) <$> seq 0 n) =
  sum_list (f <$> seq 0 n) + (if decide (q0 < n) then 1 else 0).
Proof.
  induction n as [|n IH]; [reflexivity|].
  rewrite !seq_S, !fmap_app, !sum_list_with_app, IH. simpl.
  repeat destruct (decide _); lia.
Qed.

Lemma sum_counts l :
  (forall a, a ∈ l -> key a < nproc) -> sum_list (counts l) = length l.
Proof.
  unfold counts. induction l as [|a l IH]; intros Hkey.
  - simpl. rewrite sum_list_fmap_const. lia.
  - rewrite (list_fmap_ext _
               (fun q => length (bucket q l) +
                         (if decide (key a = q) then 1 else 0))).
    2:{ intros i q _. unfold bucket. rewrite filter_cons.
        destruct (decide _); simpl; lia. }
    rewrite sum_indicator, IH.
    + destruct (decide _) as [|Hn]; [simpl; lia|].
      exfalso. apply Hn. apply Hkey. left.
    + intros b Hb. apply Hkey. right. exact Hb.
Qed.

Lemma length_counts l : length (counts l) = nproc.
Proof. unfold counts. rewrite length_fmap, length_seq. reflexivity. Qed.

Lemma Scan_counts l :
  Scan (counts l) = (base l <$> seq 0 nproc, sum_list (counts l)).
Proof.
  rewrite Scan_spec, length_counts. f_equal.
  apply list_fmap_ext. intros i q Hq. apply lookup_seq in Hq as [-> Hq].
  unfold counts, base. simpl. rewrite take_fmap_seq by lia. reflexivity.
Qed.

Lemma ptrs_0 l : ptrs l 0 = base l <$> seq 0 nproc.
Proof.
  unfold ptrs. apply list_fmap_ext. intros i q _. simpl. lia.
Qed.

Lemma ptrs_lookup l k q :
  q < nproc -> ptrs l k !! q = Some (base l q + length (bucket q (take k l))).
Proof.
  intros H. unfold ptrs.
  apply (lookup_fmap_seq
           (fun q => base l q + length (bucket q (take k l)))), H.
Qed.

Lemma length_ptrs l k : length (ptrs l k) = nproc.
Proof. unfold ptrs. rewrite length_fmap, length_seq. reflexivity. Qed.

Lemma ptrs_step l k a :
  l !! k = Some a -> key a < nproc ->
  <[key a := base l (key a) + length (bucket (key a) (take k l)) + 1]>
    (ptrs l k) = ptrs l (S k).
Proof.
  intros Hk Hq. apply list_eq. intros q.
  destruct (decide (q < nproc)) as [Hlt|Hge].
  - rewrite (ptrs_lookup l (S k) q Hlt), (bucket_take_S l k a q Hk).
    destruct (decide (key a = q)) as [<-|Hne].
    + rewrite list_lookup_insert_eq by (rewrite length_ptrs; exact Hq).
      rewrite length_app. simpl. f_equal. lia.
    + rewrite list_lookup_insert_ne by exact Hne.
      rewrite (ptrs_lookup l k q Hlt), app_nil_r. reflexivity.
  - rewrite !lookup_ge_None_2; [reflexivity| |];
      rewrite ?length_insert, length_ptrs; lia.
Qed.

Lemma placed_0 {B} (g : A -> B) d l :
  (forall a, a ∈ l -> key a < nproc) ->
  placed g d l 0 = replicate (length l) d.
Proof.
  intros Hkey. unfold placed.
  rewrite <- (sum_counts l Hkey). unfold counts.
  rewrite <- join_replicates, <- list_fmap_compose.
  f_equal. apply list_fmap_ext. intros i q _. simpl.
  f_equal. lia.
Qed.

Lemma placed_final {B} (g : A -> B) d l :
  placed g d l (length l) = bucketed g l.
Proof.
  unfold placed, bucketed. f_equal. apply list_fmap_ext. intros i q _.
  rewrite firstn_all, Nat.sub_diag. simpl. apply app_nil_r.
Qed.

Lemma length_placed {B} (g : A -> B) d l k :
  (forall a, a ∈ l -> key a < nproc) ->
  length (placed g d l k) = length l.
Proof.
  intros Hkey. unfold placed. rewrite length_join, <- list_fmap_compose.
  rewrite <- (sum_counts l Hkey). unfold counts. f_equal.
  apply list_fmap_ext. intros i q _. simpl.
  rewrite length_app, length_fmap, length_replicate.
  assert (length (bucket q (take k l)) <= length (bucket q l)); [|lia].
  unfold bucket. rewrite <- (take_drop k l) at 2.
  rewrite filter_app, length_app. lia.
Qed.

(** Placing element [k]: where its bucket pointer is, and what the buffer
    becomes. *)
Lemma placed_step {B} (g : A -> B) d l k a :
  l !! k = Some a -> key a < nproc ->
  let o := base l (key a) + length (bucket (key a) (take k l)) in
  o < length (placed g d l k) /\
  <[o := g a]> (placed g d l k) = placed g d l (S k).
Proof.
  intros Hk Hq o.
  set (F := fun q => (g <$> bucket q (take k l)) ++
                     replicate (length (bucket q l) -
                                length (bucket q (take k l))) d).
  assert (Hseg : (F <$> seq 0 nproc) !! key a = Some (F (key a)))
    by (apply lookup_fmap_seq; exact Hq).
  assert (Hlen : forall q, length (F q) = length (bucket q l)).
  { intros q. unfold F.
    rewrite length_app, length_fmap, length_replicate.
    assert (length (bucket q (take k l)) <= length (bucket q l)); [|lia].
    unfold bucket. rewrite <- (take_drop k l) at 2.
    rewrite filter_app, length_app. lia. }
  assert (Hoff : seg_off (F <$> seq 0 nproc) (key a) = base l (key a)).
  { rewrite seg_off_fmap_seq by lia. unfold base.
    f_equal. apply list_fmap_ext. intros i q _. apply Hlen. }
  pose proof (bucket_split l k a Hk) as Hsplit.
  assert (Hj : length (bucket (key a) (take k l)) < length (F (key a))).
  { rewrite Hlen, Hsplit, length_app. simpl. lia. }
  split.
  - unfold placed. fold F.
    apply lookup_lt_is_Some.
    destruct (lookup_lt_is_Some_2 _ _ Hj) as [x Hx].
    exists x. subst o. rewrite <- Hoff.
    eapply lookup_join_segment; eassumption.
  - unfold placed at 1. fold F. subst o. rewrite <- Hoff.
    rewrite (insert_join _ _ _ _ _ Hseg Hj).
    unfold placed. f_equal. apply list_eq. intros q.
    destruct (decide (q < nproc)) as [Hlt|Hge].
    2:{ rewrite !lookup_ge_None_2; [reflexivity| |];
          rewrite ?length_insert, length_fmap, length_seq; lia. }
    rewrite (lookup_fmap_seq _ q nproc Hlt).
    rewrite (bucket_take_S l k a q Hk).
    destruct (decide (key a = q)) as [<-|Hne].
    + rewrite list_lookup_insert_eq
        by (rewrite length_fmap, length_seq; exact Hq).
      f_equal. unfold F. rewrite Hsplit at 1.
      rewrite !length_app. simpl.
      replace (length (bucket (key a) (take k l)) +
               S (length (bucket (key a) (drop (S k) l))) -
               length (bucket (key a) (take k l)))
        with (S (length (bucket (key a) (drop (S k) l)))) by lia.
      rewrite <- (length_fmap g (bucket (key a) (take k l))) at 1.
      rewrite <- (Nat.add_0_r (length (g <$> _))), insert_app_r.
      simpl. rewrite fmap_app, <- app_assoc. simpl.
      do 3 f_equal. rewrite Hsplit, length_app. simpl. lia.
    + rewrite list_lookup_insert_ne by exact Hne.
      rewrite (lookup_fmap_seq _ q nproc Hlt), app_nil_r. reflexivity.
Qed.

(** The counts after the first [k] elements were counted. *)
Definition tally (l : list A) (k : nat) : list nat :=
  (fun q => length (bucket q (take k l))) <$> seq 0 nproc.

Lemma tally_step l k a :
  l !! k = Some a -> key a < nproc ->
  tally l k !! key a = Some (length (bucket (key a) (take k l))) /\
  <[key a := length (bucket (key a) (take k l)) + 1]> (tally l k) =
  tally l (S k).
Proof.
  intros Hk Hq. split.
  { apply (lookup_fmap_seq (fun q => length (bucket q (take k l)))), Hq. }
  apply list_eq. intros q. unfold tally.
  destruct (decide (q < nproc)) as [Hlt|Hge].
  - rewrite (lookup_fmap_seq
               (fun q => length (bucket q (take (S k) l))) q nproc Hlt).
    rewrite (bucket_take_S l k a q Hk).
    destruct (decide (key a = q)) as [<-|Hne].
    + rewrite list_lookup_insert_eq
        by (rewrite length_fmap, length_seq; exact Hq).
      rewrite length_app. reflexivity.
    + rewrite list_lookup_insert_ne by exact Hne.
      rewrite (lookup_fmap_seq
                 (fun q => length (bucket q (take k l))) q nproc Hlt).
      rewrite app_nil_r. reflexivity.
  - rewrite !lookup_ge_None_2; [reflexivity| |];
      rewrite ?length_insert, length_fmap, length_seq; lia.
Qed.

Lemma tally_0 l : tally l 0 = replicate nproc 0.
Proof.
  unfold tally. simpl.
  induction nproc as [|n IH]; [reflexivity|].
  rewrite seq_S, fmap_app, IH. simpl. symmetry. apply replicate_S_end.
Qed.

Lemma tally_final l : tally l (length l) = counts l.
Proof. unfold tally, counts. rewrite firstn_all. reflexivity. Qed.

End Buckets.

(** ** The loops of [Pull] and [Push] in closed form *)

Lemma foldl_sum {A} (g : A -> nat) (l : list A) a :
  foldl (fun n x => n + g x) a l = a + sum_list (g <$> l).
Proof.
  revert a. induction l as [|x l IH]; intros a; csimpl; [lia|].
  rewrite IH. lia.
Qed.

Lemma length_bind_sum {A B} (h : A -> list B) (l : list A) :
  length (l ≫= h) = sum_list ((fun a => length (h a)) <$> l).
Proof.
  induction l as [|a l IH]; [reflexivity|].
  csimpl. rewrite length_app, IH. reflexivity.
Qed.

(** Filling with the indices of nested ranges. *)
Lemma fill_nested {N} (nodes : list N) (rng : N -> list nat)
    (f : N -> nat -> nat) (done rest : list nat) :
  let idx := nodes ≫= (fun n => f n <$> rng n) in
  length idx <= length rest ->
  for_each nodes
    (fun n st => for_each (rng n) (fun t st => push_index (f n t) st) st)
    (length done, done ++ rest) =
  Ok (length done + length idx, done ++ idx ++ drop (length idx) rest).
Proof.
  intros idx Hlen.
  rewrite (for_each_bind nodes rng (fun n t st => push_index (f n t) st)).
  assert (Eidx : idx = (fun ab : N * nat => f ab.1 ab.2) <$>
                       (nodes ≫= (fun a => pair a <$> rng a))).
  { subst idx. clear. induction nodes as [|n nodes IH]; [reflexivity|].
    csimpl. rewrite fmap_app, <- IH, <- list_fmap_compose. reflexivity. }
  rewrite (push_index_all (fun ab : N * nat => f ab.1 ab.2)).
  - rewrite <- Eidx.
    replace (length (nodes ≫= (fun a => pair a <$> rng a)))
      with (length idx) by (rewrite Eidx, length_fmap; reflexivity).
    reflexivity.
  - rewrite Eidx, length_fmap in Hlen. exact Hlen.
Qed.

(** The reordered indices a process holds: those of its local nodes, then
    its shard of every distributed node but the first. *)
Definition local_indices (nodes : list SymmNodeInfo) : list nat :=
  nodes ≫= (fun n => (fun t => off n + t) <$> seq 0 (size n)).

Definition shard (n : DistSymmNodeInfo) : list nat :=
  stride_range (Shift (gridRank n) 0 (gridSize n)) (dsize n) (gridSize n).

Definition dist_indices (nodes : list DistSymmNodeInfo) : list nat :=
  nodes ≫= (fun n => (fun t => doff n + t) <$> shard n).

Definition node_indices (info : DistSymmInfo) : list nat :=
  local_indices (localNodes info) ++ dist_indices (drop 1 (distNodes info)).

Lemma Translate_Ok inverseMap (l : list nat) :
  (forall i, i ∈ l -> i < length inverseMap) ->
  Translate inverseMap l = Ok ((fun i => default 0 (inverseMap !! i)) <$> l).
Proof.
  intros H. apply mapR_Ok. intros i Hi.
  destruct (lookup_lt_is_Some_2 inverseMap i (H i Hi)) as [x Hx].
  rewrite (vget_Ok _ _ _ Hx), Hx. reflexivity.
Qed.

Lemma count_owners_Ok (L : FlatLayout) commSize (l : list nat) :
  (forall i, i ∈ l -> RowOwner L i < commSize) ->
  count_owners L commSize l = Ok (counts (RowOwner L) commSize l).
Proof.
  intros Hown. unfold count_owners.
  destruct (for_each_invariant
              (fun k sizes => sizes = tally (RowOwner L) commSize l k) l
              (fun i sizes =>
                 let q := RowOwner L i in
                 c ← vget sizes q; vset sizes q (c + 1))
              (replicate commSize 0)) as (sizes & Hrun & Hfin).
  - symmetry. apply tally_0.
  - intros k i sizes Hk ->.
    assert (Hq : RowOwner L i < commSize)
      by (apply Hown, list_elem_of_lookup; eauto).
    destruct (tally_step (RowOwner L) commSize l k i Hk Hq) as (Hget & Hset).
    eexists. split; [|exact Hset].
    cbn zeta. rewrite (vget_Ok _ _ _ Hget). simpl.
    apply vset_Ok. unfold tally.
    rewrite length_fmap, length_seq. exact Hq.
  - rewrite Hfin, tally_final in Hrun. exact Hrun.
Qed.

(** The bucket fill of [Pull]:
    [recvInds[ offs[X.RowOwner(i)]++ ] = i]. *)
Lemma bucket_fill_Ok (L : FlatLayout) commSize (l : list nat) :
  (forall i, i ∈ l -> RowOwner L i < commSize) ->
  for_each l
    (fun i '(offs, recvInds) =>
       let q := RowOwner L i in
       o ← vget offs q;
       recvInds ← vset recvInds o i;
       offs ← vset offs q (o + 1);
       Ok (offs, recvInds))
    (base (RowOwner L) l <$> seq 0 commSize, replicate (length l) 0) =
  Ok (ptrs (RowOwner L) commSize l (length l),
      bucketed (RowOwner L) commSize (fun i => i) l).
Proof.
  intros Hown.
  destruct (for_each_invariant
              (fun k (st : list nat * list nat) =>
                 st = (ptrs (RowOwner L) commSize l k,
                       placed (RowOwner L) commSize (fun i => i) 0 l k)) l
              (fun i '(offs, recvInds) =>
                 let q := RowOwner L i in
                 o ← vget offs q;
                 recvInds ← vset recvInds o i;
                 offs ← vset offs q (o + 1);
                 Ok (offs, recvInds))
              (base (RowOwner L) l <$> seq 0 commSize,
               replicate (length l) 0)) as (st & Hrun & Hfin).
  - rewrite ptrs_0, placed_0 by exact Hown. reflexivity.
  - intros k i st Hk ->.
    assert (Hq : RowOwner L i < commSize)
      by (apply Hown, list_elem_of_lookup; eauto).
    destruct (placed_step (RowOwner L) commSize (fun i => i) 0 l k i Hk Hq)
      as (Hlt & Hset).
    eexists. split; [|rewrite <- Hset,
                         <- (ptrs_step (RowOwner L) commSize l k i Hk Hq);
                       reflexivity].
    cbn zeta. rewrite (vget_Ok _ _ _ (ptrs_lookup _ _ l k _ Hq)). simpl.
    rewrite (vset_Ok (placed _ _ _ _ _ _)) by exact Hlt. simpl.
    rewrite vset_Ok by (rewrite length_ptrs; exact Hq). reflexivity.
  - rewrite Hfin, placed_final in Hrun. exact Hrun.
Qed.

(** ** The exchanges in closed form *)

Lemma imap_pair_fmap_seq {A} (f : nat -> A) n :
  imap pair (f <$> seq 0 n) = (fun p => (p, f p)) <$> seq 0 n.
Proof.
  apply list_eq. intros i. rewrite list_lookup_imap, !list_lookup_fmap.
  destruct (seq 0 n !! i) as [j|] eqn:E; [|reflexivity].
  apply lookup_seq in E as [-> _]. reflexivity.
Qed.

Lemma AllToAll_Ok {A} (d : A) n (M : nat -> nat -> A) :
  AllToAll ((fun q => M q <$> seq 0 n) <$> seq 0 n) =
  Ok ((fun p => (fun q => M q p) <$> seq 0 n) <$> seq 0 n).
Proof.
  unfold AllToAll. rewrite length_fmap, length_seq.
  apply mapR_Ok. intros p Hp. apply elem_of_seq in Hp.
  rewrite (mapR_Ok _ (fun buf => default d (buf !! p))).
  - f_equal. rewrite <- list_fmap_compose. apply list_fmap_ext.
    intros i q Hq. apply lookup_seq in Hq as [-> Hq]. simpl.
    rewrite lookup_fmap_seq by lia. reflexivity.
  - intros buf Hbuf. apply list_elem_of_fmap in Hbuf as (q & -> & Hq).
    rewrite (vget_Ok _ _ (M q p)) by (apply lookup_fmap_seq; lia).
    rewrite lookup_fmap_seq by lia. reflexivity.
Qed.

Lemma sum_seq_split (f : nat -> nat) k n :
  k <= n ->
  sum_list (f <$> seq 0 n) =
  sum_list (f <$> seq 0 k) + sum_list (f <$> seq k (n - k)).
Proof.
  intros H. replace n with (k + (n - k)) at 1 by lia.
  rewrite seq_app, fmap_app, sum_list_with_app. reflexivity.
Qed.

Lemma seg_off_le_total {A} (F : nat -> list A) n k :
  k <= n ->
  seg_off (F <$> seq 0 n) k <= sum_list ((fun r => length (F r)) <$> seq 0 n).
Proof.
  intros H. rewrite seg_off_fmap_seq by exact H.
  rewrite (sum_seq_split _ k n H). lia.
Qed.

Lemma seg_off_S {A} (F : nat -> list A) n k :
  k < n ->
  seg_off (F <$> seq 0 n) (S k) = seg_off (F <$> seq 0 n) k + length (F k).
Proof.
  intros H. rewrite !seg_off_fmap_seq by lia.
  rewrite seq_S, fmap_app, sum_list_with_app. csimpl. lia.
Qed.

Lemma Scan_lengths_lookup {A} (F : nat -> list A) n q :
  q < n ->
  (Scan ((fun r => length (F r)) <$> seq 0 n)).1 !! q =
  Some (seg_off (F <$> seq 0 n) q).
Proof.
  intros Hq. rewrite Scan_spec. cbn [fst].
  rewrite length_fmap, length_seq.
  rewrite (lookup_fmap_seq
             (fun q => sum_list (take q ((fun r => length (F r)) <$> seq 0 n)))
             q n Hq).
  f_equal. unfold seg_off.
  rewrite !take_fmap_seq by lia.
  rewrite <- list_fmap_compose. reflexivity.
Qed.

(** A sender whose buffer is the concatenation of its messages. *)
Lemma message_segment {A} n (F : nat -> list A) q :
  q < n ->
  message (mjoin (F <$> seq 0 n), (fun r => length (F r)) <$> seq 0 n,
           (Scan ((fun r => length (F r)) <$> seq 0 n)).1) q = Ok (F q).
Proof.
  intros Hq. unfold message.
  rewrite (vget_Ok ((fun r => length (F r)) <$> seq 0 n) q (length (F q)))
    by (apply (lookup_fmap_seq (fun r => length (F r))); exact Hq).
  simpl.
  rewrite (vget_Ok _ _ _ (Scan_lengths_lookup F n q Hq)). simpl.
  assert (Hseg : (F <$> seq 0 n) !! q = Some (F q))
    by (apply lookup_fmap_seq; exact Hq).
  destruct (decide _) as [_|Hbad].
  - f_equal. apply segment_of_join. exact Hseg.
  - exfalso. apply Hbad. rewrite length_join. unfold seg_off.
    rewrite <- (take_drop q (F <$> seq 0 n)) at 2.
    rewrite fmap_app, sum_list_with_app.
    rewrite (drop_S _ (F q) q Hseg). csimpl. lia.
Qed.

(** Every receiver ends with the concatenation of what was sent to it. *)
Lemma AllToAllv_Ok {A} n (M : nat -> nat -> list A)
    (senders : nat -> participant A) (rbuf : nat -> list A) :
  (forall p q, p < n -> q < n -> message (senders p) q = Ok (M p q)) ->
  (forall q, q < n ->
     length (rbuf q) = sum_list ((fun p => length (M p q)) <$> seq 0 n)) ->
  AllToAllv (senders <$> seq 0 n)
    ((fun q => (rbuf q, (fun p => length (M p q)) <$> seq 0 n,
                (Scan ((fun p => length (M p q)) <$> seq 0 n)).1))
     <$> seq 0 n) =
  Ok ((fun q => mjoin ((fun p => M p q) <$> seq 0 n)) <$> seq 0 n).
Proof.
  intros Hmsg Hlen. unfold AllToAllv.
  rewrite !imap_pair_fmap_seq.
  rewrite (mapR_Ok _ (fun qr : nat * participant A =>
                        mjoin ((fun p => M p qr.1) <$> seq 0 n))).
  { rewrite <- list_fmap_compose. reflexivity. }
  intros [q [[buf sizes] offs]] Hq.
  apply list_elem_of_fmap in Hq as (q' & Heq & Hq').
  injection Heq as -> -> -> ->. apply elem_of_seq in Hq'.
  assert (Hq : q' < n) by lia. clear Hq'. cbn [fst].
  set (F := fun p => M p q').
  destruct (for_each_invariant
              (fun k buf =>
                 buf = mjoin (F <$> seq 0 k) ++
                       drop (seg_off (F <$> seq 0 n) k) (rbuf q'))
              ((fun p => (p, senders p)) <$> seq 0 n)
              (fun '(p, sender) buf =>
                 msg ← message sender q';
                 receive ((fun p => length (M p q')) <$> seq 0 n)
                   (Scan ((fun p => length (M p q')) <$> seq 0 n)).1
                   p msg buf)
              (rbuf q')) as (buf' & Hrun & Hfin).
  - reflexivity.
  - intros k [p sender] b Hk ->.
    rewrite list_lookup_fmap in Hk.
    destruct (seq 0 n !! k) as [k'|] eqn:Ek; [|discriminate].
    apply lookup_seq in Ek as [-> Hkn]. injection Hk as <- <-.
    simpl in Hkn. eexists. split.
    + rewrite (Hmsg k q' Hkn Hq). simpl. unfold receive.
      change (fun p => length (M p q')) with (fun r => length (F r)).
      change (M k q') with (F k).
      rewrite (vget_Ok ((fun r => length (F r)) <$> seq 0 n) k (length (F k)))
        by (apply (lookup_fmap_seq (fun r => length (F r))); exact Hkn).
      simpl.
      rewrite (vget_Ok _ _ _ (Scan_lengths_lookup F n k Hkn)). simpl.
      assert (Hdone : length (mjoin (F <$> seq 0 k)) =
                      seg_off (F <$> seq 0 n) k).
      { rewrite length_join. unfold seg_off.
        rewrite take_fmap_seq by lia. reflexivity. }
      pose proof (seg_off_S F n k Hkn) as HS.
      assert (Htot : seg_off (F <$> seq 0 n) (S k) <= length (rbuf q')).
      { rewrite (Hlen q' Hq). apply (seg_off_le_total F). lia. }
      destruct (decide _) as [_|Hbad].
      2:{ exfalso. apply Hbad. split; [lia|].
          rewrite length_app, length_drop, Hdone. lia. }
      rewrite take_app_length' by (symmetry; exact Hdone).
      rewrite drop_app_add' by (symmetry; exact Hdone).
      rewrite drop_drop. reflexivity.
    + rewrite seq_S, fmap_app, join_app. csimpl.
      rewrite app_nil_r, <- app_assoc. do 2 f_equal.
      rewrite (seg_off_S F n k Hkn). reflexivity.
  - rewrite length_fmap, length_seq in Hfin.
    rewrite Hrun. f_equal. rewrite Hfin.
    rewrite drop_ge; [apply app_nil_r|].
    rewrite (Hlen q' Hq), seg_off_fmap_seq by lia. reflexivity.
Qed.

(** ** Rows in flat buffers *)

Lemma in_take {A} (l : list A) n x : x ∈ take n l -> x ∈ l.
Proof.
  intros Hx. rewrite <- (take_drop n l). apply elem_of_app. left. exact Hx.
Qed.

Lemma in_drop {A} (l : list A) n x : x ∈ drop n l -> x ∈ l.
Proof.
  intros Hx. rewrite <- (take_drop n l). apply elem_of_app. right. exact Hx.
Qed.

Lemma length_join_uniform {B} w (cells : list (list B)) :
  Forall (fun c => length c = w) cells ->
  length (mjoin cells) = length cells * w.
Proof.
  intros H. rewrite length_join. apply sum_list_fmap_same, H.
Qed.

Lemma join_split_at {B} (cells : list (list B)) c old :
  cells !! c = Some old ->
  mjoin cells = mjoin (take c cells) ++ old ++ mjoin (drop (S c) cells).
Proof.
  intros H. rewrite <- (take_drop_middle cells c old H) at 1.
  rewrite join_app. reflexivity.
Qed.

Lemma join_insert {B} (cells : list (list B)) c row :
  c < length cells ->
  mjoin (<[c := row]> cells) =
  mjoin (take c cells) ++ row ++ mjoin (drop (S c) cells).
Proof.
  intros H. rewrite insert_take_drop by exact H.
  rewrite join_app. reflexivity.
Qed.

Lemma join_replicate_cells {B} (d : B) n w :
  mjoin (replicate n (replicate w d)) = replicate (n * w) d.
Proof.
  induction n as [|n IH]; [reflexivity|].
  csimpl. rewrite IH, replicate_add. reflexivity.
Qed.

Lemma join_fmap_join {B C} (f : B -> list C) (ls : list (list B)) :
  mjoin (f <$> mjoin ls) = mjoin ((fun l => mjoin (f <$> l)) <$> ls).
Proof.
  induction ls as [|l ls IH]; [reflexivity|].
  csimpl. rewrite fmap_app, join_app, IH. reflexivity.
Qed.

Lemma sum_list_scaled w (l : list nat) :
  sum_list (scaled w l) = sum_list l * w.
Proof.
  unfold scaled. induction l as [|n l IH]; [reflexivity|].
  csimpl. rewrite IH. lia.
Qed.

Lemma Scan_scaled w (sizes : list nat) :
  scaled w (Scan sizes).1 = (Scan (scaled w sizes)).1.
Proof.
  rewrite !Scan_spec. cbn [fst]. unfold scaled at 1 3.
  rewrite length_fmap, <- list_fmap_compose.
  apply list_fmap_ext. intros i q _. simpl.
  rewrite <- sum_list_scaled. unfold scaled. rewrite fmap_take. reflexivity.
Qed.

(** Writing the entries of [row] one after the other over [old]. *)
Lemma write_cell {B} (body : nat -> list B -> result (list B))
    (row old pre post : list B) :
  length old = length row ->
  (forall j x buf, row !! j = Some x ->
                   body j buf = vset buf (length pre + j) x) ->
  for_each (seq 0 (length row)) body (pre ++ old ++ post) =
  Ok (pre ++ row ++ post).
Proof.
  intros Hlen Hbody.
  destruct (for_each_invariant
              (fun j buf => buf = pre ++ take j row ++ drop j old ++ post)
              (seq 0 (length row)) body (pre ++ old ++ post))
    as (buf & Hrun & Hfin).
  - reflexivity.
  - intros k j buf Hk ->. apply lookup_seq in Hk as [-> Hk]. simpl in *.
    destruct (lookup_lt_is_Some_2 row k Hk) as [x Hx].
    destruct (lookup_lt_is_Some_2 old k) as [y Hy]; [lia|].
    eexists. split.
    + rewrite (Hbody k x _ Hx). apply vset_Ok.
      rewrite !length_app, length_take, length_drop. lia.
    + rewrite insert_app_r.
      replace k with (length (take k row) + 0) at 1
        by (rewrite length_take; lia).
      rewrite insert_app_r, (drop_S old y k Hy). simpl.
      rewrite (take_S_r row k x Hx), <- app_assoc. reflexivity.
  - rewrite length_seq in Hfin. rewrite Hrun, Hfin.
    rewrite firstn_all, drop_ge by lia. reflexivity.
Qed.

(** Setting the entries of row [t] one after the other. *)
Lemma SetEntry_step wd (rows : list (list T)) t j x (row old : list T) :
  rows !! t = Some old -> length old = length row -> row !! j = Some x ->
  SetEntry (mkMatrix wd (<[t := take j row ++ drop j old]> rows)) t j x =
  Ok (mkMatrix wd (<[t := take (S j) row ++ drop (S j) old]> rows)).
Proof.
  intros Ht Hlen Hj.
  pose proof (lookup_lt_Some _ _ _ Ht) as Htlt.
  pose proof (lookup_lt_Some _ _ _ Hj) as Hjlt.
  destruct (lookup_lt_is_Some_2 old j) as [y Hy]; [lia|].
  unfold SetEntry. cbn [mat_rows mat_width].
  rewrite (vget_Ok _ _ (take j row ++ drop j old))
    by (apply list_lookup_insert_eq; exact Htlt).
  simpl.
  rewrite vset_Ok by (rewrite length_app, length_take, length_drop; lia).
  simpl. rewrite vset_Ok by (rewrite length_insert; exact Htlt).
  simpl. rewrite list_insert_insert_eq. do 3 f_equal.
  replace j with (length (take j row) + 0) at 1
    by (rewrite length_take; lia).
  rewrite insert_app_r, (drop_S old y j Hy). simpl.
  rewrite (take_S_r row j x Hj), <- app_assoc. reflexivity.
Qed.

Lemma set_row_Ok (body : nat -> Matrix -> result Matrix) (node : Matrix) t
    (row old : list T) :
  mat_rows node !! t = Some old -> length old = length row ->
  (forall j x nd, row !! j = Some x -> body j nd = SetEntry nd t j x) ->
  for_each (seq 0 (length row)) body node =
  Ok (mkMatrix (mat_width node) (<[t := row]> (mat_rows node))).
Proof.
  intros Ht Hlen Hbody.
  destruct (for_each_invariant
              (fun j nd =>
                 nd = mkMatrix (mat_width node)
                        (<[t := take j row ++ drop j old]> (mat_rows node)))
              (seq 0 (length row)) body node) as (nd & Hrun & Hfin).
  - simpl. rewrite drop_0, list_insert_id by exact Ht.
    destruct node; reflexivity.
  - intros k j nd Hk ->. apply lookup_seq in Hk as [-> Hk]. simpl in *.
    destruct (lookup_lt_is_Some_2 row k Hk) as [x Hx].
    eexists. split; [|reflexivity].
    rewrite (Hbody k x _ Hx). apply SetEntry_step; assumption.
  - rewrite length_seq in Hfin. rewrite Hrun, Hfin.
    rewrite firstn_all, drop_ge by lia. rewrite app_nil_r. reflexivity.
Qed.

Lemma unpack_row_Ok w (recvVals : list T) q t (offs : list nat)
    (node : Matrix) o (row old : list T) :
  offs !! q = Some o -> length row = w ->
  (forall j x, row !! j = Some x -> recvVals !! (o + j) = Some x) ->
  mat_rows node !! t = Some old -> length old = w ->
  unpack_row w recvVals q t (offs, node) =
  Ok (<[q := o + w]> offs,
      mkMatrix (mat_width node) (<[t := row]> (mat_rows node))).
Proof.
  intros Hq Hrow Hvals Ht Hold. unfold unpack_row.
  pose proof (lookup_lt_Some _ _ _ Hq) as Hqlt.
  destruct (for_each_invariant
              (fun j (st : list nat * Matrix) =>
                 st = (<[q := o + j]> offs,
                       mkMatrix (mat_width node)
                         (<[t := take j row ++ drop j old]> (mat_rows node))))
              (seq 0 w)
              (fun j '(offs, node) =>
                 o ← vget offs q;
                 v ← vget recvVals o;
                 node ← SetEntry node t j v;
                 offs ← vset offs q (o + 1);
                 Ok (offs, node))
              (offs, node)) as (st & Hrun & Hfin).
  - simpl. rewrite Nat.add_0_r, drop_0.
    rewrite !list_insert_id by assumption. destruct node; reflexivity.
  - intros k j st Hk ->. apply lookup_seq in Hk as [-> Hk]. simpl in Hk.
    destruct (lookup_lt_is_Some_2 row k) as [x Hx]; [lia|].
    eexists. split; [|reflexivity].
    rewrite (vget_Ok _ _ (o + k))
      by (apply list_lookup_insert_eq; exact Hqlt).
    simpl. rewrite (vget_Ok _ _ x (Hvals k x Hx)). simpl.
    rewrite (SetEntry_step _ _ _ _ x row old) by (assumption || lia).
    simpl. rewrite vset_Ok by (rewrite length_insert; exact Hqlt).
    simpl. rewrite list_insert_insert_eq.
    do 3 f_equal. lia.
  - rewrite length_seq in Hfin. rewrite Hrun, Hfin.
    rewrite <- Hrow, firstn_all, drop_ge by lia.
    rewrite app_nil_r. reflexivity.
Qed.

Lemma bind_Ok {A B} (a : A) (f : A -> result B) : (Ok a ≫= f) = f a.
Proof. reflexivity. Qed.

Lemma zip_with_fmap_same {A B C D} (h : B -> C -> D) (f : A -> B)
    (g : A -> C) (l : list A) :
  zip_with h (f <$> l) (g <$> l) = (fun x => h (f x) (g x)) <$> l.
Proof.
  induction l as [|a l IH]; [reflexivity|]. csimpl. rewrite IH. reflexivity.
Qed.

Lemma filter_join {A} (P : A -> Prop) `{forall x, Decision (P x)}
    (ls : list (list A)) :
  filter P (mjoin ls) = mjoin (filter P <$> ls).
Proof.
  induction ls as [|l ls IH]; [reflexivity|].
  csimpl. rewrite filter_app, IH. reflexivity.
Qed.

Lemma join_join {A} (lss : list (list (list A))) :
  mjoin (mjoin lss) = mjoin (mjoin <$> lss).
Proof.
  induction lss as [|ls lss IH]; [reflexivity|].
  csimpl. rewrite join_app, IH. reflexivity.
Qed.

Lemma AllToAllv_Ok' {A} n (M : nat -> nat -> list A)
    (senders receivers : nat -> participant A) (rbuf : nat -> list A) :
  (forall p q, p < n -> q < n -> message (senders p) q = Ok (M p q)) ->
  (forall q, q < n ->
     receivers q = (rbuf q, (fun p => length (M p q)) <$> seq 0 n,
                    (Scan ((fun p => length (M p q)) <$> seq 0 n)).1)) ->
  (forall q, q < n ->
     length (rbuf q) = sum_list ((fun p => length (M p q)) <$> seq 0 n)) ->
  AllToAllv (senders <$> seq 0 n) (receivers <$> seq 0 n) =
  Ok ((fun q => mjoin ((fun p => M p q) <$> seq 0 n)) <$> seq 0 n).
Proof.
  intros Hmsg Hrecv Hlen.
  rewrite (list_fmap_ext receivers
             (fun q => (rbuf q, (fun p => length (M p q)) <$> seq 0 n,
                        (Scan ((fun p => length (M p q)) <$> seq 0 n)).1))
             (seq 0 n)).
  - apply AllToAllv_Ok; assumption.
  - intros i q Hq. apply lookup_seq in Hq as [-> Hq]. apply Hrecv. lia.
Qed.

(** A loop over the indices of a vector is a loop over its elements. *)
Lemma for_each_indexed {A St} (l : list A) k (body : nat -> St -> result St)
    (G : A -> St -> result St) :
  (forall s a st, l !! s = Some a -> body (k + s) st = G a st) ->
  forall st, for_each (seq k (length l)) body st = for_each l G st.
Proof.
  revert k. induction l as [|a l IH]; intros k Hbody st; [reflexivity|].
  simpl. rewrite <- (Nat.add_0_r k) at 1. rewrite (Hbody 0 a st eq_refl).
  destruct (G a st) as [st'|e]; [|reflexivity]. simpl.
  apply IH. intros s b t Hs.
  replace (S k + s) with (k + S s) by lia. apply Hbody. exact Hs.
Qed.

(** ** A valid elimination tree over a compatible flat vector

    [remap_valid commSize H w inverseMap infos X] collects what the round
    trip assumes of its arguments: one [DistSymmInfo] and one shard of the
    flat vector per process; a flat vector of height [H] and width [w] laid
    out by [layout H], every process holding its [LocalHeight] rows; a
    root node (the last distributed node) that ends at [H] on every
    process; grids that are not empty and [multiVecMeta.localSize] equal to
    the size of the shard; an inverse map that permutes [0 .. H-1]; and
    nodes that, over all processes, hold every reordered index once. *)
Record remap_valid (commSize H w : nat) (inverseMap : list nat)
    (infos : list DistSymmInfo) (X : list DistMultiVec) : Prop := {
  v_infos : length infos = commSize;
  v_X : length X = commSize;
  v_owner : forall i, i < H ->
    RowOwner (layout H) i < commSize /\
    FirstLocalRow (layout H) (RowOwner (layout H) i) <= i <
    FirstLocalRow (layout H) (RowOwner (layout H) i) +
    LocalHeight (layout H) (RowOwner (layout H) i);
  v_local : forall q r, q < commSize -> r < LocalHeight (layout H) q ->
    FirstLocalRow (layout H) q + r < H /\
    RowOwner (layout H) (FirstLocalRow (layout H) q + r) = q;
  v_shard : forall p Xp, X !! p = Some Xp ->
    dmv_height Xp = H /\ dmv_width Xp = w /\
    mat_width (dmv_local Xp) = w /\
    length (mat_rows (dmv_local Xp)) = LocalHeight (layout H) p /\
    Forall (fun row => length row = w) (mat_rows (dmv_local Xp));
  v_root : forall p info, infos !! p = Some info ->
    exists root, last (distNodes info) = Some root /\
                 dsize root + doff root = H;
  v_dist : forall p info node, infos !! p = Some info ->
    node ∈ drop 1 (distNodes info) ->
    0 < gridSize node /\
    localSize node =
    Length (dsize node) (Shift (gridRank node) 0 (gridSize node))
           (gridSize node);
  v_inverseMap : inverseMap ≡ₚ seq 0 H;
  v_nodes : mjoin (node_indices <$> infos) ≡ₚ seq 0 H
}.

Section RoundTrip.

Variables (commSize H w : nat) (inverseMap : list nat).
Variables (infos : list DistSymmInfo) (X : list DistMultiVec).
Hypothesis valid : remap_valid commSize H w inverseMap infos X.

Let L := layout H.
Let owner := RowOwner L.
Let tr := fun i => default 0 (inverseMap !! i).

(** The translated indices of rank [p], in the order of its nodes. *)
Definition mapped (p : nat) : list nat :=
  match infos !! p with
  | Some info => tr <$> node_indices info
  | None => []
  end.

Lemma length_inverseMap : length inverseMap = H.
Proof. rewrite (Permutation_length (v_inverseMap _ _ _ _ _ _ valid)).
       apply length_seq. Qed.

Lemma node_index_lt p info i :
  infos !! p = Some info -> i ∈ node_indices info -> i < H.
Proof.
  intros Hp Hi.
  assert (Hin : i ∈ mjoin (node_indices <$> infos)).
  { apply list_elem_of_join. exists (node_indices info). split; [exact Hi|].
    apply list_elem_of_fmap. exists info. split; [reflexivity|].
    apply list_elem_of_lookup. eauto. }
  rewrite (v_nodes _ _ _ _ _ _ valid) in Hin.
  apply elem_of_seq in Hin. lia.
Qed.

Lemma tr_lt i : i < H -> tr i < H.
Proof.
  intros Hi. unfold tr.
  destruct (lookup_lt_is_Some_2 inverseMap i) as [x Hx];
    [rewrite length_inverseMap; exact Hi|].
  rewrite Hx. simpl.
  assert (Hin : x ∈ inverseMap) by (apply list_elem_of_lookup; eauto).
  rewrite (v_inverseMap _ _ _ _ _ _ valid) in Hin.
  apply elem_of_seq in Hin. lia.
Qed.

Lemma mapped_lt p i : i ∈ mapped p -> i < H.
Proof.
  unfold mapped. destruct (infos !! p) as [info|] eqn:Hp.
  - intros Hi. apply list_elem_of_fmap in Hi as (j & -> & Hj).
    apply tr_lt. eapply node_index_lt; eassumption.
  - intros Hi. apply elem_of_nil in Hi. contradiction.
Qed.

Lemma mapped_owner p i : i ∈ mapped p -> owner i < commSize.
Proof.
  intros Hi. apply (v_owner _ _ _ _ _ _ valid). eapply mapped_lt, Hi.
Qed.

Lemma length_shard_sum nodes :
  (forall n, n ∈ nodes ->
     localSize n = Length (dsize n) (Shift (gridRank n) 0 (gridSize n))
                          (gridSize n)) ->
  sum_list (localSize <$> nodes) = length (dist_indices nodes).
Proof.
  intros Hn. unfold dist_indices. rewrite length_bind_sum.
  induction nodes as [|n nodes IH]; [reflexivity|].
  csimpl. rewrite IH by (intros; apply Hn; right; assumption).
  rewrite (Hn n) by left. rewrite length_fmap. reflexivity.
Qed.

Lemma length_local_indices nodes :
  sum_list (size <$> nodes) = length (local_indices nodes).
Proof.
  unfold local_indices. rewrite length_bind_sum.
  induction nodes as [|n nodes IH]; [reflexivity|].
  csimpl. rewrite IH, length_fmap, length_seq. reflexivity.
Qed.

(** What [Pull] has computed on rank [p] when it reaches the first
    exchange. *)
Definition request_of (p : nat) : pull_request :=
  mkRequest (length (mapped p)) (mapped p)
    (counts owner commSize (mapped p))
    (base owner (mapped p) <$> seq 0 commSize)
    (bucketed owner commSize (fun i => i) (mapped p)).

Lemma Pull_request_Ok debug p Xp info :
  X !! p = Some Xp -> infos !! p = Some info ->
  Pull_request debug inverseMap commSize Xp info = Ok (request_of p).
Proof.
  intros HX Hinfo.
  destruct (v_shard _ _ _ _ _ _ valid p Xp HX) as (HH & _).
  assert (Hmapped : mapped p = tr <$> node_indices info)
    by (unfold mapped; rewrite Hinfo; reflexivity).
  unfold Pull_request. rewrite HH. fold L.
  rewrite !foldl_sum. simpl.
  rewrite length_local_indices.
  rewrite (length_shard_sum (drop 1 (distNodes info)))
    by (intros n Hn; apply (v_dist _ _ _ _ _ _ valid p info n Hinfo Hn)).
  set (loc := local_indices (localNodes info)).
  set (dst := dist_indices (drop 1 (distNodes info))).
  unfold fill_local_indices.
  pose proof (fill_nested (localNodes info) (fun n => seq 0 (size n))
                (fun n t => off n + t) []
                (replicate (length loc + length dst) 0)) as Hfill1.
  cbv beta zeta in Hfill1. fold (local_indices (localNodes info)) in Hfill1.
  fold loc in Hfill1. rewrite !app_nil_l in Hfill1.
  change (length (@nil nat)) with 0 in Hfill1.
  rewrite Hfill1 by (rewrite length_replicate; lia). clear Hfill1.
  simpl.
  pose proof (fill_nested (drop 1 (distNodes info)) shard
                (fun n t => doff n + t) loc
                (drop (length loc)
                   (replicate (length loc + length dst) 0))) as Hfill2.
  cbv beta zeta in Hfill2. fold (dist_indices (drop 1 (distNodes info))) in Hfill2.
  fold dst in Hfill2. unfold shard in Hfill2 at 1.
  rewrite Hfill2 by (rewrite length_drop, length_replicate; lia).
  clear Hfill2. simpl.
  rewrite Nat.eqb_refl, andb_false_r.
  rewrite drop_drop, drop_ge by (rewrite length_replicate; lia).
  rewrite app_nil_r.
  change (loc ++ dst) with (node_indices info).
  rewrite Translate_Ok.
  2:{ intros i Hi. rewrite length_inverseMap.
      eapply node_index_lt; eassumption. }
  simpl. fold tr. rewrite <- Hmapped.
  rewrite count_owners_Ok by (intros i Hi; eapply mapped_owner, Hi).
  simpl. fold owner. rewrite Scan_counts.
  replace (length loc + length dst) with (length (mapped p)).
  2:{ rewrite Hmapped, length_fmap. unfold node_indices.
      rewrite length_app. reflexivity. }
  pose proof (bucket_fill_Ok L commSize (mapped p)
                (fun i Hi => mapped_owner p i Hi)) as Hfill.
  cbv zeta in Hfill. fold owner in Hfill. rewrite Hfill.
  reflexivity.
Qed.

(** Row [i] of the flat vector, read from the shard of its owner. *)
Definition xrow (i : nat) : list T :=
  match X !! owner i with
  | Some Xq =>
      default [] (mat_rows (dmv_local Xq) !! (i - FirstLocalRow L (owner i)))
  | None => []
  end.

Lemma xrow_lookup i Xq :
  i < H -> X !! owner i = Some Xq ->
  mat_rows (dmv_local Xq) !! (i - FirstLocalRow L (owner i)) = Some (xrow i)
  /\ length (xrow i) = w.
Proof.
  intros Hi HX.
  destruct (v_owner _ _ _ _ _ _ valid i Hi) as (_ & Hrange).
  destruct (v_shard _ _ _ _ _ _ valid _ Xq HX) as (_ & _ & _ & Hlen & Hall).
  fold L owner in Hrange, Hlen.
  destruct (lookup_lt_is_Some_2 (mat_rows (dmv_local Xq))
              (i - FirstLocalRow L (owner i))) as [row Hrow]; [lia|].
  unfold xrow. rewrite HX, Hrow. split; [reflexivity|]. simpl.
  eapply Forall_lookup in Hall; eassumption.
Qed.

Lemma length_xrow i : i < H -> length (xrow i) = w.
Proof.
  intros Hi.
  destruct (v_owner _ _ _ _ _ _ valid i Hi) as (Hq & _). fold L owner in Hq.
  rewrite <- (v_X _ _ _ _ _ _ valid) in Hq.
  destruct (lookup_lt_is_Some_2 X (owner i) Hq) as [Xq HXq].
  apply (xrow_lookup i Xq Hi HXq).
Qed.

Lemma length_join_xrows (inds : list nat) :
  (forall i, i ∈ inds -> i < H) ->
  length (mjoin (xrow <$> inds)) = length inds * w.
Proof.
  intros Hin. rewrite (length_join_uniform w), length_fmap; [reflexivity|].
  apply Forall_fmap, Forall_forall. intros i Hi. apply length_xrow, Hin, Hi.
Qed.

(** What rank [p] sends back: the rows of the indices it was asked for. *)
Lemma Pull_fulfill_Ok p Xp (inds : list nat) :
  X !! p = Some Xp ->
  (forall i, i ∈ inds -> i < H /\ owner i = p) ->
  Pull_fulfill p Xp (length inds) inds = Ok (mjoin (xrow <$> inds)).
Proof.
  intros HX Hinds. unfold Pull_fulfill.
  destruct (v_shard _ _ _ _ _ _ valid p Xp HX) as (-> & -> & _).
  fold L.
  destruct (for_each_invariant
              (fun s buf =>
                 buf = mjoin (xrow <$> take s inds) ++
                       replicate ((length inds - s) * w) dflt)
              (seq 0 (length inds))
              (fun s sendVals =>
                 for_each (seq 0 w)
                   (fun j sendVals =>
                      i ← vget inds s;
                      iLoc ← local_index i (FirstLocalRow L p);
                      v ← Get (dmv_local Xp) iLoc j;
                      vset sendVals (s * w + j) v)
                   sendVals)
              (replicate (length inds * w) dflt)) as (buf & Hrun & Hfin).
  - simpl. rewrite Nat.sub_0_r. reflexivity.
  - intros k s buf Hk ->. apply lookup_seq in Hk as [-> Hk]. simpl in *.
    destruct (lookup_lt_is_Some_2 inds k Hk) as [i Hi].
    destruct (Hinds i) as (HiH & Hown);
      [apply list_elem_of_lookup; eauto|].
    assert (HXq : X !! owner i = Some Xp) by (rewrite Hown; exact HX).
    destruct (xrow_lookup i Xp HiH HXq) as (Hrow & Hlen).
    destruct (v_owner _ _ _ _ _ _ valid i HiH) as (_ & Hrange).
    fold L owner in Hrange. rewrite Hown in Hrange, Hrow.
    assert (Hpre : length (mjoin (xrow <$> take k inds)) = k * w).
    { rewrite length_join_xrows, length_take by
        (intros i' Hi'; apply Hinds; eapply in_take; exact Hi').
      f_equal. lia. }
    eexists. split.
    + replace (length inds - k) with (S (length inds - S k)) by lia.
      rewrite Nat.mul_succ_l, (Nat.add_comm _ w).
      rewrite replicate_add, <- Hlen.
      apply (write_cell _ (xrow i) (replicate (length (xrow i)) dflt)).
      { apply length_replicate. }
      intros j x b Hj. rewrite (vget_Ok _ _ _ Hi). simpl.
      rewrite local_index_Ok by lia. simpl. unfold Get.
      rewrite (vget_Ok _ _ _ Hrow). simpl.
      rewrite (vget_Ok _ _ _ Hj). simpl.
      rewrite Hpre, Hlen. reflexivity.
    + rewrite Hlen, (take_S_r inds k i Hi), fmap_app, join_app. csimpl.
      rewrite app_nil_r, <- app_assoc. reflexivity.
  - rewrite length_seq in Hfin. rewrite Hrun, Hfin.
    rewrite firstn_all, Nat.sub_diag. simpl. apply f_equal, app_nil_r.
Qed.

(** The rows [Pull] receives on a rank whose translated indices are [l]:
    bucket after bucket, in the order of the requests. *)
Definition cells_of (l : list nat) : list (list T) :=
  bucketed owner commSize xrow l.

Lemma cells_uniform l :
  (forall a, a ∈ l -> a < H) ->
  Forall (fun c => length c = w) (cells_of l).
Proof.
  intros Hl. unfold cells_of, bucketed. apply Forall_join, Forall_fmap.
  apply Forall_forall. intros q _. simpl. apply Forall_fmap, Forall_forall.
  intros a Ha. simpl. apply length_xrow, Hl.
  apply list_elem_of_filter in Ha. apply Ha.
Qed.

Lemma base_as_seg_off {B} (g : nat -> B) l q :
  q <= commSize ->
  seg_off ((fun q => g <$> bucket owner q l) <$> seq 0 commSize) q =
  base owner l q.
Proof.
  intros Hq. rewrite seg_off_fmap_seq by exact Hq. unfold base.
  f_equal. apply list_fmap_ext. intros i r _. simpl. apply length_fmap.
Qed.

(** The cell the bucket pointer of element [k] designates holds the row of
    that element. *)
Lemma cell_lookup l k i :
  (forall a, a ∈ l -> a < H) -> l !! k = Some i ->
  cells_of l !! (base owner l (owner i) +
                 length (bucket owner (owner i) (take k l))) =
  Some (xrow i).
Proof.
  intros Hl Hk.
  assert (Hq : owner i < commSize).
  { apply (v_owner _ _ _ _ _ _ valid), Hl, list_elem_of_lookup. eauto. }
  unfold cells_of, bucketed.
  rewrite <- (base_as_seg_off xrow l (owner i)) by lia.
  eapply lookup_join_segment.
  - apply (lookup_fmap_seq (fun q => xrow <$> bucket owner q l)), Hq.
  - rewrite list_lookup_fmap, (bucket_next owner l k i Hk). reflexivity.
Qed.

Lemma length_cells_of l :
  (forall a, a ∈ l -> a < H) -> length (cells_of l) = length l.
Proof.
  intros Hl. unfold cells_of.
  rewrite <- (placed_final owner commSize xrow []).
  apply length_placed. intros a Ha.
  apply (v_owner _ _ _ _ _ _ valid), Hl, Ha.
Qed.

Lemma scaled_ptrs_step l k i :
  (forall a, a ∈ l -> a < H) -> l !! k = Some i ->
  <[owner i := (base owner l (owner i) +
                length (bucket owner (owner i) (take k l))) * w + w]>
    (scaled w (ptrs owner commSize l k)) =
  scaled w (ptrs owner commSize l (S k)).
Proof.
  intros Hl Hk.
  assert (Hq : owner i < commSize).
  { apply (v_owner _ _ _ _ _ _ valid), Hl, list_elem_of_lookup. eauto. }
  rewrite <- (ptrs_step owner commSize l k i Hk Hq).
  unfold scaled. rewrite list_fmap_insert. f_equal. lia.
Qed.

Lemma unpack_node_Ok l r o :
  (forall a, a ∈ l -> a < H) -> o + r <= length l ->
  unpack_node L w l (mjoin (cells_of l)) r
    (o, scaled w (ptrs owner commSize l o), Resize r w) =
  Ok (o + r, scaled w (ptrs owner commSize l (o + r)),
      mkMatrix w (xrow <$> take r (drop o l))).
Proof.
  intros Hl Hr. unfold unpack_node.
  destruct (for_each_invariant
              (fun t (st : nat * list nat * Matrix) =>
                 st = (o + t, scaled w (ptrs owner commSize l (o + t)),
                       mkMatrix w ((xrow <$> take t (drop o l)) ++
                                   replicate (r - t) (replicate w dflt))))
              (seq 0 r)
              (fun t '(o, offs, node) =>
                 i ← vget l o;
                 let q := RowOwner L i in
                 '(offs, node) ← unpack_row w (mjoin (cells_of l)) q t
                                   (offs, node);
                 Ok (o + 1, offs, node))
              (o, scaled w (ptrs owner commSize l o), Resize r w))
    as (st & Hrun & Hfin).
  - rewrite Nat.add_0_r, Nat.sub_0_r. reflexivity.
  - intros k t st Hk ->. apply lookup_seq in Hk as [-> Hk]. simpl in Hk.
    destruct (lookup_lt_is_Some_2 l (o + k)) as [i Hi]; [lia|].
    assert (HiH : i < H) by (apply Hl, list_elem_of_lookup; eauto).
    assert (Hq : owner i < commSize)
      by (apply (v_owner _ _ _ _ _ _ valid), HiH).
    eexists. split.
    + rewrite (vget_Ok _ _ _ Hi). simpl. fold owner.
      rewrite (unpack_row_Ok w _ (owner i) k _ _
                 ((base owner l (owner i) +
                   length (bucket owner (owner i) (take (o + k) l))) * w)
                 (xrow i) (replicate w dflt)).
      * simpl. reflexivity.
      * unfold scaled. rewrite list_lookup_fmap.
        rewrite (ptrs_lookup owner commSize l (o + k) _ Hq). reflexivity.
      * apply length_xrow, HiH.
      * intros j x Hj.
        apply (join_lookup_Some_same_length' w).
        { apply cells_uniform, Hl. }
        { apply lookup_lt_Some in Hj. rewrite length_xrow in Hj; assumption. }
        exists (xrow i). split; [apply cell_lookup; assumption | exact Hj].
      * cbn [mat_rows]. rewrite lookup_app_r
          by (rewrite length_fmap, length_take, length_drop; lia).
        rewrite length_fmap, length_take, length_drop.
        apply lookup_replicate_2. lia.
      * apply length_replicate.
    + cbn [mat_rows mat_width].
      rewrite (scaled_ptrs_step l (o + k) i Hl Hi).
      replace (o + k + 1) with (o + S k) by lia.
      replace (S (o + k)) with (o + S k) by lia.
      do 3 f_equal.
      assert (Hd : drop o l !! k = Some i) by (rewrite lookup_drop; exact Hi).
      rewrite (take_S_r _ _ _ Hd), fmap_app, <- app_assoc. csimpl.
      replace k with (length (xrow <$> take k (drop o l)) + 0) at 1
        by (rewrite length_fmap, length_take, length_drop; lia).
      rewrite insert_app_r. f_equal.
      replace (r - k) with (S (r - S k)) by lia. reflexivity.
  - rewrite length_seq in Hfin. rewrite Hfin in Hrun. clear Hfin.
    rewrite Nat.sub_diag in Hrun. cbn [replicate] in Hrun.
    rewrite app_nil_r in Hrun. exact Hrun.
Qed.

(** What [Pull] leaves on a rank: every node holds the rows of the flat
    vector that [inverseMap] assigns to its reordered indices. *)
Definition rows_at (idx : list nat) : list (list T) :=
  (fun j => xrow (tr j)) <$> idx.

Definition pulled_local (n : SymmNodeInfo) : Matrix :=
  mkMatrix w (rows_at ((fun t => off n + t) <$> seq 0 (size n))).

Definition pulled_dist (n : DistSymmNodeInfo) : DistMatrix :=
  mkDistMatrix (dsize n) (Shift (gridRank n) 0 (gridSize n)) (gridSize n)
    (mkMatrix w (rows_at ((fun t => doff n + t) <$> shard n))).

Definition pulled (info : DistSymmInfo) : DistNodalMultiVec :=
  mkNodal H w (pulled_local <$> localNodes info)
    (pulled_dist <$> drop 1 (distNodes info)).

Lemma Height_Resize k w' : Height (Resize k w') = k.
Proof. unfold Height, Resize. cbn [mat_rows]. apply length_replicate. Qed.

Lemma take_drop_middle_segment {B} (pre mid post : list B) :
  take (length mid) (drop (length pre) (pre ++ mid ++ post)) = mid.
Proof. rewrite drop_app_length, take_app_length. reflexivity. Qed.

Lemma unpack_local_loop l (nodes : list SymmNodeInfo) :
  (forall a, a ∈ l -> a < H) ->
  forall pre post acc,
    l = pre ++ (tr <$> local_indices nodes) ++ post ->
    for_each nodes
      (fun nodeInfo '(o, offs, nodes) =>
         '(o, offs, node) ←
           unpack_node L w l (mjoin (cells_of l)) (size nodeInfo)
             (o, offs, Resize (size nodeInfo) w);
         Ok (o, offs, nodes ++ [node]))
      (length pre, scaled w (ptrs owner commSize l (length pre)), acc) =
    Ok (length pre + length (local_indices nodes),
        scaled w (ptrs owner commSize l
                    (length pre + length (local_indices nodes))),
        acc ++ (pulled_local <$> nodes)).
Proof.
  intros Hl. induction nodes as [|n nodes IH]; intros pre post acc El.
  - simpl. rewrite Nat.add_0_r, app_nil_r. reflexivity.
  - unfold local_indices in El. csimpl in El.
    fold (local_indices nodes) in El.
    set (idx := (fun t => off n + t) <$> seq 0 (size n)) in *.
    rewrite fmap_app, <- app_assoc in El.
    assert (Hidx : length (tr <$> idx) = size n)
      by (subst idx; rewrite !length_fmap, length_seq; reflexivity).
    cbn [for_each].
    rewrite unpack_node_Ok; [|exact Hl|].
    2:{ rewrite El, !length_app. lia. }
    simpl.
    assert (Etake : take (size n) (drop (length pre) l) = tr <$> idx).
    { rewrite El at 1. rewrite <- Hidx. apply take_drop_middle_segment. }
    rewrite Etake.
    replace (length pre + size n) with (length (pre ++ (tr <$> idx)))
      by (rewrite length_app, Hidx; reflexivity).
    rewrite (IH (pre ++ (tr <$> idx)) post)
      by (rewrite El, <- app_assoc; reflexivity).
    unfold local_indices at 3 4. csimpl. fold (local_indices nodes). fold idx.
    rewrite !length_app, <- !app_assoc, !(length_fmap _ idx).
    rewrite !Nat.add_assoc. do 3 f_equal.
    unfold pulled_local, rows_at. fold idx.
    rewrite <- list_fmap_compose. reflexivity.
Qed.

Lemma unpack_dist_loop l (nodes : list DistSymmNodeInfo) :
  (forall a, a ∈ l -> a < H) ->
  forall pre post acc,
    l = pre ++ (tr <$> dist_indices nodes) ++ post ->
    for_each nodes
      (fun nodeInfo '(o, offs, nodes) =>
         let XNode := DistMatrix_Resize nodeInfo (dsize nodeInfo) w in
         let localHeight := Height (dm_local XNode) in
         '(o, offs, loc) ←
           unpack_node L w l (mjoin (cells_of l)) localHeight
             (o, offs, dm_local XNode);
         Ok (o, offs,
             nodes ++ [mkDistMatrix (dm_height XNode) (dm_colShift XNode)
                         (dm_colStride XNode) loc]))
      (length pre, scaled w (ptrs owner commSize l (length pre)), acc) =
    Ok (length pre + length (dist_indices nodes),
        scaled w (ptrs owner commSize l
                    (length pre + length (dist_indices nodes))),
        acc ++ (pulled_dist <$> nodes)).
Proof.
  intros Hl. induction nodes as [|n nodes IH]; intros pre post acc El.
  - simpl. rewrite Nat.add_0_r, app_nil_r. reflexivity.
  - unfold dist_indices in El. csimpl in El.
    fold (dist_indices nodes) in El.
    set (idx := (fun t => doff n + t) <$> shard n) in *.
    rewrite fmap_app, <- app_assoc in El.
    assert (Hidx : length (tr <$> idx) = length (shard n))
      by (subst idx; rewrite !length_fmap; reflexivity).
    match goal with |- for_each _ ?b _ = _ => set (body := b) end.
    change (for_each (n :: nodes) body ?st)
      with (body n st ≫= for_each nodes body).
    unfold body at 2. cbv beta zeta iota.
    unfold DistMatrix_Resize.
    cbn [dm_local dm_height dm_colShift dm_colStride].
    rewrite Height_Resize.
    change (Length (dsize n) (Shift (gridRank n) 0 (gridSize n)) (gridSize n))
      with (length (shard n)).
    rewrite unpack_node_Ok; [|exact Hl|].
    2:{ rewrite El, !length_app. lia. }
    assert (Etake : take (length (shard n)) (drop (length pre) l) = tr <$> idx).
    { rewrite El at 1. rewrite <- Hidx. apply take_drop_middle_segment. }
    rewrite Etake.
    replace (length pre + length (shard n))
      with (length (pre ++ (tr <$> idx)))
      by (rewrite length_app, Hidx; reflexivity).
    etransitivity.
    { apply (IH (pre ++ (tr <$> idx)) post).
      rewrite El, <- app_assoc. reflexivity. }
    unfold dist_indices at 3 4. csimpl. fold (dist_indices nodes). fold idx.
    rewrite !length_app, <- !app_assoc, !(length_fmap _ idx).
    rewrite !Nat.add_assoc. do 3 f_equal.
    unfold pulled_dist, rows_at. fold idx.
    rewrite <- list_fmap_compose. reflexivity.
Qed.

Lemma mapped_split p info :
  infos !! p = Some info ->
  mapped p = (tr <$> local_indices (localNodes info)) ++
             (tr <$> dist_indices (drop 1 (distNodes info))).
Proof.
  intros Hinfo. unfold mapped. rewrite Hinfo. unfold node_indices.
  apply fmap_app.
Qed.

Lemma Pull_unpack_Ok debug p Xp info :
  X !! p = Some Xp -> infos !! p = Some info ->
  Pull_unpack debug Xp info (request_of p)
    (scaled w (base owner (mapped p) <$> seq 0 commSize))
    (mjoin (cells_of (mapped p))) = Ok (pulled info).
Proof.
  intros HX Hinfo.
  destruct (v_shard _ _ _ _ _ _ valid p Xp HX) as (HH & Hw & _).
  pose proof (mapped_split p info Hinfo) as Hsplit.
  assert (Hl : forall a, a ∈ mapped p -> a < H) by apply mapped_lt.
  unfold Pull_unpack. rewrite HH, Hw. fold L.
  cbn [pr_mappedInds pr_numRecvInds request_of].
  rewrite <- (ptrs_0 owner commSize (mapped p)).
  pose proof (unpack_local_loop (mapped p) (localNodes info) Hl []
                (tr <$> dist_indices (drop 1 (distNodes info))) []
                Hsplit) as Eloc.
  change (length (@nil nat)) with 0 in Eloc. rewrite Eloc. clear Eloc.
  cbn [app Nat.add]. simpl mbind.
  destruct (decide (length (distNodes info) = 0)) as [Hz|_].
  { destruct (v_root _ _ _ _ _ _ valid p info Hinfo) as (root & Hlast & _).
    destruct (distNodes info); [discriminate | simpl in Hz; lia]. }
  replace (length (local_indices (localNodes info)))
    with (length (tr <$> local_indices (localNodes info)))
    by apply length_fmap.
  rewrite (unpack_dist_loop (mapped p) (drop 1 (distNodes info)) Hl
             (tr <$> local_indices (localNodes info)) [] [])
    by (rewrite app_nil_r; exact Hsplit).
  simpl mbind.
  replace (length (tr <$> local_indices (localNodes info)) +
           length (dist_indices (drop 1 (distNodes info))))
    with (length (mapped p))
    by (rewrite Hsplit, length_app, !length_fmap; reflexivity).
  rewrite Nat.eqb_refl, andb_false_r. reflexivity.
Qed.

(** The indices rank [q] is asked for, requester after requester. *)
Definition arrived (q : nat) : list nat :=
  mjoin ((fun p => bucket owner q (mapped p)) <$> seq 0 commSize).

Definition pulled_rank (p : nat) : DistNodalMultiVec :=
  match infos !! p with
  | Some info => pulled info
  | None => DistNodalMultiVec_default
  end.

Lemma arrived_elem q i : i ∈ arrived q -> i < H /\ owner i = q.
Proof.
  intros Hi. apply list_elem_of_join in Hi as (l & Hil & Hl).
  apply list_elem_of_fmap in Hl as (p & -> & _).
  apply list_elem_of_filter in Hil as (Hown & Hin).
  split; [eapply mapped_lt, Hin | exact Hown].
Qed.

Lemma rank_lookups p :
  p < commSize ->
  exists Xp info, X !! p = Some Xp /\ infos !! p = Some info.
Proof.
  intros Hp.
  destruct (lookup_lt_is_Some_2 X p) as [Xp HX];
    [rewrite (v_X _ _ _ _ _ _ valid); exact Hp|].
  destruct (lookup_lt_is_Some_2 infos p) as [info Hinfo];
    [rewrite (v_infos _ _ _ _ _ _ valid); exact Hp|].
  eauto.
Qed.

(** The first exchange of [Pull]: every rank learns which indices it is
    asked for. *)
Lemma Pull_indices_exchanged :
  AllToAllv
    ((fun r => (pr_recvInds r, pr_recvSizes r, pr_recvOffs r))
     <$> (request_of <$> seq 0 commSize))
    (zip (zip ((fun n => replicate n 0) <$>
               ((fun sizes => (Scan sizes).2) <$>
                ((fun q => (fun p => length (bucket owner q (mapped p)))
                           <$> seq 0 commSize) <$> seq 0 commSize)))
              ((fun q => (fun p => length (bucket owner q (mapped p)))
                         <$> seq 0 commSize) <$> seq 0 commSize))
         ((fun sizes => (Scan sizes).1) <$>
          ((fun q => (fun p => length (bucket owner q (mapped p)))
                     <$> seq 0 commSize) <$> seq 0 commSize))) =
  Ok (arrived <$> seq 0 commSize).
Proof.
  rewrite <- !list_fmap_compose.
  rewrite !zip_with_fmap_same.
  apply (AllToAllv_Ok commSize (fun p q => bucket owner q (mapped p))).
  - intros p q Hp Hq. cbn [compose request_of pr_recvInds pr_recvSizes
                             pr_recvOffs].
    replace (base owner (mapped p) <$> seq 0 commSize)
      with (Scan (counts owner commSize (mapped p))).1
      by (rewrite Scan_counts; reflexivity).
    unfold bucketed, counts.
    rewrite (list_fmap_ext
               (fun q => (fun i : nat => i) <$> bucket owner q (mapped p))
               (fun q => bucket owner q (mapped p)))
      by (intros; apply list_fmap_id).
    apply (message_segment commSize
             (fun q => bucket owner q (mapped p))), Hq.
  - intros q Hq. cbn [compose]. rewrite length_replicate, Scan_spec.
    reflexivity.
Qed.

Lemma scaled_lengths (B : nat -> list nat) n :
  (forall q i, i ∈ B q -> i < H) ->
  scaled w ((fun q => length (B q)) <$> seq 0 n) =
  (fun q => length (mjoin (xrow <$> B q))) <$> seq 0 n.
Proof.
  intros HB. unfold scaled. rewrite <- list_fmap_compose.
  apply list_fmap_ext. intros i q _. simpl.
  rewrite length_join_xrows by apply HB. reflexivity.
Qed.

(** A sender of rows whose buffer holds the rows of the indices [B 0],
    [B 1], ... in that order. *)
Lemma message_rows (B : nat -> list nat) q :
  (forall q i, i ∈ B q -> i < H) -> q < commSize ->
  message (mjoin (xrow <$> mjoin (B <$> seq 0 commSize)),
           scaled w ((fun p => length (B p)) <$> seq 0 commSize),
           scaled w (Scan ((fun p => length (B p)) <$> seq 0 commSize)).1) q =
  Ok (mjoin (xrow <$> B q)).
Proof.
  intros HB Hq.
  rewrite Scan_scaled, (scaled_lengths B commSize HB).
  rewrite join_fmap_join, <- list_fmap_compose.
  apply (message_segment commSize (fun p => mjoin (xrow <$> B p))), Hq.
Qed.

(** The second exchange of [Pull]: every rank receives the rows it asked
    for, bucket after bucket. *)
Lemma Pull_values_exchanged :
  AllToAllv
    (zip (zip ((fun q => mjoin (xrow <$> arrived q)) <$> seq 0 commSize)
              (zip_with scaled ((fun _ => w) <$> seq 0 commSize)
                 ((fun q => (fun p => length (bucket owner q (mapped p)))
                            <$> seq 0 commSize) <$> seq 0 commSize)))
         (zip_with scaled ((fun _ => w) <$> seq 0 commSize)
            ((fun sizes => (Scan sizes).1) <$>
             ((fun q => (fun p => length (bucket owner q (mapped p)))
                        <$> seq 0 commSize) <$> seq 0 commSize))))
    (zip_with
       (fun w r => (replicate (pr_numRecvInds r * w) dflt,
                    scaled w (pr_recvSizes r), scaled w (pr_recvOffs r)))
       ((fun _ => w) <$> seq 0 commSize) (request_of <$> seq 0 commSize)) =
  Ok ((fun p => mjoin (cells_of (mapped p))) <$> seq 0 commSize).
Proof.
  rewrite <- !list_fmap_compose, !zip_with_fmap_same.
  rewrite (AllToAllv_Ok' commSize
             (fun q p => mjoin (xrow <$> bucket owner q (mapped p)))
             _ _ (fun p => replicate (length (mapped p) * w) dflt)).
  - f_equal. apply list_fmap_ext. intros i p _.
    unfold cells_of, bucketed.
    rewrite join_join, <- list_fmap_compose. reflexivity.
  - intros q p Hq Hp. cbn [compose].
    apply (message_rows (fun p => bucket owner q (mapped p)) p); [|exact Hp].
    intros p' i Hi. apply list_elem_of_filter in Hi as (_ & Hi).
    eapply mapped_lt, Hi.
  - intros p Hp. cbn [compose request_of pr_numRecvInds pr_recvSizes
                        pr_recvOffs].
    assert (HB : forall q i, i ∈ bucket owner q (mapped p) -> i < H).
    { intros q i Hi. apply list_elem_of_filter in Hi as (_ & Hi).
      eapply mapped_lt, Hi. }
    f_equal; [f_equal|].
    + apply (scaled_lengths (fun q => bucket owner q (mapped p))), HB.
    + replace (base owner (mapped p) <$> seq 0 commSize)
        with (Scan (counts owner commSize (mapped p))).1
        by (rewrite Scan_counts; reflexivity).
      rewrite Scan_scaled. do 2 f_equal.
      apply (scaled_lengths (fun q => bucket owner q (mapped p))), HB.
  - intros p Hp. rewrite length_replicate.
    rewrite <- (scaled_lengths (fun q => bucket owner q (mapped p)))
      by (intros q i Hi; apply list_elem_of_filter in Hi as (_ & Hi);
          eapply mapped_lt, Hi).
    rewrite sum_list_scaled. f_equal. symmetry.
    apply (sum_counts owner commSize). intros a Ha.
    eapply mapped_owner, Ha.
Qed.

Lemma length_arrived q :
  length (arrived q) =
  sum_list ((fun p => length (bucket owner q (mapped p))) <$> seq 0 commSize).
Proof.
  unfold arrived. rewrite length_join, <- list_fmap_compose. reflexivity.
Qed.

(** [Pull] returns, and every rank holds the rows of its nodes. *)
Lemma Pull_Ok debug :
  Pull debug inverseMap infos X = Ok (pulled_rank <$> seq 0 commSize).
Proof.
  unfold Pull. rewrite (v_X _ _ _ _ _ _ valid).
  rewrite (per_rank_Ok commSize _ request_of).
  2:{ intros p Hp. destruct (rank_lookups p Hp) as (Xp & info & HX & Hinfo).
      rewrite (vget_Ok _ _ _ HX), bind_Ok.
      rewrite (vget_Ok _ _ _ Hinfo), bind_Ok.
      apply Pull_request_Ok; assumption. }
  rewrite bind_Ok.
  replace (pr_recvSizes <$> (request_of <$> seq 0 commSize))
    with ((fun q => (fun p => length (bucket owner p (mapped q)))
                    <$> seq 0 commSize) <$> seq 0 commSize)
    by (rewrite <- list_fmap_compose; reflexivity).
  rewrite (AllToAll_Ok 0 commSize
             (fun q p => length (bucket owner p (mapped q)))), bind_Ok.
  cbv zeta.
  rewrite Pull_indices_exchanged, bind_Ok.
  rewrite (per_rank_Ok commSize _ (fun q => mjoin (xrow <$> arrived q))).
  2:{ intros q Hq. destruct (rank_lookups q Hq) as (Xq & info & HX & Hinfo).
      rewrite (vget_Ok _ _ _ HX), bind_Ok.
      rewrite (vget_Ok _ _ (length (arrived q))), bind_Ok.
      2:{ rewrite <- list_fmap_compose, list_lookup_fmap.
          rewrite lookup_seq_lt by exact Hq. cbn [fmap option_fmap option_map
                                                compose].
          rewrite Scan_spec, length_arrived. reflexivity. }
      rewrite (vget_Ok _ _ (arrived q)), bind_Ok
        by (apply lookup_fmap_seq; exact Hq).
      apply Pull_fulfill_Ok; [exact HX | apply arrived_elem]. }
  rewrite bind_Ok.
  rewrite (per_rank_Ok commSize _ (fun _ => w)).
  2:{ intros p Hp. destruct (rank_lookups p Hp) as (Xp & info & HX & Hinfo).
      rewrite (vget_Ok _ _ _ HX), bind_Ok.
      destruct (v_shard _ _ _ _ _ _ valid p Xp HX) as (_ & -> & _).
      reflexivity. }
  rewrite bind_Ok.
  rewrite Pull_values_exchanged, bind_Ok.
  apply per_rank_Ok. intros p Hp.
  destruct (rank_lookups p Hp) as (Xp & info & HX & Hinfo).
  rewrite (vget_Ok _ _ _ HX), bind_Ok.
  rewrite (vget_Ok _ _ _ Hinfo), bind_Ok.
  rewrite (vget_Ok _ _ (request_of p)), bind_Ok
    by (apply lookup_fmap_seq; exact Hp).
  rewrite (vget_Ok _ _ (mjoin (cells_of (mapped p)))), bind_Ok
    by (apply (lookup_fmap_seq (fun p => mjoin (cells_of (mapped p))));
        exact Hp).
  destruct (v_shard _ _ _ _ _ _ valid p Xp HX) as (_ & Hw & _).
  rewrite Hw. cbn [request_of pr_recvOffs].
  unfold pulled_rank. rewrite Hinfo.
  apply Pull_unpack_Ok; assumption.
Qed.

(** *** [Push] on what [Pull] produced *)

(** The value buffer of [Push] after [k] rows were packed. *)
Definition packed_cells (l : list nat) (k : nat) : list (list T) :=
  placed owner commSize xrow (replicate w dflt) l k.

Lemma packed_cells_uniform l k :
  (forall a, a ∈ l -> a < H) ->
  Forall (fun c => length c = w) (packed_cells l k).
Proof.
  intros Hl. unfold packed_cells, placed.
  apply Forall_join, Forall_fmap, Forall_forall. intros q _. simpl.
  apply Forall_app. split.
  - apply Forall_fmap, Forall_forall. intros a Ha. simpl.
    apply length_xrow, Hl. apply list_elem_of_filter in Ha as (_ & Ha).
    eapply in_take, Ha.
  - apply Forall_replicate, length_replicate.
Qed.

Lemma length_take_join_uniform {B} w' (cells : list (list B)) c :
  Forall (fun x => length x = w') cells -> c <= length cells ->
  length (mjoin (take c cells)) = c * w'.
Proof.
  intros Hall Hc. rewrite (length_join_uniform w'), length_take.
  - f_equal. lia.
  - apply Forall_take, Hall.
Qed.

Lemma pack_node_Ok l r o (get : nat -> nat -> result T) :
  (forall a, a ∈ l -> a < H) -> o + r <= length l ->
  (forall t i j x, t < r -> l !! (o + t) = Some i ->
                   xrow i !! j = Some x -> get t j = Ok x) ->
  pack_node L w l r get
    (o, ptrs owner commSize l o,
     placed owner commSize (fun i => i) 0 l o, mjoin (packed_cells l o)) =
  Ok (o + r, ptrs owner commSize l (o + r),
      placed owner commSize (fun i => i) 0 l (o + r),
      mjoin (packed_cells l (o + r))).
Proof.
  intros Hl Hr Hget. unfold pack_node.
  assert (Hown : forall a, a ∈ l -> owner a < commSize)
    by (intros a Ha; apply (v_owner _ _ _ _ _ _ valid), Hl, Ha).
  destruct (for_each_invariant
              (fun t (st : nat * list nat * list nat * list T) =>
                 st = (o + t, ptrs owner commSize l (o + t),
                       placed owner commSize (fun i => i) 0 l (o + t),
                       mjoin (packed_cells l (o + t))))
              (seq 0 r)
              (fun t '(o, offs, sendInds, sendVals) =>
                 i ← vget l o;
                 let q := RowOwner L i in
                 sendVals ←
                   for_each (seq 0 w)
                     (fun j sendVals =>
                        oq ← vget offs q;
                        v ← get t j;
                        vset sendVals (oq * w + j) v)
                     sendVals;
                 oq ← vget offs q;
                 sendInds ← vset sendInds oq i;
                 offs ← vset offs q (oq + 1);
                 Ok (o + 1, offs, sendInds, sendVals))
              (o, ptrs owner commSize l o,
               placed owner commSize (fun i => i) 0 l o,
               mjoin (packed_cells l o))) as (st & Hrun & Hfin).
  - rewrite Nat.add_0_r. reflexivity.
  - intros k t st Hk ->. apply lookup_seq in Hk as [-> Hk]. simpl in Hk.
    destruct (lookup_lt_is_Some_2 l (o + k)) as [i Hi]; [lia|].
    assert (Hin : i ∈ l) by (apply list_elem_of_lookup; eauto).
    pose proof (Hown i Hin) as Hq.
    set (oq := base owner l (owner i) +
               length (bucket owner (owner i) (take (o + k) l))).
    destruct (placed_step owner commSize xrow (replicate w dflt) l (o + k) i
                Hi Hq) as (Hlt & Hcells).
    destruct (placed_step owner commSize (fun i => i) 0 l (o + k) i Hi Hq)
      as (Hlt' & Hinds).
    pose proof (ptrs_step owner commSize l (o + k) i Hi Hq) as Hptrs.
    fold oq in Hlt, Hcells, Hlt', Hinds, Hptrs.
    fold (packed_cells l (o + k)) in *.
    fold (packed_cells l (S (o + k))) in Hcells.
    destruct (lookup_lt_is_Some_2 _ _ Hlt) as [old Hold].
    pose proof (packed_cells_uniform l (o + k) Hl) as Huni.
    assert (Holdlen : length old = w)
      by (eapply Forall_lookup in Huni; eassumption).
    pose proof (length_xrow i (Hl i Hin)) as Hrow.
    eexists. split.
    + rewrite (vget_Ok _ _ _ Hi), bind_Ok. cbv zeta. fold owner.
      rewrite (join_split_at _ _ _ Hold).
      rewrite <- Hrow at 1.
      rewrite (write_cell _ (xrow i) old).
      * rewrite bind_Ok.
        rewrite (vget_Ok _ _ _ (ptrs_lookup owner commSize l (o + k) _ Hq)).
        fold oq. rewrite bind_Ok.
        rewrite (vset_Ok (placed _ _ _ _ _ _)) by exact Hlt'.
        rewrite bind_Ok.
        rewrite vset_Ok by (rewrite length_ptrs; exact Hq).
        rewrite bind_Ok. reflexivity.
      * lia.
      * intros j x buf Hj.
        rewrite (vget_Ok _ _ _ (ptrs_lookup owner commSize l (o + k) _ Hq)).
        fold oq. rewrite bind_Ok. change (0 + k) with k.
        rewrite (Hget k i j x Hk Hi Hj), bind_Ok.
        rewrite (length_take_join_uniform w) by (assumption || lia).
        reflexivity.
    + rewrite Hinds, Hptrs.
      rewrite <- join_insert by exact Hlt.
      rewrite Hcells.
      replace (o + k + 1) with (o + S k) by lia.
      replace (S (o + k)) with (o + S k) by lia. reflexivity.
  - rewrite length_seq in Hfin. rewrite Hfin in Hrun. exact Hrun.
Qed.

(** The state of the packing loops of [Push] after [o] rows. *)
Definition pack_state (l : list nat) (o : nat)
  : nat * list nat * list nat * list T :=
  (o, ptrs owner commSize l o,
   placed owner commSize (fun i => i) 0 l o, mjoin (packed_cells l o)).

Lemma pack_loop {N} (rows : N -> list nat)
    (body : nat -> nat * list nat * list nat * list T ->
            result (nat * list nat * list nat * list T))
    (l : list nat) (nodes : list N) :
  forall k0 pre post,
    l = pre ++ (tr <$> (nodes ≫= rows)) ++ post ->
    (forall s n o, nodes !! s = Some n ->
       o + length (rows n) <= length l ->
       take (length (rows n)) (drop o l) = tr <$> rows n ->
       body (k0 + s) (pack_state l o) =
       Ok (pack_state l (o + length (rows n)))) ->
    for_each (seq k0 (length nodes)) body (pack_state l (length pre)) =
    Ok (pack_state l (length pre + length (nodes ≫= rows))).
Proof.
  induction nodes as [|n nodes IH]; intros k0 pre post El Hbody.
  - simpl. rewrite Nat.add_0_r. reflexivity.
  - csimpl in El. rewrite fmap_app, <- app_assoc in El.
    assert (Hidx : length (tr <$> rows n) = length (rows n))
      by apply length_fmap.
    cbn [length seq for_each].
    rewrite <- (Nat.add_0_r k0) at 1.
    rewrite (Hbody 0 n (length pre) eq_refl).
    2:{ rewrite El, !length_app, Hidx. lia. }
    2:{ rewrite El at 1. rewrite <- Hidx. apply take_drop_middle_segment. }
    rewrite bind_Ok.
    replace (length pre + length (rows n))
      with (length (pre ++ (tr <$> rows n)))
      by (rewrite length_app, Hidx; reflexivity).
    rewrite (IH (S k0) (pre ++ (tr <$> rows n)) post).
    + csimpl. rewrite !length_app, Hidx, Nat.add_assoc. reflexivity.
    + rewrite El, <- app_assoc. reflexivity.
    + intros s m o Hs Ho Htake.
      replace (S k0 + s) with (k0 + S s) by lia.
      apply Hbody; assumption.
Qed.

Lemma rows_at_lookup (idx : list nat) l o t i j x :
  take (length idx) (drop o l) = tr <$> idx ->
  t < length idx -> l !! (o + t) = Some i -> xrow i !! j = Some x ->
  Get (mkMatrix w (rows_at idx)) t j = Ok x.
Proof.
  intros Htake Ht Hi Hj. unfold Get. cbn [mat_rows].
  assert (Hrow : rows_at idx !! t = Some (xrow i)).
  { unfold rows_at.
    assert (Hti : (tr <$> idx) !! t = Some i).
    { rewrite <- Htake, lookup_take_lt, lookup_drop by exact Ht. exact Hi. }
    apply list_lookup_fmap_Some in Hti as (a & -> & Ha).
    rewrite list_lookup_fmap, Ha. reflexivity. }
  rewrite (vget_Ok _ _ _ Hrow), bind_Ok. apply vget_Ok, Hj.
Qed.

Lemma LocalHeightOf_pulled info :
  LocalHeightOf (pulled info) =
  length (local_indices (localNodes info)) +
  length (dist_indices (drop 1 (distNodes info))).
Proof.
  unfold LocalHeightOf, pulled. cbn [nodal_localNodes nodal_distNodes].
  rewrite !foldl_sum, <- !list_fmap_compose. simpl. f_equal.
  - rewrite <- length_local_indices. f_equal.
    apply list_fmap_ext. intros i n _. simpl.
    unfold Height, pulled_local, rows_at. cbn [mat_rows].
    rewrite !length_fmap, length_seq. reflexivity.
  - unfold dist_indices. rewrite length_bind_sum. f_equal.
    apply list_fmap_ext. intros i n _. simpl.
    unfold Height, rows_at. cbn [mat_rows]. rewrite !length_fmap.
    reflexivity.
Qed.

(** What [Push] has computed on rank [p] when it reaches the first
    exchange. *)
Definition pack_of (p : nat) : push_send :=
  mkSend H w (counts owner commSize (mapped p))
    (base owner (mapped p) <$> seq 0 commSize)
    (bucketed owner commSize (fun i => i) (mapped p))
    (mjoin (cells_of (mapped p))).

Lemma pack_state_0 l :
  (forall a, a ∈ l -> a < H) ->
  pack_state l 0 =
  (0, base owner l <$> seq 0 commSize, replicate (length l) 0,
   replicate (length l * w) dflt).
Proof.
  intros Hl. unfold pack_state, packed_cells.
  assert (Hown : forall a, a ∈ l -> owner a < commSize)
    by (intros a Ha; apply (v_owner _ _ _ _ _ _ valid), Hl, Ha).
  rewrite ptrs_0, !placed_0 by exact Hown.
  rewrite join_replicate_cells. reflexivity.
Qed.

Lemma pack_state_final l :
  pack_state l (length l) =
  (length l, ptrs owner commSize l (length l),
   bucketed owner commSize (fun i => i) l, mjoin (cells_of l)).
Proof.
  unfold pack_state, packed_cells, cells_of. rewrite !placed_final.
  reflexivity.
Qed.

Lemma Push_pack_Ok p info :
  infos !! p = Some info ->
  Push_pack inverseMap commSize (pulled info) info = Ok (pack_of p).
Proof.
  intros Hinfo.
  destruct (v_root _ _ _ _ _ _ valid p info Hinfo) as (root & Hlast & Hsum).
  pose proof (mapped_split p info Hinfo) as Hsplit.
  assert (Hl : forall a, a ∈ mapped p -> a < H) by apply mapped_lt.
  assert (Hmapped : mapped p = tr <$> node_indices info)
    by (unfold mapped; rewrite Hinfo; reflexivity).
  set (loc := local_indices (localNodes info)) in *.
  set (dst := dist_indices (drop 1 (distNodes info))) in *.
  unfold Push_pack.
  destruct (decide (length (distNodes info) = 0)) as [Hz|Hnz].
  { destruct (distNodes info); [discriminate | simpl in Hz; lia]. }
  rewrite last_lookup, <- Nat.sub_1_r in Hlast.
  rewrite (vget_Ok _ _ _ Hlast), bind_Ok. cbv zeta.
  rewrite Hsum. fold L. cbn [width_ pulled].
  rewrite LocalHeightOf_pulled. fold loc dst.
  (* the indices *)
  unfold fill_local_indices.
  pose proof (fill_nested (localNodes info) (fun n => seq 0 (size n))
                (fun n t => off n + t) []
                (replicate (length loc + length dst) 0)) as Hfill1.
  cbv beta zeta in Hfill1. fold (local_indices (localNodes info)) in Hfill1.
  fold loc in Hfill1. rewrite !app_nil_l in Hfill1.
  change (length (@nil nat)) with 0 in Hfill1.
  rewrite Hfill1 by (rewrite length_replicate; lia). clear Hfill1.
  rewrite bind_Ok. cbn [Nat.add].
  replace (length (distNodes info) - 1)
    with (length (drop 1 (distNodes info))) by (rewrite length_drop; lia).
  rewrite (for_each_indexed (drop 1 (distNodes info)) 1 _
             (fun n st =>
                for_each (shard n)
                  (fun t st => push_index (doff n + t) st) st)).
  2:{ intros s n st Hs. rewrite lookup_drop in Hs.
      rewrite (vget_Ok _ _ _ Hs), bind_Ok.
      rewrite (vget_Ok _ _ (pulled_dist n)), bind_Ok.
      - reflexivity.
      - cbn [pulled nodal_distNodes].
        rewrite list_lookup_fmap, lookup_drop.
        replace (1 + s - 1) with s by lia. rewrite Hs. reflexivity. }
  pose proof (fill_nested (drop 1 (distNodes info)) shard
                (fun n t => doff n + t) loc
                (drop (length loc)
                   (replicate (length loc + length dst) 0))) as Hfill2.
  cbv beta zeta in Hfill2.
  fold (dist_indices (drop 1 (distNodes info))) in Hfill2.
  fold dst in Hfill2.
  rewrite Hfill2 by (rewrite length_drop, length_replicate; lia).
  clear Hfill2. rewrite bind_Ok.
  rewrite drop_drop, (drop_ge (replicate _ _))
    by (rewrite length_replicate; lia).
  rewrite app_nil_r.
  change (loc ++ dst) with (node_indices info).
  rewrite Translate_Ok.
  2:{ intros i Hi. rewrite length_inverseMap.
      eapply node_index_lt; eassumption. }
  rewrite bind_Ok. fold tr. rewrite <- Hmapped.
  rewrite count_owners_Ok by (intros i Hi; eapply mapped_owner, Hi).
  rewrite bind_Ok. fold owner. rewrite Scan_counts.
  replace (length loc + length dst) with (length (mapped p)).
  2:{ rewrite Hmapped, length_fmap. unfold node_indices.
      rewrite length_app. reflexivity. }
  (* the packing loops *)
  rewrite <- (pack_state_0 (mapped p) Hl).
  pose proof (pack_loop (fun n => (fun t => off n + t) <$> seq 0 (size n))) as Hloc.
  specialize (Hloc
    (fun s st =>
       nodeInfo ← vget (localNodes info) s;
       pack_node L w (mapped p) (size nodeInfo)
         (fun t j => node ← vget (nodal_localNodes (pulled info)) s;
                     Get node t j) st)
    (mapped p) (localNodes info) 0 []
    (tr <$> dst)).
  change (length (@nil nat)) with 0 in Hloc.
  fold (local_indices (localNodes info)) in Hloc. fold loc in Hloc.
  rewrite Hloc; clear Hloc.
  2:{ exact Hsplit. }
  2:{ intros s n o Hs Ho Htake. cbn [Nat.add].
      rewrite (vget_Ok _ _ _ Hs), bind_Ok.
      rewrite length_fmap, length_seq in Ho, Htake |- *.
      apply pack_node_Ok; [exact Hl | exact Ho |].
      intros t i j x Ht Hi Hj.
      rewrite (vget_Ok _ _ (pulled_local n)), bind_Ok
        by (cbn [pulled nodal_localNodes];
            rewrite list_lookup_fmap, Hs; reflexivity).
      unfold pulled_local.
      eapply rows_at_lookup; try eassumption;
        rewrite length_fmap, length_seq; assumption. }
  rewrite bind_Ok. cbn [Nat.add].
  pose proof (pack_loop (fun n => (fun t => doff n + t) <$> shard n)) as Hdst.
  specialize (Hdst
    (fun s st =>
       XNode ← vget (nodal_distNodes (pulled info)) (s - 1);
       pack_node L w (mapped p) (Height (dm_local XNode))
         (fun tLoc j => Get (dm_local XNode) tLoc j) st)
    (mapped p) (drop 1 (distNodes info)) 1 (tr <$> loc) []).
  fold (dist_indices (drop 1 (distNodes info))) in Hdst. fold dst in Hdst.
  rewrite length_fmap in Hdst.
  rewrite Hdst; clear Hdst.
  2:{ rewrite app_nil_r. exact Hsplit. }
  2:{ intros s n o Hs Ho Htake.
      rewrite (vget_Ok _ _ (pulled_dist n)), bind_Ok.
      2:{ cbn [pulled nodal_distNodes]. replace (1 + s - 1) with s by lia.
          rewrite list_lookup_fmap, Hs. reflexivity. }
      cbv zeta. unfold pulled_dist at 1. cbn [dm_local].
      unfold Height at 1. cbn [mat_rows]. unfold rows_at at 1.
      rewrite !length_fmap. rewrite length_fmap in Ho.
      rewrite (length_fmap (fun t => doff n + t)) in Htake.
      apply pack_node_Ok; [exact Hl | exact Ho |].
      intros t i j x Ht Hi Hj.
      unfold pulled_dist. cbn [dm_local].
      eapply rows_at_lookup; try eassumption;
        rewrite length_fmap; assumption. }
  rewrite bind_Ok.
  replace (length loc + length dst) with (length (mapped p)).
  2:{ rewrite Hmapped, length_fmap. unfold node_indices.
      rewrite length_app. reflexivity. }
  rewrite pack_state_final. reflexivity.
Qed.

(** Every row index is requested by exactly one rank. *)
Lemma all_mapped : mjoin (mapped <$> seq 0 commSize) ≡ₚ seq 0 H.
Proof.
  assert (E : mapped <$> seq 0 commSize =
              (fun info => tr <$> node_indices info) <$> infos).
  { apply list_eq. intros p. rewrite !list_lookup_fmap.
    destruct (decide (p < commSize)) as [Hp|Hp].
    - rewrite lookup_seq_lt by exact Hp.
      destruct (rank_lookups p Hp) as (Xp & info & _ & Hinfo).
      rewrite Hinfo. csimpl. unfold mapped. rewrite Hinfo. reflexivity.
    - rewrite lookup_seq_ge by lia.
      rewrite (lookup_ge_None_2 infos)
        by (rewrite (v_infos _ _ _ _ _ _ valid); lia).
      reflexivity. }
  rewrite E.
  assert (J : mjoin ((fun info => tr <$> node_indices info) <$> infos) =
              tr <$> mjoin (node_indices <$> infos)).
  { clear. induction infos as [|i l IH]; [reflexivity|].
    csimpl. rewrite fmap_app, IH. reflexivity. }
  rewrite J, (v_nodes _ _ _ _ _ _ valid).
  assert (I : tr <$> seq 0 H = inverseMap).
  { apply list_eq. intros i. rewrite list_lookup_fmap.
    destruct (decide (i < H)) as [Hi|Hi].
    - rewrite lookup_seq_lt by exact Hi. simpl. unfold tr.
      destruct (lookup_lt_is_Some_2 inverseMap i) as (a & Ha);
        [rewrite length_inverseMap; exact Hi|].
      rewrite Ha. reflexivity.
    - rewrite lookup_seq_ge by lia.
      rewrite lookup_ge_None_2 by (rewrite length_inverseMap; lia).
      reflexivity. }
  rewrite I. apply (v_inverseMap _ _ _ _ _ _ valid).
Qed.

(** What arrives at rank [q] is a rearrangement of the rows it owns. *)
Lemma arrived_perm q :
  q < commSize ->
  arrived q ≡ₚ
  (fun r => FirstLocalRow L q + r) <$> seq 0 (LocalHeight L q).
Proof.
  intros Hq. unfold arrived.
  replace ((fun p => bucket owner q (mapped p)) <$> seq 0 commSize)
    with (filter (fun a => owner a = q) <$> (mapped <$> seq 0 commSize))
    by (rewrite <- list_fmap_compose; reflexivity).
  rewrite <- filter_join, all_mapped.
  apply NoDup_Permutation.
  - apply NoDup_filter, NoDup_seq.
  - apply NoDup_fmap_2; [intros a b; lia | apply NoDup_seq].
  - intros i. rewrite list_elem_of_filter, elem_of_seq, list_elem_of_fmap.
    split.
    + intros (Ho & _ & Hi). simpl in Hi.
      destruct (v_owner _ _ _ _ _ _ valid i Hi) as (_ & Hlo & Hhi).
      fold L owner in Hlo, Hhi. rewrite Ho in Hlo, Hhi.
      exists (i - FirstLocalRow L q). split; [lia|].
      apply elem_of_seq. lia.
    + intros (r & -> & Hr). apply elem_of_seq in Hr.
      destruct (v_local _ _ _ _ _ _ valid q r Hq) as (Hlt & Ho);
        [exact (proj2 Hr)|].
      fold L in Hlt, Ho. fold owner in Ho. split; [exact Ho | lia].
Qed.

Lemma arrived_local_height q :
  q < commSize -> length (arrived q) = LocalHeight L q.
Proof.
  intros Hq. rewrite (arrived_perm q Hq), length_fmap, length_seq.
  reflexivity.
Qed.

(** The rows of the shard [Push] rebuilds, after the indices [l] were
    unpacked. *)
Definition unpacked (first : nat) (rows : list (list T)) (l : list nat)
  : list (list T) :=
  foldl (fun rows i => <[i - first := xrow i]> rows) rows l.

Lemma length_unpacked first rows l :
  length (unpacked first rows l) = length rows.
Proof.
  revert rows. induction l as [|i l IH]; intros rows; [reflexivity|].
  simpl. rewrite IH, length_insert. reflexivity.
Qed.

Lemma unpacked_uniform first rows l :
  (forall i, i ∈ l -> i < H) ->
  Forall (fun row => length row = w) rows ->
  Forall (fun row => length row = w) (unpacked first rows l).
Proof.
  revert rows. induction l as [|i l IH]; intros rows Hl Hrows; [exact Hrows|].
  simpl. apply IH.
  - intros a Ha. apply Hl. right. exact Ha.
  - apply Forall_insert; [exact Hrows|]. apply length_xrow, Hl. left.
Qed.

Lemma unpacked_lookup first rows l r :
  (forall i, i ∈ l -> first <= i) -> first + r ∈ l -> r < length rows ->
  unpacked first rows l !! r = Some (xrow (first + r)).
Proof.
  induction l as [|i l IH] using rev_ind; intros Hl Hr Hlen.
  - inversion Hr.
  - unfold unpacked. rewrite foldl_snoc. fold (unpacked first rows l).
    destruct (decide (i - first = r)) as [E|E].
    + assert (I : first <= i) by (apply Hl, elem_of_app; right; left).
      replace (first + r) with i by lia. subst r.
      apply list_lookup_insert_eq. rewrite length_unpacked. exact Hlen.
    + rewrite list_lookup_insert_ne by exact E.
      apply IH; [| |exact Hlen].
      * intros a Ha. apply Hl, elem_of_app. left. exact Ha.
      * apply elem_of_app in Hr as [Hr|Hr]; [exact Hr|].
        apply list_elem_of_singleton in Hr. lia.
Qed.

Lemma Push_unpack_Ok p Xp :
  p < commSize -> X !! p = Some Xp ->
  Push_unpack p H w (length (arrived p)) (arrived p)
    (mjoin (xrow <$> arrived p)) = Ok Xp.
Proof.
  intros Hp HX.
  set (first := FirstLocalRow L p).
  set (rows0 := replicate (LocalHeight L p) (replicate w dflt)).
  assert (Harr : forall i, i ∈ arrived p -> i < H)
    by (intros i Hi; apply (arrived_elem p i Hi)).
  assert (Hfirst : forall i, i ∈ arrived p ->
                     first <= i < first + LocalHeight L p).
  { intros i Hi. destruct (arrived_elem p i Hi) as (Hlt & Ho).
    destruct (v_owner _ _ _ _ _ _ valid i Hlt) as (_ & Hlo).
    fold L owner in Hlo. rewrite Ho in Hlo. exact Hlo. }
  assert (Hrows0 : Forall (fun row => length row = w) rows0)
    by apply Forall_replicate, length_replicate.
  unfold Push_unpack. cbv zeta. fold L first.
  unfold DistMultiVec_Resize, Resize. cbn [dmv_local]. fold L rows0.
  destruct (for_each_invariant
              (fun k st =>
                 st = mkMatrix w (unpacked first rows0 (take k (arrived p))))
              (seq 0 (length (arrived p)))
              (fun s loc =>
                 i ← vget (arrived p) s;
                 iLocal ← local_index i first;
                 for_each (seq 0 w)
                   (fun j loc =>
                      v ← vget (mjoin (xrow <$> arrived p)) (s * w + j);
                      SetEntry loc iLocal j v)
                   loc)
              (mkMatrix w rows0)) as (st & Hrun & Hfin).
  - reflexivity.
  - intros k a st Hk ->. apply lookup_seq in Hk as (-> & Hk).
    change (0 + k) with k.
    destruct (lookup_lt_is_Some_2 (arrived p) k Hk) as (i & Hi).
    assert (Hin : i ∈ arrived p) by (eapply list_elem_of_lookup_2, Hi).
    pose proof (Hfirst i Hin) as Hrange.
    pose proof (Harr i Hin) as HiH.
    eexists. split; [|rewrite (take_S_r _ _ _ Hi); unfold unpacked;
                      rewrite foldl_snoc; reflexivity].
    rewrite (vget_Ok _ _ _ Hi), bind_Ok.
    rewrite local_index_Ok by lia. rewrite bind_Ok.
    fold (unpacked first rows0 (take k (arrived p))).
    set (rows := unpacked first rows0 (take k (arrived p))).
    assert (Hlen : length rows = LocalHeight L p).
    { unfold rows, rows0. rewrite length_unpacked, length_replicate.
      reflexivity. }
    destruct (lookup_lt_is_Some_2 rows (i - first)) as (old & Hold);
      [lia|].
    assert (Hlold : length old = w).
    { assert (Hall : Forall (fun row => length row = w) rows).
      { apply unpacked_uniform; [|exact Hrows0].
        intros a Ha. apply Harr. eapply in_take, Ha. }
      eapply (proj1 (Forall_lookup _ _) Hall), Hold. }
    replace (seq 0 w) with (seq 0 (length (xrow i)))
      by (rewrite length_xrow by exact HiH; reflexivity).
    rewrite (set_row_Ok _ (mkMatrix w rows) (i - first) (xrow i) old).
    + reflexivity.
    + exact Hold.
    + rewrite length_xrow by exact HiH. exact Hlold.
    + intros j x nd Hj.
      rewrite (vget_Ok _ _ x), bind_Ok; [reflexivity|].
      apply (join_lookup_Some_same_length' w).
      * apply Forall_fmap, Forall_forall. intros a Ha. simpl.
        apply length_xrow, Harr, Ha.
      * apply lookup_lt_Some in Hj. rewrite length_xrow in Hj by exact HiH.
        exact Hj.
      * exists (xrow i). split; [|exact Hj].
        rewrite list_lookup_fmap, Hi. reflexivity.
  - rewrite Hrun, bind_Ok. rewrite length_seq, firstn_all in Hfin.
    subst st. f_equal.
    destruct (v_shard _ _ _ _ _ _ valid p Xp HX)
      as (HH & Hw & Hmw & Hlen & _).
    destruct Xp as [h wd [mw rs]]. cbn in HH, Hw, Hmw, Hlen. subst h wd mw.
    do 2 f_equal. fold L in Hlen.
    apply list_eq. intros r.
    destruct (decide (r < LocalHeight L p)) as [Hr|Hr].
    + rewrite unpacked_lookup.
      * destruct (v_local _ _ _ _ _ _ valid p r Hp Hr) as (Hlt & Ho).
        fold L in Hlt, Ho. fold owner in Ho. fold first in Hlt, Ho.
        destruct (xrow_lookup (first + r) (mkDistMultiVec H w (mkMatrix w rs)))
          as (Hrow & _); [exact Hlt | rewrite Ho; exact HX |].
        cbn [dmv_local mat_rows] in Hrow. rewrite Ho in Hrow.
        fold first in Hrow.
        replace (first + r - first) with r in Hrow by lia.
        symmetry. exact Hrow.
      * intros i Hi. apply (Hfirst i Hi).
      * rewrite (arrived_perm p Hp). apply list_elem_of_fmap.
        exists r. split; [reflexivity | apply elem_of_seq; lia].
      * unfold rows0. rewrite length_replicate. exact Hr.
    + rewrite !lookup_ge_None_2; [reflexivity | lia |].
      rewrite length_unpacked. unfold rows0. rewrite length_replicate. lia.
Qed.

(** The first exchange of [Push]: every rank learns which of its rows
    are coming, sender after sender. *)
Lemma Push_indices_exchanged :
  AllToAllv
    ((fun pk => (ps_sendInds pk, ps_sendSizes pk, ps_sendOffs pk))
     <$> (pack_of <$> seq 0 commSize))
    (zip (zip ((fun n => replicate n 0) <$>
               ((fun sizes => (Scan sizes).2) <$>
                ((fun q => (fun p => length (bucket owner q (mapped p)))
                           <$> seq 0 commSize) <$> seq 0 commSize)))
              ((fun q => (fun p => length (bucket owner q (mapped p)))
                         <$> seq 0 commSize) <$> seq 0 commSize))
         ((fun sizes => (Scan sizes).1) <$>
          ((fun q => (fun p => length (bucket owner q (mapped p)))
                     <$> seq 0 commSize) <$> seq 0 commSize))) =
  Ok (arrived <$> seq 0 commSize).
Proof.
  pose proof Pull_indices_exchanged as E.
  rewrite <- !list_fmap_compose in E. rewrite <- !list_fmap_compose.
  exact E.
Qed.

(** The second exchange of [Push]: the rows follow their indices. *)
Lemma Push_values_exchanged :
  AllToAllv
    ((fun pk => (ps_sendVals pk, scaled (ps_width pk) (ps_sendSizes pk),
                 scaled (ps_width pk) (ps_sendOffs pk)))
     <$> (pack_of <$> seq 0 commSize))
    (zip_with
       (fun pk '(n, sizes, offs) =>
          (replicate (n * ps_width pk) dflt,
           scaled (ps_width pk) sizes, scaled (ps_width pk) offs))
       (pack_of <$> seq 0 commSize)
       (zip (zip ((fun sizes => (Scan sizes).2) <$>
                  ((fun q => (fun p => length (bucket owner q (mapped p)))
                             <$> seq 0 commSize) <$> seq 0 commSize))
                 ((fun q => (fun p => length (bucket owner q (mapped p)))
                            <$> seq 0 commSize) <$> seq 0 commSize))
            ((fun sizes => (Scan sizes).1) <$>
             ((fun q => (fun p => length (bucket owner q (mapped p)))
                        <$> seq 0 commSize) <$> seq 0 commSize)))) =
  Ok ((fun q => mjoin (xrow <$> arrived q)) <$> seq 0 commSize).
Proof.
  assert (HB : forall p q i, i ∈ bucket owner q (mapped p) -> i < H).
  { intros p q i Hi. apply list_elem_of_filter in Hi as (_ & Hi).
    eapply mapped_lt, Hi. }
  rewrite <- !list_fmap_compose, !zip_with_fmap_same.
  rewrite (AllToAllv_Ok' commSize
             (fun p q => mjoin (xrow <$> bucket owner q (mapped p)))
             _ _
             (fun q => replicate
                (((Scan ((fun p => length (bucket owner q (mapped p)))
                         <$> seq 0 commSize)).2) * w) dflt)).
  - f_equal. apply list_fmap_ext. intros i q _.
    unfold arrived. rewrite join_fmap_join, <- list_fmap_compose.
    reflexivity.
  - intros p q Hp Hq. cbn [compose pack_of ps_sendVals ps_width
                             ps_sendSizes ps_sendOffs].
    replace (base owner (mapped p) <$> seq 0 commSize)
      with (Scan (counts owner commSize (mapped p))).1
      by (rewrite Scan_counts; reflexivity).
    replace (mjoin (cells_of (mapped p)))
      with (mjoin (xrow <$> mjoin ((fun q => bucket owner q (mapped p))
                                   <$> seq 0 commSize))).
    + apply (message_rows (fun q => bucket owner q (mapped p)) q);
        [apply HB | exact Hq].
    + unfold cells_of, bucketed.
      rewrite join_fmap_join, join_join, <- !list_fmap_compose.
      reflexivity.
  - intros q Hq. cbn [compose pack_of ps_width].
    f_equal; [f_equal|].
    + apply (scaled_lengths (fun p => bucket owner q (mapped p))).
      intros p i Hi. eapply HB, Hi.
    + rewrite Scan_scaled. do 2 f_equal.
      apply (scaled_lengths (fun p => bucket owner q (mapped p))).
      intros p i Hi. eapply HB, Hi.
  - intros q Hq. rewrite length_replicate, Scan_spec.
    rewrite <- (scaled_lengths (fun p => bucket owner q (mapped p)))
      by (intros p i Hi; eapply HB, Hi).
    rewrite sum_list_scaled. reflexivity.
Qed.

(** [Push] applied to what [Pull] produced returns the flat vector. *)
Lemma Push_Ok debug :
  Push debug inverseMap infos (pulled_rank <$> seq 0 commSize) = Ok X.
Proof.
  unfold Push. rewrite (v_infos _ _ _ _ _ _ valid).
  rewrite (per_rank_Ok commSize _ pack_of).
  2:{ intros p Hp. destruct (rank_lookups p Hp) as (Xp & info & HX & Hinfo).
      rewrite (vget_Ok _ _ (pulled_rank p)), bind_Ok
        by (apply lookup_fmap_seq; exact Hp).
      rewrite (vget_Ok _ _ _ Hinfo), bind_Ok.
      unfold pulled_rank. rewrite Hinfo.
      apply Push_pack_Ok; assumption. }
  rewrite bind_Ok.
  replace (ps_sendSizes <$> (pack_of <$> seq 0 commSize))
    with ((fun q => (fun p => length (bucket owner p (mapped q)))
                    <$> seq 0 commSize) <$> seq 0 commSize)
    by (rewrite <- list_fmap_compose; reflexivity).
  rewrite (AllToAll_Ok 0 commSize
             (fun q p => length (bucket owner p (mapped q)))), bind_Ok.
  cbv zeta.
  assert (Hnum : forall q, q < commSize ->
            ((fun sizes => (Scan sizes).2) <$>
             ((fun q => (fun p => length (bucket owner q (mapped p)))
                        <$> seq 0 commSize) <$> seq 0 commSize)) !! q =
            Some (length (arrived q))).
  { intros q Hq. rewrite <- list_fmap_compose, list_lookup_fmap.
    rewrite lookup_seq_lt by exact Hq.
    cbn [fmap option_fmap option_map compose].
    rewrite Scan_spec, length_arrived. reflexivity. }
  rewrite (per_rank_Ok commSize _ (fun _ => tt)).
  2:{ intros p Hp.
      rewrite (vget_Ok _ _ (pack_of p)), bind_Ok
        by (apply lookup_fmap_seq; exact Hp).
      rewrite (vget_Ok _ _ _ (Hnum p Hp)), bind_Ok.
      cbn [pack_of ps_height]. fold L.
      rewrite (arrived_local_height p Hp), Nat.eqb_refl, andb_false_r.
      reflexivity. }
  rewrite bind_Ok.
  rewrite Push_indices_exchanged, bind_Ok.
  rewrite Push_values_exchanged, bind_Ok.
  set (blank := mkDistMultiVec 0 0 (mkMatrix 0 [])).
  rewrite (per_rank_Ok commSize _ (fun p => default blank (X !! p))).
  - f_equal. apply list_eq. intros p. rewrite list_lookup_fmap.
    destruct (decide (p < commSize)) as [Hp|Hp].
    + rewrite lookup_seq_lt by exact Hp.
      destruct (rank_lookups p Hp) as (Xp & info & HX & Hinfo).
      csimpl. rewrite HX. reflexivity.
    + rewrite lookup_seq_ge by lia.
      rewrite lookup_ge_None_2
        by (rewrite (v_X _ _ _ _ _ _ valid); lia).
      reflexivity.
  - intros p Hp. destruct (rank_lookups p Hp) as (Xp & info & HX & Hinfo).
    rewrite (vget_Ok _ _ (pack_of p)), bind_Ok
      by (apply lookup_fmap_seq; exact Hp).
    rewrite (vget_Ok _ _ _ (Hnum p Hp)), bind_Ok.
    rewrite (vget_Ok _ _ (arrived p)), bind_Ok
      by (apply lookup_fmap_seq; exact Hp).
    rewrite (vget_Ok _ _ (mjoin (xrow <$> arrived p))), bind_Ok
      by (apply (lookup_fmap_seq (fun q => mjoin (xrow <$> arrived q)));
          exact Hp).
    cbn [pack_of ps_height ps_width]. rewrite HX. cbn [default].
    apply Push_unpack_Ok; assumption.
Qed.

End RoundTrip.


End Remap.

(** ** The remapping round trip *)

(** C1: for every flat distributed vector [X] and every valid elimination
    tree over a compatible layout, on any number of processes, [Pull]
    returns a nodal vector and [Push] of that nodal vector returns [X]
    itself, entry for entry, whether or not the debug checks are compiled
    in. *)
Theorem Push_Pull_round_trip {T : Type} (dflt : T)
    (layout : nat -> FlatLayout) (debugPull debugPush : bool)
    (commSize H w : nat) (inverseMap : list nat)
    (infos : list DistSymmInfo) (X : list (DistMultiVec (T := T))) :
  remap_valid layout commSize H w inverseMap infos X ->
  exists Ns,
    Pull dflt layout debugPull inverseMap infos X = Ok Ns /\
    Push dflt layout debugPush inverseMap infos Ns = Ok X.
Proof.
  intros valid.
  exists (pulled_rank layout H w inverseMap infos X <$> seq 0 commSize).
  split.
  - apply Pull_Ok, valid.
  - apply Push_Ok, valid.
Qed.

(** C9: [UpdateWidth] on the default-constructed container, which holds
    no local and no distributed node, reads [localNodes[0]] of an empty
    vector, although [LocalHeight] and [UpdateHeight] complete on it. *)
Theorem UpdateWidth_default_out_of_bounds {T : Type} :
  UpdateWidth (DistNodalMultiVec_default (T := T)) = Fail OutOfBounds /\
  LocalHeightOf (DistNodalMultiVec_default (T := T)) = 0 /\
  UpdateHeight (DistNodalMultiVec_default (T := T)) =
    DistNodalMultiVec_default.
Proof. repeat split. Qed.

(** *** A two-process instance *)

(** Modelled from the spec: an "ownership-partitioned" vector whose rows
    are dealt out in contiguous blocks of [height / commSize] rows, the
    last process taking the remainder. *)
Definition BlockLayout (commSize height : nat) : FlatLayout :=
  let blocksize := height / commSize in
  mkLayout
    (fun i => if decide (0 < blocksize)
              then Nat.min (i / blocksize) (commSize - 1)
              else commSize - 1)
    (fun q => blocksize * q)
    (fun q => if decide (q < commSize - 1) then blocksize
              else height - blocksize * (commSize - 1)).

(** Two leaves of two vertices each under a root of one vertex shared by
    both processes. *)
Definition infos_ex : list DistSymmInfo :=
  [ mkInfo [mkNode 2 0] [mkDistNode 2 0 1 0 2; mkDistNode 1 4 2 0 1];
    mkInfo [mkNode 2 2] [mkDistNode 2 2 1 0 2; mkDistNode 1 4 2 1 0] ].

Definition inverseMap_ex : list nat := [3; 0; 4; 1; 2].

Definition flat_ex : list (DistMultiVec (T := nat)) :=
  [ mkDistMultiVec 5 2 (mkMatrix 2 [[10; 11]; [20; 21]]);
    mkDistMultiVec 5 2 (mkMatrix 2 [[30; 31]; [40; 41]; [50; 51]]) ].

Lemma remap_valid_ex :
  remap_valid (BlockLayout 2) 2 5 2 inverseMap_ex infos_ex flat_ex.
Proof.
  assert (P5 : forall l : list nat,
             NoDup l -> (forall x, x ∈ l <-> x < 5) -> l ≡ₚ seq 0 5).
  { intros l Hnd Hl. apply NoDup_Permutation; [exact Hnd | apply NoDup_seq |].
    intros x. rewrite Hl, elem_of_seq. lia. }
  split.
  - reflexivity.
  - reflexivity.
  - intros i Hi.
    do 5 (destruct i as [|i]; [vm_compute; repeat split; lia|]). lia.
  - intros q r Hq Hr.
    destruct q as [|[|q]]; [| |lia]; vm_compute in Hr;
      do 3 (destruct r as [|r]; [vm_compute; repeat split; lia|]); lia.
  - intros p Xp HX.
    destruct p as [|[|p]]; [| |discriminate];
      injection HX as <-; vm_compute; repeat split; repeat constructor.
  - intros p info Hinfo.
    destruct p as [|[|p]]; [| |discriminate];
      injection Hinfo as <-; eexists; split; reflexivity.
  - intros p info node Hinfo Hnode.
    destruct p as [|[|p]]; [| |discriminate];
      injection Hinfo as <-; cbn in Hnode;
      apply list_elem_of_singleton in Hnode; subst node;
      vm_compute; split; lia.
  - apply P5.
    + refine (bool_decide_unpack _ _). vm_compute. exact I.
    + intros x. unfold inverseMap_ex.
      rewrite !elem_of_cons, elem_of_nil. lia.
  - apply P5.
    + refine (bool_decide_unpack _ _). vm_compute. exact I.
    + intros x. change (mjoin (node_indices <$> infos_ex))
        with [0; 1; 4; 2; 3].
      rewrite !elem_of_cons, elem_of_nil. lia.
Qed.

Lemma Push_Pull_round_trip_witness :
  exists Ns,
    Pull 0 (BlockLayout 2) true inverseMap_ex infos_ex flat_ex = Ok Ns /\
    Push 0 (BlockLayout 2) true inverseMap_ex infos_ex Ns = Ok flat_ex.
Proof.
  apply (Push_Pull_round_trip 0 (BlockLayout 2) true true 2 5 2).
  exact remap_valid_ex.
Defined.

(** The nodal vector of the instance, computed. *)
Example Pull_ex :
  Pull 0 (BlockLayout 2) true inverseMap_ex infos_ex flat_ex =
  Ok [ mkNodal 5 2 [mkMatrix 2 [[40; 41]; [10; 11]]]
         [mkDistMatrix 1 0 2 (mkMatrix 2 [[30; 31]])];
       mkNodal 5 2 [mkMatrix 2 [[50; 51]; [20; 21]]]
         [mkDistMatrix 1 1 2 (mkMatrix 2 [])] ].
Proof. vm_compute. reflexivity. Qed.

(** ** Further properties of the remap *)

Definition is_Ok {A} (r : result A) : bool :=
  match r with Ok _ => true | Fail _ => false end.

Lemma bind_inv {A B} (m : result A) (f : A -> result B) b :
  (m ≫= f) = Ok b -> exists a, m = Ok a /\ f a = Ok b.
Proof. destruct m as [a|e]; [eauto | discriminate]. Qed.

Lemma mapR_inv {A B} (f : A -> result B) (l : list A) bs :
  mapR f l = Ok bs -> Forall2 (fun a b => f a = Ok b) l bs.
Proof.
  revert bs. induction l as [|a l IH]; intros bs Hrun; simpl in Hrun.
  - injection Hrun as <-. constructor.
  - apply bind_inv in Hrun as (b & Hb & Hrun).
    apply bind_inv in Hrun as (bs' & Hbs & Hrun).
    injection Hrun as <-. constructor; [exact Hb | apply IH, Hbs].
Qed.

Lemma per_rank_inv {A} n (f : nat -> result A) bs :
  per_rank n f = Ok bs ->
  length bs = n /\ forall p b, bs !! p = Some b -> f p = Ok b.
Proof.
  intros Hrun. apply mapR_inv in Hrun.
  split.
  - rewrite <- (Forall2_length _ _ _ Hrun), length_seq. reflexivity.
  - intros p b Hb.
    destruct (Forall2_lookup_r _ _ _ _ _ Hrun Hb) as (q & Hq & Hf).
    apply lookup_seq in Hq as [-> _]. exact Hf.
Qed.

Lemma per_rank_fails {A} n (f : nat -> result A) p :
  p < n -> is_Ok (f p) = false -> is_Ok (per_rank n f) = false.
Proof.
  intros Hp Hf. destruct (per_rank n f) as [bs|e] eqn:Hrun; [|reflexivity].
  apply per_rank_inv in Hrun as (Hlen & Hall).
  destruct (lookup_lt_is_Some_2 bs p) as [b Hb]; [lia|].
  rewrite (Hall p b Hb) in Hf. discriminate.
Qed.

Lemma for_each_preserves {A St} (P : St -> Prop) (l : list A)
    (body : A -> St -> result St) :
  (forall a s s', a ∈ l -> body a s = Ok s' -> P s -> P s') ->
  forall s s', for_each l body s = Ok s' -> P s -> P s'.
Proof.
  induction l as [|a l IH]; intros Hbody s s' Hrun Hs; simpl in Hrun.
  - injection Hrun as <-. exact Hs.
  - apply bind_inv in Hrun as (s1 & Hb & Hrun).
    apply (IH (fun b t t' Hb' => Hbody b t t' (list_elem_of_further _ _ _ Hb'))
              s1 s' Hrun).
    apply (Hbody a s s1); [left | exact Hb | exact Hs].
Qed.

Section MoreRemap.

Context {T : Type} (dflt : T).
Variable layout : nat -> FlatLayout.

(** Row [i] of a flat vector of height [H], read on the process that owns
    it. *)
Definition global_row (H : nat) (X : list (DistMultiVec (T := T))) (i : nat)
  : option (list T) :=
  let q := RowOwner (layout H) i in
  Xq ← X !! q;
  mat_rows (dmv_local Xq) !! (i - FirstLocalRow (layout H) q).

(** Row [t] of local node [s], and local row [k] of the distributed node
    stored at position [s], of a nodal vector. *)
Definition local_node_row (N : DistNodalMultiVec (T := T)) (s t : nat)
  : option (list T) :=
  M ← nodal_localNodes N !! s; mat_rows M !! t.

Definition dist_node_row (N : DistNodalMultiVec (T := T)) (s k : nat)
  : option (list T) :=
  D ← nodal_distNodes N !! s; mat_rows (dm_local D) !! k.

Lemma global_row_xrow commSize H w inverseMap infos X i :
  remap_valid layout commSize H w inverseMap infos X ->
  i < H -> global_row H X i = Some (xrow layout H X i).
Proof.
  intros valid Hi. unfold global_row. cbv zeta.
  destruct (v_owner _ _ _ _ _ _ _ valid i Hi) as (Hq & _).
  destruct (rank_lookups _ _ _ _ _ _ _ valid _ Hq) as (Xq & _ & HX & _).
  rewrite HX. cbn.
  apply (xrow_lookup _ _ _ _ _ _ _ valid i Xq Hi HX).
Qed.

(** X6: [Pull] gathers.  On every process the nodal vector has the height
    and the width of the flat one; row [t] of a local node is the row of
    the flat vector that [inverseMap] gives for the reordered index
    [off + t], and the [k]-th local row of a distributed node above the
    first is the one it gives for [off + t], [t] being the [k]-th row of the
    process's shard of the node; each is read on the process that owns
    it. *)
Theorem Pull_gathers (debug : bool) (commSize H w : nat)
    (inverseMap : list nat) (infos : list DistSymmInfo)
    (X : list (DistMultiVec (T := T))) :
  remap_valid layout commSize H w inverseMap infos X ->
  exists Ns,
    Pull dflt layout debug inverseMap infos X = Ok Ns /\
    length Ns = commSize /\
    forall p info N, infos !! p = Some info -> Ns !! p = Some N ->
      height_ N = H /\ width_ N = w /\
      length (nodal_localNodes N) = length (localNodes info) /\
      length (nodal_distNodes N) = length (distNodes info) - 1 /\
      (forall s n t, localNodes info !! s = Some n -> t < size n ->
         exists i row,
           inverseMap !! (off n + t) = Some i /\
           global_row H X i = Some row /\
           local_node_row N s t = Some row) /\
      (forall s n k t, distNodes info !! (S s) = Some n ->
         stride_range (Shift (gridRank n) 0 (gridSize n)) (dsize n)
                      (gridSize n) !! k = Some t ->
         exists i row,
           inverseMap !! (doff n + t) = Some i /\
           global_row H X i = Some row /\
           dist_node_row N s k = Some row).
Proof.
  intros valid.
  exists (pulled_rank layout H w inverseMap infos X <$> seq 0 commSize).
  split; [apply Pull_Ok, valid|].
  split; [rewrite length_fmap, length_seq; reflexivity|].
  intros p info N Hinfo HN.
  apply list_lookup_fmap_Some in HN as (p' & -> & Hp').
  apply lookup_seq in Hp' as [-> Hp]. cbn in Hp.
  unfold pulled_rank. cbn [Nat.add]. rewrite Hinfo.
  assert (Hlen := length_inverseMap _ _ _ _ _ _ _ valid).
  assert (Hrow : forall j, j ∈ node_indices info ->
            exists i, inverseMap !! j = Some i /\
              global_row H X i = Some (xrow layout H X
                                         (default 0 (inverseMap !! j)))).
  { intros j Hj.
    pose proof (node_index_lt _ _ _ _ _ _ _ valid p info j Hinfo Hj) as HjH.
    pose proof (tr_lt _ _ _ _ _ _ _ valid j HjH) as Htr. cbn beta in Htr.
    destruct (lookup_lt_is_Some_2 inverseMap j) as [i Hi]; [lia|].
    rewrite Hi in Htr |- *. cbn in Htr |- *.
    exists i. split; [reflexivity|].
    apply (global_row_xrow _ _ _ _ _ _ _ valid Htr). }
  cbn [pulled height_ width_ nodal_localNodes nodal_distNodes].
  rewrite !length_fmap, length_drop.
  do 4 (split; [reflexivity|]).
  split.
  - intros s n t Hn Ht.
    destruct (Hrow (off n + t)) as (i & Hi & Hg).
    { unfold node_indices. apply elem_of_app. left.
      unfold local_indices. apply list_elem_of_bind. exists n.
      split; [|eapply list_elem_of_lookup_2, Hn].
      apply list_elem_of_fmap. exists t.
      split; [reflexivity | apply elem_of_seq; lia]. }
    exists i, (xrow layout H X (default 0 (inverseMap !! (off n + t)))).
    split; [exact Hi|]. split; [exact Hg|].
    unfold local_node_row.
    cbn [pulled nodal_localNodes]. rewrite list_lookup_fmap, Hn. cbn.
    unfold rows_at. rewrite !list_lookup_fmap, lookup_seq_lt by exact Ht.
    reflexivity.
  - intros s n k t Hn Ht.
    destruct (Hrow (doff n + t)) as (i & Hi & Hg).
    { unfold node_indices. apply elem_of_app. right.
      unfold dist_indices. apply list_elem_of_bind. exists n.
      split; [|eapply list_elem_of_lookup_2; rewrite lookup_drop; exact Hn].
      apply list_elem_of_fmap. exists t.
      split; [reflexivity | eapply list_elem_of_lookup_2, Ht]. }
    exists i, (xrow layout H X (default 0 (inverseMap !! (doff n + t)))).
    split; [exact Hi|]. split; [exact Hg|].
    unfold dist_node_row.
    cbn [pulled nodal_distNodes]. rewrite list_lookup_fmap, lookup_drop.
    cbn [Nat.add]. rewrite Hn. cbn.
    unfold rows_at. rewrite !list_lookup_fmap.
    unfold shard. rewrite Ht. reflexivity.
Qed.

(** X7: [Pull] neither drops nor repeats a row: over all processes, the
    local heights of the nodal vector add up to the height of the flat
    vector. *)
Theorem Pull_local_heights_add_up (debug : bool) (commSize H w : nat)
    (inverseMap : list nat) (infos : list DistSymmInfo)
    (X : list (DistMultiVec (T := T))) :
  remap_valid layout commSize H w inverseMap infos X ->
  exists Ns,
    Pull dflt layout debug inverseMap infos X = Ok Ns /\
    sum_list (LocalHeightOf <$> Ns) = H.
Proof.
  intros valid.
  exists (pulled_rank layout H w inverseMap infos X <$> seq 0 commSize).
  split; [apply Pull_Ok, valid|].
  transitivity (length (seq 0 H)); [|apply length_seq].
  rewrite <- (Permutation_length (v_nodes _ _ _ _ _ _ _ valid)).
  rewrite length_join. f_equal.
  apply list_eq. intros p.
  rewrite !list_lookup_fmap.
  destruct (decide (p < commSize)) as [Hp|Hp].
  - destruct (rank_lookups _ _ _ _ _ _ _ valid _ Hp) as (_ & info & _ & Hi).
    rewrite lookup_seq_lt, Hi by exact Hp. cbn. f_equal.
    unfold pulled_rank. rewrite Hi, LocalHeightOf_pulled.
    unfold node_indices. rewrite length_app. reflexivity.
  - rewrite lookup_seq_ge by lia.
    rewrite (lookup_ge_None_2 infos p)
      by (rewrite (v_infos _ _ _ _ _ _ _ valid); lia).
    reflexivity.
Qed.

(** *** A process without a distributed node *)

Lemma vget_inv {A} (v : list A) i a : vget v i = Ok a -> v !! i = Some a.
Proof. unfold vget. destruct (v !! i); [congruence | discriminate]. Qed.

Lemma bind_fails {A B} (m : result A) (f : A -> result B) :
  (forall a, m = Ok a -> is_Ok (f a) = false) -> is_Ok (m ≫= f) = false.
Proof. destruct m as [a|e]; [intros H; exact (H a eq_refl) | reflexivity]. Qed.

Lemma Pull_unpack_needs_a_node debug Xp info req offs vals :
  distNodes info = [] ->
  is_Ok (Pull_unpack dflt layout debug Xp info req offs vals) = false.
Proof.
  intros Hd. unfold Pull_unpack. cbv zeta. rewrite Hd.
  apply bind_fails. intros [[o offs'] nodes] _. reflexivity.
Qed.

Lemma Push_pack_needs_a_node inverseMap commSize N info :
  distNodes info = [] ->
  Push_pack dflt layout inverseMap commSize N info = Fail OutOfBounds.
Proof. intros Hd. unfold Push_pack. rewrite Hd. reflexivity. Qed.

(** X8: both directions need the root.  If one process of the
    communicator comes with an elimination tree that has no distributed
    node, [Pull] does not return ([distNodes.resize( numDist-1 )] is a
    resize to -1) and [Push] does not either ([info.distNodes.back()] is
    read of an empty vector), whatever the vectors are. *)
Theorem remap_needs_a_distributed_node (debug : bool) (inverseMap : list nat)
    (infos : list DistSymmInfo) (p : nat) (info : DistSymmInfo) :
  infos !! p = Some info -> distNodes info = [] ->
  (forall X : list (DistMultiVec (T := T)), p < length X ->
     is_Ok (Pull dflt layout debug inverseMap infos X) = false) /\
  (forall Ns : list (DistNodalMultiVec (T := T)),
     is_Ok (Push dflt layout debug inverseMap infos Ns) = false).
Proof.
  intros Hinfo Hd. split.
  - intros X Hp. unfold Pull. cbv zeta.
    do 6 (apply bind_fails; intros ? _).
    apply (per_rank_fails _ _ p Hp).
    apply bind_fails. intros Xp _.
    rewrite (vget_Ok _ _ _ Hinfo), bind_Ok.
    do 2 (apply bind_fails; intros ? _).
    apply Pull_unpack_needs_a_node, Hd.
  - intros Ns. unfold Push. cbv zeta.
    apply bind_fails. intros packs Hpacks. exfalso.
    apply per_rank_inv in Hpacks as (Hlen & Hall).
    destruct (lookup_lt_is_Some_2 packs p) as [pk Hpk].
    { rewrite Hlen. eapply lookup_lt_Some, Hinfo. }
    specialize (Hall p pk Hpk).
    apply bind_inv in Hall as (N & _ & Hall).
    rewrite (vget_Ok _ _ _ Hinfo), bind_Ok in Hall.
    rewrite Push_pack_needs_a_node in Hall by exact Hd. discriminate.
Qed.

(** *** The shape of what [Push] returns *)

(** A local matrix of [ht] rows of [wd] entries each. *)
Definition shaped (wd ht : nat) (M : Matrix (T := T)) : Prop :=
  mat_width M = wd /\ length (mat_rows M) = ht /\
  Forall (fun row => length row = wd) (mat_rows M).

Lemma SetEntry_shape (M M' : Matrix (T := T)) t j v wd ht :
  SetEntry M t j v = Ok M' -> shaped wd ht M -> shaped wd ht M'.
Proof.
  unfold SetEntry. intros Hrun (Hw & Hh & Hall).
  apply bind_inv in Hrun as (row & Hrow & Hrun).
  apply bind_inv in Hrun as (row' & Hrow' & Hrun).
  apply bind_inv in Hrun as (rows' & Hrows' & Hrun).
  injection Hrun as <-.
  unfold vset in Hrow', Hrows'.
  destruct (decide (j < length row)); [|discriminate].
  destruct (decide (t < length (mat_rows M))); [|discriminate].
  injection Hrow' as <-. injection Hrows' as <-.
  apply vget_inv in Hrow.
  split; [exact Hw|]. cbn. split; [rewrite length_insert; exact Hh|].
  apply Forall_insert; [exact Hall|].
  rewrite length_insert. eapply Forall_lookup in Hall; eassumption.
Qed.

Lemma Push_unpack_shape p height width n inds vals Xp :
  Push_unpack dflt layout p height width n inds vals = Ok Xp ->
  dmv_height Xp = height /\ dmv_width Xp = width /\
  shaped width (LocalHeight (layout height) p) (dmv_local Xp).
Proof.
  unfold Push_unpack. cbv zeta. intros Hrun.
  apply bind_inv in Hrun as (loc & Hloc & Hrun). injection Hrun as <-.
  cbn. split; [reflexivity|]. split; [reflexivity|].
  apply (for_each_preserves
           (shaped width (LocalHeight (layout height) p)) _ _) in Hloc;
    [exact Hloc| |].
  - intros s M M' _ Hbody HM.
    apply bind_inv in Hbody as (i & _ & Hbody).
    apply bind_inv in Hbody as (iLocal & _ & Hbody).
    apply (for_each_preserves
             (shaped width (LocalHeight (layout height) p)) _ _) in Hbody;
      [exact Hbody| |exact HM].
    intros j M1 M2 _ Hset HM1.
    apply bind_inv in Hset as (v & _ & Hset).
    eapply SetEntry_shape; eassumption.
  - split; [reflexivity|]. cbn. split; [apply length_replicate|].
    apply Forall_replicate, length_replicate.
Qed.

Lemma Push_pack_shape inverseMap commSize N info pk :
  Push_pack dflt layout inverseMap commSize N info = Ok pk ->
  exists root,
    last (distNodes info) = Some root /\
    ps_height pk = dsize root + doff root /\ ps_width pk = width_ N.
Proof.
  unfold Push_pack. cbv zeta. intros Hrun.
  apply bind_inv in Hrun as (root & Hroot & Hrun).
  apply bind_inv in Hrun as (st & _ & Hrun).
  apply bind_inv in Hrun as ([o mappedInds] & _ & Hrun).
  apply bind_inv in Hrun as (mappedInds' & _ & Hrun).
  apply bind_inv in Hrun as (sendSizes & _ & Hrun).
  destruct (Scan sendSizes) as [sendOffs total].
  apply bind_inv in Hrun as (st' & _ & Hrun).
  apply bind_inv in Hrun as ([[[o' offs] sendInds] sendVals] & _ & Hrun).
  injection Hrun as <-. cbn.
  exists root. split; [|split; reflexivity].
  destruct (decide (length (distNodes info) = 0)); [discriminate|].
  apply vget_inv in Hroot. rewrite last_lookup, <- Hroot.
  f_equal. lia.
Qed.

(** X9: what [Push] returns, whatever nodal vector it is given: one flat
    shard per process of the tree; on each, the height is where the root
    node ends, [rootNode.size + rootNode.off], the width is that of the
    nodal vector of the process, and the local matrix has the rows the
    layout of that height gives the process, all of that width. *)
Theorem Push_shape (debug : bool) (inverseMap : list nat)
    (infos : list DistSymmInfo) (Ns : list (DistNodalMultiVec (T := T)))
    (Xs : list (DistMultiVec (T := T))) :
  Push dflt layout debug inverseMap infos Ns = Ok Xs ->
  length Xs = length infos /\
  forall p Xp, Xs !! p = Some Xp ->
    exists info root N,
      infos !! p = Some info /\ last (distNodes info) = Some root /\
      Ns !! p = Some N /\
      dmv_height Xp = dsize root + doff root /\
      dmv_width Xp = width_ N /\
      mat_width (dmv_local Xp) = width_ N /\
      length (mat_rows (dmv_local Xp)) =
        LocalHeight (layout (dsize root + doff root)) p /\
      Forall (fun row => length row = width_ N) (mat_rows (dmv_local Xp)).
Proof.
  unfold Push. cbv zeta. intros Hrun.
  apply bind_inv in Hrun as (packs & Hpacks & Hrun).
  apply bind_inv in Hrun as (recvSizes & _ & Hrun).
  apply bind_inv in Hrun as (u & _ & Hrun).
  apply bind_inv in Hrun as (recvInds & _ & Hrun).
  apply bind_inv in Hrun as (recvVals & _ & Hrun).
  apply per_rank_inv in Hrun as (Hlen & Hall).
  apply per_rank_inv in Hpacks as (_ & Hpk).
  split; [exact Hlen|].
  intros p Xp HXp. specialize (Hall p Xp HXp).
  apply bind_inv in Hall as (pk & Hpkp & Hall).
  apply bind_inv in Hall as (n & _ & Hall).
  apply bind_inv in Hall as (inds & _ & Hall).
  apply bind_inv in Hall as (vals & _ & Hall).
  apply vget_inv in Hpkp. specialize (Hpk p pk Hpkp).
  apply bind_inv in Hpk as (N & HN & Hpk).
  apply bind_inv in Hpk as (info & Hinfo & Hpk).
  apply vget_inv in HN, Hinfo.
  apply Push_pack_shape in Hpk as (root & Hroot & Hh & Hw).
  apply Push_unpack_shape in Hall. rewrite Hh, Hw in Hall.
  unfold shaped in Hall. exists info, root, N. tauto.
Qed.

End MoreRemap.

(** *** From the nodal vector to the flat one and back *)

Lemma join_inj_lengths {A} (ls rs : list (list A)) :
  Forall2 (fun l r => length l = length r) ls rs ->
  mjoin ls = mjoin rs -> ls = rs.
Proof.
  induction 1 as [|l r ls rs Hlen _ IH]; intros Heq; [reflexivity|].
  simpl in Heq. apply app_inj_1 in Heq as [-> Heq]; [|exact Hlen].
  f_equal. apply IH, Heq.
Qed.

Lemma fmap_join {A B} (f : A -> B) (ls : list (list A)) :
  f <$> mjoin ls = mjoin (fmap f <$> ls).
Proof.
  induction ls as [|l ls IH]; [reflexivity|].
  change (f <$> l ++ mjoin ls = (f <$> l) ++ mjoin (fmap f <$> ls)).
  rewrite fmap_app, IH. reflexivity.
Qed.

Lemma length_join_aligned {A B} (ls : list (list A)) (rs : list (list B)) :
  Forall2 (fun l r => length l = length r) ls rs ->
  length (mjoin ls) = length (mjoin rs).
Proof.
  induction 1 as [|l r ls rs Hlen _ IH]; [reflexivity|].
  change (length (l ++ mjoin ls) = length (r ++ mjoin rs)).
  rewrite !length_app, Hlen, IH. reflexivity.
Qed.

Section NodalRoundTrip.

Context {T : Type} (dflt : T).
Variable layout : nat -> FlatLayout.

(** The row stored under index [i] in a table of indexed rows. *)
Fixpoint assoc (i : nat) (tbl : list (nat * list T)) : option (list T) :=
  match tbl with
  | [] => None
  | (k, r) :: tbl' => if decide (k = i) then Some r else assoc i tbl'
  end.

Lemma assoc_zip (d : list T) (ks : list nat) : forall vs,
  NoDup ks -> length ks = length vs ->
  (fun i => default d (assoc i (zip ks vs))) <$> ks = vs.
Proof.
  induction ks as [|k ks IH]; intros [|v vs] Hnd Hlen;
    try discriminate; [reflexivity|].
  apply NoDup_cons in Hnd as (Hk & Hnd). cbn.
  destruct (decide (k = k)) as [_|Hne]; [|contradiction]. cbn. f_equal.
  transitivity ((fun i => default d (assoc i (zip ks vs))) <$> ks);
    [|apply IH; [exact Hnd | simpl in Hlen; lia]].
  apply list_fmap_ext. intros j i Hi.
  destruct (decide (k = i)) as [->|_]; [|reflexivity].
  exfalso. apply Hk. eapply list_elem_of_lookup_2, Hi.
Qed.

Lemma assoc_zip_Forall (P : list T -> Prop) (ks : list nat) : forall vs i r,
  Forall P vs -> assoc i (zip ks vs) = Some r -> P r.
Proof.
  induction ks as [|k ks IH]; intros [|v vs] i r Hall Hr;
    try discriminate.
  apply Forall_cons in Hall as (Hv & Hall). cbn in Hr.
  destruct (decide (k = i)); [injection Hr as <-; exact Hv|].
  eapply IH; eassumption.
Qed.

(** A node of a nodal vector that conforms to its node of the tree. *)
Definition local_conforms (w : nat) (n : SymmNodeInfo)
    (M : Matrix (T := T)) : Prop :=
  shaped w (size n) M.

Definition dist_conforms (w : nat) (n : DistSymmNodeInfo)
    (D : DistMatrix (T := T)) : Prop :=
  dm_height D = dsize n /\
  dm_colShift D = Shift (gridRank n) 0 (gridSize n) /\
  dm_colStride D = gridSize n /\
  shaped w (Length (dsize n) (Shift (gridRank n) 0 (gridSize n))
                   (gridSize n))
         (dm_local D).

(** [nodal_valid commSize H w inverseMap infos Ns]: a valid elimination
    tree whose root ends at row [H], as for the other round trip, and on
    every process a nodal vector of width [w] with one matrix of [size]
    rows per local node and, per distributed node above the first, one
    matrix on the grid of the node with the rows of the process's shard.
    Nothing is asked of the [height_] the vector holds. *)
Record nodal_valid (commSize H w : nat) (inverseMap : list nat)
    (infos : list DistSymmInfo) (Ns : list (DistNodalMultiVec (T := T)))
  : Prop := {
  n_infos : length infos = commSize;
  n_Ns : length Ns = commSize;
  n_owner : forall i, i < H ->
    RowOwner (layout H) i < commSize /\
    FirstLocalRow (layout H) (RowOwner (layout H) i) <= i <
    FirstLocalRow (layout H) (RowOwner (layout H) i) +
    LocalHeight (layout H) (RowOwner (layout H) i);
  n_local : forall q r, q < commSize -> r < LocalHeight (layout H) q ->
    FirstLocalRow (layout H) q + r < H /\
    RowOwner (layout H) (FirstLocalRow (layout H) q + r) = q;
  n_root : forall p info, infos !! p = Some info ->
    exists root, last (distNodes info) = Some root /\
                 dsize root + doff root = H;
  n_dist : forall p info node, infos !! p = Some info ->
    node ∈ drop 1 (distNodes info) ->
    0 < gridSize node /\
    localSize node =
    Length (dsize node) (Shift (gridRank node) 0 (gridSize node))
           (gridSize node);
  n_inverseMap : inverseMap ≡ₚ seq 0 H;
  n_nodes : mjoin (node_indices <$> infos) ≡ₚ seq 0 H;
  n_shape : forall p info N, infos !! p = Some info -> Ns !! p = Some N ->
    width_ N = w /\
    Forall2 (local_conforms w) (localNodes info) (nodal_localNodes N) /\
    Forall2 (dist_conforms w) (drop 1 (distNodes info)) (nodal_distNodes N)
}.

(** The nodal vector [N] with [h] for its [height_], which is what
    [height_ = X.Height()] at the start of [Pull] makes of it. *)
Definition with_height (h : nat) (N : DistNodalMultiVec (T := T))
  : DistNodalMultiVec (T := T) :=
  mkNodal h (width_ N) (nodal_localNodes N) (nodal_distNodes N).

(** The rows a process holds, in the order of its nodes. *)
Definition rows_of (N : DistNodalMultiVec (T := T)) : list (list T) :=
  (nodal_localNodes N ≫= mat_rows) ++
  (nodal_distNodes N ≫= (fun D => mat_rows (dm_local D))).

Section Construction.

Variables (commSize H w : nat) (inverseMap : list nat).
Variables (infos : list DistSymmInfo) (Ns : list (DistNodalMultiVec (T := T))).
Hypothesis valid : nodal_valid commSize H w inverseMap infos Ns.

Let tr := fun i => default 0 (inverseMap !! i).

(** Every row of the nodal vector under the index of the flat vector it
    belongs to. *)
Definition table : list (nat * list T) :=
  zip (mjoin (mapped inverseMap infos <$> seq 0 commSize))
      (mjoin (rows_of <$> Ns)).

Definition row_of (i : nat) : list T :=
  default (replicate w dflt) (assoc i table).

(** The flat vector the nodal one is the image of. *)
Definition flat_of : list (DistMultiVec (T := T)) :=
  (fun p =>
     mkDistMultiVec H w
       (mkMatrix w
          ((fun r => row_of (FirstLocalRow (layout H) p + r))
           <$> seq 0 (LocalHeight (layout H) p))))
  <$> seq 0 commSize.

Lemma rank_nodal p :
  p < commSize ->
  exists info N, infos !! p = Some info /\ Ns !! p = Some N.
Proof.
  intros Hp.
  destruct (lookup_lt_is_Some_2 infos p) as [info Hinfo];
    [rewrite (n_infos _ _ _ _ _ _ valid); exact Hp|].
  destruct (lookup_lt_is_Some_2 Ns p) as [N HN];
    [rewrite (n_Ns _ _ _ _ _ _ valid); exact Hp|].
  eauto.
Qed.

Lemma length_local_rows (nodes : list SymmNodeInfo) Ms :
  Forall2 (local_conforms w) nodes Ms ->
  length (Ms ≫= mat_rows) = length (local_indices nodes).
Proof.
  unfold local_indices. induction 1 as [|n M nodes Ms HM _ IH];
    [reflexivity|].
  cbn. rewrite !length_app, IH, length_fmap, length_seq.
  destruct HM as (_ & -> & _). reflexivity.
Qed.

Lemma length_dist_rows (nodes : list DistSymmNodeInfo) Ds :
  Forall2 (dist_conforms w) nodes Ds ->
  length (Ds ≫= (fun D => mat_rows (dm_local D))) =
  length (dist_indices nodes).
Proof.
  unfold dist_indices. induction 1 as [|n D nodes Ds HD _ IH];
    [reflexivity|].
  cbn. rewrite !length_app, IH, length_fmap.
  destruct HD as (_ & _ & _ & _ & -> & _). reflexivity.
Qed.

Lemma rows_uniform : Forall (fun row => length row = w) (mjoin (rows_of <$> Ns)).
Proof.
  apply Forall_forall. intros row Hrow.
  apply list_elem_of_join in Hrow as (rows & Hrow & Hrows).
  apply list_elem_of_fmap in Hrows as (N & -> & HN).
  apply list_elem_of_lookup in HN as (p & HN).
  destruct (lookup_lt_is_Some_2 infos p) as [info Hinfo].
  { rewrite (n_infos _ _ _ _ _ _ valid), <- (n_Ns _ _ _ _ _ _ valid).
    eapply lookup_lt_Some, HN. }
  destruct (n_shape _ _ _ _ _ _ valid p info N Hinfo HN)
    as (_ & Hloc & Hdist).
  unfold rows_of in Hrow. apply elem_of_app in Hrow as [Hrow|Hrow];
    apply list_elem_of_bind in Hrow as (node & Hrow & Hnode).
  - apply list_elem_of_lookup in Hnode as (s & Hs).
    destruct (Forall2_lookup_r _ _ _ _ _ Hloc Hs) as (n & _ & _ & _ & Hall).
    eapply Forall_forall in Hall; eassumption.
  - apply list_elem_of_lookup in Hnode as (s & Hs).
    destruct (Forall2_lookup_r _ _ _ _ _ Hdist Hs)
      as (n & _ & _ & _ & _ & _ & _ & Hall).
    eapply Forall_forall in Hall; eassumption.
Qed.

Lemma length_row_of i : length (row_of i) = w.
Proof.
  unfold row_of. destruct (assoc i table) as [r|] eqn:Hr; cbn.
  - apply (assoc_zip_Forall (fun row => length row = w) _ _ _ _
             rows_uniform Hr).
  - apply length_replicate.
Qed.

Lemma flat_of_valid :
  remap_valid layout commSize H w inverseMap infos flat_of.
Proof.
  split.
  - apply (n_infos _ _ _ _ _ _ valid).
  - unfold flat_of. rewrite length_fmap, length_seq. reflexivity.
  - apply (n_owner _ _ _ _ _ _ valid).
  - apply (n_local _ _ _ _ _ _ valid).
  - intros p Xp HX. unfold flat_of in HX.
    apply list_lookup_fmap_Some in HX as (p' & -> & Hp').
    cbn. rewrite length_fmap, length_seq.
    apply lookup_seq in Hp' as [-> _]. cbn.
    do 4 (split; [reflexivity|]).
    apply Forall_fmap, Forall_forall. intros r _. apply length_row_of.
  - apply (n_root _ _ _ _ _ _ valid).
  - apply (n_dist _ _ _ _ _ _ valid).
  - apply (n_inverseMap _ _ _ _ _ _ valid).
  - apply (n_nodes _ _ _ _ _ _ valid).
Qed.

Lemma xrow_flat_of i : i < H -> xrow layout H flat_of i = row_of i.
Proof.
  intros Hi. destruct (n_owner _ _ _ _ _ _ valid i Hi) as (Hq & Hrange).
  unfold xrow, flat_of.
  rewrite list_lookup_fmap, lookup_seq_lt by exact Hq. cbn.
  rewrite list_lookup_fmap, lookup_seq_lt by lia. cbn.
  f_equal. lia.
Qed.

Lemma length_rows_of p info N :
  infos !! p = Some info -> Ns !! p = Some N ->
  length (rows_of N) = length (mapped inverseMap infos p).
Proof.
  intros Hinfo HN.
  destruct (n_shape _ _ _ _ _ _ valid p info N Hinfo HN)
    as (_ & Hloc & Hdist).
  unfold mapped, rows_of, node_indices. rewrite Hinfo.
  rewrite length_fmap, !length_app.
  rewrite (length_local_rows _ _ Hloc), (length_dist_rows _ _ Hdist).
  reflexivity.
Qed.

Lemma rows_aligned :
  Forall2 (fun l r => length l = length r)
    (rows_of <$> Ns)
    (fmap row_of <$> (mapped inverseMap infos <$> seq 0 commSize)).
Proof.
  apply Forall2_same_length_lookup_2.
  - rewrite !length_fmap, length_seq. apply (n_Ns _ _ _ _ _ _ valid).
  - intros p l r Hl Hr.
    apply list_lookup_fmap_Some in Hl as (N & -> & HN).
    apply list_lookup_fmap_Some in Hr as (l' & -> & Hl').
    apply list_lookup_fmap_Some in Hl' as (p' & -> & Hp').
    apply lookup_seq in Hp' as [-> Hp]. cbn in Hp |- *.
    destruct (rank_nodal p Hp) as (info & N' & Hinfo & HN').
    rewrite length_fmap. eapply length_rows_of; eassumption.
Qed.

(** The table gives every row back at its index. *)
Lemma rows_of_rank p info N :
  infos !! p = Some info -> Ns !! p = Some N ->
  rows_of N = (fun j => xrow layout H flat_of (tr j)) <$> node_indices info.
Proof.
  intros Hinfo HN.
  pose proof (all_mapped _ _ _ _ _ _ _ flat_of_valid) as Hperm.
  assert (Hnd : NoDup (mjoin (mapped inverseMap infos <$> seq 0 commSize))).
  { rewrite Hperm. apply NoDup_seq. }
  assert (Hlen : length (mjoin (mapped inverseMap infos <$> seq 0 commSize))
                 = length (mjoin (rows_of <$> Ns))).
  { rewrite <- (length_fmap row_of), fmap_join. symmetry.
    apply length_join_aligned, rows_aligned. }
  pose proof (assoc_zip (replicate w dflt) _ _ Hnd Hlen) as Heq.
  change (row_of <$> mjoin (mapped inverseMap infos <$> seq 0 commSize)
          = mjoin (rows_of <$> Ns)) in Heq.
  rewrite fmap_join in Heq. symmetry in Heq.
  apply (join_inj_lengths _ _ rows_aligned) in Heq.
  apply (f_equal (fun l => l !! p)) in Heq.
  assert (Hp : p < commSize).
  { rewrite <- (n_Ns _ _ _ _ _ _ valid). eapply lookup_lt_Some, HN. }
  rewrite !list_lookup_fmap, HN, lookup_seq_lt in Heq by exact Hp.
  cbn in Heq. injection Heq as ->.
  unfold mapped. rewrite Hinfo, <- list_fmap_compose.
  apply list_fmap_ext. intros k j Hj. cbn.
  symmetry. apply xrow_flat_of.
  apply (tr_lt _ _ _ _ _ _ _ flat_of_valid).
  eapply (node_index_lt _ _ _ _ _ _ _ flat_of_valid), list_elem_of_lookup_2, Hj;
    exact Hinfo.
Qed.

Lemma local_nodes_pulled (nodes : list SymmNodeInfo) Ms (g : nat -> list T) :
  Forall2 (local_conforms w) nodes Ms ->
  (Ms ≫= mat_rows) = g <$> local_indices nodes ->
  Ms = (fun n => mkMatrix w (g <$> ((fun t => off n + t) <$> seq 0 (size n))))
       <$> nodes.
Proof.
  unfold local_indices. induction 1 as [|n M nodes Ms HM _ IH]; intros Heq;
    [reflexivity|].
  cbn in Heq. rewrite fmap_app in Heq.
  destruct HM as (Hw & Hh & _).
  apply app_inj_1 in Heq as [Hrows Heq];
    [|rewrite !length_fmap, length_seq; exact Hh].
  cbn. f_equal; [|apply IH, Heq].
  destruct M as [wd rows]. cbn in *. subst. reflexivity.
Qed.

Lemma dist_nodes_pulled (nodes : list DistSymmNodeInfo) Ds
    (g : nat -> list T) :
  Forall2 (dist_conforms w) nodes Ds ->
  (Ds ≫= (fun D => mat_rows (dm_local D))) = g <$> dist_indices nodes ->
  Ds = (fun n => mkDistMatrix (dsize n) (Shift (gridRank n) 0 (gridSize n))
                   (gridSize n)
                   (mkMatrix w (g <$> ((fun t => doff n + t) <$> shard n))))
       <$> nodes.
Proof.
  unfold dist_indices. induction 1 as [|n D nodes Ds HD _ IH]; intros Heq;
    [reflexivity|].
  cbn in Heq. rewrite fmap_app in Heq.
  destruct HD as (Hht & Hsh & Hst & Hw & Hh & _).
  apply app_inj_1 in Heq as [Hrows Heq];
    [|rewrite !length_fmap; exact Hh].
  cbn. f_equal; [|apply IH, Heq].
  destruct D as [ht sh st [wd rows]]. cbn in *. subst. reflexivity.
Qed.

Lemma pulled_flat_of p info N :
  infos !! p = Some info -> Ns !! p = Some N ->
  pulled layout H w inverseMap flat_of info = with_height H N.
Proof.
  intros Hinfo HN.
  pose proof (rows_of_rank p info N Hinfo HN) as Hrows.
  destruct (n_shape _ _ _ _ _ _ valid p info N Hinfo HN)
    as (Hw & Hloc & Hdist).
  unfold rows_of, node_indices in Hrows. rewrite fmap_app in Hrows.
  apply app_inj_1 in Hrows as [Hl Hd];
    [|rewrite length_fmap; apply length_local_rows, Hloc].
  apply (local_nodes_pulled _ _ _ Hloc) in Hl.
  apply (dist_nodes_pulled _ _ _ Hdist) in Hd.
  destruct N as [h wd Ms Ds]. cbn in *. subst wd Ms Ds.
  reflexivity.
Qed.

Lemma pulled_rank_flat_of :
  pulled_rank layout H w inverseMap infos flat_of <$> seq 0 commSize =
  with_height H <$> Ns.
Proof.
  apply list_eq_same_length with commSize.
  - rewrite length_fmap. apply (n_Ns _ _ _ _ _ _ valid).
  - rewrite length_fmap, length_seq. reflexivity.
  - intros p N' N Hp HN' HN.
    rewrite list_lookup_fmap, lookup_seq_lt in HN' by exact Hp.
    cbn in HN'. injection HN' as <-.
    destruct (rank_nodal p Hp) as (info & N0 & Hinfo & HN0).
    unfold pulled_rank. rewrite Hinfo.
    rewrite list_lookup_fmap, HN0 in HN. injection HN as <-.
    eapply pulled_flat_of; eassumption.
Qed.

End Construction.

Lemma mapR_ext {A B} (f g : A -> result B) (l : list A) :
  (forall a, f a = g a) -> mapR f l = mapR g l.
Proof.
  intros Hfg. induction l as [|a l IH]; [reflexivity|].
  cbn [mapR]. rewrite Hfg, IH. reflexivity.
Qed.

(** [Push] does not read [height_]: the height of the flat vector is
    taken from the root node of the tree. *)
Lemma Push_with_height debug h inverseMap infos
    (Ns : list (DistNodalMultiVec (T := T))) :
  Push dflt layout debug inverseMap infos (with_height h <$> Ns) =
  Push dflt layout debug inverseMap infos Ns.
Proof.
  unfold Push. cbv zeta. f_equal. unfold per_rank. apply mapR_ext.
  intros p. unfold vget. rewrite list_lookup_fmap.
  destruct (Ns !! p) as [N|]; [|reflexivity].
  cbn [fmap option_fmap option_map].
  destruct N as [h0 wd Ms Ds]. reflexivity.
Qed.

(** X10: the other round trip.  For every nodal vector that conforms to a
    valid elimination tree (one matrix of the node's shape per node, and
    one width), on any number of processes and whatever its [height_],
    [Push] returns a flat vector, and [Pull] of that flat vector returns
    the nodal vector with the same width and nodes and with the height of
    the flat vector, where the root node ends, for its [height_]; so it
    returns the vector itself when that was its [height_] on every
    process.  This holds whether or not the debug checks are compiled
    in. *)
Theorem Pull_Push_round_trip (debugPush debugPull : bool)
    (commSize H w : nat) (inverseMap : list nat)
    (infos : list DistSymmInfo) (Ns : list (DistNodalMultiVec (T := T))) :
  nodal_valid commSize H w inverseMap infos Ns ->
  exists X,
    Push dflt layout debugPush inverseMap infos Ns = Ok X /\
    Pull dflt layout debugPull inverseMap infos X =
      Ok (with_height H <$> Ns) /\
    (Forall (fun N => height_ N = H) Ns ->
     Pull dflt layout debugPull inverseMap infos X = Ok Ns).
Proof.
  intros valid.
  pose proof (flat_of_valid _ _ _ _ _ _ valid) as Hflat.
  pose proof (pulled_rank_flat_of _ _ _ _ _ _ valid) as HNs.
  assert (Hpull : Pull dflt layout debugPull inverseMap infos
                    (flat_of commSize H w inverseMap infos Ns) =
                  Ok (with_height H <$> Ns)).
  { rewrite (Pull_Ok _ _ _ _ _ _ _ _ Hflat). f_equal. exact HNs. }
  exists (flat_of commSize H w inverseMap infos Ns).
  split; [|split].
  - rewrite <- (Push_with_height debugPush H), <- HNs.
    apply Push_Ok, Hflat.
  - exact Hpull.
  - intros Hheights. rewrite Hpull. f_equal.
    transitivity ((fun N => N) <$> Ns); [|apply list_fmap_id].
    apply list_fmap_ext. intros i N HN.
    eapply Forall_lookup in Hheights; [|exact HN].
    destruct N as [h wd Ms Ds]. cbn in Hheights. subst h. reflexivity.
Qed.

End NodalRoundTrip.

(** *** The two-process instance again *)

Definition nodal_ex : list (DistNodalMultiVec (T := nat)) :=
  [ mkNodal 5 2 [mkMatrix 2 [[40; 41]; [10; 11]]]
      [mkDistMatrix 1 0 2 (mkMatrix 2 [[30; 31]])];
    mkNodal 5 2 [mkMatrix 2 [[50; 51]; [20; 21]]]
      [mkDistMatrix 1 1 2 (mkMatrix 2 [])] ].

(** The same nodes under the height [UpdateHeight] computes on a
    process, 3: the two rows of its local node and the one row of the
    root. *)
Lemma nodal_valid_ex :
  nodal_valid (BlockLayout 2) 2 5 2 inverseMap_ex infos_ex
    (UpdateHeight <$> nodal_ex).
Proof.
  destruct remap_valid_ex
    as [Hinfos _ Howner Hlocal _ Hroot Hdist Hinv Hnodes].
  split;
    [exact Hinfos | reflexivity | exact Howner | exact Hlocal | exact Hroot
    | exact Hdist | exact Hinv | exact Hnodes |].
  intros p info N Hinfo HN.
  destruct p as [|[|p]]; [| |discriminate];
    injection Hinfo as <-; injection HN as <-; cbn;
    repeat split; repeat constructor.
Qed.

Lemma Pull_gathers_witness :
  exists Ns,
    Pull 0 (BlockLayout 2) true inverseMap_ex infos_ex flat_ex = Ok Ns /\
    length Ns = 2 /\
    forall p info N, infos_ex !! p = Some info -> Ns !! p = Some N ->
      height_ N = 5 /\ width_ N = 2 /\
      length (nodal_localNodes N) = length (localNodes info) /\
      length (nodal_distNodes N) = length (distNodes info) - 1 /\
      (forall s n t, localNodes info !! s = Some n -> t < size n ->
         exists i row,
           inverseMap_ex !! (off n + t) = Some i /\
           global_row (BlockLayout 2) 5 flat_ex i = Some row /\
           local_node_row N s t = Some row) /\
      (forall s n k t, distNodes info !! (S s) = Some n ->
         stride_range (Shift (gridRank n) 0 (gridSize n)) (dsize n)
                      (gridSize n) !! k = Some t ->
         exists i row,
           inverseMap_ex !! (doff n + t) = Some i /\
           global_row (BlockLayout 2) 5 flat_ex i = Some row /\
           dist_node_row N s k = Some row).
Proof.
  exact (Pull_gathers 0 (BlockLayout 2) true 2 5 2 inverseMap_ex infos_ex
           flat_ex remap_valid_ex).
Defined.

Lemma Pull_local_heights_add_up_witness :
  exists Ns,
    Pull 0 (BlockLayout 2) true inverseMap_ex infos_ex flat_ex = Ok Ns /\
    sum_list (LocalHeightOf <$> Ns) = 5.
Proof.
  exact (Pull_local_heights_add_up 0 (BlockLayout 2) true 2 5 2 inverseMap_ex
           infos_ex flat_ex remap_valid_ex).
Defined.

(** One process whose tree has a local node and no distributed one. *)
Definition infos_rootless : list DistSymmInfo := [mkInfo [mkNode 1 0] []].

Lemma remap_needs_a_distributed_node_witness :
  (forall X : list (DistMultiVec (T := nat)), 0 < length X ->
     is_Ok (Pull 0 (BlockLayout 1) true [0] infos_rootless X) = false) /\
  (forall Ns : list (DistNodalMultiVec (T := nat)),
     is_Ok (Push 0 (BlockLayout 1) true [0] infos_rootless Ns) = false).
Proof.
  exact (remap_needs_a_distributed_node 0 (BlockLayout 1) true [0]
           infos_rootless 0 (mkInfo [mkNode 1 0] []) eq_refl eq_refl).
Defined.

Lemma Push_ex :
  Push 0 (BlockLayout 2) true inverseMap_ex infos_ex nodal_ex = Ok flat_ex.
Proof. vm_compute. reflexivity. Qed.

Lemma Push_shape_witness :
  length flat_ex = length infos_ex /\
  forall p Xp, flat_ex !! p = Some Xp ->
    exists info root N,
      infos_ex !! p = Some info /\ last (distNodes info) = Some root /\
      nodal_ex !! p = Some N /\
      dmv_height Xp = dsize root + doff root /\
      dmv_width Xp = width_ N /\
      mat_width (dmv_local Xp) = width_ N /\
      length (mat_rows (dmv_local Xp)) =
        LocalHeight (BlockLayout 2 (dsize root + doff root)) p /\
      Forall (fun row => length row = width_ N) (mat_rows (dmv_local Xp)).
Proof.
  exact (Push_shape 0 (BlockLayout 2) true inverseMap_ex infos_ex nodal_ex
           flat_ex Push_ex).
Defined.

Lemma Pull_Push_round_trip_witness :
  exists X,
    Push 0 (BlockLayout 2) true inverseMap_ex infos_ex
      (UpdateHeight <$> nodal_ex) = Ok X /\
    Pull 0 (BlockLayout 2) true inverseMap_ex infos_ex X =
      Ok (with_height 5 <$> (UpdateHeight <$> nodal_ex)) /\
    (Forall (fun N => height_ N = 5) (UpdateHeight <$> nodal_ex) ->
     Pull 0 (BlockLayout 2) true inverseMap_ex infos_ex X =
       Ok (UpdateHeight <$> nodal_ex)).
Proof.
  exact (Pull_Push_round_trip 0 (BlockLayout 2) true true 2 5 2 inverseMap_ex
           infos_ex (UpdateHeight <$> nodal_ex) nodal_valid_ex).
Defined.

(** On this instance: the vector of height 3 is pushed to the flat vector
    of height 5, which is pulled back as the same nodes under the height
    5. *)
Example round_trip_sets_the_height :
  height_ <$> (UpdateHeight <$> nodal_ex) = [3; 3] /\
  Push 0 (BlockLayout 2) true inverseMap_ex infos_ex
    (UpdateHeight <$> nodal_ex) = Ok flat_ex /\
  Pull 0 (BlockLayout 2) true inverseMap_ex infos_ex flat_ex = Ok nodal_ex /\
  height_ <$> nodal_ex = [5; 5].
Proof. vm_compute. repeat split. Qed.

(** *** [UpdateWidth] on what [Pull] returns *)

(** X17: [UpdateWidth] after [Pull].  On a process whose tree has a local
    node it changes nothing: the width [Pull] set is the width of the
    first local node.  On a process whose tree has no local node, [Pull]
    returns as on any other, and [UpdateWidth] on what it returned reads
    [localNodes[0]] of an empty vector. *)
Theorem UpdateWidth_after_Pull {T : Type} (dflt : T)
    (layout : nat -> FlatLayout) (debug : bool) (commSize H w : nat)
    (inverseMap : list nat) (infos : list DistSymmInfo)
    (X : list (DistMultiVec (T := T))) :
  remap_valid layout commSize H w inverseMap infos X ->
  exists Ns,
    Pull dflt layout debug inverseMap infos X = Ok Ns /\
    forall p info N, infos !! p = Some info -> Ns !! p = Some N ->
      UpdateWidth N =
      match localNodes info with
      | [] => Fail OutOfBounds
      | _ :: _ => Ok N
      end.
Proof.
  intros valid.
  exists (pulled_rank layout H w inverseMap infos X <$> seq 0 commSize).
  split; [apply Pull_Ok, valid|].
  intros p info N Hinfo HN.
  apply list_lookup_fmap_Some in HN as (p' & -> & Hp').
  apply lookup_seq in Hp' as [-> _]. cbn [Nat.add].
  unfold pulled_rank. rewrite Hinfo.
  unfold UpdateWidth, pulled. cbn [nodal_localNodes].
  destruct (localNodes info) as [|n nodes]; reflexivity.
Qed.

(** One process, a tree with no local node: a root of two vertices. *)
Definition infos_root_only : list DistSymmInfo :=
  [mkInfo [] [mkDistNode 0 0 1 0 0; mkDistNode 2 0 1 0 2]].

Definition flat_root_only : list (DistMultiVec (T := nat)) :=
  [mkDistMultiVec 2 1 (mkMatrix 1 [[7]; [8]])].

Lemma remap_valid_root_only :
  remap_valid (BlockLayout 1) 1 2 1 [1; 0] infos_root_only flat_root_only.
Proof.
  split.
  - reflexivity.
  - reflexivity.
  - intros i Hi. do 2 (destruct i as [|i]; [vm_compute; repeat split; lia|]).
    lia.
  - intros q r Hq Hr. destruct q as [|q]; [|lia]. vm_compute in Hr.
    do 2 (destruct r as [|r]; [vm_compute; repeat split; lia|]). lia.
  - intros p Xp HX. destruct p as [|p]; [|discriminate].
    injection HX as <-. vm_compute. repeat split; repeat constructor.
  - intros p info Hinfo. destruct p as [|p]; [|discriminate].
    injection Hinfo as <-. eexists. split; reflexivity.
  - intros p info node Hinfo Hnode. destruct p as [|p]; [|discriminate].
    injection Hinfo as <-. cbn in Hnode.
    apply list_elem_of_singleton in Hnode. subst node.
    vm_compute. split; lia.
  - apply perm_swap.
  - reflexivity.
Qed.

Lemma UpdateWidth_after_Pull_witness :
  exists Ns,
    Pull 0 (BlockLayout 1) true [1; 0] infos_root_only flat_root_only = Ok Ns /\
    forall p info N, infos_root_only !! p = Some info -> Ns !! p = Some N ->
      UpdateWidth N =
      match localNodes info with
      | [] => Fail OutOfBounds
      | _ :: _ => Ok N
      end.
Proof.
  exact (UpdateWidth_after_Pull 0 (BlockLayout 1) true 1 2 1 [1; 0]
           infos_root_only flat_root_only remap_valid_root_only).
Defined.

(** On that process [Pull] returns and [UpdateWidth] does not. *)
Example UpdateWidth_root_only :
  match Pull 0 (BlockLayout 1) true [1; 0] infos_root_only flat_root_only with
  | Ok [N] => UpdateWidth N = Fail OutOfBounds
  | _ => False
  end.
Proof. vm_compute. reflexivity. Qed.

End NodalRemap.

(* ===================================================================== *)
(** * Part III: the infeasible path-following loop                        *)
(* ===================================================================== *)

Module IPF.

Local Open Scope R_scope.

(** [qp::direct::IPF] is a template over [Real].  The embedding takes the
    real numbers for it: the formulas are the ones the source evaluates,
    without rounding, overflow or NaN.  Vectors ([Matrix<Real>] and
    [DistMultiVec<Real>] with one column) are lists of their entries;
    the distributed variants are read through their global entries. *)
Abbreviation Vec := (list R).

Record Matrix := mkMatrix {
  Height : nat;
  Width : nat;
  Get : nat -> nat -> R
}.

#[local] Instance Rle_decision (a b : R) : Decision (a <= b) := Rle_dec a b.
#[local] Instance Rlt_decision (a b : R) : Decision (a < b) := Rlt_dec a b.

(** ** BLAS-like collaborators *)

(** Modelled from the spec: "basic BLAS Level-1/2/3 operations" and
    "global reductions for norms and dot products" are consumed as
    services; their sources are not part of the files at hand.  They are
    given their textbook meaning on conforming operands. *)
Definition Zeros (n : nat) : Vec := replicate n 0.
Definition Ones (n : nat) : Vec := replicate n 1.

Definition Dot (x y : Vec) : R := foldr Rplus 0 (zip_with Rmult x y).

Definition Nrm2 (x : Vec) : R := sqrt (Dot x x).

(** [Scale( alpha, x )]: [x := alpha x]. *)
Definition Scale (alpha : R) (x : Vec) : Vec := Rmult alpha <$> x.

(** [Shift( x, alpha )]: [x := x + alpha e]. *)
Definition Shift (x : Vec) (alpha : R) : Vec := (fun xi => xi + alpha) <$> x.

(** [Axpy( alpha, x, y )]: [y := alpha x + y]. *)
Definition Axpy (alpha : R) (x y : Vec) : Vec :=
  zip_with (fun xi yi => alpha * xi + yi) x y.

(** [DiagonalScale( LEFT, NORMAL, d, x )]: [x := diag(d) x]. *)
Definition DiagonalScale (d x : Vec) : Vec := zip_with Rmult d x.

(** [DiagonalSolve( LEFT, NORMAL, d, x )]: [x := inv(diag(d)) x]. *)
Definition DiagonalSolve (d x : Vec) : Vec :=
  zip_with (fun di xi => xi / di) d x.

Inductive LeftOrRight := LEFT | RIGHT.

(** [DiagonalSolve( side, NORMAL, d, M )] on a matrix. *)
Definition DiagonalSolveMatrix (side : LeftOrRight) (d : Vec) (M : Matrix)
  : Matrix :=
  mkMatrix (Height M) (Width M)
    (fun i j => Get M i j / nth (match side with LEFT => i | RIGHT => j end)
                              d 1).

Definition row (A : Matrix) (i : nat) : Vec :=
  (fun j => Get A i j) <$> seq 0 (Width A).

Definition col (A : Matrix) (j : nat) : Vec :=
  (fun i => Get A i j) <$> seq 0 (Height A).

(** Row [i] of the symmetric matrix whose lower triangle is that of [Q]. *)
Definition sym_row (Q : Matrix) (i : nat) : Vec :=
  (fun j => if (j <=? i)%nat then Get Q i j else Get Q j i)
  <$> seq 0 (Width Q).

Inductive Orientation := NORMAL | TRANSPOSE.

(** [Gemv( o, alpha, A, x, beta, y )]: [y := alpha op(A) x + beta y]. *)
Definition Gemv (o : Orientation) (alpha : R) (A : Matrix) (x : Vec)
    (beta : R) (y : Vec) : Vec :=
  imap (fun i yi =>
          alpha * Dot (match o with NORMAL => row A i | TRANSPOSE => col A i end) x
          + beta * yi) y.

(** [Multiply( o, alpha, A, x, beta, y )], the sparse counterpart. *)
Definition Multiply := Gemv.

(** [Hemv( LOWER, alpha, Q, x, beta, y )]: only the lower triangle of [Q]
    is read. *)
Definition Hemv (alpha : R) (Q : Matrix) (x : Vec) (beta : R) (y : Vec)
  : Vec :=
  imap (fun i yi => alpha * Dot (sym_row Q i) x + beta * yi) y.

(** Modelled from the spec: "any nonpositive entry in x or z"; the number
    of entries that are [<= 0]. *)
Definition NumNonPositive (x : Vec) : Z :=
  Z.of_nat (length (filter (fun xi => xi <= 0) x)).

(** Modelled from the spec: "the maximal step keeping x + alpha dx > 0
    (ratio test over negative-direction entries)", started from the upper
    bound the caller passes. *)
Definition MaxStepInPositiveCone (x dx : Vec) (upperBound : R) : R :=
  foldl (fun alpha '(xi, dxi) =>
           if decide (dxi < 0) then Rmin alpha (- xi / dxi) else alpha)
        upperBound (zip x dx).

(** ** Control structure and exceptions *)

Inductive KKTSystem := FULL_KKT | AUGMENTED_KKT | NORMAL_KKT.

(** The members of [IPFCtrl<Real>] the routine reads. *)
Record IPFCtrl (LineSearchCtrl SolveCtrl : Type) := mkCtrl {
  primalInitialized : bool;
  dualInitialized : bool;
  tol : R;
  maxIts : Z;
  centering : R;
  system : KKTSystem;
  lineSearchCtrl : LineSearchCtrl;
  solveCtrl : SolveCtrl;
  print : bool
}.
Arguments mkCtrl {LineSearchCtrl SolveCtrl}.
Arguments primalInitialized {LineSearchCtrl SolveCtrl}.
Arguments dualInitialized {LineSearchCtrl SolveCtrl}.
Arguments tol {LineSearchCtrl SolveCtrl}.
Arguments maxIts {LineSearchCtrl SolveCtrl}.
Arguments centering {LineSearchCtrl SolveCtrl}.
Arguments system {LineSearchCtrl SolveCtrl}.
Arguments lineSearchCtrl {LineSearchCtrl SolveCtrl}.
Arguments solveCtrl {LineSearchCtrl SolveCtrl}.
Arguments print {LineSearchCtrl SolveCtrl}.

(** The arguments of [LogicError( ... )] and [RuntimeError( ... )], which
    are streamed into the message one after the other. *)
Inductive part := Str (s : string) | Num (k : Z).

Inductive exception :=
| LogicError (msg : list part)
| RuntimeError (msg : list part).

(** The four overloads: sequential and distributed, dense and sparse. *)
Inductive Variant := Dense | DistDense | Sparse | DistSparse.

Definition is_sparse (v : Variant) : bool :=
  match v with Sparse | DistSparse => true | Dense | DistDense => false end.

(** ** The collaborators of the loop *)

(** What the routine calls and the files at hand do not define: the
    equilibration, the initialisation, the assembly of the KKT systems and
    of their right-hand sides, the dense and the regularised sparse solves,
    and the line search.  [Sys] is the type of an assembled system, [Tree]
    that of the factorisation metadata ([map], [invMap], [rootSep],
    [info]).  [RegularizedSolve] stands for the sequence
    [JFront.Pull], [regCandNodal.Pull], [regNodal.Pull],
    [RegularizedQSDLDL], [regNodal.Push], [reg_qsd_ldl::SolveAfter]: it
    reads [regCand], and returns the solution with the number of large
    refinements [SolveAfter] reports. *)
Class Collaborators (Sys Tree LineSearchCtrl SolveCtrl : Type) := {
  epsilon : R;                       (* lapack::MachineEpsilon<Real>() *)
  GeomEquil : Matrix -> Matrix * Vec * Vec;
  Initialize :
    Matrix -> Matrix -> Vec -> Vec -> Vec -> Vec -> Vec ->
    bool -> bool -> bool -> Vec * Vec * Vec;
  InitializeSparse :
    Matrix -> Matrix -> Vec -> Vec -> Vec -> Vec -> Vec ->
    bool -> bool -> bool -> SolveCtrl -> Vec * Vec * Vec * option Tree;
  KKT : Matrix -> Matrix -> Vec -> Vec -> Sys;
  KKTSparse : Matrix -> Matrix -> Vec -> Vec -> bool -> Sys;
  KKTRHS : Vec -> Vec -> Vec -> Vec -> Vec;
  AugmentedKKT : Matrix -> Matrix -> Vec -> Vec -> Sys;
  AugmentedKKTSparse : Matrix -> Matrix -> Vec -> Vec -> bool -> Sys;
  AugmentedKKTRHS : Vec -> Vec -> Vec -> Vec -> Vec;
  SymmetricSolve : Sys -> Vec -> Vec;
  ExpandSolution : nat -> nat -> Vec -> Vec * Vec * Vec;
  ExpandAugmentedSolution : Vec -> Vec -> Vec -> Vec -> Vec * Vec * Vec;
  MaxNorm : Sys -> R;
  NestedDissection : Sys -> Tree;
  RegularizedSolve :
    option Tree -> Sys -> R -> Vec -> Vec -> Vec -> SolveCtrl -> Vec * Z;
  IPFLineSearch :
    Matrix -> Matrix -> Vec -> Vec -> Vec -> Vec -> Vec ->
    Vec -> Vec -> Vec -> R -> R -> R -> LineSearchCtrl -> R
}.

(** [Pow( epsilon, p )] *)
Definition Pow (a p : R) : R := Rpower a p.

(** The body of the loop that fills [regCand] for [FULL_KKT], at the
    global row [i]. *)
Definition full_entry (eps : R) (n m i : nat) : R :=
  let regMagPrimal := Pow eps (3/4) in
  let regMagLagrange := Pow eps (1/2) in
  let regMagDual := Pow eps (1/2) in
  if decide (i < n)%nat then regMagPrimal
  else if decide (i < n + m)%nat then - regMagLagrange
  else - regMagDual.

(** The same for [AUGMENTED_KKT]. *)
Definition augmented_entry (eps : R) (n i : nat) : R :=
  let regMagPrimal := Pow eps (3/4) in
  let regMagLagrange := Pow eps (1/2) in
  if decide (i < n)%nat then regMagPrimal else - regMagLagrange.

(** The regularisation candidates of the sequential sparse variant:
    [regCand.Resize( len, 1 )] and the loop of [regCand.Set( i, 0, . )];
    for any other system choice [regCand] stays empty. *)
Definition regCand_init (sys : KKTSystem) (eps : R) (n m : nat) : Vec :=
  match sys with
  | FULL_KKT =>
      foldl (fun regCand i => <[i := full_entry eps n m i]> regCand)
            (Zeros (m + 2 * n)) (seq 0 (m + 2 * n))
  | AUGMENTED_KKT =>
      foldl (fun regCand i => <[i := augmented_entry eps n i]> regCand)
            (Zeros (n + m)) (seq 0 (n + m))
  | NORMAL_KKT => []
  end.

(** The same on one process of the distributed sparse variant, which owns
    the [localHeight] rows from [firstLocalRow] on:
    [i = regCand.GlobalRow(iLoc)] and [regCand.SetLocal( iLoc, 0, . )]. *)
Definition regCand_init_local (sys : KKTSystem) (eps : R) (n m : nat)
    (firstLocalRow localHeight : nat) : Vec :=
  match sys with
  | FULL_KKT =>
      foldl (fun regCand iLoc =>
               let i := (firstLocalRow + iLoc)%nat in
               <[iLoc := full_entry eps n m i]> regCand)
            (Zeros localHeight) (seq 0 localHeight)
  | AUGMENTED_KKT =>
      foldl (fun regCand iLoc =>
               let i := (firstLocalRow + iLoc)%nat in
               <[iLoc := augmented_entry eps n i]> regCand)
            (Zeros localHeight) (seq 0 localHeight)
  | NORMAL_KKT => []
  end.

(** ** The loop *)

Record State (Tree : Type) := mkState {
  cur_x : Vec;
  cur_y : Vec;
  cur_z : Vec;
  tree : option Tree;
  regCand : Vec;
  increasedReg : bool
}.
Arguments mkState {Tree}.
Arguments cur_x {Tree}.
Arguments cur_y {Tree}.
Arguments cur_z {Tree}.
Arguments tree {Tree}.
Arguments regCand {Tree}.
Arguments increasedReg {Tree}.

(** How one pass through the body of [for( Int numIts=0; ; ++numIts )]
    ends. *)
Inductive Flow (Tree : Type) :=
| Break
| Throw (e : exception)
| Next (st : State Tree).
Arguments Break {Tree}.
Arguments Throw {Tree}.
Arguments Next {Tree}.

Inductive Status := Finished | Raised (e : exception) | Exhausted.

Section Loop.

Context {Sys Tree LineSearchCtrl SolveCtrl : Type}.
Context `{!Collaborators Sys Tree LineSearchCtrl SolveCtrl}.

Variable v : Variant.
Variable ctrl : IPFCtrl LineSearchCtrl SolveCtrl.

(** The equilibrated problem. *)
Variables (Q A : Matrix) (b c : Vec).

(** [Hemv( LOWER, alpha, Q, x, beta, d )] in the dense variants,
    [Multiply( NORMAL, alpha, Q, x, beta, d )] in the sparse ones. *)
Definition QTimes (alpha : R) (x : Vec) (beta : R) (d : Vec) : Vec :=
  if is_sparse v then Multiply NORMAL alpha Q x beta d
  else Hemv alpha Q x beta d.

(** [Gemv] in the dense variants, [Multiply] in the sparse ones. *)
Definition ATimes (o : Orientation) (alpha : R) (x : Vec) (beta : R)
    (d : Vec) : Vec :=
  if is_sparse v then Multiply o alpha A x beta d
  else Gemv o alpha A x beta d.

Definition primObj (x : Vec) : R :=
  let d := QTimes 1 x 0 (Zeros (Width A)) in
  let xTQx := Dot x d in
  xTQx / 2 + Dot c x.

Definition dualObj (x y : Vec) : R :=
  let d := QTimes 1 x 0 (Zeros (Width A)) in
  let xTQx := Dot x d in
  - xTQx / 2 - Dot b y.

(** [|primal - dual| / (1 + |primal|)] *)
Definition objConv (x y : Vec) : R :=
  Rabs (primObj x - dualObj x y) / (1 + Rabs (primObj x)).

(** [rb = b; Scale( -1, rb ); Gemv( NORMAL, 1, A, x, 1, rb )] *)
Definition rb_of (x : Vec) : Vec :=
  ATimes NORMAL 1 x 1 (Scale (-1) b).

Definition rbConv (x : Vec) : R := Nrm2 (rb_of x) / (1 + Nrm2 b).

(** [rc = c; Hemv( LOWER, 1, Q, x, 1, rc );
     Gemv( TRANSPOSE, 1, A, y, 1, rc ); Axpy( -1, z, rc )] *)
Definition rc_of (x y z : Vec) : Vec :=
  Axpy (-1) z (ATimes TRANSPOSE 1 y 1 (QTimes 1 x 1 c)).

Definition rcConv (x y z : Vec) : R := Nrm2 (rc_of x y z) / (1 + Nrm2 c).

(** [objConv <= ctrl.tol && rbConv <= ctrl.tol && rcConv <= ctrl.tol] *)
Definition converged (st : State Tree) : bool :=
  bool_decide (objConv (cur_x st) (cur_y st) <= tol ctrl) &&
  bool_decide (rbConv (cur_x st) <= tol ctrl) &&
  bool_decide (rcConv (cur_x st) (cur_y st) (cur_z st) <= tol ctrl).

(** [numLargeRefines > 3 && !increasedReg] and what it guards. *)
Definition escalate (numLargeRefines : Z) (regCand : Vec)
    (increasedReg : bool) : Vec * bool :=
  if (3 <? numLargeRefines)%Z && negb increasedReg
  then (Scale 10 regCand, true)
  else (regCand, increasedReg).

(** "Compute the search direction": the step and what is left of the
    factorisation state, or the exception of the last branch. *)
Definition direction (numIts : Z) (st : State Tree) (rc rb rmu : Vec)
  : exception + (Vec * Vec * Vec * option Tree * Vec * bool) :=
  let x := cur_x st in
  let z := cur_z st in
  let m := Height A in
  let n := Width A in
  if is_sparse v then
    match system ctrl with
    | FULL_KKT =>
        let J := KKTSparse Q A x z false in
        let d := KKTRHS rc rb rmu z in
        let pivTol := MaxNorm J * epsilon in
        let reg := Zeros (m + 2 * n) in
        let tree := if (numIts =? 0)%Z then Some (NestedDissection J)
                    else tree st in
        let '(d, numLargeRefines) :=
          RegularizedSolve tree J pivTol (regCand st) reg d (solveCtrl ctrl) in
        let '(regCand, increasedReg) :=
          escalate numLargeRefines (regCand st) (increasedReg st) in
        let '(dx, dy, dz) := ExpandSolution m n d in
        inr (dx, dy, dz, tree, regCand, increasedReg)
    | AUGMENTED_KKT =>
        let J := AugmentedKKTSparse Q A x z false in
        let d := AugmentedKKTRHS x rc rb rmu in
        let pivTol := MaxNorm J * epsilon in
        let reg := Zeros (m + n) in
        let tree :=
          if primalInitialized ctrl && dualInitialized ctrl && (numIts =? 0)%Z
          then Some (NestedDissection J) else tree st in
        let '(d, numLargeRefines) :=
          RegularizedSolve tree J pivTol (regCand st) reg d (solveCtrl ctrl) in
        let '(regCand, increasedReg) :=
          escalate numLargeRefines (regCand st) (increasedReg st) in
        let '(dx, dy, dz) := ExpandAugmentedSolution x z rmu d in
        inr (dx, dy, dz, tree, regCand, increasedReg)
    | NORMAL_KKT => inl (LogicError [Str "Invalid KKT system choice"])
    end
  else
    match system ctrl with
    | FULL_KKT =>
        let J := KKT Q A x z in
        let d := KKTRHS rc rb rmu z in
        let d := SymmetricSolve J d in
        let '(dx, dy, dz) := ExpandSolution m n d in
        inr (dx, dy, dz, tree st, regCand st, increasedReg st)
    | AUGMENTED_KKT =>
        let J := AugmentedKKT Q A x z in
        let d := AugmentedKKTRHS x rc rb rmu in
        let d := SymmetricSolve J d in
        let '(dx, dy, dz) := ExpandAugmentedSolution x z rmu d in
        inr (dx, dy, dz, tree st, regCand st, increasedReg st)
    | NORMAL_KKT => inl (LogicError [Str "Invalid KKT system choice"])
    end.

(** "Take a step in the computed direction". *)
Definition take_step (st : State Tree) (dx dy dz : Vec)
    (tree' : option Tree) (regCand' : Vec) (increasedReg' : bool)
  : State Tree :=
  let x := cur_x st in
  let y := cur_y st in
  let z := cur_z st in
  let bNrm2 := Nrm2 b in
  let cNrm2 := Nrm2 c in
  let alphaPrimal := MaxStepInPositiveCone x dx 1 in
  let alphaDual := MaxStepInPositiveCone z dz 1 in
  let alphaMax := Rmin alphaPrimal alphaDual in
  let alpha :=
    IPFLineSearch Q A b c x y z dx dy dz
      (99 / 100 * alphaMax)
      (tol ctrl * (1 + bNrm2)) (tol ctrl * (1 + cNrm2))
      (lineSearchCtrl ctrl) in
  mkState (Axpy alpha dx x) (Axpy alpha dy y) (Axpy alpha dz z)
          tree' regCand' increasedReg'.

(** What follows the test of the iteration count.  The block under
    [#ifndef EL_RELEASE] computes three error norms and prints them; it
    changes nothing and is left out, like the other output. *)
Definition compute_step (numIts : Z) (st : State Tree) : Flow Tree :=
  let x := cur_x st in
  let y := cur_y st in
  let z := cur_z st in
  let n := Width A in
  let rb := rb_of x in
  let rc := rc_of x y z in
  let mu := Dot x z / INR n in
  let rmu := Shift (DiagonalScale x z) (- centering ctrl * mu) in
  match direction numIts st rc rb rmu with
  | inl e => Throw e
  | inr (dx, dy, dz, tree', regCand', increasedReg') =>
      Next (take_step st dx dy dz tree' regCand' increasedReg')
  end.

(** What follows the test of the cone. *)
Definition after_cone_check (numIts : Z) (st : State Tree) : Flow Tree :=
  if converged st then Break
  else if (numIts =? maxIts ctrl)%Z then
    Throw (RuntimeError [Str "Maximum number of iterations (";
                         Num (maxIts ctrl); Str ") exceeded"])
  else compute_step numIts st.

(** One pass through the body of the loop. *)
Definition iteration (numIts : Z) (st : State Tree) : Flow Tree :=
  let xNumNonPos := NumNonPositive (cur_x st) in
  let zNumNonPos := NumNonPositive (cur_z st) in
  if (0 <? xNumNonPos)%Z || (0 <? zNumNonPos)%Z then
    Throw (LogicError [Num xNumNonPos;
                       Str " entries of x were nonpositive and ";
                       Num zNumNonPos;
                       Str " entries of z were nonpositive"])
  else after_cone_check numIts st.

(** [for( Int numIts=0; ; ++numIts )], cut after [fuel] passes.  The
    result holds how the loop ended, the value of [numIts] and the state
    at that point. *)
Fixpoint loop (fuel : nat) (numIts : Z) (st : State Tree)
  : Status * Z * State Tree :=
  match fuel with
  | O => (Exhausted, numIts, st)
  | S fuel' =>
      match iteration numIts st with
      | Break => (Finished, numIts, st)
      | Throw e => (Raised e, numIts, st)
      | Next st' => loop fuel' (numIts + 1)%Z st'
      end
  end.

End Loop.

(** ** The routine *)

(** [const bool allowEquil = false;] *)
Definition allowEquil : bool := false.

(** How a call ends.  [x], [y] and [z] are passed by reference and
    updated in place: when an exception leaves the routine they hold the
    iterate of that moment, in the equilibrated scaling. *)
Inductive Outcome :=
| Returned (x y z : Vec)
| Threw (e : exception) (x y z : Vec)
| OutOfFuel.

(** The equilibrated problem, the scalings and the state the loop starts
    from. *)
Record Prepared (Tree : Type) := mkPrepared {
  pQ : Matrix;
  pA : Matrix;
  pb : Vec;
  pc : Vec;
  pdRow : Vec;
  pdCol : Vec;
  pst : State Tree
}.
Arguments mkPrepared {Tree}.
Arguments pQ {Tree}.
Arguments pA {Tree}.
Arguments pb {Tree}.
Arguments pc {Tree}.
Arguments pdRow {Tree}.
Arguments pdCol {Tree}.
Arguments pst {Tree}.

Section Driver.

Context {Sys Tree LineSearchCtrl SolveCtrl : Type}.
Context `{!Collaborators Sys Tree LineSearchCtrl SolveCtrl}.

(** What precedes the loop: equilibration, initialisation and, in the
    sparse variants, the regularisation candidates. *)
Definition prepare (v : Variant) (QPre APre : Matrix) (bPre cPre : Vec)
    (x y z : Vec) (ctrl : IPFCtrl LineSearchCtrl SolveCtrl)
  : Prepared Tree :=
  let A := APre in
  let m := Height A in
  let n := Width A in
  let '(A, dRow, dCol) :=
    if allowEquil then GeomEquil A else (A, Ones m, Ones n) in
  let b := DiagonalSolve dRow bPre in
  let c := DiagonalSolve dCol cPre in
  let Q :=
    DiagonalSolveMatrix RIGHT dCol (DiagonalSolveMatrix LEFT dCol QPre) in
  let x := if primalInitialized ctrl then DiagonalScale dCol x else x in
  let y := if dualInitialized ctrl then DiagonalScale dRow y else y in
  let z := if dualInitialized ctrl then DiagonalSolve dCol z else z in
  let standardShift := true in
  let '(x, y, z, tree) :=
    if is_sparse v then
      let '(x, y, z, t) :=
        InitializeSparse Q A b c x y z (primalInitialized ctrl)
          (dualInitialized ctrl) standardShift (solveCtrl ctrl) in
      match system ctrl with
      | AUGMENTED_KKT => (x, y, z, t)
      | _ => (x, y, z, None)
      end
    else
      let '(x, y, z) :=
        Initialize Q A b c x y z (primalInitialized ctrl)
          (dualInitialized ctrl) standardShift in
      (x, y, z, None) in
  let regCand :=
    if is_sparse v then regCand_init (system ctrl) epsilon n m else [] in
  mkPrepared Q A b c dRow dCol (mkState x y z tree regCand false).

(** "Unequilibrate the QP" *)
Definition unequilibrate (p : Prepared Tree) (st : State Tree) : Outcome :=
  Returned (DiagonalSolve (pdCol p) (cur_x st))
           (DiagonalSolve (pdRow p) (cur_y st))
           (DiagonalScale (pdCol p) (cur_z st)).

(** [qp::direct::IPF( Q, A, b, c, x, y, z, ctrl )], with at most [fuel]
    passes through its loop. *)
Definition IPF (v : Variant) (fuel : nat) (QPre APre : Matrix)
    (bPre cPre : Vec) (x y z : Vec)
    (ctrl : IPFCtrl LineSearchCtrl SolveCtrl) : Outcome :=
  let p := prepare v QPre APre bPre cPre x y z ctrl in
  match loop v ctrl (pQ p) (pA p) (pb p) (pc p) fuel 0 (pst p) with
  | (Finished, _, st) => unequilibrate p st
  | (Raised e, _, st) => Threw e (cur_x st) (cur_y st) (cur_z st)
  | (Exhausted, _, _) => OutOfFuel
  end.

End Driver.

(** ** Properties *)

Lemma NumNonPositive_nonneg (x : Vec) : (0 <= NumNonPositive x)%Z.
Proof. unfold NumNonPositive. lia. Qed.

Lemma NumNonPositive_zero (x : Vec) :
  NumNonPositive x = 0%Z <-> Forall (fun xi => 0 < xi) x.
Proof.
  unfold NumNonPositive. induction x as [|a x IH].
  - split; [constructor | reflexivity].
  - rewrite filter_cons. destruct (decide (a <= 0)) as [Ha|Ha].
    + split; [simpl; lia|]. intros Hall. inversion Hall; subst. lra.
    + rewrite IH. split.
      * intros Hall. constructor; [lra | exact Hall].
      * intros Hall. inversion Hall; subst. assumption.
Qed.

Lemma NumNonPositive_pos (x : Vec) :
  (0 < NumNonPositive x)%Z <-> Exists (fun xi => xi <= 0) x.
Proof.
  unfold NumNonPositive. induction x as [|a x IH].
  - split; [simpl; lia | intros Hex; inversion Hex].
  - rewrite filter_cons. destruct (decide (a <= 0)) as [Ha|Ha].
    + split; [intros _; left; exact Ha | simpl; lia].
    + rewrite IH. split.
      * intros Hex. right. exact Hex.
      * intros Hex. inversion Hex; subst; [contradiction | assumption].
Qed.

(** *** The ratio test *)

Lemma MaxStep_cons xi dxi x dx ub :
  MaxStepInPositiveCone (xi :: x) (dxi :: dx) ub =
  MaxStepInPositiveCone x dx
    (if decide (dxi < 0) then Rmin ub (- xi / dxi) else ub).
Proof. reflexivity. Qed.

Lemma MaxStep_le_bound x : forall dx ub,
  MaxStepInPositiveCone x dx ub <= ub.
Proof.
  induction x as [|xi x IH]; intros [|dxi dx] ub;
    try (unfold MaxStepInPositiveCone; simpl; lra).
  rewrite MaxStep_cons.
  etransitivity; [apply IH|].
  destruct (decide (dxi < 0)); [apply Rmin_l | lra].
Qed.

Lemma MaxStep_le_ratio x : forall dx ub i xi dxi,
  x !! i = Some xi -> dx !! i = Some dxi -> dxi < 0 ->
  MaxStepInPositiveCone x dx ub <= - xi / dxi.
Proof.
  induction x as [|x0 x IH]; intros [|d0 dx] ub i xi dxi Hx Hdx Hneg;
    try discriminate.
  rewrite MaxStep_cons. destruct i as [|i]; cbn in Hx, Hdx.
  - injection Hx as ->. injection Hdx as ->.
    etransitivity; [apply MaxStep_le_bound|].
    destruct (decide (dxi < 0)); [apply Rmin_r | contradiction].
  - eapply IH; eassumption.
Qed.

(** The result of the ratio test is the bound it starts from or one of
    the ratios. *)
Lemma MaxStep_attained x : forall dx ub,
  MaxStepInPositiveCone x dx ub = ub \/
  exists i xi dxi, x !! i = Some xi /\ dx !! i = Some dxi /\ dxi < 0 /\
                   MaxStepInPositiveCone x dx ub = - xi / dxi.
Proof.
  induction x as [|x0 x IH]; intros [|d0 dx] ub; try (left; reflexivity).
  rewrite MaxStep_cons.
  destruct (IH dx (if decide (d0 < 0) then Rmin ub (- x0 / d0) else ub))
    as [Heq|(i & xi & dxi & Hx & Hdx & Hneg & Heq)].
  - rewrite Heq. destruct (decide (d0 < 0)) as [Hd|Hd]; [|left; reflexivity].
    unfold Rmin. destruct (Rle_dec ub (- x0 / d0)); [left; reflexivity|].
    right. exists 0%nat, x0, d0. auto.
  - right. exists (S i), xi, dxi. auto.
Qed.

(** The message of the cone check. *)
Definition cone_message (xNumNonPos zNumNonPos : Z) : list part :=
  [Num xNumNonPos; Str " entries of x were nonpositive and ";
   Num zNumNonPos; Str " entries of z were nonpositive"].

Section LoopFacts.

Context {Sys Tree LineSearchCtrl SolveCtrl : Type}.
Context `{!Collaborators Sys Tree LineSearchCtrl SolveCtrl}.

Variable v : Variant.
Variable ctrl : IPFCtrl LineSearchCtrl SolveCtrl.
Variables (Q A : Matrix) (b c : Vec).

Abbreviation iteration := (iteration v ctrl Q A b c).
Abbreviation after_cone_check := (after_cone_check v ctrl Q A b c).
Abbreviation compute_step := (compute_step v ctrl Q A b c).
Abbreviation direction := (direction v ctrl Q A).
Abbreviation converged := (converged v ctrl Q A b c).
Abbreviation loop := (loop v ctrl Q A b c).

Lemma direction_exception numIts (st : State Tree) rc rb rmu e :
  direction numIts st rc rb rmu = inl e ->
  e = LogicError [Str "Invalid KKT system choice"].
Proof.
  unfold IPF.direction.
  destruct (is_sparse v), (system ctrl);
    repeat (match goal with
            | |- context [let '(_, _) := ?p in _] => destruct p
            end);
    intros Heq; try discriminate; injection Heq as <-; reflexivity.
Qed.

Lemma after_cone_check_exception numIts (st : State Tree) e :
  after_cone_check numIts st = Throw e ->
  e = RuntimeError [Str "Maximum number of iterations (";
                    Num (maxIts ctrl); Str ") exceeded"] /\
  numIts = maxIts ctrl /\ converged st = false
  \/ e = LogicError [Str "Invalid KKT system choice"].
Proof.
  unfold IPF.after_cone_check.
  destruct (converged st); [discriminate|].
  destruct (Z.eqb_spec numIts (maxIts ctrl)) as [E|E].
  - intros Heq. injection Heq as <-. left. auto.
  - unfold IPF.compute_step.
    destruct (direction _ _ _ _ _) as [e'|[[[[[dx dy] dz] t] r] i]] eqn:Hd;
      [|discriminate].
    intros Heq. injection Heq as <-. right.
    eapply direction_exception, Hd.
Qed.

Lemma iteration_in_cone numIts (st : State Tree) :
  NumNonPositive (cur_x st) = 0%Z -> NumNonPositive (cur_z st) = 0%Z ->
  iteration numIts st = after_cone_check numIts st.
Proof.
  intros Hx Hz. unfold IPF.iteration. rewrite Hx, Hz. reflexivity.
Qed.

Lemma iteration_out_of_cone numIts (st : State Tree) :
  (0 < NumNonPositive (cur_x st))%Z \/ (0 < NumNonPositive (cur_z st))%Z ->
  iteration numIts st =
  Throw (LogicError (cone_message (NumNonPositive (cur_x st))
                                  (NumNonPositive (cur_z st)))).
Proof.
  intros Hpos. unfold IPF.iteration.
  destruct (Z.ltb_spec 0 (NumNonPositive (cur_x st)));
    destruct (Z.ltb_spec 0 (NumNonPositive (cur_z st)));
    try reflexivity; lia.
Qed.

Lemma iteration_Break numIts (st : State Tree) :
  iteration numIts st = Break <->
  ((NumNonPositive (cur_x st) <= 0)%Z /\ (NumNonPositive (cur_z st) <= 0)%Z)
  /\ converged st = true.
Proof.
  unfold IPF.iteration, IPF.after_cone_check.
  destruct (Z.ltb_spec 0 (NumNonPositive (cur_x st))) as [Hx|Hx];
    destruct (Z.ltb_spec 0 (NumNonPositive (cur_z st))) as [Hz|Hz];
    cbn [orb]; try (split; [discriminate | lia]).
  destruct (converged st).
  - split; [auto | reflexivity].
  - split; [|intros (_ & Hc); discriminate].
    destruct (numIts =? maxIts ctrl)%Z; [discriminate|].
    unfold IPF.compute_step.
    destruct (direction _ _ _ _ _) as [e|[[[[[dx dy] dz] t] r] i]];
      discriminate.
Qed.

(** *** The residuals, entry by entry *)

(** Row [j] of [Q] as the variant reads it. *)
Definition qrow (j : nat) : Vec :=
  if is_sparse v then row Q j else sym_row Q j.

(** [A x - b] *)
Definition primal_residual (x : Vec) : Vec :=
  (fun i => Dot (row A i) x - nth i b 0) <$> seq 0 (length b).

(** [c + Q x + A^T y - z] *)
Definition dual_residual (x y z : Vec) : Vec :=
  (fun j => nth j c 0 + Dot (qrow j) x + Dot (col A j) y - nth j z 0)
  <$> seq 0 (length c).

(** The residual in the words of the specification, "Qx + A^T y - z - c". *)
Definition stated_dual_residual (x y z : Vec) : Vec :=
  (fun j => Dot (qrow j) x + Dot (col A j) y - nth j z 0 - nth j c 0)
  <$> seq 0 (length c).

Lemma QTimes_lookup alpha x beta d j dj :
  d !! j = Some dj ->
  QTimes v Q alpha x beta d !! j = Some (alpha * Dot (qrow j) x + beta * dj).
Proof.
  intros Hj. unfold QTimes, qrow, Multiply, Gemv, Hemv.
  destruct (is_sparse v); rewrite list_lookup_imap, Hj; reflexivity.
Qed.

Lemma ATimes_lookup o alpha x beta d j dj :
  d !! j = Some dj ->
  ATimes v A o alpha x beta d !! j =
  Some (alpha * Dot (match o with NORMAL => row A j | TRANSPOSE => col A j end) x
        + beta * dj).
Proof.
  intros Hj. unfold ATimes, Multiply, Gemv.
  destruct (is_sparse v); rewrite list_lookup_imap, Hj; reflexivity.
Qed.

Lemma length_QTimes alpha x beta d :
  length (QTimes v Q alpha x beta d) = length d.
Proof.
  unfold QTimes, Multiply, Gemv, Hemv.
  destruct (is_sparse v); apply length_imap.
Qed.

Lemma length_ATimes o alpha x beta d :
  length (ATimes v A o alpha x beta d) = length d.
Proof.
  unfold ATimes, Multiply, Gemv. destruct (is_sparse v); apply length_imap.
Qed.

Lemma nth_lookup_R (l : Vec) j a : l !! j = Some a -> nth j l 0 = a.
Proof.
  revert j. induction l as [|h l IH]; intros [|j] Hj; try discriminate.
  - injection Hj as ->. reflexivity.
  - simpl. apply IH. exact Hj.
Qed.

Lemma rb_of_formula x : rb_of v A b x = primal_residual x.
Proof.
  unfold rb_of, primal_residual, Scale. apply list_eq. intros i.
  rewrite list_lookup_fmap.
  destruct (decide (i < length b)%nat) as [Hi|Hi].
  - destruct (lookup_lt_is_Some_2 b i Hi) as (bi & Hbi).
    rewrite (ATimes_lookup _ _ _ _ _ _ (-1 * bi))
      by (rewrite list_lookup_fmap, Hbi; reflexivity).
    rewrite lookup_seq_lt by exact Hi.
    cbn [fmap option_fmap option_map Nat.add].
    rewrite (nth_lookup_R _ _ _ Hbi). f_equal. ring.
  - rewrite lookup_seq_ge by lia.
    apply lookup_ge_None_2. rewrite length_ATimes, length_fmap. lia.
Qed.

Lemma rc_of_formula x y z :
  length z = length c -> rc_of v Q A c x y z = dual_residual x y z.
Proof.
  intros Hlen. unfold rc_of, dual_residual, Axpy. apply list_eq. intros j.
  rewrite list_lookup_fmap, lookup_zip_with.
  destruct (decide (j < length c)%nat) as [Hj|Hj].
  - destruct (lookup_lt_is_Some_2 c j Hj) as (cj & Hcj).
    destruct (lookup_lt_is_Some_2 z j) as (zj & Hzj); [lia|].
    rewrite Hzj. cbn [mbind option_bind].
    rewrite (ATimes_lookup _ _ _ _ _ _ _ (QTimes_lookup _ _ _ _ _ _ Hcj)).
    rewrite lookup_seq_lt by exact Hj.
    cbn [mbind option_bind fmap option_fmap option_map Nat.add].
    rewrite (nth_lookup_R _ _ _ Hcj), (nth_lookup_R _ _ _ Hzj).
    f_equal. ring.
  - rewrite lookup_seq_ge by lia.
    rewrite (lookup_ge_None_2 z) by lia. reflexivity.
Qed.

(** *** The tests at the head of the loop *)

(** C3: whatever the iteration count, the budget and the residuals are,
    an iteration that finds an entry of [x] or of [z] that is not positive
    ends in the logic error that reports both counts, and the loop stops
    there with the iterate as it was; when all entries of [x] and [z] are
    positive both counts are zero, the iteration goes on with the
    convergence test, and that error cannot be what it raises. *)
Theorem cone_check_comes_first numIts (st : State Tree) fuel :
  (Exists (fun xi => xi <= 0) (cur_x st) \/
   Exists (fun zi => zi <= 0) (cur_z st) ->
   iteration numIts st =
     Throw (LogicError (cone_message (NumNonPositive (cur_x st))
                                     (NumNonPositive (cur_z st)))) /\
   loop (S fuel) numIts st =
     (Raised (LogicError (cone_message (NumNonPositive (cur_x st))
                                       (NumNonPositive (cur_z st)))),
      numIts, st)) /\
  (Forall (fun xi => 0 < xi) (cur_x st) ->
   Forall (fun zi => 0 < zi) (cur_z st) ->
   NumNonPositive (cur_x st) = 0%Z /\ NumNonPositive (cur_z st) = 0%Z /\
   iteration numIts st = after_cone_check numIts st /\
   forall k l, iteration numIts st <> Throw (LogicError (cone_message k l))).
Proof.
  split.
  - intros Hex.
    assert (Hit : iteration numIts st =
              Throw (LogicError (cone_message (NumNonPositive (cur_x st))
                                              (NumNonPositive (cur_z st))))).
    { apply iteration_out_of_cone.
      destruct Hex as [Hex|Hex]; [left | right];
        apply NumNonPositive_pos, Hex. }
    split; [exact Hit|]. cbn [IPF.loop]. rewrite Hit. reflexivity.
  - intros Hx Hz.
    apply NumNonPositive_zero in Hx. apply NumNonPositive_zero in Hz.
    split; [exact Hx|]. split; [exact Hz|].
    rewrite (iteration_in_cone numIts st Hx Hz).
    split; [reflexivity|].
    intros k l Heq.
    apply after_cone_check_exception in Heq as [(Heq & _)|Heq];
      discriminate.
Qed.

(** C2: in an iteration whose iterate lies in the cone, the loop is left
    through [break] exactly when the relative objective gap, the relative
    primal residual [|| A x - b || / (1 + || b ||)] and the relative dual
    residual [|| c + Q x + A^T y - z || / (1 + || c ||)] are all at most
    [ctrl.tol]. *)
Theorem break_iff_three_criteria numIts (st : State Tree) :
  NumNonPositive (cur_x st) = 0%Z -> NumNonPositive (cur_z st) = 0%Z ->
  length (cur_z st) = length c ->
  iteration numIts st = Break <->
  Rabs (primObj v Q A c (cur_x st) - dualObj v Q A b (cur_x st) (cur_y st))
    / (1 + Rabs (primObj v Q A c (cur_x st))) <= tol ctrl /\
  Nrm2 (primal_residual (cur_x st)) / (1 + Nrm2 b) <= tol ctrl /\
  Nrm2 (dual_residual (cur_x st) (cur_y st) (cur_z st)) / (1 + Nrm2 c)
    <= tol ctrl.
Proof.
  intros Hx Hz Hlen. rewrite iteration_Break, Hx, Hz.
  unfold IPF.converged, rcConv, rbConv, objConv.
  rewrite rb_of_formula, (rc_of_formula _ _ _ Hlen).
  rewrite !andb_true_iff, !bool_decide_eq_true.
  split.
  - intros (_ & (H1 & H2) & H3). auto.
  - intros (H1 & H2 & H3). repeat split; auto; lia.
Qed.

(** *** The step *)

Lemma iteration_Next numIts (st st' : State Tree) :
  iteration numIts st = Next st' ->
  NumNonPositive (cur_x st) = 0%Z /\ NumNonPositive (cur_z st) = 0%Z /\
  converged st = false /\ numIts <> maxIts ctrl /\
  compute_step numIts st = Next st'.
Proof.
  unfold IPF.iteration, IPF.after_cone_check.
  pose proof (NumNonPositive_nonneg (cur_x st)).
  pose proof (NumNonPositive_nonneg (cur_z st)).
  destruct (Z.ltb_spec 0 (NumNonPositive (cur_x st)));
    destruct (Z.ltb_spec 0 (NumNonPositive (cur_z st)));
    cbn [orb]; try discriminate.
  destruct (converged st); [discriminate|].
  destruct (Z.eqb_spec numIts (maxIts ctrl)); [discriminate|].
  intros Heq. repeat split; try lia; assumption.
Qed.

(** C7: in an iteration that is neither stopped by the cone check, nor
    converged, nor out of budget, and whose direction is [(dx, dy, dz)],
    the upper bound the line search is called with is
    0.99 min(alphaPrimal, alphaDual), and the next iterate is
    [x + alpha dx], [y + alpha dy], [z + alpha dz] for the [alpha] the
    line search returns.  Here alphaPrimal is the ratio test on [(x, dx)]
    started from 1: it is at most 1, at most [- x_i / dx_i] for every
    entry with [dx_i < 0], and it is 1 or one of these ratios; alphaDual
    is the same on [(z, dz)].  So the bound is at most 0.99, also where a
    longer step keeps the iterate positive. *)
Theorem step_is_bounded_and_applied numIts (st : State Tree)
    (dx dy dz : Vec) tree' regCand' increasedReg' :
  NumNonPositive (cur_x st) = 0%Z -> NumNonPositive (cur_z st) = 0%Z ->
  converged st = false -> numIts <> maxIts ctrl ->
  direction numIts st
    (rc_of v Q A c (cur_x st) (cur_y st) (cur_z st)) (rb_of v A b (cur_x st))
    (Shift (DiagonalScale (cur_x st) (cur_z st))
       (- centering ctrl * (Dot (cur_x st) (cur_z st) / INR (Width A))))
  = inr (dx, dy, dz, tree', regCand', increasedReg') ->
  let alphaPrimal := MaxStepInPositiveCone (cur_x st) dx 1 in
  let alphaDual := MaxStepInPositiveCone (cur_z st) dz 1 in
  let bound := 99 / 100 * Rmin alphaPrimal alphaDual in
  let alpha :=
    IPFLineSearch Q A b c (cur_x st) (cur_y st) (cur_z st) dx dy dz bound
      (tol ctrl * (1 + Nrm2 b)) (tol ctrl * (1 + Nrm2 c))
      (lineSearchCtrl ctrl) in
  iteration numIts st =
    Next (mkState (Axpy alpha dx (cur_x st)) (Axpy alpha dy (cur_y st))
            (Axpy alpha dz (cur_z st)) tree' regCand' increasedReg') /\
  bound <= 99 / 100 * alphaPrimal /\ bound <= 99 / 100 * alphaDual /\
  bound <= 99 / 100 /\
  alphaPrimal <= 1 /\ alphaDual <= 1 /\
  (forall i xi dxi, cur_x st !! i = Some xi -> dx !! i = Some dxi ->
                    dxi < 0 -> alphaPrimal <= - xi / dxi) /\
  (forall i zi dzi, cur_z st !! i = Some zi -> dz !! i = Some dzi ->
                    dzi < 0 -> alphaDual <= - zi / dzi) /\
  (alphaPrimal = 1 \/
   exists i xi dxi, cur_x st !! i = Some xi /\ dx !! i = Some dxi /\
                    dxi < 0 /\ alphaPrimal = - xi / dxi) /\
  (alphaDual = 1 \/
   exists i zi dzi, cur_z st !! i = Some zi /\ dz !! i = Some dzi /\
                    dzi < 0 /\ alphaDual = - zi / dzi).
Proof.
  intros Hx Hz Hconv Hits Hdir alphaPrimal alphaDual bound alpha.
  pose proof (MaxStep_le_bound (cur_x st) dx 1) as HP. fold alphaPrimal in HP.
  pose proof (MaxStep_le_bound (cur_z st) dz 1) as HD. fold alphaDual in HD.
  pose proof (Rmin_l alphaPrimal alphaDual) as Hl.
  pose proof (Rmin_r alphaPrimal alphaDual) as Hr.
  split; [|repeat split].
  - rewrite (iteration_in_cone numIts st Hx Hz).
    unfold IPF.after_cone_check. rewrite Hconv.
    destruct (Z.eqb_spec numIts (maxIts ctrl)); [contradiction|].
    unfold IPF.compute_step. cbv zeta. rewrite Hdir. reflexivity.
  - unfold bound. lra.
  - unfold bound. lra.
  - unfold bound. lra.
  - exact HP.
  - exact HD.
  - intros i xi dxi. apply MaxStep_le_ratio.
  - intros i zi dzi. apply MaxStep_le_ratio.
  - apply MaxStep_attained.
  - apply MaxStep_attained.
Qed.

(** *** The run of the loop *)

Lemma loop_inv fuel : forall numIts (st : State Tree) status n' st',
  loop fuel numIts st = (status, n', st') ->
  (numIts <= n')%Z /\
  match status with
  | Finished => iteration n' st' = Break
  | Raised e => iteration n' st' = Throw e
  | Exhausted => n' = (numIts + Z.of_nat fuel)%Z
  end.
Proof.
  induction fuel as [|fuel IH]; intros numIts st status n' st' Hrun.
  - injection Hrun as <- <- <-. split; lia.
  - cbn [IPF.loop] in Hrun.
    destruct (iteration numIts st) as [|e|st1] eqn:Hit.
    + injection Hrun as <- <- <-. split; [lia | exact Hit].
    + injection Hrun as <- <- <-. split; [lia | exact Hit].
    + apply IH in Hrun as (Hle & Hst). split; [lia|].
      destruct status; try assumption. lia.
Qed.

Lemma loop_add k j : forall numIts (st : State Tree) n' st',
  loop k numIts st = (Exhausted, n', st') ->
  loop (k + j) numIts st = loop j n' st'.
Proof.
  induction k as [|k IH]; intros numIts st n' st' Hrun.
  - injection Hrun as <- <-. reflexivity.
  - cbn [IPF.loop Nat.add] in Hrun |- *.
    destruct (iteration numIts st) as [|e|st1]; try discriminate.
    apply IH, Hrun.
Qed.

Lemma loop_bounded k : forall numIts (st : State Tree),
  (0 <= numIts <= maxIts ctrl)%Z ->
  k = Z.to_nat (maxIts ctrl - numIts) ->
  (loop (S k) numIts st).1.1 <> Exhausted.
Proof.
  induction k as [|k IH]; intros numIts st Hn Hk; cbn [IPF.loop];
    destruct (iteration numIts st) as [|e|st1] eqn:Hit;
    try (cbn; discriminate).
  - apply iteration_Next in Hit as (_ & _ & _ & Hne & _). lia.
  - apply iteration_Next in Hit as (_ & _ & _ & Hne & _).
    apply IH; lia.
Qed.

(** [steps numIts st k st']: the [k] passes numbered [numIts] to
    [numIts + k - 1] each take a step, and they lead from the iterate
    [st] to [st']. *)
Inductive steps : Z -> State Tree -> nat -> State Tree -> Prop :=
| steps_O numIts st : steps numIts st 0 st
| steps_S numIts st st1 k st' :
    iteration numIts st = Next st1 -> steps (numIts + 1) st1 k st' ->
    steps numIts st (S k) st'.

Lemma loop_steps k : forall numIts (st st' : State Tree),
  steps numIts st k st' ->
  loop k numIts st = (Exhausted, (numIts + Z.of_nat k)%Z, st').
Proof.
  induction k as [|k IH]; intros numIts st st' Hs; inversion Hs; subst.
  - cbn. do 2 f_equal. lia.
  - cbn [IPF.loop].
    match goal with H : iteration _ _ = Next _ |- _ => rewrite H end.
    erewrite IH by eassumption. do 2 f_equal. lia.
Qed.

Lemma steps_of_loop fuel : forall numIts (st : State Tree) status n' st',
  loop fuel numIts st = (status, n', st') ->
  steps numIts st (Z.to_nat (n' - numIts)) st'.
Proof.
  induction fuel as [|fuel IH]; intros numIts st status n' st' Hrun;
    cbn [IPF.loop] in Hrun.
  - injection Hrun as <- <- <-. rewrite Z.sub_diag. constructor.
  - destruct (iteration numIts st) as [|e|st1] eqn:Hit.
    + injection Hrun as <- <- <-. rewrite Z.sub_diag. constructor.
    + injection Hrun as <- <- <-. rewrite Z.sub_diag. constructor.
    + destruct (loop_inv _ _ _ _ _ _ Hrun) as (Hle & _).
      apply IH in Hrun.
      replace (Z.to_nat (n' - numIts))
        with (S (Z.to_nat (n' - (numIts + 1)))) by lia.
      econstructor; eassumption.
Qed.

(** *** The regularisation candidates *)

(** What [reg_qsd_ldl::SolveAfter] returns in the iteration. *)
Definition solve_report (numIts : Z) (st : State Tree) : option Z :=
  let x := cur_x st in
  let y := cur_y st in
  let z := cur_z st in
  let m := Height A in
  let n := Width A in
  let rb := rb_of v A b x in
  let rc := rc_of v Q A c x y z in
  let mu := Dot x z / INR n in
  let rmu := Shift (DiagonalScale x z) (- centering ctrl * mu) in
  if is_sparse v then
    match system ctrl with
    | FULL_KKT =>
        let J := KKTSparse Q A x z false in
        let tree := if (numIts =? 0)%Z then Some (NestedDissection J)
                    else tree st in
        Some (RegularizedSolve tree J (MaxNorm J * epsilon) (regCand st)
                (Zeros (m + 2 * n)) (KKTRHS rc rb rmu z) (solveCtrl ctrl)).2
    | AUGMENTED_KKT =>
        let J := AugmentedKKTSparse Q A x z false in
        let tree :=
          if primalInitialized ctrl && dualInitialized ctrl && (numIts =? 0)%Z
          then Some (NestedDissection J) else tree st in
        Some (RegularizedSolve tree J (MaxNorm J * epsilon) (regCand st)
                (Zeros (m + n)) (AugmentedKKTRHS x rc rb rmu)
                (solveCtrl ctrl)).2
    | NORMAL_KKT => None
    end
  else None.

Lemma compute_step_regCand numIts (st st' : State Tree) :
  compute_step numIts st = Next st' ->
  if is_sparse v then
    exists k, solve_report numIts st = Some k /\
              (regCand st', increasedReg st') =
              escalate k (regCand st) (increasedReg st)
  else regCand st' = regCand st /\ increasedReg st' = increasedReg st.
Proof.
  unfold IPF.compute_step, IPF.direction, solve_report. cbv zeta.
  destruct (is_sparse v), (system ctrl); try discriminate.
  - destruct (RegularizedSolve _ _ _ _ _ _ _) as [d k].
    destruct (escalate k (regCand st) (increasedReg st)) as [r i] eqn:He.
    destruct (ExpandSolution _ _ d) as [[dx dy] dz].
    intros Heq. injection Heq as <-. exists k.
    split; [reflexivity | symmetry; exact He].
  - destruct (RegularizedSolve _ _ _ _ _ _ _) as [d k].
    destruct (escalate k (regCand st) (increasedReg st)) as [r i] eqn:He.
    destruct (ExpandAugmentedSolution _ _ _ d) as [[dx dy] dz].
    intros Heq. injection Heq as <-. exists k.
    split; [reflexivity | symmetry; exact He].
  - destruct (ExpandSolution _ _ _) as [[dx dy] dz].
    intros Heq. injection Heq as <-. split; reflexivity.
  - destruct (ExpandAugmentedSolution _ _ _ _) as [[dx dy] dz].
    intros Heq. injection Heq as <-. split; reflexivity.
Qed.

(** [st'] holds the candidates of [st], or ten times them after the one
    escalation the flag allows. *)
Definition escalation (st st' : State Tree) : Prop :=
  (regCand st' = regCand st /\ increasedReg st' = increasedReg st) \/
  (increasedReg st = false /\ increasedReg st' = true /\
   regCand st' = Scale 10 (regCand st)).

Lemma escalate_cases k (r : Vec) i :
  (3 < k)%Z /\ i = false /\ escalate k r i = (Scale 10 r, true) \/
  ((k <= 3)%Z \/ i = true) /\ escalate k r i = (r, i).
Proof.
  unfold escalate. destruct (Z.ltb_spec 3 k) as [Hk|Hk], i; cbn;
    auto with zarith.
Qed.

Lemma iteration_escalation numIts (st st' : State Tree) :
  iteration numIts st = Next st' -> escalation st st'.
Proof.
  intros Hit. apply iteration_Next in Hit as (_ & _ & _ & _ & Hstep).
  apply compute_step_regCand in Hstep.
  destruct (is_sparse v).
  - destruct Hstep as (k & _ & Heq).
    destruct (escalate_cases k (regCand st) (increasedReg st))
      as [(_ & Hi & He)|(_ & He)];
      rewrite He in Heq; injection Heq as Hr Hi'.
    + right. auto.
    + left. auto.
  - left. exact Hstep.
Qed.

Lemma escalation_trans (st1 st2 st3 : State Tree) :
  escalation st1 st2 -> escalation st2 st3 -> escalation st1 st3.
Proof.
  intros [(Hr & Hi)|(Hi & Hi' & Hr)] [(Hr2 & Hi2)|(Hi2 & Hi2' & Hr2)].
  - left. split; congruence.
  - right. repeat split; congruence.
  - right. repeat split; congruence.
  - congruence.
Qed.

Lemma loop_escalation fuel : forall numIts (st : State Tree),
  escalation st (loop fuel numIts st).2.
Proof.
  induction fuel as [|fuel IH]; intros numIts st; cbn [IPF.loop].
  - left. split; reflexivity.
  - destruct (iteration numIts st) as [|e|st1] eqn:Hit;
      try (left; split; reflexivity).
    eapply escalation_trans; [eapply iteration_escalation, Hit | apply IH].
Qed.

Lemma escalation_magnitude (st st' : State Tree) :
  escalation st st' ->
  Forall2 (fun r r' => Rabs r <= Rabs r') (regCand st) (regCand st').
Proof.
  intros [(-> & _)|(_ & _ & ->)].
  - apply Forall2_same_length_lookup. split; [reflexivity|].
    intros i a a' Ha Ha'. assert (a = a') by congruence. subst. lra.
  - unfold Scale. apply Forall2_fmap_r, Forall2_same_length_lookup.
    split; [reflexivity|].
    intros i a a' Ha Ha'. assert (a = a') by congruence. subst.
    unfold compose.
    rewrite Rabs_mult, (Rabs_right 10) by lra.
    pose proof (Rabs_pos a'). lra.
Qed.

End LoopFacts.

(** *** The loops that fill [regCand] *)

Lemma fill_closed_form (f : nat -> R) (len : nat) : forall k, (k <= len)%nat ->
  foldl (fun regCand i => <[i := f i]> regCand) (Zeros len) (seq 0 k) =
  (f <$> seq 0 k) ++ Zeros (len - k).
Proof.
  induction k as [|k IH]; intros Hk.
  - rewrite Nat.sub_0_r. reflexivity.
  - rewrite seq_S, foldl_snoc, IH by lia. cbn [Nat.add].
    rewrite fmap_app. cbn [fmap list_fmap].
    replace (len - k)%nat with (S (len - S k)) by lia.
    unfold Zeros. cbn [replicate].
    rewrite insert_app_r_alt by (rewrite length_fmap, length_seq; lia).
    rewrite length_fmap, length_seq, Nat.sub_diag. cbn [insert list_insert].
    rewrite <- app_assoc. reflexivity.
Qed.

Lemma fill_all (f : nat -> R) (len : nat) :
  foldl (fun regCand i => <[i := f i]> regCand) (Zeros len) (seq 0 len) =
  f <$> seq 0 len.
Proof.
  rewrite fill_closed_form by lia. rewrite Nat.sub_diag. apply app_nil_r.
Qed.

Lemma Pow_pos (a p : R) : 0 < Pow a p.
Proof. unfold Pow, Rpower. apply exp_pos. Qed.

Lemma fmap_seq_const (f : nat -> R) (a : R) (len : nat) : forall s,
  (forall i, (s <= i < s + len)%nat -> f i = a) ->
  f <$> seq s len = replicate len a.
Proof.
  induction len as [|len IH]; intros s Hf; [reflexivity|].
  cbn [seq fmap list_fmap replicate]. f_equal.
  - apply Hf. lia.
  - apply IH. intros i Hi. apply Hf. lia.
Qed.

Lemma fmap_seq_blocks (f : nat -> R) (a b : R) (n k len : nat) :
  len = (n + k)%nat ->
  (forall i, (i < n)%nat -> f i = a) ->
  (forall i, (n <= i < n + k)%nat -> f i = b) ->
  f <$> seq 0 len = replicate n a ++ replicate k b.
Proof.
  intros -> Ha Hb. rewrite seq_app, fmap_app. f_equal.
  - apply fmap_seq_const. intros i Hi. apply Ha. lia.
  - apply fmap_seq_const. intros i Hi. apply Hb. lia.
Qed.

(** What the loops of the sequential variant leave in [regCand]. *)
Lemma regCand_init_blocks (sys : KKTSystem) (eps : R) (n m : nat) :
  regCand_init sys eps n m =
  match sys with
  | FULL_KKT =>
      replicate n (Pow eps (3/4)) ++ replicate (m + n) (- Pow eps (1/2))
  | AUGMENTED_KKT =>
      replicate n (Pow eps (3/4)) ++ replicate m (- Pow eps (1/2))
  | NORMAL_KKT => []
  end.
Proof.
  destruct sys; [| |reflexivity]; unfold regCand_init; rewrite fill_all;
    apply fmap_seq_blocks; try lia; intros i Hi;
    unfold full_entry, augmented_entry; cbv zeta;
    repeat destruct (decide _); try reflexivity; lia.
Qed.

(** What the loops of the distributed variant leave on a process: its
    rows of the vector of the sequential variant. *)
Lemma regCand_init_local_rows (sys : KKTSystem) (eps : R) (n m : nat)
    (firstLocalRow localHeight : nat) :
  (firstLocalRow + localHeight <= length (regCand_init sys eps n m))%nat ->
  regCand_init_local sys eps n m firstLocalRow localHeight =
  take localHeight (drop firstLocalRow (regCand_init sys eps n m)).
Proof.
  destruct sys; cbn [regCand_init regCand_init_local];
    [| |intros _; rewrite drop_nil, take_nil; reflexivity];
    rewrite (fill_all (fun i => _ i));
    rewrite (fill_all (fun iLoc => _ (firstLocalRow + iLoc)%nat));
    rewrite length_fmap, length_seq; intros Hlen;
    apply list_eq; intros i;
    rewrite lookup_take, lookup_drop, !list_lookup_fmap;
    (destruct (decide (i < localHeight)%nat) as [Hi|Hi];
     [ rewrite !lookup_seq_lt by lia; reflexivity
     | rewrite lookup_seq_ge by lia; reflexivity ]).
Qed.

(** *** A whole call *)

(** The message of the budget check. *)
Definition budget_message (maxIts : Z) : list part :=
  [Str "Maximum number of iterations ("; Num maxIts; Str ") exceeded"].

Section DriverFacts.

Context {Sys Tree LineSearchCtrl SolveCtrl : Type}.
Context `{!Collaborators Sys Tree LineSearchCtrl SolveCtrl}.

Variable v : Variant.
Variables (QPre APre : Matrix) (bPre cPre : Vec) (x y z : Vec).
Variable ctrl : IPFCtrl LineSearchCtrl SolveCtrl.

Lemma prepare_state :
  let p := prepare (Tree := Tree) v QPre APre bPre cPre x y z ctrl in
  regCand (pst p) =
    (if is_sparse v
     then regCand_init (system ctrl) epsilon (Width APre) (Height APre)
     else []) /\
  increasedReg (pst p) = false.
Proof.
  unfold prepare. cbn [allowEquil]. cbv zeta.
  destruct (is_sparse v).
  - destruct (InitializeSparse _ _ _ _ _ _ _ _ _ _ _) as [[[x' y'] z'] t].
    destruct (system ctrl); split; reflexivity.
  - destruct (Initialize _ _ _ _ _ _ _ _ _ _) as [[x' y'] z'].
    split; reflexivity.
Qed.

(** C6: the regularisation candidates a call of [IPF] enters its loop
    with, [n] being the width and [m] the height of [A], and [epsilon]
    the machine epsilon.  The dense variants build none.  The sparse
    variants build [n] entries [epsilon^0.75] followed by [m + n] entries
    [- epsilon^0.5] for [FULL_KKT] (the [m + 2n] rows of the system),
    [n] entries [epsilon^0.75] followed by [m] entries [- epsilon^0.5]
    for [AUGMENTED_KKT], and none for another system choice; so entry
    [i < n] is [epsilon^0.75] and every later entry is [- epsilon^0.5];
    what the loop of the distributed variant sets on a process is the
    rows of this vector the process owns; and the primal entries are
    positive, the others negative. *)
Theorem regCand_initial_blocks :
  let p := prepare (Tree := Tree) v QPre APre bPre cPre x y z ctrl in
  let n := Width APre in
  let m := Height APre in
  let regMagPrimal := Pow epsilon (3/4) in
  let regMagLagrange := Pow epsilon (1/2) in
  regCand (pst p) =
    (if is_sparse v then
       match system ctrl with
       | FULL_KKT =>
           replicate n regMagPrimal ++ replicate (m + n) (- regMagLagrange)
       | AUGMENTED_KKT =>
           replicate n regMagPrimal ++ replicate m (- regMagLagrange)
       | NORMAL_KKT => []
       end
     else []) /\
  (is_sparse v = true ->
   length (regCand (pst p)) =
     match system ctrl with
     | FULL_KKT => (m + 2 * n)%nat
     | AUGMENTED_KKT => (n + m)%nat
     | NORMAL_KKT => 0%nat
     end /\
   (forall i, (i < n)%nat -> system ctrl <> NORMAL_KKT ->
      regCand (pst p) !! i = Some regMagPrimal) /\
   (forall i, (n <= i < length (regCand (pst p)))%nat ->
      regCand (pst p) !! i = Some (- regMagLagrange)) /\
   (forall firstLocalRow localHeight,
      (firstLocalRow + localHeight <= length (regCand (pst p)))%nat ->
      regCand_init_local (system ctrl) epsilon n m firstLocalRow localHeight
      = take localHeight (drop firstLocalRow (regCand (pst p))))) /\
  0 < regMagPrimal /\ - regMagLagrange < 0.
Proof.
  intros p n m regMagPrimal regMagLagrange.
  destruct prepare_state as (Hreg & _). fold p n m in Hreg.
  split; [|split].
  - rewrite Hreg. destruct (is_sparse v); [|reflexivity].
    apply regCand_init_blocks.
  - intros Hsparse. rewrite Hsparse in Hreg.
    assert (Hblocks := regCand_init_blocks (system ctrl) epsilon n m).
    fold regMagPrimal regMagLagrange in Hblocks.
    split; [|split; [|split]].
    + rewrite Hreg, Hblocks.
      destruct (system ctrl); rewrite ?length_app, ?length_replicate;
        cbn [length]; lia.
    + intros i Hi Hsys. rewrite Hreg, Hblocks.
      destruct (system ctrl); try contradiction;
        (rewrite lookup_app_l by (rewrite length_replicate; lia);
         apply lookup_replicate_2; lia).
    + intros i. rewrite Hreg, Hblocks.
      destruct (system ctrl); rewrite ?length_app, ?length_replicate;
        cbn [length]; intros Hi; try lia;
        (rewrite lookup_app_r by (rewrite length_replicate; lia);
         rewrite length_replicate; apply lookup_replicate_2; lia).
    + intros firstLocalRow localHeight. rewrite Hreg.
      apply regCand_init_local_rows.
  - pose proof (Pow_pos epsilon (3/4)). pose proof (Pow_pos epsilon (1/2)).
    unfold regMagPrimal, regMagLagrange. split; lra.
Qed.

(** C4: in a call of [IPF], (1) if each of the passes numbered 0 to
    [ctrl.maxIts - 1] takes a step and the iterate they lead to is in the
    cone and fails the convergence test, the call ends in the runtime
    error whose message holds the one number [ctrl.maxIts], and [x],
    [y], [z] are left at that iterate, the one reached after
    [ctrl.maxIts] steps; (2) the runtime error is raised nowhere else:
    a call that ends in it has taken [ctrl.maxIts] steps to an iterate
    in the cone that fails the test, and holds that iterate; (3) an
    initial iterate in the cone that passes the test makes the call
    return it, unequilibrated, whatever [ctrl.maxIts] is; (4) with a
    budget that is not negative the loop makes at most [ctrl.maxIts]
    steps. *)
Theorem budget_exceeded_is_reported :
  let p := prepare (Tree := Tree) v QPre APre bPre cPre x y z ctrl in
  let taken := steps v ctrl (pQ p) (pA p) (pb p) (pc p) 0%Z (pst p) in
  let call := fun fuel => IPF v fuel QPre APre bPre cPre x y z ctrl in
  (forall st fuel,
     (0 <= maxIts ctrl)%Z ->
     taken (Z.to_nat (maxIts ctrl)) st ->
     NumNonPositive (cur_x st) = 0%Z -> NumNonPositive (cur_z st) = 0%Z ->
     converged v ctrl (pQ p) (pA p) (pb p) (pc p) st = false ->
     (Z.to_nat (maxIts ctrl) < fuel)%nat ->
     call fuel = Threw (RuntimeError (budget_message (maxIts ctrl)))
                       (cur_x st) (cur_y st) (cur_z st)) /\
  (forall fuel msg x' y' z',
     call fuel = Threw (RuntimeError msg) x' y' z' ->
     msg = budget_message (maxIts ctrl) /\ (0 <= maxIts ctrl)%Z /\
     exists st,
       taken (Z.to_nat (maxIts ctrl)) st /\
       NumNonPositive (cur_x st) = 0%Z /\ NumNonPositive (cur_z st) = 0%Z /\
       converged v ctrl (pQ p) (pA p) (pb p) (pc p) st = false /\
       x' = cur_x st /\ y' = cur_y st /\ z' = cur_z st) /\
  (forall fuel,
     NumNonPositive (cur_x (pst p)) = 0%Z ->
     NumNonPositive (cur_z (pst p)) = 0%Z ->
     converged v ctrl (pQ p) (pA p) (pb p) (pc p) (pst p) = true ->
     call (S fuel) = unequilibrate p (pst p)) /\
  ((0 <= maxIts ctrl)%Z ->
   call (Z.to_nat (maxIts ctrl) + 1)%nat <> OutOfFuel).
Proof.
  intros p taken call. subst taken call. unfold IPF. fold p.
  split; [|split; [|split]].
  - intros st fuel Hmax Hsteps Hx Hz Hconv Hfuel.
    apply loop_steps in Hsteps. rewrite Z2Nat.id, Z.add_0_l in Hsteps by lia.
    replace fuel
      with (Z.to_nat (maxIts ctrl) + S (fuel - S (Z.to_nat (maxIts ctrl))))%nat
      by lia.
    rewrite (loop_add _ _ _ _ _ _ _ _ _ _ _ _ Hsteps). cbn [loop].
    rewrite (iteration_in_cone _ _ _ _ _ _ _ _ Hx Hz).
    unfold after_cone_check. rewrite Hconv, Z.eqb_refl. reflexivity.
  - intros fuel msg x' y' z'.
    destruct (loop v ctrl (pQ p) (pA p) (pb p) (pc p) fuel 0 (pst p))
      as [[status n] st] eqn:Hrun.
    destruct status as [|e|]; try discriminate.
    intros Heq. injection Heq as -> <- <- <-.
    destruct (loop_inv _ _ _ _ _ _ _ _ _ _ _ _ Hrun) as (Hle & Hit).
    apply steps_of_loop in Hrun. rewrite Z.sub_0_r in Hrun.
    unfold iteration in Hit.
    pose proof (NumNonPositive_nonneg (cur_x st)).
    pose proof (NumNonPositive_nonneg (cur_z st)).
    destruct (Z.ltb_spec 0 (NumNonPositive (cur_x st)));
      destruct (Z.ltb_spec 0 (NumNonPositive (cur_z st)));
      cbn [orb] in Hit; try discriminate.
    apply after_cone_check_exception in Hit as [(Hm & Hn & Hc)|Hm];
      [|discriminate].
    injection Hm as ->. subst n.
    split; [reflexivity|]. split; [exact Hle|].
    exists st. repeat split; try assumption; lia.
  - intros fuel Hx Hz Hconv. cbn [loop].
    rewrite (iteration_in_cone _ _ _ _ _ _ _ _ Hx Hz).
    unfold after_cone_check. rewrite Hconv. reflexivity.
  - intros Hmax.
    pose proof (loop_bounded v ctrl (pQ p) (pA p) (pb p) (pc p)
                  (Z.to_nat (maxIts ctrl)) 0%Z (pst p)) as Hb.
    rewrite Nat.add_1_r.
    destruct (loop v ctrl (pQ p) (pA p) (pb p) (pc p)
                (S (Z.to_nat (maxIts ctrl))) 0 (pst p))
      as [[status n] st].
    destruct status; try discriminate.
    exfalso. apply Hb; [lia | f_equal; lia | reflexivity].
Qed.

(** C5: from the first iteration of a call to the point where its loop
    ends or is cut, [regCand] is either what was built before the loop,
    with [increasedReg] still false, or ten times that, with
    [increasedReg] true, so that no entry has lost magnitude; and in a
    single pass of a sparse variant it is multiplied by ten exactly when
    [SolveAfter] reports more than three large refinements while
    [increasedReg] is false, which that pass then sets. *)
Theorem regCand_escalates_once (fuel : nat) :
  let p := prepare (Tree := Tree) v QPre APre bPre cPre x y z ctrl in
  let regCand0 :=
    if is_sparse v
    then regCand_init (system ctrl) epsilon (Width APre) (Height APre)
    else [] in
  let st := (loop v ctrl (pQ p) (pA p) (pb p) (pc p) fuel 0 (pst p)).2 in
  (regCand st = regCand0 /\ increasedReg st = false \/
   regCand st = Scale 10 regCand0 /\ increasedReg st = true) /\
  Forall2 (fun r r' => Rabs r <= Rabs r') regCand0 (regCand st) /\
  forall numIts (s s' : State Tree),
    is_sparse v = true ->
    iteration v ctrl (pQ p) (pA p) (pb p) (pc p) numIts s = Next s' ->
    exists numLargeRefines,
      solve_report v ctrl (pQ p) (pA p) (pb p) (pc p) numIts s =
        Some numLargeRefines /\
      ((3 < numLargeRefines)%Z /\ increasedReg s = false /\
       regCand s' = Scale 10 (regCand s) /\ increasedReg s' = true
       \/
       ((numLargeRefines <= 3)%Z \/ increasedReg s = true) /\
       regCand s' = regCand s /\ increasedReg s' = increasedReg s).
Proof.
  intros p regCand0 st.
  destruct prepare_state as (Hr0 & Hi0). fold p regCand0 in Hr0, Hi0.
  pose proof (loop_escalation v ctrl (pQ p) (pA p) (pb p) (pc p)
                fuel 0%Z (pst p)) as Hesc.
  fold st in Hesc.
  split; [|split].
  - destruct Hesc as [(Hr & Hi)|(_ & Hi & Hr)].
    + left. split; congruence.
    + right. split; congruence.
  - rewrite <- Hr0. apply escalation_magnitude, Hesc.
  - intros numIts s s' Hsparse Hit.
    apply iteration_Next in Hit as (_ & _ & _ & _ & Hstep).
    apply compute_step_regCand in Hstep. rewrite Hsparse in Hstep.
    destruct Hstep as (k & Hk & Heq). exists k. split; [exact Hk|].
    destruct (escalate_cases k (regCand s) (increasedReg s))
      as [(H3 & Hi & He)|(H3 & He)];
      rewrite He in Heq; injection Heq as Hr Hi'; auto.
Qed.

End DriverFacts.

(** ** A problem with one unknown and one constraint *)

(** Collaborators for the examples: the caller's point is kept as the
    initial one, every solve proposes the same direction and reports four
    large refinements, and the line search returns its upper bound. *)
#[local] Instance fixed_direction : Collaborators unit unit unit unit := {|
  epsilon := / 4503599627370496;
  GeomEquil := fun A => (A, Ones (Height A), Ones (Width A));
  Initialize := fun _ _ _ _ x y z _ _ _ => (x, y, z);
  InitializeSparse := fun _ _ _ _ x y z _ _ _ _ => (x, y, z, None);
  KKT := fun _ _ _ _ => tt;
  KKTSparse := fun _ _ _ _ _ => tt;
  KKTRHS := fun _ _ _ _ => [];
  AugmentedKKT := fun _ _ _ _ => tt;
  AugmentedKKTSparse := fun _ _ _ _ _ => tt;
  AugmentedKKTRHS := fun _ _ _ _ => [];
  SymmetricSolve := fun _ d => d;
  ExpandSolution := fun _ _ _ => ([-1/2], [0], [-1/20]);
  ExpandAugmentedSolution := fun _ _ _ _ => ([-1/2], [0], [-1/20]);
  MaxNorm := fun _ => 1;
  NestedDissection := fun _ => tt;
  RegularizedSolve := fun _ _ _ _ _ d _ => (d, 4%Z);
  IPFLineSearch := fun _ _ _ _ _ _ _ _ _ _ upperBound _ _ _ => upperBound
|}.

(** min x^2/2 - 1.9 x  subject to  x = 1, x >= 0, at the point
    x = 1, y = 1, z = 0.1. *)
Definition Q_ex : Matrix := mkMatrix 1 1 (fun _ _ => 1).
Definition A_ex : Matrix := mkMatrix 1 1 (fun _ _ => 1).
Definition b_ex : Vec := [1].
Definition c_ex : Vec := [-19/10].

Definition ctrl_ex (tolerance : R) (its : Z) : IPFCtrl unit unit :=
  mkCtrl true true tolerance its (1/10) FULL_KKT tt tt false.

Definition st_ex (regCand : Vec) : State unit :=
  mkState [1] [1] [1/10] None regCand false.

Lemma Nrm2_singleton a : Nrm2 [a] = Rabs a.
Proof.
  unfold Nrm2, Dot. cbn. rewrite Rplus_0_r. apply sqrt_Rsqr_abs.
Qed.

Lemma NumNonPositive_singleton a : 0 < a -> NumNonPositive [a] = 0%Z.
Proof. intros Ha. apply NumNonPositive_zero. repeat constructor. exact Ha. Qed.

Lemma primObj_ex v : primObj v Q_ex A_ex c_ex [1] = -14/10.
Proof. unfold primObj. destruct v; cbn; lra. Qed.

Lemma dualObj_ex v : dualObj v Q_ex A_ex b_ex [1] [1] = -15/10.
Proof. unfold dualObj. destruct v; cbn; lra. Qed.

Lemma objConv_ex v : objConv v Q_ex A_ex b_ex c_ex [1] [1] = 1/24.
Proof.
  unfold objConv. rewrite primObj_ex, dualObj_ex.
  replace (-14/10 - -15/10) with (1/10) by lra.
  rewrite (Rabs_right (1/10)), (Rabs_left (-14/10)) by lra. field.
Qed.

Lemma rbConv_ex v : rbConv v A_ex b_ex [1] = 0.
Proof.
  unfold rbConv. replace (rb_of v A_ex b_ex [1]) with [0]
    by (unfold rb_of; destruct v; cbn; f_equal; lra).
  unfold b_ex. rewrite !Nrm2_singleton, Rabs_R0. lra.
Qed.

Lemma rcConv_ex v : rcConv v Q_ex A_ex c_ex [1] [1] [1/10] = 0.
Proof.
  unfold rcConv. replace (rc_of v Q_ex A_ex c_ex [1] [1] [1/10]) with [0]
    by (unfold rc_of; destruct v; cbn; f_equal; lra).
  unfold c_ex. rewrite !Nrm2_singleton, Rabs_R0. lra.
Qed.

Lemma converged_ex v tolerance its r :
  converged v (ctrl_ex tolerance its) Q_ex A_ex b_ex c_ex (st_ex r) =
  bool_decide (1/24 <= tolerance).
Proof.
  unfold converged. cbn [cur_x cur_y cur_z st_ex tol ctrl_ex].
  rewrite objConv_ex, rbConv_ex, rcConv_ex.
  destruct (bool_decide_reflect (1/24 <= tolerance)) as [Ht|Ht].
  - rewrite !bool_decide_eq_true_2 by lra. reflexivity.
  - reflexivity.
Qed.

Lemma break_iff_three_criteria_witness :
  iteration Dense (ctrl_ex (1/10) 10) Q_ex A_ex b_ex c_ex 0 (st_ex []) = Break
  <->
  Rabs (primObj Dense Q_ex A_ex c_ex [1] - dualObj Dense Q_ex A_ex b_ex [1] [1])
    / (1 + Rabs (primObj Dense Q_ex A_ex c_ex [1])) <= 1/10 /\
  Nrm2 (primal_residual A_ex b_ex [1]) / (1 + Nrm2 b_ex) <= 1/10 /\
  Nrm2 (dual_residual Dense Q_ex A_ex c_ex [1] [1] [1/10]) / (1 + Nrm2 c_ex)
    <= 1/10.
Proof.
  apply (break_iff_three_criteria Dense (ctrl_ex (1/10) 10) Q_ex A_ex b_ex
           c_ex 0 (st_ex [])).
  - apply NumNonPositive_singleton. lra.
  - apply NumNonPositive_singleton. lra.
  - reflexivity.
Defined.

(** With the sign of [c] as the specification states it, the residual of
    the same point is 3.8 / 2.9, above the tolerance 0.1 under which the
    loop is left. *)
Lemma stated_dual_residual_differs :
  iteration Dense (ctrl_ex (1/10) 10) Q_ex A_ex b_ex c_ex 0 (st_ex []) = Break
  /\
  1/10 <
  Nrm2 (stated_dual_residual Dense Q_ex A_ex c_ex [1] [1] [1/10])
    / (1 + Nrm2 c_ex).
Proof.
  split.
  - apply iteration_Break. cbn [cur_x cur_z st_ex].
    rewrite !NumNonPositive_singleton by lra.
    split; [split; lia|].
    rewrite converged_ex. apply bool_decide_eq_true_2. lra.
  - replace (stated_dual_residual Dense Q_ex A_ex c_ex [1] [1] [1/10])
      with [38/10]
      by (unfold stated_dual_residual; cbn; f_equal; lra).
    unfold c_ex. rewrite !Nrm2_singleton.
    rewrite (Rabs_right (38/10)), (Rabs_left (-19/10)) by lra.
    replace (1 + - (-19/10)) with (29/10) by lra. lra.
Qed.

Lemma step_is_bounded_and_applied_witness :
  let alphaPrimal := MaxStepInPositiveCone [1] [-1/2] 1 in
  let alphaDual := MaxStepInPositiveCone [1/10] [-1/20] 1 in
  let bound := 99 / 100 * Rmin alphaPrimal alphaDual in
  iteration Dense (ctrl_ex (1/100) 10) Q_ex A_ex b_ex c_ex 0 (st_ex []) =
    Next (mkState (Axpy bound [-1/2] [1]) (Axpy bound [0] [1])
            (Axpy bound [-1/20] [1/10]) None [] false) /\
  bound <= 99 / 100 * alphaPrimal /\ bound <= 99 / 100 * alphaDual /\
  bound <= 99 / 100 /\
  alphaPrimal <= 1 /\ alphaDual <= 1 /\
  (forall i xi dxi, [1] !! i = Some xi -> [-1/2] !! i = Some dxi ->
                    dxi < 0 -> alphaPrimal <= - xi / dxi) /\
  (forall i zi dzi, [1/10] !! i = Some zi -> [-1/20] !! i = Some dzi ->
                    dzi < 0 -> alphaDual <= - zi / dzi) /\
  (alphaPrimal = 1 \/
   exists i xi dxi, [1] !! i = Some xi /\ [-1/2] !! i = Some dxi /\
                    dxi < 0 /\ alphaPrimal = - xi / dxi) /\
  (alphaDual = 1 \/
   exists i zi dzi, [1/10] !! i = Some zi /\ [-1/20] !! i = Some dzi /\
                    dzi < 0 /\ alphaDual = - zi / dzi).
Proof.
  refine (step_is_bounded_and_applied Dense (ctrl_ex (1/100) 10) Q_ex A_ex
            b_ex c_ex 0 (st_ex []) [-1/2] [0] [-1/20] None [] false
            _ _ _ _ _).
  - apply NumNonPositive_singleton. lra.
  - apply NumNonPositive_singleton. lra.
  - rewrite converged_ex. apply bool_decide_eq_false_2. lra.
  - discriminate.
  - reflexivity.
Defined.

(** The ratio tests of this pass both stop at their upper bound 1, the
    ratios being 2: the step 3/2 is longer than both results and keeps
    [x] and [z] positive, so the results are not the maximal steps. *)
Lemma ratio_test_is_capped :
  MaxStepInPositiveCone [1] [-1/2] 1 = 1 /\
  MaxStepInPositiveCone [1/10] [-1/20] 1 = 1 /\
  1 < 3/2 /\
  Forall (fun xi => 0 < xi) (Axpy (3/2) [-1/2] [1]) /\
  Forall (fun zi => 0 < zi) (Axpy (3/2) [-1/20] [1/10]).
Proof.
  assert (HP : MaxStepInPositiveCone [1] [-1/2] 1 = 1).
  { unfold MaxStepInPositiveCone. cbn.
    destruct (decide (-1/2 < 0)); [|lra]. apply Rmin_left. lra. }
  assert (HD : MaxStepInPositiveCone [1/10] [-1/20] 1 = 1).
  { unfold MaxStepInPositiveCone. cbn.
    destruct (decide (-1/20 < 0)); [|lra]. apply Rmin_left.
    replace (- (1/10) / (-1/20)) with 2 by field. lra. }
  split; [exact HP|]. split; [exact HD|]. split; [lra|].
  split; cbn; repeat constructor; lra.
Qed.

(** One pass of the sparse variant on this point, the solve reporting
    four large refinements: the candidates are multiplied by ten. *)
Example escalation_in_one_pass (r : Vec) :
  (loop Sparse (ctrl_ex (1/100) 10) Q_ex A_ex b_ex c_ex 1 0 (st_ex r)).2 =
  mkState (Axpy (99 / 100 * Rmin (MaxStepInPositiveCone [1] [-1/2] 1)
                                 (MaxStepInPositiveCone [1/10] [-1/20] 1))
             [-1/2] [1])
          (Axpy (99 / 100 * Rmin (MaxStepInPositiveCone [1] [-1/2] 1)
                                 (MaxStepInPositiveCone [1/10] [-1/20] 1))
             [0] [1])
          (Axpy (99 / 100 * Rmin (MaxStepInPositiveCone [1] [-1/2] 1)
                                 (MaxStepInPositiveCone [1/10] [-1/20] 1))
             [-1/20] [1/10])
          (Some tt) (Scale 10 r) true.
Proof.
  cbn [loop].
  rewrite iteration_in_cone
    by (cbn [cur_x cur_z st_ex]; apply NumNonPositive_singleton; lra).
  unfold after_cone_check. rewrite converged_ex.
  rewrite bool_decide_eq_false_2 by lra.
  reflexivity.
Qed.

Lemma div_le_when a d t : 0 < d -> a <= t * d -> a / d <= t.
Proof.
  intros Hd Ha. apply (Rmult_le_reg_r d); [exact Hd|].
  unfold Rdiv. rewrite Rmult_assoc, Rinv_l by lra. lra.
Qed.

Ltac eval_abs :=
  repeat match goal with
         | |- context [Rabs ?e] =>
             first [ rewrite (Rabs_right e) by lra
                   | rewrite (Rabs_left e) by lra ]
         end.

(** A call that starts from this point with no iteration left to spend:
    the point passes the convergence test and is returned. *)
Example IPF_without_budget :
  IPF Dense 1 Q_ex A_ex b_ex c_ex [1] [1] [1/10] (ctrl_ex (1/10) 0) =
  Returned [1 * 1 / 1] [1 * 1 / 1] [1 * (1 / 10 / 1)].
Proof.
  unfold IPF. cbn [loop].
  set (p := prepare Dense Q_ex A_ex b_ex c_ex [1] [1] [1/10]
              (ctrl_ex (1/10) 0)).
  assert (Hit : iteration Dense (ctrl_ex (1/10) 0) (pQ p) (pA p) (pb p) (pc p)
                  0 (pst p) = Break).
  { apply iteration_Break. cbn.
    rewrite !NumNonPositive_singleton by lra.
    split; [split; lia|].
    unfold converged, objConv, primObj, dualObj, rbConv, rcConv, rb_of, rc_of.
    cbn. rewrite !Nrm2_singleton. eval_abs.
    rewrite !andb_true_iff, !bool_decide_eq_true.
    repeat split; apply div_le_when; lra. }
  rewrite Hit. reflexivity.
Qed.

Lemma NumNonPositive_cons a (x : Vec) :
  NumNonPositive (a :: x) =
  if decide (a <= 0) then (1 + NumNonPositive x)%Z else NumNonPositive x.
Proof.
  unfold NumNonPositive. rewrite filter_cons.
  destruct (decide (a <= 0)); [|reflexivity].
  cbn [length]. lia.
Qed.

(** Two entries of [x] are not positive: the pass is the logic error that
    reports 2 and 0, although the residuals are not looked at. *)
Example cone_check_counts :
  iteration Dense (ctrl_ex (1/10) 10) Q_ex A_ex b_ex c_ex 0
    (mkState [1; 0; -2] [1] [1/10; 3] None [] false) =
  Throw (LogicError [Num 2; Str " entries of x were nonpositive and ";
                     Num 0; Str " entries of z were nonpositive"]).
Proof.
  assert (Hx : NumNonPositive [1; 0; -2] = 2%Z).
  { rewrite !NumNonPositive_cons.
    repeat (destruct (decide _); try lra). reflexivity. }
  assert (Hz : NumNonPositive [1/10; 3] = 0%Z).
  { apply NumNonPositive_zero. repeat constructor; lra. }
  rewrite iteration_out_of_cone; cbn [cur_x cur_z]; rewrite Hx, Hz;
    [reflexivity | left; lia].
Qed.

Lemma div_gt_when a d t : 0 < d -> t * d < a -> ~ a / d <= t.
Proof.
  intros Hd Ha Hle. apply (Rmult_le_compat_r d) in Hle; [|lra].
  unfold Rdiv in Hle. rewrite Rmult_assoc, Rinv_l in Hle by lra. lra.
Qed.

(** The same call with a tolerance the point does not meet: the budget of
    zero iterations is exceeded at once. *)
Example IPF_budget_exceeded :
  IPF Dense 1 Q_ex A_ex b_ex c_ex [1] [1] [1/10] (ctrl_ex (1/100) 0) =
  Threw (RuntimeError [Str "Maximum number of iterations ("; Num 0;
                       Str ") exceeded"])
        [1 * 1] [1 * 1] [1 / 10 / 1].
Proof.
  unfold IPF. cbn [loop].
  set (p := prepare Dense Q_ex A_ex b_ex c_ex [1] [1] [1/10]
              (ctrl_ex (1/100) 0)).
  assert (Hit : iteration Dense (ctrl_ex (1/100) 0) (pQ p) (pA p) (pb p)
                  (pc p) 0 (pst p) =
                Throw (RuntimeError (budget_message 0))).
  { rewrite iteration_in_cone
      by (cbn; apply NumNonPositive_singleton; lra).
    unfold after_cone_check.
    replace (converged Dense (ctrl_ex (1/100) 0) (pQ p) (pA p) (pb p) (pc p)
               (pst p)) with false; [reflexivity|].
    symmetry. unfold converged. apply andb_false_iff. left.
    apply andb_false_iff. left. apply bool_decide_eq_false_2.
    unfold objConv, primObj, dualObj. cbn. eval_abs.
    apply div_gt_when; lra. }
  rewrite Hit. reflexivity.
Qed.

(** A call with a budget of one iteration and a tolerance the point does
    not meet: one step is taken, to x = 0.505, y = 1, z = 0.0505, and the
    second pass finds the budget exceeded. *)
Definition p_one : Prepared unit :=
  prepare Dense Q_ex A_ex b_ex c_ex [1] [1] [1/10] (ctrl_ex (1/100) 1).

Definition st_one : State unit :=
  mkState [101/200] [1] [101/2000] None [] false.

Lemma first_pass_ex :
  iteration Dense (ctrl_ex (1/100) 1) (pQ p_one) (pA p_one) (pb p_one)
    (pc p_one) 0 (pst p_one) = Next st_one.
Proof.
  rewrite iteration_in_cone by (cbn; apply NumNonPositive_singleton; lra).
  unfold after_cone_check.
  replace (converged Dense (ctrl_ex (1/100) 1) (pQ p_one) (pA p_one)
             (pb p_one) (pc p_one) (pst p_one)) with false.
  2:{ symmetry. unfold converged. apply andb_false_iff. left.
      apply andb_false_iff. left. apply bool_decide_eq_false_2.
      unfold objConv, primObj, dualObj. cbn. eval_abs.
      apply div_gt_when; lra. }
  cbn [maxIts ctrl_ex Z.eqb].
  unfold compute_step. cbn.
  unfold take_step. cbn -[MaxStepInPositiveCone Rmin].
  assert (HP : MaxStepInPositiveCone [1 * 1] [-1/2] 1 = 1).
  { unfold MaxStepInPositiveCone. cbn.
    destruct (decide (-1/2 < 0)); [|lra]. apply Rmin_left.
    replace (- (1 * 1) / (-1/2)) with 2 by field. lra. }
  assert (HD : MaxStepInPositiveCone [1/10/1] [-1/20] 1 = 1).
  { unfold MaxStepInPositiveCone. cbn.
    destruct (decide (-1/20 < 0)); [|lra]. apply Rmin_left.
    replace (- (1/10/1) / (-1/20)) with 2 by field. lra. }
  rewrite HP, HD, Rmin_left by lra.
  unfold st_one. do 2 f_equal; f_equal; lra.
Qed.

Lemma second_pass_ex :
  iteration Dense (ctrl_ex (1/100) 1) (pQ p_one) (pA p_one) (pb p_one)
    (pc p_one) 1 st_one = Throw (RuntimeError (budget_message 1)).
Proof.
  rewrite iteration_in_cone by (cbn; apply NumNonPositive_singleton; lra).
  unfold after_cone_check.
  replace (converged Dense (ctrl_ex (1/100) 1) (pQ p_one) (pA p_one)
             (pb p_one) (pc p_one) st_one) with false; [reflexivity|].
  symmetry. unfold converged. apply andb_false_iff. left.
  apply andb_false_iff. right. apply bool_decide_eq_false_2.
  unfold rbConv, rb_of. cbn. rewrite !Nrm2_singleton. eval_abs.
  apply div_gt_when; lra.
Qed.


Lemma budget_exceeded_is_reported_witness :
  IPF Dense 2 Q_ex A_ex b_ex c_ex [1] [1] [1/10] (ctrl_ex (1/100) 1) =
  Threw (RuntimeError (budget_message 1)) [101/200] [1] [101/2000].
Proof.
  destruct (budget_exceeded_is_reported Dense Q_ex A_ex b_ex c_ex [1] [1]
              [1/10] (ctrl_ex (1/100) 1)) as (Hthrown & _).
  apply (Hthrown st_one 2%nat).
  - cbn. lia.
  - apply (steps_S _ _ _ _ _ _ _ _ st_one); [exact first_pass_ex|].
    apply steps_O.
  - apply NumNonPositive_singleton. lra.
  - apply NumNonPositive_singleton. lra.
  - pose proof second_pass_ex as Hit.
    rewrite iteration_in_cone in Hit
      by (cbn; apply NumNonPositive_singleton; lra).
    unfold after_cone_check in Hit.
    destruct (converged _ _ _ _ _ _ _); [discriminate | reflexivity].
  - cbn. lia.
Defined.

(** The call ends in the runtime error; its message holds the number 1
    once, and [x], [y], [z] are left at the iterate after the step, not
    at the point the caller passed. *)
Lemma budget_error_leaves_the_last_iterate :
  IPF Dense 2 Q_ex A_ex b_ex c_ex [1] [1] [1/10] (ctrl_ex (1/100) 1) =
  Threw (RuntimeError [Str "Maximum number of iterations ("; Num 1;
                       Str ") exceeded"])
        [101/200] [1] [101/2000] /\
  101/200 < 1 /\ 101/2000 < 1/10.
Proof.
  split; [|lra].
  unfold IPF. cbn [loop]. fold p_one.
  rewrite first_pass_ex. change (0 + 1)%Z with 1%Z.
  rewrite second_pass_ex. reflexivity.
Qed.

(** The candidates of a sparse call on this problem, [FULL_KKT] with
    n = m = 1, as the loop of [regCand.Set] leaves them. *)
Example regCand_of_a_sparse_call :
  regCand (pst (prepare Sparse Q_ex A_ex b_ex c_ex [1] [1] [1/10]
                  (ctrl_ex (1/100) 1))) =
  [Pow (/ 4503599627370496) (3/4); - Pow (/ 4503599627370496) (1/2);
   - Pow (/ 4503599627370496) (1/2)].
Proof.
  unfold prepare. cbn -[Pow]. unfold full_entry. cbn -[Pow].
  reflexivity.
Qed.

Lemma regCand_initial_blocks_witness :
  regCand (pst (prepare Sparse Q_ex A_ex b_ex c_ex [1] [1] [1/10]
                  (ctrl_ex (1/100) 1))) =
  replicate 1 (Pow (/ 4503599627370496) (3/4)) ++
  replicate (1 + 1) (- Pow (/ 4503599627370496) (1/2)).
Proof.
  exact (proj1 (regCand_initial_blocks Sparse Q_ex A_ex b_ex c_ex [1] [1]
                  [1/10] (ctrl_ex (1/100) 1))).
Defined.

(** ** Further properties of the loop and of a call *)

(** How a call ended, for the statements below. *)
Definition is_Returned (o : Outcome) : bool :=
  match o with Returned _ _ _ => true | _ => false end.

Definition is_budget_error (o : Outcome) : bool :=
  match o with Threw (RuntimeError _) _ _ _ => true | _ => false end.

Section MoreLoopFacts.

Context {Sys Tree LineSearchCtrl SolveCtrl : Type}.
Context `{!Collaborators Sys Tree LineSearchCtrl SolveCtrl}.

Variable v : Variant.
Variable ctrl : IPFCtrl LineSearchCtrl SolveCtrl.
Variables (Q A : Matrix) (b c : Vec).

Lemma objConv_nonneg x y : 0 <= objConv v Q A b c x y.
Proof.
  unfold objConv. apply Rmult_le_pos; [apply Rabs_pos|].
  left. apply Rinv_0_lt_compat.
  pose proof (Rabs_pos (primObj v Q A c x)). lra.
Qed.

Lemma converged_negative_tol (st : State Tree) :
  tol ctrl < 0 -> converged v ctrl Q A b c st = false.
Proof.
  intros Ht. unfold converged.
  rewrite (bool_decide_eq_false_2 (objConv _ _ _ _ _ _ _ <= _));
    [reflexivity|].
  pose proof (objConv_nonneg (cur_x st) (cur_y st)). lra.
Qed.

Lemma loop_no_budget_error fuel : forall numIts (st : State Tree) msg,
  (maxIts ctrl < 0)%Z -> (0 <= numIts)%Z ->
  (loop v ctrl Q A b c fuel numIts st).1.1 <> Raised (RuntimeError msg).
Proof.
  intros numIts st msg Hmax Hn Hst.
  destruct (loop v ctrl Q A b c fuel numIts st) as [[status n'] st'] eqn:Hrun.
  cbn in Hst. subst status.
  destruct (loop_inv _ _ _ _ _ _ _ _ _ _ _ _ Hrun) as (Hle & Hit).
  unfold iteration in Hit.
  destruct ((0 <? NumNonPositive (cur_x st'))%Z
            || (0 <? NumNonPositive (cur_z st'))%Z); [discriminate|].
  apply after_cone_check_exception in Hit as [(_ & Hn' & _)|Hm];
    [lia | discriminate].
Qed.

Lemma loop_never_finishes fuel : forall numIts (st : State Tree),
  tol ctrl < 0 ->
  (loop v ctrl Q A b c fuel numIts st).1.1 <> Finished.
Proof.
  intros numIts st Ht Hst.
  destruct (loop v ctrl Q A b c fuel numIts st) as [[status n'] st'] eqn:Hrun.
  cbn in Hst. subst status.
  destruct (loop_inv _ _ _ _ _ _ _ _ _ _ _ _ Hrun) as (_ & Hit).
  apply iteration_Break in Hit as (_ & Hc).
  rewrite converged_negative_tol in Hc by exact Ht. discriminate.
Qed.

(** *** The factorisation metadata *)

Lemma compute_step_tree numIts (st st' : State Tree) :
  compute_step v ctrl Q A b c numIts st = Next st' ->
  tree st' =
  if is_sparse v then
    match system ctrl with
    | FULL_KKT =>
        if (numIts =? 0)%Z
        then Some (NestedDissection
                     (KKTSparse Q A (cur_x st) (cur_z st) false))
        else tree st
    | AUGMENTED_KKT =>
        if primalInitialized ctrl && dualInitialized ctrl && (numIts =? 0)%Z
        then Some (NestedDissection
                     (AugmentedKKTSparse Q A (cur_x st) (cur_z st) false))
        else tree st
    | NORMAL_KKT => tree st
    end
  else tree st.
Proof.
  unfold compute_step, direction. cbv zeta.
  destruct (is_sparse v), (system ctrl); try discriminate.
  - destruct (RegularizedSolve _ _ _ _ _ _ _) as [d k].
    destruct (escalate _ _ _) as [r i].
    destruct (ExpandSolution _ _ d) as [[dx dy] dz].
    intros Heq. injection Heq as <-. reflexivity.
  - destruct (RegularizedSolve _ _ _ _ _ _ _) as [d k].
    destruct (escalate _ _ _) as [r i].
    destruct (ExpandAugmentedSolution _ _ _ d) as [[dx dy] dz].
    intros Heq. injection Heq as <-. reflexivity.
  - destruct (ExpandSolution _ _ _) as [[dx dy] dz].
    intros Heq. injection Heq as <-. reflexivity.
  - destruct (ExpandAugmentedSolution _ _ _ _) as [[dx dy] dz].
    intros Heq. injection Heq as <-. reflexivity.
Qed.

Lemma loop_tree_kept fuel : forall numIts (st : State Tree),
  (0 < numIts)%Z -> tree (loop v ctrl Q A b c fuel numIts st).2 = tree st.
Proof.
  induction fuel as [|fuel IH]; intros numIts st Hn; cbn [loop];
    [reflexivity|].
  destruct (iteration v ctrl Q A b c numIts st) as [|e|st1] eqn:Hit;
    try reflexivity.
  apply iteration_Next in Hit as (_ & _ & _ & _ & Hstep).
  apply compute_step_tree in Hstep.
  replace (numIts =? 0)%Z with false in Hstep by (symmetry; lia).
  rewrite andb_false_r in Hstep.
  rewrite IH by lia. rewrite Hstep.
  destruct (is_sparse v), (system ctrl); reflexivity.
Qed.

(** X12: the nested dissection is computed in the pass numbered 0 or not at
    all.  From the pass numbered 1 on, the metadata of the factorisation
    stay what they are, whatever the number of passes; the pass numbered
    0 of a sparse variant replaces them by the dissection of its KKT
    system for [FULL_KKT], and for [AUGMENTED_KKT] when both the primal
    and the dual point were given, and keeps those of the initialisation
    otherwise. *)
Theorem dissection_computed_once (fuel : nat) (numIts : Z) (st : State Tree) :
  ((0 < numIts)%Z ->
   tree (loop v ctrl Q A b c fuel numIts st).2 = tree st) /\
  (forall st', iteration v ctrl Q A b c 0 st = Next st' ->
     tree (loop v ctrl Q A b c fuel 1 st').2 =
     if is_sparse v then
       match system ctrl with
       | FULL_KKT =>
           Some (NestedDissection (KKTSparse Q A (cur_x st) (cur_z st) false))
       | AUGMENTED_KKT =>
           if primalInitialized ctrl && dualInitialized ctrl
           then Some (NestedDissection
                        (AugmentedKKTSparse Q A (cur_x st) (cur_z st) false))
           else tree st
       | NORMAL_KKT => tree st
       end
     else tree st).
Proof.
  split; [apply loop_tree_kept|].
  intros st' Hit. rewrite loop_tree_kept by lia.
  apply iteration_Next in Hit as (_ & _ & _ & _ & Hstep).
  apply compute_step_tree in Hstep. rewrite Hstep.
  change (0 =? 0)%Z with true. rewrite andb_true_r. reflexivity.
Qed.

End MoreLoopFacts.

(** *** The equilibration that is switched off *)

Lemma DiagonalSolve_Ones (n : nat) : forall x : Vec,
  (length x <= n)%nat -> DiagonalSolve (Ones n) x = x.
Proof.
  unfold DiagonalSolve, Ones.
  induction n as [|n IH]; intros [|xi x] Hlen; cbn in *; try reflexivity;
    [lia|].
  f_equal; [field | apply IH; lia].
Qed.

Lemma DiagonalScale_Ones (n : nat) : forall x : Vec,
  (length x <= n)%nat -> DiagonalScale (Ones n) x = x.
Proof.
  unfold DiagonalScale, Ones.
  induction n as [|n IH]; intros [|xi x] Hlen; cbn in *; try reflexivity;
    [lia|].
  f_equal; [ring | apply IH; lia].
Qed.

Lemma nth_Ones (n i : nat) : nth i (Ones n) 1 = 1.
Proof.
  unfold Ones. revert i. induction n as [|n IH]; intros [|i]; cbn; auto.
Qed.

Section MoreDriverFacts.

Context {Sys Tree LineSearchCtrl SolveCtrl : Type}.
Context `{!Collaborators Sys Tree LineSearchCtrl SolveCtrl}.

Variable v : Variant.
Variables (QPre APre : Matrix) (bPre cPre : Vec) (x y z : Vec).
Variable ctrl : IPFCtrl LineSearchCtrl SolveCtrl.

Abbreviation p := (prepare (Tree := Tree) v QPre APre bPre cPre x y z ctrl).
Abbreviation st := (pst p).

Lemma prepare_fields :
  pA p = APre /\ pdRow p = Ones (Height APre) /\ pdCol p = Ones (Width APre) /\
  pb p = DiagonalSolve (Ones (Height APre)) bPre /\
  pc p = DiagonalSolve (Ones (Width APre)) cPre /\
  pQ p = DiagonalSolveMatrix RIGHT (Ones (Width APre))
           (DiagonalSolveMatrix LEFT (Ones (Width APre)) QPre).
Proof.
  unfold prepare. cbn [allowEquil]. cbv zeta.
  destruct (is_sparse v).
  - destruct (InitializeSparse _ _ _ _ _ _ _ _ _ _ _) as [[[x' y'] z'] t].
    destruct (system ctrl); repeat split; reflexivity.
  - destruct (Initialize _ _ _ _ _ _ _ _ _ _) as [[x' y'] z'].
    repeat split; reflexivity.
Qed.

(** X16: the equilibration is switched off, so a call works on the
    problem it is given: for [Q], [b] and [c] of the dimensions of [A],
    the loop runs on [A], [b] and [c] themselves and on a matrix with the
    entries of [Q], and an iterate of those dimensions is returned as it
    is. *)
Theorem equilibration_is_the_identity :
  Height QPre = Width APre -> Width QPre = Width APre ->
  length bPre = Height APre -> length cPre = Width APre ->
  pA p = APre /\ pb p = bPre /\ pc p = cPre /\
  Height (pQ p) = Height QPre /\ Width (pQ p) = Width QPre /\
  (forall i j, Get (pQ p) i j = Get QPre i j) /\
  (forall st' : State Tree,
     length (cur_x st') = Width APre -> length (cur_y st') = Height APre ->
     length (cur_z st') = Width APre ->
     unequilibrate p st' = Returned (cur_x st') (cur_y st') (cur_z st')).
Proof.
  intros _ _ Hb Hc.
  destruct prepare_fields as (HA & HdR & HdC & Hpb & Hpc & HQ).
  split; [exact HA|].
  split; [rewrite Hpb; apply DiagonalSolve_Ones; lia|].
  split; [rewrite Hpc; apply DiagonalSolve_Ones; lia|].
  rewrite HQ. split; [reflexivity|]. split; [reflexivity|].
  split.
  - intros i j. cbn. rewrite !nth_Ones. field.
  - intros st' Hx Hy Hz. unfold unequilibrate. rewrite HdR, HdC.
    rewrite !DiagonalSolve_Ones, DiagonalScale_Ones by lia. reflexivity.
Qed.

(** X13: the budget is tested by [numIts == ctrl.maxIts], and [numIts]
    counts up from 0: with a negative [ctrl.maxIts] no call ends in the
    runtime error of the exceeded budget, whatever the number of passes. *)
Theorem negative_budget_is_no_budget (fuel : nat) :
  (maxIts ctrl < 0)%Z ->
  is_budget_error (IPF v fuel QPre APre bPre cPre x y z ctrl) = false.
Proof.
  intros Hmax. unfold IPF. cbv zeta.
  pose proof (fun msg =>
    loop_no_budget_error v ctrl (pQ p) (pA p) (pb p) (pc p) fuel 0 (pst p)
      msg Hmax (Z.le_refl 0)) as Hno.
  destruct (loop v ctrl (pQ p) (pA p) (pb p) (pc p) fuel 0 (pst p))
    as [[[|e|] n'] st']; try reflexivity.
  destruct e as [msg|msg]; [reflexivity|].
  exfalso. exact (Hno msg eq_refl).
Qed.

(** X14: the three measures of convergence are norms and an absolute
    value over positive denominators, so a negative tolerance is never
    met: no call with [ctrl.tol < 0] returns; it ends in an exception or
    goes on for as many passes as it is given. *)
Theorem negative_tolerance_never_returns (fuel : nat) :
  tol ctrl < 0 ->
  is_Returned (IPF v fuel QPre APre bPre cPre x y z ctrl) = false.
Proof.
  intros Ht. unfold IPF. cbv zeta.
  pose proof (loop_never_finishes v ctrl (pQ p) (pA p) (pb p) (pc p) fuel 0
                (pst p) Ht) as Hno.
  destruct (loop v ctrl (pQ p) (pA p) (pb p) (pc p) fuel 0 (pst p))
    as [[[|e|] n'] st']; try reflexivity.
  exfalso. exact (Hno eq_refl).
Qed.

(** X15: a system choice other than [FULL_KKT] and [AUGMENTED_KKT] is
    found out last in a pass, after the cone check, the convergence test
    and the budget test, so the first pass decides the call and takes no
    step: the initial iterate is what is returned if it is in the cone and
    converged, and what [x], [y], [z] hold under the exception
    otherwise. *)
Theorem invalid_system_takes_no_step (fuel : nat) :
  system ctrl = NORMAL_KKT ->
  IPF v (S fuel) QPre APre bPre cPre x y z ctrl =
  if (0 <? NumNonPositive (cur_x st))%Z || (0 <? NumNonPositive (cur_z st))%Z
  then
    Threw (LogicError (cone_message (NumNonPositive (cur_x st))
                                    (NumNonPositive (cur_z st))))
          (cur_x st) (cur_y st) (cur_z st)
  else if converged v ctrl (pQ p) (pA p) (pb p) (pc p) st then
    unequilibrate p st
  else if (0 =? maxIts ctrl)%Z then
    Threw (RuntimeError (budget_message (maxIts ctrl)))
          (cur_x st) (cur_y st) (cur_z st)
  else
    Threw (LogicError [Str "Invalid KKT system choice"])
          (cur_x st) (cur_y st) (cur_z st).
Proof.
  intros Hsys. unfold IPF. cbv zeta.
  cbn [loop]. unfold iteration.
  destruct ((0 <? _)%Z || (0 <? _)%Z); [reflexivity|].
  unfold after_cone_check.
  destruct (converged v ctrl (pQ p) (pA p) (pb p) (pc p) st); [reflexivity|].
  destruct (0 =? maxIts ctrl)%Z; [reflexivity|].
  unfold compute_step, direction. cbv zeta. rewrite Hsys.
  destruct (is_sparse v); reflexivity.
Qed.

End MoreDriverFacts.

(** The example call at work in the statements above. *)

Lemma negative_budget_is_no_budget_witness :
  is_budget_error
    (IPF Dense 3 Q_ex A_ex b_ex c_ex [1] [1] [1/10] (ctrl_ex 0 (-1))) = false.
Proof.
  apply (negative_budget_is_no_budget Dense Q_ex A_ex b_ex c_ex [1] [1]
           [1/10] (ctrl_ex 0 (-1)) 3).
  cbn. lia.
Defined.

Lemma negative_tolerance_never_returns_witness :
  is_Returned
    (IPF Dense 3 Q_ex A_ex b_ex c_ex [1] [1] [1/10] (ctrl_ex (-1) 5)) = false.
Proof.
  apply (negative_tolerance_never_returns Dense Q_ex A_ex b_ex c_ex [1] [1]
           [1/10] (ctrl_ex (-1) 5) 3).
  cbn. lra.
Defined.

Definition ctrl_normal : IPFCtrl unit unit :=
  mkCtrl true true 0 5 (1/10) NORMAL_KKT tt tt false.

Definition prepared_normal : Prepared unit :=
  prepare Sparse Q_ex A_ex b_ex c_ex [1] [1] [1/10] ctrl_normal.

Lemma invalid_system_takes_no_step_witness :
  IPF Sparse 3 Q_ex A_ex b_ex c_ex [1] [1] [1/10] ctrl_normal =
  if (0 <? NumNonPositive (cur_x (pst prepared_normal)))%Z
     || (0 <? NumNonPositive (cur_z (pst prepared_normal)))%Z
  then
    Threw (LogicError
             (cone_message (NumNonPositive (cur_x (pst prepared_normal)))
                           (NumNonPositive (cur_z (pst prepared_normal)))))
          (cur_x (pst prepared_normal)) (cur_y (pst prepared_normal))
          (cur_z (pst prepared_normal))
  else if converged Sparse ctrl_normal (pQ prepared_normal)
            (pA prepared_normal) (pb prepared_normal) (pc prepared_normal)
            (pst prepared_normal) then
    unequilibrate prepared_normal (pst prepared_normal)
  else if (0 =? maxIts ctrl_normal)%Z then
    Threw (RuntimeError (budget_message (maxIts ctrl_normal)))
          (cur_x (pst prepared_normal)) (cur_y (pst prepared_normal))
          (cur_z (pst prepared_normal))
  else
    Threw (LogicError [Str "Invalid KKT system choice"])
          (cur_x (pst prepared_normal)) (cur_y (pst prepared_normal))
          (cur_z (pst prepared_normal)).
Proof.
  exact (invalid_system_takes_no_step Sparse Q_ex A_ex b_ex c_ex [1] [1]
           [1/10] ctrl_normal 2 eq_refl).
Defined.

Definition prepared_ex : Prepared unit :=
  prepare Dense Q_ex A_ex b_ex c_ex [1] [1] [1/10] (ctrl_ex 0 5).

Lemma equilibration_is_the_identity_witness :
  pA prepared_ex = A_ex /\ pb prepared_ex = b_ex /\ pc prepared_ex = c_ex /\
  Height (pQ prepared_ex) = Height Q_ex /\
  Width (pQ prepared_ex) = Width Q_ex /\
  (forall i j, Get (pQ prepared_ex) i j = Get Q_ex i j) /\
  (forall st' : State unit,
     length (cur_x st') = Width A_ex -> length (cur_y st') = Height A_ex ->
     length (cur_z st') = Width A_ex ->
     unequilibrate prepared_ex st' =
     Returned (cur_x st') (cur_y st') (cur_z st')).
Proof.
  exact (equilibration_is_the_identity Dense Q_ex A_ex b_ex c_ex [1] [1]
           [1/10] (ctrl_ex 0 5) eq_refl eq_refl eq_refl eq_refl).
Defined.

End IPF.
